(** * simple-vector: ArrayPtr and SimpleVector over an explicit heap

    A shallow embedding of [array_ptr.h] and [simple_vector.h].

    - [size_t] is a 64-bit unsigned integer: a [Z] with the wrap-around of
      its arithmetic written out ([wrap]).
    - Memory is a finite map from block addresses to the block's slots.
      [new Type[n]] picks a fresh address, [delete[]] removes the block.
    - A [Type*] into an array is a block address together with an offset;
      [nullptr] has no block.
    - Code that allocates, reads or writes memory runs in the monad [M]: it
      threads the memory; a call returns, or throws a C++ exception and
      leaves the memory and the object as they are at the throw, or ends the
      program with a failed [assert] or with undefined behaviour.
    - A [const Type&] or [Type&&] argument of [PushBack] and [Insert] is a
      reference ([ref]) to a slot of an array, which can be a slot of the
      vector itself, or to an object outside the heap; it is read where the
      code reads it.
    - Every call of [ArrayPtr::operator[]] and every load or store through a
      pointer is recorded in a trace, so that statements about the indices
      an operation touches can be made.

    What the model takes for granted:
    - [assert] is active (a build without [NDEBUG]);
    - [ArrayPtr::operator[]] only computes the address [raw_ptr_ + index]
      (the code takes [&items_[size_]] as the end of a range, also on an
      empty vector); a load or a store outside a live array is undefined
      behaviour;
    - [new Type[n]] is granted up to [PTRDIFF_MAX] elements and throws
      [std::bad_alloc] above;
    - moving an element is copying it, as for [int]. *)

From stdpp Require Import base gmap list.
From Stdlib Require Import ZArith Lia.

Local Open Scope Z_scope.

(** ** Machine integers *)

Definition size_t_modulus : Z := 2 ^ 64.

(** Result of an arithmetic expression of type [size_t]. *)
Definition wrap (x : Z) : Z := x mod size_t_modulus.

Definition is_size_t (x : Z) : Prop := 0 <= x < size_t_modulus.

(** ** Pointers and outcomes *)

(** Address of a block obtained from [new Type[n]]. *)
Definition loc := positive.

(** A [Type*]: [raw_ptr_ + off]. The null pointer has [base = None]. *)
Record ptr := Ptr { base : option loc; off : Z }.

#[global] Instance ptr_eq_dec : EqDecision ptr.
Proof. solve_decision. Defined.

Definition nullptr : ptr := Ptr None 0.

(** [std::next(p)], [std::prev(p)], [std::next(p, n)], [std::distance]. *)
Definition next (p : ptr) : ptr := Ptr (base p) (off p + 1).
Definition prev (p : ptr) : ptr := Ptr (base p) (off p - 1).
Definition next_n (p : ptr) (n : Z) : ptr := Ptr (base p) (off p + n).
Definition distance (first last : ptr) : Z := off last - off first.

(** [p <= q] and [p < q] on pointers. Comparing pointers into different
    arrays has an unspecified result; it is taken to be false. *)
Definition ptr_le (p q : ptr) : bool :=
  bool_decide (base p = base q) && (off p <=? off q).
Definition ptr_lt (p q : ptr) : bool :=
  bool_decide (base p = base q) && (off p <? off q).

(** A C++ exception: the caller can catch it and go on. *)
Inductive exception :=
| out_of_range          (* std::out_of_range thrown *)
| bad_alloc.            (* std::bad_alloc thrown by new[] *)

(** What ends the program. *)
Inductive failure :=
| assertion_failed      (* assert(...) aborted the program *)
| undefined_behaviour.  (* access outside a live block, invalid range, bad delete[] *)

(** How a call ends: it returns [a]; it throws [e] and leaves the state [s]
    behind; or the program ends with [f]. *)
Inductive outcome (S A : Type) :=
| Ok (a : A)
| Throw (e : exception) (s : S)
| Fail (f : failure).
Arguments Ok {S A} a.
Arguments Throw {S A} e s.
Arguments Fail {S A} f.

(** What the trace records. *)
Inductive event :=
| Indexed (p : ptr)     (* ArrayPtr::operator[] returned a reference to *p *)
| Accessed (p : ptr).   (* a load or a store through p *)

Definition event_ptr (e : event) : ptr :=
  match e with Indexed p => p | Accessed p => p end.

(** ** ArrayPtr *)

Module ArrayPtr.

Record t := Make { raw_ptr_ : option loc }.

(** [ArrayPtr() = default]. *)
Definition default : t := Make None.

(** [explicit ArrayPtr(Type* raw_ptr)]: the pointer is null or the start of
    an array obtained from [new[]]. *)
Definition adopt (raw_ptr : option loc) : t := Make raw_ptr.

(** [ArrayPtr(ArrayPtr&& other)]: the new object and [other] afterwards. *)
Definition move_ctor (other : t) : t * t :=
  (Make (raw_ptr_ other), Make None).

(** [operator=(ArrayPtr&& other)]: [*this] and [other] afterwards. When both
    are the same object the handles are equal and nothing is written. *)
Definition move_assign (this other : t) : t * t :=
  if decide (raw_ptr_ this = raw_ptr_ other) then (this, other)
  else (Make (raw_ptr_ other), Make (raw_ptr_ this)).

(** [Release()]: the returned pointer and [*this] afterwards. *)
Definition Release (this : t) : option loc * t :=
  let temp := raw_ptr_ this in (temp, Make None).

(** [explicit operator bool()]. *)
Definition to_bool (this : t) : bool :=
  match raw_ptr_ this with Some _ => true | None => false end.

(** [Get()]. *)
Definition Get (this : t) : option loc := raw_ptr_ this.

(** [swap(ArrayPtr& other)]: [*this] and [other] afterwards. *)
Definition swap (this other : t) : t * t :=
  (Make (raw_ptr_ other), Make (raw_ptr_ this)).

End ArrayPtr.

#[global] Instance ArrayPtr_eq_dec : EqDecision ArrayPtr.t.
Proof. solve_decision. Defined.

(** ** The fields of SimpleVector *)

Record SimpleVector := MkVec {
  size_ : Z;
  capacity_ : Z;
  items_ : ArrayPtr.t
}.

#[global] Instance SimpleVector_eq_dec : EqDecision SimpleVector.
Proof. solve_decision. Defined.

(** ** The element type

    What the template parameter [Type] has to provide: a default constructor
    [Type()], [operator==] and [operator<].  [fresh_value k] is the value
    slot [k] of an array holds right after [new Type[n]]: [Type()] for a
    class type, unspecified for a scalar type.  Moving an element is modelled
    as copying it (as for [int]); the moved-from slot keeps its value. *)

Class ElemType (T : Type) := {
  dflt : T;
  fresh_value : nat -> T;
  elt_eqb : T -> T -> bool;
  elt_ltb : T -> T -> bool
}.

(** ** Memory and the monad *)

Section Monad.
Context {T : Type}.

Record Mem := MkMem {
  heap : gmap loc (list T);   (* live arrays *)
  trace : list event          (* most recent event first *)
}.

Definition empty_mem : Mem := MkMem ∅ [].

(** What an exception leaves behind: the memory at the throw and, when the
    exception leaves a member function of a vector, the fields of that
    vector at the throw. *)
Record Thrown := MkThrown {
  thrown_mem : Mem;
  thrown_this : option SimpleVector
}.

Definition M (A : Type) : Type := Mem -> outcome Thrown (A * Mem).

Definition ret {A} (a : A) : M A := fun m => Ok (a, m).

Definition bind {A B} (c : M A) (f : A -> M B) : M B :=
  fun m => match c m with
           | Ok (a, m') => f a m'
           | Throw e s => Throw e s
           | Fail e => Fail e
           end.

(** [throw e;]. *)
Definition throw {A} (e : exception) : M A := fun m => Throw e (MkThrown m None).

Definition fail {A} (e : failure) : M A := fun _ => Fail e.

(** [c] run inside a member function of the vector whose fields are [this]:
    an exception that leaves [c] leaves the member function and the object
    with these fields. *)
Definition in_object {A} (this : SimpleVector) (c : M A) : M A :=
  fun m => match c m with
           | Throw e (MkThrown m' None) => Throw e (MkThrown m' (Some this))
           | o => o
           end.

Definition assert (b : bool) : M unit :=
  if b then ret tt else fail assertion_failed.

Definition record (e : event) : M unit :=
  fun m => Ok (tt, MkMem (heap m) (e :: trace m)).

End Monad.

Arguments Mem T : clear implicits.
Arguments Thrown T : clear implicits.
Arguments M T A : clear implicits.

Notation "x <- c ;; k" := (bind c (fun x => k))
  (at level 60, c at next level, right associativity).
Notation "c ;;; k" := (bind c (fun _ => k))
  (at level 60, right associativity).

(** ** Memory primitives and the standard algorithms *)

Section Memory.
Context {T : Type} `{ElemType T}.

(** Largest element count [new Type[n]] grants: an array object cannot be
    larger than [PTRDIFF_MAX] bytes.  Exhaustion of memory below that bound
    is not modelled. *)
Definition max_array_len : Z := 2 ^ 63 - 1.

(** Content of an array right after [new Type[n]]. *)
Definition fresh_cells (n : Z) : list T :=
  map fresh_value (seq 0 (Z.to_nat n)).

(** [new Type[n]]. *)
Definition new_array (n : Z) : M T loc :=
  fun m =>
    if max_array_len <? n then Throw bad_alloc (MkThrown m None)
    else
      let l := fresh (dom (heap m)) in
      Ok (l, MkMem (<[l := fresh_cells n]> (heap m)) (trace m)).

(** [delete[] p]: nothing for the null pointer; [p] has to be live. *)
Definition delete_array (p : option loc) : M T unit :=
  fun m =>
    match p with
    | None => Ok (tt, m)
    | Some l =>
        match heap m !! l with
        | Some _ => Ok (tt, MkMem (delete l (heap m)) (trace m))
        | None => Fail undefined_behaviour
        end
    end.

(** The slot [p] points to, when there is one. *)
Definition slot (h : gmap loc (list T)) (p : ptr) : option T :=
  match base p with
  | Some l =>
      match h !! l with
      | Some cells => if 0 <=? off p then cells !! Z.to_nat (off p) else None
      | None => None
      end
  | None => None
  end.

(** Read [*p]. *)
Definition load (p : ptr) : M T T :=
  fun m =>
    match slot (heap m) p with
    | Some x => Ok (x, MkMem (heap m) (Accessed p :: trace m))
    | None => Fail undefined_behaviour
    end.

(** [*p = x]. *)
Definition store (p : ptr) (x : T) : M T unit :=
  fun m =>
    match base p, slot (heap m) p with
    | Some l, Some _ =>
        Ok (tt, MkMem (alter (fun cells => <[Z.to_nat (off p) := x]> cells) l (heap m))
                      (Accessed p :: trace m))
    | _, _ => Fail undefined_behaviour
    end.

(** What a [const Type&] or [Type&&] argument refers to: a slot of an
    array, or an object that is no slot of any array (a local variable or a
    temporary) and holds [x]. *)
Inductive ref :=
| InArray (p : ptr)
| Outside (x : T).

(** The value of the object [r] refers to, read when the code uses it. *)
Definition read (r : ref) : M T T :=
  match r with
  | InArray p => load p
  | Outside x => ret x
  end.

(** Number of iterations of a loop [for (; first != last; ++first)].  When
    [last] cannot be reached from [first] the loop leaves the array:
    undefined behaviour. *)
Definition range_steps (first last : ptr) : M T nat :=
  if bool_decide (base first = base last) && (off first <=? off last)
  then ret (Z.to_nat (off last - off first))
  else fail undefined_behaviour.

(** [std::fill(first, last, value)]. *)
Fixpoint fill_steps (k : nat) (first : ptr) (value : T) : M T unit :=
  match k with
  | O => ret tt
  | S k' => store first value ;;; fill_steps k' (next first) value
  end.

Definition std_fill (first last : ptr) (value : T) : M T unit :=
  k <- range_steps first last ;; fill_steps k first value.

(** [FillByMove(first, last, Type())]: [*first = std::move(Type())] for
    every slot of the range. *)
Fixpoint FillByMove_steps (k : nat) (first : ptr) : M T unit :=
  match k with
  | O => ret tt
  | S k' => store first dflt ;;; FillByMove_steps k' (next first)
  end.

Definition FillByMove (first last : ptr) : M T unit :=
  k <- range_steps first last ;; FillByMove_steps k first.

(** [std::copy(first, last, d_first)]; [std::move(first, last, d_first)] is
    the same loop, moving each element instead of copying it. *)
Fixpoint copy_steps (k : nat) (first d_first : ptr) : M T ptr :=
  match k with
  | O => ret d_first
  | S k' =>
      x <- load first ;;
      store d_first x ;;;
      copy_steps k' (next first) (next d_first)
  end.

Definition std_copy (first last d_first : ptr) : M T ptr :=
  k <- range_steps first last ;; copy_steps k first d_first.

Definition std_move (first last d_first : ptr) : M T ptr :=
  k <- range_steps first last ;; copy_steps k first d_first.

(** [std::copy_backward(first, last, d_last)] and [std::move_backward]:
    [while (first != last) *(--d_last) = *(--last);]. *)
Fixpoint copy_backward_steps (k : nat) (last d_last : ptr) : M T ptr :=
  match k with
  | O => ret d_last
  | S k' =>
      x <- load (prev last) ;;
      store (prev d_last) x ;;;
      copy_backward_steps k' (prev last) (prev d_last)
  end.

Definition std_copy_backward (first last d_last : ptr) : M T ptr :=
  k <- range_steps first last ;; copy_backward_steps k last d_last.

Definition std_move_backward (first last d_last : ptr) : M T ptr :=
  k <- range_steps first last ;; copy_backward_steps k last d_last.

(** [std::equal(first1, last1, first2)]. *)
Fixpoint equal_steps (k : nat) (first1 first2 : ptr) : M T bool :=
  match k with
  | O => ret true
  | S k' =>
      x <- load first1 ;;
      y <- load first2 ;;
      if negb (elt_eqb x y) then ret false
      else equal_steps k' (next first1) (next first2)
  end.

Definition std_equal (first1 last1 first2 : ptr) : M T bool :=
  k <- range_steps first1 last1 ;; equal_steps k first1 first2.

(** [std::lexicographical_compare(first1, last1, first2, last2)]. *)
Fixpoint lexicographical_steps (k1 k2 : nat) (first1 first2 : ptr) : M T bool :=
  match k1, k2 with
  | S k1', S k2' =>
      x <- load first1 ;;
      y <- load first2 ;;
      if elt_ltb x y then ret true
      else if elt_ltb y x then ret false
      else lexicographical_steps k1' k2' (next first1) (next first2)
  | O, S _ => ret true
  | _, O => ret false
  end.

Definition std_lexicographical_compare (first1 last1 first2 last2 : ptr) : M T bool :=
  k1 <- range_steps first1 last1 ;;
  k2 <- range_steps first2 last2 ;;
  lexicographical_steps k1 k2 first1 first2.

(** *** ArrayPtr members that touch memory *)

(** [explicit ArrayPtr(size_t size)]. *)
Definition ArrayPtr_new (size : Z) : M T ArrayPtr.t :=
  if 0 <? size then l <- new_array size ;; ret (ArrayPtr.Make (Some l))
  else ret (ArrayPtr.Make None).

(** [~ArrayPtr()]. *)
Definition ArrayPtr_dtor (this : ArrayPtr.t) : M T unit :=
  delete_array (ArrayPtr.raw_ptr_ this).

(** [operator[](size_t index)]: the reference [*(raw_ptr_ + index)], as the
    pointer it designates; no check, no memory access. *)
Definition ArrayPtr_index (this : ArrayPtr.t) (index : Z) : M T ptr :=
  let p := Ptr (ArrayPtr.raw_ptr_ this) index in
  record (Indexed p) ;;; ret p.

End Memory.

Arguments ref T : clear implicits.
Arguments InArray {T} p.
Arguments Outside {T} x.

(** ** SimpleVector *)

(** [ReserveProxyObj] and the free function [Reserve(capacity_to_reserve)]. *)
Record ReserveProxyObj := MkProxy { proxy_size_ : Z }.

Definition Reserve_proxy (capacity_to_reserve : Z) : ReserveProxyObj :=
  MkProxy capacity_to_reserve.

Section Vector.
Context {T : Type} `{ElemType T}.

(** *** Accessors and iterators *)

Definition GetSize (this : SimpleVector) : Z := size_ this.
Definition GetCapacity (this : SimpleVector) : Z := capacity_ this.
Definition IsEmpty (this : SimpleVector) : bool := size_ this =? 0.

Definition begin (this : SimpleVector) : M T ptr := ArrayPtr_index (items_ this) 0.
Definition end_ (this : SimpleVector) : M T ptr := ArrayPtr_index (items_ this) (size_ this).
Definition cbegin (this : SimpleVector) : M T ptr := ArrayPtr_index (items_ this) 0.
Definition cend (this : SimpleVector) : M T ptr := ArrayPtr_index (items_ this) (size_ this).

(** [operator[](size_t index)]. *)
Definition index_op (index : Z) (this : SimpleVector) : M T ptr :=
  assert (index <? size_ this) ;;;
  ArrayPtr_index (items_ this) index.

(** [At(size_t index)]. *)
Definition At (index : Z) (this : SimpleVector) : M T ptr :=
  if size_ this <=? index then in_object this (throw out_of_range)
  else ArrayPtr_index (items_ this) index.

(** *** Constructors *)

(** [SimpleVector() noexcept = default]. *)
Definition SimpleVector_default : SimpleVector := MkVec 0 0 ArrayPtr.default.

(** [explicit SimpleVector(size_t size)]. *)
Definition SimpleVector_sized (size : Z) : M T SimpleVector :=
  items <- ArrayPtr_new size ;;
  first <- ArrayPtr_index items 0 ;;
  last <- ArrayPtr_index items size ;;
  std_fill first last dflt ;;;
  ret (MkVec size size items).

(** [SimpleVector(size_t size, const Type& value)].  The array the
    constructor fills is new, so [value] refers to no slot of it and holds
    the same value throughout the call; the model passes that value. *)
Definition SimpleVector_filled (size : Z) (value : T) : M T SimpleVector :=
  items <- ArrayPtr_new size ;;
  first <- ArrayPtr_index items 0 ;;
  last <- ArrayPtr_index items size ;;
  std_fill first last value ;;;
  ret (MkVec size size items).

(** The loop of the initializer-list constructor; [i] is a [uint64_t]. *)
Fixpoint init_steps (items : ArrayPtr.t) (init : list T) (i : Z) : M T unit :=
  match init with
  | [] => ret tt
  | value :: rest =>
      p <- ArrayPtr_index items i ;;
      store p value ;;;
      init_steps items rest (wrap (i + 1))
  end.

(** [SimpleVector(std::initializer_list<Type> init)]. *)
Definition SimpleVector_init (init : list T) : M T SimpleVector :=
  let n := Z.of_nat (length init) in
  items <- ArrayPtr_new n ;;
  init_steps items init 0 ;;;
  ret (MkVec n n items).

(** [SimpleVector(const SimpleVector& other)]. *)
Definition SimpleVector_copy (other : SimpleVector) : M T SimpleVector :=
  temp <- ArrayPtr_new (size_ other) ;;
  first <- begin other ;;
  last <- end_ other ;;
  d_first <- ArrayPtr_index temp 0 ;;
  std_copy first last d_first ;;;
  let '(items, temp) := ArrayPtr.swap ArrayPtr.default temp in
  ArrayPtr_dtor temp ;;;
  ret (MkVec (size_ other) (size_ other) items).

(** [SimpleVector(ReserveProxyObj const& obj)]. *)
Definition SimpleVector_reserved (obj : ReserveProxyObj) : M T SimpleVector :=
  items <- ArrayPtr_new (proxy_size_ obj) ;;
  ret (MkVec 0 (proxy_size_ obj) items).

(** [~SimpleVector()]: destroys [items_]. *)
Definition SimpleVector_dtor (this : SimpleVector) : M T unit :=
  ArrayPtr_dtor (items_ this).

(** [operator=(const SimpleVector& rhs)]: [*this] afterwards. *)
Definition copy_assign (this rhs : SimpleVector) : M T SimpleVector :=
  assert (bool_decide (ArrayPtr.Get (items_ this) <> ArrayPtr.Get (items_ rhs))) ;;;
  temp <- in_object this (ArrayPtr_new (size_ rhs)) ;;
  first <- begin rhs ;;
  last <- end_ rhs ;;
  d_first <- ArrayPtr_index temp 0 ;;
  std_copy first last d_first ;;;
  let '(items, temp) := ArrayPtr.swap (items_ this) temp in
  ArrayPtr_dtor temp ;;;
  ret (MkVec (size_ rhs) (size_ rhs) items).

(** *** Capacity and size *)

(** [Reserve(size_t new_capacity)]. *)
Definition Reserve (new_capacity : Z) (this : SimpleVector) : M T SimpleVector :=
  let new_capacity := if new_capacity =? 0 then 1 else new_capacity in
  if new_capacity <=? capacity_ this then ret this
  else
    temp <- in_object this (ArrayPtr_new new_capacity) ;;
    first <- begin this ;;
    last <- end_ this ;;
    d_first <- ArrayPtr_index temp 0 ;;
    std_move first last d_first ;;;
    fill_first <- ArrayPtr_index temp (size_ this) ;;
    fill_last <- ArrayPtr_index temp new_capacity ;;
    FillByMove fill_first fill_last ;;;
    let '(items, temp) := ArrayPtr.swap (items_ this) temp in
    ArrayPtr_dtor temp ;;;
    ret (MkVec (size_ this) new_capacity items).

(** [Resize(size_t new_size)]. *)
Definition Resize (new_size : Z) (this : SimpleVector) : M T SimpleVector :=
  if new_size =? size_ this then ret this
  else
    let this :=
      if new_size <? size_ this
      then MkVec new_size (capacity_ this) (items_ this)
      else this in
    this <-
      (if (size_ this <? new_size) && (new_size <=? capacity_ this)
       then
         test <- ArrayPtr_index (items_ this) 6 ;;
         first <- ArrayPtr_index (items_ this) (size_ this) ;;
         last <- ArrayPtr_index (items_ this) new_size ;;
         FillByMove first last ;;;
         ret (MkVec new_size (capacity_ this) (items_ this))
       else ret this) ;;
    if capacity_ this <? new_size
    then
      this <- Reserve (Z.max (wrap (capacity_ this * 2)) new_size) this ;;
      ret (MkVec new_size (capacity_ this) (items_ this))
    else ret this.

(** [Clear()]. *)
Definition Clear (this : SimpleVector) : M T SimpleVector := Resize 0 this.

(** [PopBack()]. *)
Definition PopBack (this : SimpleVector) : SimpleVector :=
  if size_ this =? 0 then this
  else MkVec (wrap (size_ this - 1)) (capacity_ this) (items_ this).

(** [std::exchange(obj, std::move(new_value))] where both are slots. *)
Definition std_exchange (obj new_value : ptr) : M T T :=
  old_value <- load obj ;;
  x <- load new_value ;;
  store obj x ;;;
  ret old_value.

(** The loop of [Erase]; [cend()] is called by every loop test. *)
Fixpoint Erase_steps (k : nat) (this : SimpleVector) (temp_it next_it : ptr) : M T unit :=
  cend this ;;;
  match k with
  | O => ret tt
  | S k' =>
      std_exchange temp_it next_it ;;;
      Erase_steps k' this (next temp_it) (next next_it)
  end.

(** [Erase(ConstIterator pos)]: the returned iterator and [*this]. *)
Definition Erase (pos : ptr) (this : SimpleVector) : M T (ptr * SimpleVector) :=
  b <- begin this ;;
  e <- end_ this ;;
  assert (ptr_le b pos && ptr_lt pos e) ;;;
  cb <- cbegin this ;;
  it <- ArrayPtr_index (items_ this) (wrap (distance cb pos)) ;;
  let next_it := next it in
  k <- range_steps next_it (Ptr (ArrayPtr.raw_ptr_ (items_ this)) (size_ this)) ;;
  Erase_steps k this it next_it ;;;
  ret (it, MkVec (wrap (size_ this - 1)) (capacity_ this) (items_ this)).

(** [PushBack(const Type& value)]: [value] is read by the assignment, after
    [Reserve]. *)
Definition PushBack (value : ref T) (this : SimpleVector) : M T SimpleVector :=
  this <-
    (if size_ this =? capacity_ this
     then Reserve (wrap (capacity_ this * 2)) this
     else ret this) ;;
  p <- ArrayPtr_index (items_ this) (size_ this) ;;
  x <- read value ;;
  store p x ;;;
  ret (MkVec (wrap (size_ this + 1)) (capacity_ this) (items_ this)).

(** [PushBack(Type&& value)]: [std::exchange] reads the slot, then reads
    [value] and assigns it. *)
Definition PushBack_move (value : ref T) (this : SimpleVector) : M T SimpleVector :=
  this <-
    (if size_ this =? capacity_ this
     then Reserve (wrap (capacity_ this * 2)) this
     else ret this) ;;
  p <- ArrayPtr_index (items_ this) (size_ this) ;;
  old_value <- load p ;;
  x <- read value ;;
  store p x ;;;
  ret (MkVec (wrap (size_ this + 1)) (capacity_ this) (items_ this)).

(** [Insert(ConstIterator pos, const Type& value)]: the returned iterator
    and [*this].  [value] is read by [*pos2 = value], after [Reserve] and
    after the elements have been shifted. *)
Definition Insert (pos : ptr) (value : ref T) (this : SimpleVector) : M T (ptr * SimpleVector) :=
  b <- begin this ;;
  e <- end_ this ;;
  assert (ptr_le b pos && ptr_lt pos e) ;;;
  cb <- cbegin this ;;
  let shift := distance cb pos in
  this <-
    (if size_ this =? capacity_ this
     then Reserve (wrap (capacity_ this * 2)) this
     else ret this) ;;
  cb <- cbegin this ;;
  let pos2 := next_n cb shift in
  last <- end_ this ;;
  d_last <- end_ this ;;
  std_copy_backward pos2 last (next d_last) ;;;
  x <- read value ;;
  store pos2 x ;;;
  ret (pos2, MkVec (wrap (size_ this + 1)) (capacity_ this) (items_ this)).

(** [Insert(ConstIterator pos, Type&& value)]. *)
Definition Insert_move (pos : ptr) (value : ref T) (this : SimpleVector) : M T (ptr * SimpleVector) :=
  b <- begin this ;;
  e <- end_ this ;;
  assert (ptr_le b pos && ptr_lt pos e) ;;;
  cb <- cbegin this ;;
  let shift := distance cb pos in
  this <-
    (if size_ this =? capacity_ this
     then Reserve (wrap (capacity_ this * 2)) this
     else ret this) ;;
  cb <- cbegin this ;;
  let pos2 := next_n cb shift in
  last <- end_ this ;;
  d_last <- end_ this ;;
  std_move_backward pos2 last (next d_last) ;;;
  x <- read value ;;
  store pos2 x ;;;
  ret (pos2, MkVec (wrap (size_ this + 1)) (capacity_ this) (items_ this)).

(** *** Comparison operators *)

(** [operator==]. *)
Definition operator_eq (lhs rhs : SimpleVector) : M T bool :=
  if negb (GetSize lhs =? GetSize rhs) then ret false
  else
    first1 <- begin lhs ;;
    last1 <- end_ lhs ;;
    first2 <- begin rhs ;;
    std_equal first1 last1 first2.

(** [operator!=]. *)
Definition operator_ne (lhs rhs : SimpleVector) : M T bool :=
  e <- operator_eq lhs rhs ;;
  if e then ret false
  else e' <- operator_eq lhs rhs ;; ret (negb e').

(** [operator<]. *)
Definition operator_lt (lhs rhs : SimpleVector) : M T bool :=
  first1 <- begin lhs ;;
  last1 <- end_ lhs ;;
  first2 <- begin rhs ;;
  last2 <- end_ rhs ;;
  std_lexicographical_compare first1 last1 first2 last2.

(** [operator<=]. *)
Definition operator_le (lhs rhs : SimpleVector) : M T bool :=
  e <- operator_eq lhs rhs ;;
  if e then ret true else operator_lt lhs rhs.

(** [operator>]. *)
Definition operator_gt (lhs rhs : SimpleVector) : M T bool :=
  e <- operator_eq lhs rhs ;;
  if e then ret false
  else l <- operator_lt lhs rhs ;; ret (negb l).

(** [operator>=]. *)
Definition operator_ge (lhs rhs : SimpleVector) : M T bool :=
  e <- operator_eq lhs rhs ;;
  if e then ret true else operator_gt lhs rhs.

(** *** What a vector holds *)

(** The slots of the array a buffer owns ([[]] for an empty buffer). *)
Definition block (h : gmap loc (list T)) (a : ArrayPtr.t) : list T :=
  match ArrayPtr.raw_ptr_ a with
  | Some l => default [] (h !! l)
  | None => []
  end.

(** The heap without the array [p] points to. *)
Definition free_block (p : option loc) (h : gmap loc (list T)) : gmap loc (list T) :=
  match p with
  | Some l => delete l h
  | None => h
  end.

(** The elements of a vector: slots [0 .. size_) of its buffer. *)
Definition contents (h : gmap loc (list T)) (v : SimpleVector) : list T :=
  take (Z.to_nat (size_ v)) (block h (items_ v)).

(** A vector that can live in heap [h]: its sizes are in range, it has room
    for [capacity_] elements, and its buffer is a live array. *)
Definition vec_ok (h : gmap loc (list T)) (v : SimpleVector) : Prop :=
  0 <= size_ v /\
  size_ v <= capacity_ v /\
  capacity_ v <= Z.of_nat (length (block h (items_ v))) /\
  Z.of_nat (length (block h (items_ v))) <= max_array_len /\
  match ArrayPtr.raw_ptr_ (items_ v) with
  | Some l => h !! l <> None
  | None => True
  end.

(** The buffer has exactly [capacity_] slots, unless the capacity is 0. *)
Definition fits (h : gmap loc (list T)) (v : SimpleVector) : Prop :=
  capacity_ v = 0 \/ Z.of_nat (length (block h (items_ v))) = capacity_ v.

(** [r] refers to an object that holds [x] and is no slot of the buffer of
    [v]. *)
Definition refers_outside (h : gmap loc (list T)) (v : SimpleVector)
    (r : ref T) (x : T) : Prop :=
  match r with
  | Outside y => y = x
  | InArray p => slot h p = Some x /\ base p <> ArrayPtr.raw_ptr_ (items_ v)
  end.

(** What a member function called on [v] may do when it leaves [v'] and the
    heap [h']: [v'] fits the heap; arrays that belong neither to [v] nor to
    [v'] are as before; the array of [v'] is the one [v] had or a new one;
    an array [v] gave up has been deleted; a buffer of exactly [capacity_]
    slots stays one. *)
Definition evolves (h : gmap loc (list T)) (v : SimpleVector)
    (h' : gmap loc (list T)) (v' : SimpleVector) : Prop :=
  vec_ok h' v' /\
  (forall l, ArrayPtr.raw_ptr_ (items_ v) <> Some l ->
             ArrayPtr.raw_ptr_ (items_ v') <> Some l -> h' !! l = h !! l) /\
  (forall l, ArrayPtr.raw_ptr_ (items_ v') = Some l ->
             ArrayPtr.raw_ptr_ (items_ v) = Some l \/ h !! l = None) /\
  (forall l, ArrayPtr.raw_ptr_ (items_ v) = Some l ->
             ArrayPtr.raw_ptr_ (items_ v') <> Some l -> h' !! l = None) /\
  (fits h v -> fits h' v').

(** What [std::equal] answers on two element sequences of the same length,
    and what [std::lexicographical_compare] answers on two sequences. *)
Fixpoint seq_equal (xs ys : list T) : bool :=
  match xs, ys with
  | x :: xs', y :: ys' => if negb (elt_eqb x y) then false else seq_equal xs' ys'
  | _, _ => true
  end.

Fixpoint seq_less (xs ys : list T) : bool :=
  match xs, ys with
  | x :: xs', y :: ys' =>
      if elt_ltb x y then true
      else if elt_ltb y x then false
      else seq_less xs' ys'
  | [], _ :: _ => true
  | _, [] => false
  end.

(** Capacity after the growth step of [PushBack] and [Insert]. *)
Definition grown_capacity (size capacity : Z) : Z :=
  if size =? capacity
  then (if capacity =? 0 then 1 else 2 * capacity)
  else capacity.

End Vector.

(** ** Programs over several vectors

    The vectors of a program live in a store indexed by name; a member
    function of two vectors reads and writes their fields through the store,
    statement by statement, so that [this] and the argument may be the same
    object. *)

Definition name := nat.

Section World.
Context {T : Type} `{ElemType T}.

Record World := MkWorld {
  vecs : gmap name SimpleVector;
  mem : Mem T
}.

Definition empty_world : World := MkWorld ∅ empty_mem.

Definition set_size (x : name) (n : Z) (st : gmap name SimpleVector) :=
  alter (fun v => MkVec n (capacity_ v) (items_ v)) x st.
Definition set_capacity (x : name) (n : Z) (st : gmap name SimpleVector) :=
  alter (fun v => MkVec (size_ v) n (items_ v)) x st.
Definition set_items (x : name) (a : ArrayPtr.t) (st : gmap name SimpleVector) :=
  alter (fun v => MkVec (size_ v) (capacity_ v) a) x st.

(** The state an exception leaves that left a member function of [x]: the
    memory at the throw and, for [x], the fields it had at the throw. *)
Definition thrown_world (x : name) (w : World) (s : Thrown T) : World :=
  MkWorld (match thrown_this s with
           | Some v => <[x := v]> (vecs w)
           | None => vecs w
           end) (thrown_mem s).

(** A declaration [SimpleVector<Type> x(...)]: [x] is a new name. *)
Definition declare (x : name) (ctor : M T SimpleVector) (w : World) : outcome World World :=
  match vecs w !! x with
  | Some _ => Fail undefined_behaviour
  | None =>
      match ctor (mem w) with
      | Ok (v, m) => Ok (MkWorld (<[x := v]> (vecs w)) m)
      | Throw e s => Throw e (MkWorld (vecs w) (thrown_mem s))
      | Fail e => Fail e
      end
  end.

(** A call [x.f(...)] of a member function that changes [x]. *)
Definition mutate (x : name) (f : SimpleVector -> M T SimpleVector) (w : World) : outcome World World :=
  match vecs w !! x with
  | None => Fail undefined_behaviour
  | Some v =>
      match f v (mem w) with
      | Ok (v', m) => Ok (MkWorld (<[x := v']> (vecs w)) m)
      | Throw e s => Throw e (thrown_world x w s)
      | Fail e => Fail e
      end
  end.

(** A call [x.f(...)] of a member function that leaves [x] as it is. *)
Definition observe {A} (x : name) (f : SimpleVector -> M T A) (w : World) : outcome World World :=
  match vecs w !! x with
  | None => Fail undefined_behaviour
  | Some v =>
      match f v (mem w) with
      | Ok (_, m) => Ok (MkWorld (vecs w) m)
      | Throw e s => Throw e (thrown_world x w s)
      | Fail e => Fail e
      end
  end.

(** A comparison [x op y]. *)
Definition compare (x y : name) (f : SimpleVector -> SimpleVector -> M T bool) (w : World) : outcome World World :=
  match vecs w !! x, vecs w !! y with
  | Some a, Some b =>
      match f a b (mem w) with
      | Ok (_, m) => Ok (MkWorld (vecs w) m)
      | Throw e s => Throw e (MkWorld (vecs w) (thrown_mem s))
      | Fail e => Fail e
      end
  | _, _ => Fail undefined_behaviour
  end.

(** [SimpleVector x(std::move(other))]: the move constructor. *)
Definition move_construct (x other : name) (w : World) : outcome World World :=
  match vecs w !! x, vecs w !! other with
  | None, Some o =>
      (* : size_(other.size_), capacity_(other.capacity_) *)
      let st := <[x := MkVec (size_ o) (capacity_ o) ArrayPtr.default]> (vecs w) in
      (* this->items_ = std::move(other.items_); *)
      let '(ti, oi) := ArrayPtr.move_assign ArrayPtr.default (items_ o) in
      let st := set_items x ti st in
      let st := set_items other oi st in
      (* other.size_ = 0; other.capacity_ = 0; *)
      let st := set_size other 0 st in
      let st := set_capacity other 0 st in
      Ok (MkWorld st (mem w))
  | _, _ => Fail undefined_behaviour
  end.

(** [x = std::move(other)]: the move assignment. *)
Definition move_assign (x other : name) (w : World) : outcome World World :=
  match vecs w !! x, vecs w !! other with
  | Some a, Some b =>
      let st := vecs w in
      (* this->items_ = std::move(other.items_); *)
      let '(ti, oi) := ArrayPtr.move_assign (items_ a) (items_ b) in
      let st := set_items x ti st in
      let st := set_items other oi st in
      (* this->size_ = std::move(other.size_); other.size_ = 0; *)
      let st := set_size x (default 0 (size_ <$> st !! other)) st in
      let st := set_size other 0 st in
      (* this->capacity_ = std::move(other.capacity_); other.capacity_ = 0; *)
      let st := set_capacity x (default 0 (capacity_ <$> st !! other)) st in
      let st := set_capacity other 0 st in
      Ok (MkWorld st (mem w))
  | _, _ => Fail undefined_behaviour
  end.

(** [x.swap(rhs)]. *)
Definition swap (x rhs : name) (w : World) : outcome World World :=
  match vecs w !! x, vecs w !! rhs with
  | Some a, Some b =>
      let st := vecs w in
      (* this->items_.swap(rhs.items_); *)
      let '(ti, ri) := ArrayPtr.swap (items_ a) (items_ b) in
      let st := set_items x ti st in
      let st := set_items rhs ri st in
      (* std::swap(this->size_, rhs.size_); *)
      let tmp := default 0 (size_ <$> st !! x) in
      let st := set_size x (default 0 (size_ <$> st !! rhs)) st in
      let st := set_size rhs tmp st in
      (* std::swap(this->capacity_, rhs.capacity_); *)
      let tmp := default 0 (capacity_ <$> st !! x) in
      let st := set_capacity x (default 0 (capacity_ <$> st !! rhs)) st in
      let st := set_capacity rhs tmp st in
      Ok (MkWorld st (mem w))
  | _, _ => Fail undefined_behaviour
  end.

(** [x = rhs]: the copy assignment. *)
Definition copy_assignment (x rhs : name) (w : World) : outcome World World :=
  match vecs w !! x, vecs w !! rhs with
  | Some a, Some b =>
      match copy_assign a b (mem w) with
      | Ok (a', m) => Ok (MkWorld (<[x := a']> (vecs w)) m)
      | Throw e s => Throw e (thrown_world x w s)
      | Fail e => Fail e
      end
  | _, _ => Fail undefined_behaviour
  end.

(** The end of [x]'s lifetime. *)
Definition destroy (x : name) (w : World) : outcome World World :=
  match vecs w !! x with
  | None => Fail undefined_behaviour
  | Some v =>
      match SimpleVector_dtor v (mem w) with
      | Ok (_, m) => Ok (MkWorld (delete x (vecs w)) m)
      | Throw e s => Throw e (MkWorld (vecs w) (thrown_mem s))
      | Fail e => Fail e
      end
  end.

(** An assignment [*p = value] through a reference or iterator. *)
Definition assign_through (p : ptr) (value : T) (w : World) : outcome World World :=
  match store p value (mem w) with
  | Ok (_, m) => Ok (MkWorld (vecs w) m)
  | Throw e s => Throw e (MkWorld (vecs w) (thrown_mem s))
  | Fail e => Fail e
  end.

(** The constructors and public operations of the vector. *)
Inductive call :=
| NewDefault (x : name)
| NewSized (x : name) (size : Z)
| NewFilled (x : name) (size : Z) (value : T)
| NewInit (x : name) (init : list T)
| NewCopy (x other : name)
| NewReserved (x : name) (obj : ReserveProxyObj)
| NewMove (x other : name)
| CopyAssign (x rhs : name)
| MoveAssign (x other : name)
| Destroy (x : name)
| CallIndex (x : name) (index : Z)
| CallAt (x : name) (index : Z)
| CallBegin (x : name)
| CallEnd (x : name)
| AssignThrough (p : ptr) (value : T)
| CallClear (x : name)
| CallResize (x : name) (new_size : Z)
| CallPopBack (x : name)
| CallErase (x : name) (pos : ptr)
| CallPushBack (x : name) (value : ref T)
| CallPushBackMove (x : name) (value : ref T)
| CallInsert (x : name) (pos : ptr) (value : ref T)
| CallInsertMove (x : name) (pos : ptr) (value : ref T)
| CallSwap (x rhs : name)
| CallReserve (x : name) (new_capacity : Z)
| CallEq (x y : name)
| CallNe (x y : name)
| CallLt (x y : name)
| CallLe (x y : name)
| CallGt (x y : name)
| CallGe (x y : name).

Definition exec (c : call) (w : World) : outcome World World :=
  match c with
  | NewDefault x => declare x (ret SimpleVector_default) w
  | NewSized x size => declare x (SimpleVector_sized size) w
  | NewFilled x size value => declare x (SimpleVector_filled size value) w
  | NewInit x init => declare x (SimpleVector_init init) w
  | NewCopy x other =>
      match vecs w !! other with
      | Some o => declare x (SimpleVector_copy o) w
      | None => Fail undefined_behaviour
      end
  | NewReserved x obj => declare x (SimpleVector_reserved obj) w
  | NewMove x other => move_construct x other w
  | CopyAssign x rhs => copy_assignment x rhs w
  | MoveAssign x other => move_assign x other w
  | Destroy x => destroy x w
  | CallIndex x index => observe x (index_op index) w
  | CallAt x index => observe x (At index) w
  | CallBegin x => observe x begin w
  | CallEnd x => observe x end_ w
  | AssignThrough p value => assign_through p value w
  | CallClear x => mutate x Clear w
  | CallResize x new_size => mutate x (Resize new_size) w
  | CallPopBack x => mutate x (fun v => ret (PopBack v)) w
  | CallErase x pos => mutate x (fun v => r <- Erase pos v ;; ret (snd r)) w
  | CallPushBack x value => mutate x (PushBack value) w
  | CallPushBackMove x value => mutate x (PushBack_move value) w
  | CallInsert x pos value => mutate x (fun v => r <- Insert pos value v ;; ret (snd r)) w
  | CallInsertMove x pos value => mutate x (fun v => r <- Insert_move pos value v ;; ret (snd r)) w
  | CallSwap x rhs => swap x rhs w
  | CallReserve x new_capacity => mutate x (Reserve new_capacity) w
  | CallEq x y => compare x y operator_eq w
  | CallNe x y => compare x y operator_ne w
  | CallLt x y => compare x y operator_lt w
  | CallLe x y => compare x y operator_le w
  | CallGt x y => compare x y operator_gt w
  | CallGe x y => compare x y operator_ge w
  end.

(** The arguments of type [size_t] are in the range of the type, and an
    initializer list is an array the program holds. *)
Definition call_wf (c : call) : Prop :=
  match c with
  | NewSized _ n | NewFilled _ n _ | CallIndex _ n | CallAt _ n
  | CallResize _ n | CallReserve _ n => is_size_t n
  | NewReserved _ obj => is_size_t (proxy_size_ obj)
  | NewInit _ init => Z.of_nat (length init) <= max_array_len
  | _ => True
  end.

(** Runs a program: a list of calls, first call first.  An exception that
    leaves a call is caught by the program, which goes on with the next call
    in the state the exception left; a failed assertion or undefined
    behaviour ends the run. *)
Fixpoint run (p : list call) (w : World) : outcome World World :=
  match p with
  | [] => Ok w
  | c :: rest =>
      match exec c w with
      | Ok w' => run rest w'
      | Throw _ w' => run rest w'
      | Fail e => Fail e
      end
  end.

(** The states a program can reach from the empty world, after any of its
    calls, whether the call returned or threw. *)
Definition reachable (w : World) : Prop :=
  exists p : list call, Forall call_wf p /\ run p empty_world = Ok w.

(** The invariant of the data model as the specification states it: the
    sizes are ordered and the buffer has exactly [capacity_] slots. *)
Definition spec_invariant (w : World) : Prop :=
  forall x v, vecs w !! x = Some v ->
    0 <= size_ v <= capacity_ v /\
    Z.of_nat (length (block (heap (mem w)) (items_ v))) = capacity_ v.

(** Every buffer has exactly [capacity_] slots, unless the capacity is 0. *)
Definition world_fits (w : World) : Prop :=
  forall x v, vecs w !! x = Some v -> fits (heap (mem w)) v.

(** The invariant the code keeps: every vector fits its buffer, no two
    vectors own the same array, and a buffer has exactly [capacity_] slots
    unless the capacity is 0. *)
Definition world_ok (w : World) : Prop :=
  (forall x v, vecs w !! x = Some v -> vec_ok (heap (mem w)) v) /\
  (forall x y vx vy l, x <> y ->
     vecs w !! x = Some vx -> vecs w !! y = Some vy ->
     ArrayPtr.raw_ptr_ (items_ vx) = Some l ->
     ArrayPtr.raw_ptr_ (items_ vy) <> Some l) /\
  world_fits w.

End World.

Arguments World T : clear implicits.
Arguments call T : clear implicits.

(** ** Outcomes of a run, up to the trace *)

Section Yields.
Context {T : Type}.

(** [c] started in [m] returns [a] and leaves the heap [h']. *)
Definition yields {A} (c : M T A) (m : Mem T) (a : A) (h' : gmap loc (list T)) : Prop :=
  exists m', c m = Ok (a, m') /\ heap m' = h'.

(** The value a run returned, when it returned. *)
Definition value {A} (o : outcome (Thrown T) (A * Mem T)) : option A :=
  match o with
  | Ok (a, _) => Some a
  | _ => None
  end.

(** The events [c] added to the trace, oldest first, when [c] returns. *)
Definition new_events {A} (c : M T A) (m : Mem T) : list event :=
  match c m with
  | Ok (_, m') => rev (take (length (trace m') - length (trace m))%nat (trace m'))
  | _ => []
  end.

End Yields.

(** ** Statements of callers and ownership of arrays *)

Section Callers.
Context {T : Type} `{ElemType T}.

(** One [PushBack] call per value of a list, as the loops
    [for (...) v.PushBack(i);] of the tests: every argument is a local
    variable or a temporary. *)
Fixpoint PushBack_each (values : list T) (this : SimpleVector) : M T SimpleVector :=
  match values with
  | [] => ret this
  | value :: rest =>
      this <- PushBack (Outside value) this ;;
      PushBack_each rest this
  end.

(** [this[index] = value;]. *)
Definition assign_at (index : Z) (value : T) (this : SimpleVector) : M T unit :=
  p <- index_op index this ;;
  store p value.

(** [this[index]] read as a value. *)
Definition read_at (index : Z) (this : SimpleVector) : M T T :=
  p <- index_op index this ;;
  load p.

(** The array at [l] is the buffer of a vector of the program. *)
Definition owned (w : World T) (l : loc) : Prop :=
  exists (x : name) v, vecs w !! x = Some v /\ ArrayPtr.raw_ptr_ (items_ v) = Some l.

(** No array is lost: every live array is the buffer of some vector. *)
Definition no_leak (w : World T) : Prop :=
  forall l, heap (mem w) !! l <> None -> owned w l.

(** The destructor run on [v] in [m'] gives back the heap of [m]. *)
Definition dtor_restores (m : Mem T) (v : SimpleVector) (m' : Mem T) : Prop :=
  exists m'', SimpleVector_dtor v m' = Ok (tt, m'') /\ heap m'' = heap m.

End Callers.

(** ** The element type [int] *)

#[global] Instance int_elem : ElemType Z := {|
  dflt := 0;
  fresh_value := fun k => -1 - Z.of_nat k;
  elt_eqb := Z.eqb;
  elt_ltb := Z.ltb
|}.

(** ** The vector generator of the tests *)

(** Largest [int]. *)
Definition INT_MAX : Z := 2 ^ 31 - 1.

(** [std::iota(first, last, value)] over [int]: [*first = value; ++value;]
    for every slot of the range.  Overflow of the signed [++value] is
    undefined behaviour. *)
Fixpoint iota_steps (k : nat) (first : ptr) (value : Z) : M Z unit :=
  match k with
  | O => ret tt
  | S k' =>
      store first value ;;;
      (if value <? INT_MAX then ret tt else fail undefined_behaviour) ;;;
      iota_steps k' (next first) (value + 1)
  end.

Definition std_iota (first last : ptr) (value : Z) : M Z unit :=
  k <- range_steps first last ;; iota_steps k first value.

(** [GenerateVector(size)] of [tests.h]. *)
Definition GenerateVector (size : Z) : M Z SimpleVector :=
  v <- SimpleVector_sized size ;;
  first <- begin v ;;
  last <- end_ v ;;
  std_iota first last 1 ;;;
  ret v.

(** ** Runs used as examples *)

(** The vector and the memory a constructor leaves when started in the empty
    memory. *)
Definition built (c : M Z SimpleVector) : SimpleVector * Mem Z :=
  match c empty_mem with
  | Ok r => r
  | _ => (SimpleVector_default, empty_mem)
  end.

(** Two vectors built one after the other. *)
Definition built_pair (c1 c2 : M Z SimpleVector) : SimpleVector * SimpleVector * Mem Z :=
  match c1 empty_mem with
  | Ok (a, m1) =>
      match c2 m1 with
      | Ok (b, m2) => (a, b, m2)
      | _ => (a, SimpleVector_default, m1)
      end
  | _ => (SimpleVector_default, SimpleVector_default, empty_mem)
  end.

(** The state a program leaves. *)
Definition ran (p : list (call Z)) : World Z :=
  match run p empty_world with
  | Ok w => w
  | _ => empty_world
  end.

(** * Proofs *)

(** ** ArrayPtr *)

(** C4, as the code has it: move-construction leaves the moved-from buffer
    empty (its truthiness test is false).  Move-assignment leaves in the
    moved-from buffer the handle the destination held before the call, and
    gives the destination the source's handle; hence the source is empty
    afterwards exactly when the destination was empty before. *)
Theorem ArrayPtr_move_source (this other : ArrayPtr.t) :
  ArrayPtr.to_bool (snd (ArrayPtr.move_ctor other)) = false /\
  ArrayPtr.raw_ptr_ (fst (ArrayPtr.move_ctor other)) = ArrayPtr.raw_ptr_ other /\
  ArrayPtr.raw_ptr_ (snd (ArrayPtr.move_assign this other)) = ArrayPtr.raw_ptr_ this /\
  ArrayPtr.raw_ptr_ (fst (ArrayPtr.move_assign this other)) = ArrayPtr.raw_ptr_ other /\
  (ArrayPtr.to_bool (snd (ArrayPtr.move_assign this other)) = false <->
   ArrayPtr.to_bool this = false).
Proof.
  unfold ArrayPtr.move_assign.
  destruct (decide (ArrayPtr.raw_ptr_ this = ArrayPtr.raw_ptr_ other)) as [E|E]; cbn.
  - rewrite E. unfold ArrayPtr.to_bool. rewrite E. tauto.
  - tauto.
Qed.


Section Proofs.
Context {T : Type} `{ElemType T}.

Implicit Types (m : Mem T) (h : gmap loc (list T)) (v : SimpleVector)
  (l : loc) (p : ptr) (cells : list T) (x : T).

(** ** The monad *)

Lemma yields_ret {A} (a : A) m h : heap m = h -> yields (ret a) m a h.
Proof. intros <-. exists m. split; reflexivity. Qed.

Lemma yields_bind {A B} (c : M T A) (f : A -> M T B) m a h1 b h2 :
  yields c m a h1 ->
  (forall m1, heap m1 = h1 -> yields (f a) m1 b h2) ->
  yields (x <- c ;; f x) m b h2.
Proof.
  intros (m1 & E1 & H1) Hf. destruct (Hf m1 H1) as (m2 & E2 & H2).
  exists m2. split; [|exact H2]. unfold bind. rewrite E1. exact E2.
Qed.

Lemma yields_heap_eq {A} (c : M T A) m a h1 h2 :
  yields c m a h1 -> h1 = h2 -> yields c m a h2.
Proof. intros Hy <-. exact Hy. Qed.

Lemma yields_fun {A} (c : M T A) m a1 h1 a2 h2 :
  yields c m a1 h1 -> yields c m a2 h2 -> a1 = a2 /\ h1 = h2.
Proof.
  intros (m1 & E1 & H1) (m2 & E2 & H2). rewrite E1 in E2.
  injection E2 as -> ->. split; congruence.
Qed.

Lemma yields_in_object {A} (this : SimpleVector) (c : M T A) m a h :
  yields c m a h -> yields (in_object this c) m a h.
Proof. intros (m' & E & Hh). exists m'. unfold in_object. by rewrite E. Qed.

Lemma yields_inv {A} (c : M T A) m a h' a' m' :
  yields c m a h' -> c m = Ok (a', m') -> a' = a /\ heap m' = h'.
Proof. intros (m1 & E1 & H1) E. rewrite E in E1. by injection E1 as -> ->. Qed.

Lemma bind_Ok {A B} (c : M T A) (f : A -> M T B) m r :
  (x <- c ;; f x) m = Ok r -> exists a m1, c m = Ok (a, m1) /\ f a m1 = Ok r.
Proof.
  unfold bind. destruct (c m) as [[a m1]| |]; [|done..]. intros E. by exists a, m1.
Qed.

Lemma bind_yields {A B} (c : M T A) (f : A -> M T B) m a h1 :
  yields c m a h1 -> exists m1, heap m1 = h1 /\ (x <- c ;; f x) m = f a m1.
Proof. intros (m1 & E & Hh). exists m1. split; [done|]. unfold bind. by rewrite E. Qed.

(** A run that goes on as [k] does from a memory with heap [h2]. *)
Lemma goes_on_bind {A B C} (c : M T A) (f : A -> M T B) (k : M T C) m a h1 h2
    (g : outcome (Thrown T) (C * Mem T) -> outcome (Thrown T) (B * Mem T)) :
  yields c m a h1 ->
  (forall m1, heap m1 = h1 -> exists m2, heap m2 = h2 /\ f a m1 = g (k m2)) ->
  exists m2, heap m2 = h2 /\ (x <- c ;; f x) m = g (k m2).
Proof.
  intros (m1 & E & Hh) Hf. destruct (Hf m1 Hh) as (m2 & H2 & E2).
  exists m2. split; [done|]. unfold bind. by rewrite E.
Qed.

Lemma yields_run_eq {A} (c k : M T A) m m2 a h :
  c m = k m2 -> yields k m2 a h -> yields c m a h.
Proof. unfold yields. by intros ->. Qed.

Lemma yields_assert (b : bool) m h :
  heap m = h -> b = true -> yields (assert b) m tt h.
Proof. intros Hh ->. by apply yields_ret. Qed.

(** ** Memory primitives *)

Lemma yields_index (a : ArrayPtr.t) (i : Z) m h :
  heap m = h ->
  yields (ArrayPtr_index a i) m (Ptr (ArrayPtr.raw_ptr_ a) i) h.
Proof. intros <-. eexists. split; reflexivity. Qed.

Lemma slot_at h l cells (o : nat) :
  h !! l = Some cells -> slot h (Ptr (Some l) (Z.of_nat o)) = cells !! o.
Proof.
  intros E. unfold slot; cbn. rewrite E.
  destruct (Z.leb_spec 0 (Z.of_nat o)); [|lia]. by rewrite Nat2Z.id.
Qed.

Lemma load_run m l cells (o : nat) x :
  heap m !! l = Some cells -> cells !! o = Some x ->
  load (Ptr (Some l) (Z.of_nat o)) m =
  Ok (x, MkMem (heap m) (Accessed (Ptr (Some l) (Z.of_nat o)) :: trace m)).
Proof. intros E Ex. unfold load. by rewrite (slot_at _ _ _ _ E), Ex. Qed.

Lemma store_run m l cells (o : nat) x :
  heap m !! l = Some cells -> (o < length cells)%nat ->
  store (Ptr (Some l) (Z.of_nat o)) x m =
  Ok (tt, MkMem (<[l := <[o := x]> cells]> (heap m))
                (Accessed (Ptr (Some l) (Z.of_nat o)) :: trace m)).
Proof.
  intros E Ho. unfold store; cbn [base off].
  rewrite (slot_at _ _ _ _ E).
  destruct (lookup_lt_is_Some_2 cells o Ho) as [y ->].
  do 2 f_equal. rewrite Nat2Z.id. f_equal.
  apply map_eq. intros l'. rewrite lookup_alter, lookup_insert.
  destruct (decide (l = l')) as [<-|]; [by rewrite E|done].
Qed.

Lemma yields_load m h l cells (o : nat) x :
  heap m = h -> h !! l = Some cells -> cells !! o = Some x ->
  yields (load (Ptr (Some l) (Z.of_nat o))) m x h.
Proof.
  intros <- E Ex. eexists. split; [by apply (load_run m l cells)|done].
Qed.

Lemma yields_store m h l cells (o : nat) x :
  heap m = h -> h !! l = Some cells -> (o < length cells)%nat ->
  yields (store (Ptr (Some l) (Z.of_nat o)) x) m tt (<[l := <[o := x]> cells]> h).
Proof.
  intros <- E Ho. eexists. split; [by apply (store_run m l cells)|done].
Qed.

Lemma yields_new_array (n : Z) h :
  n <= max_array_len ->
  exists l, h !! l = None /\
    forall m, heap m = h -> yields (new_array n) m l (<[l := fresh_cells n]> h).
Proof.
  intros Hn. exists (fresh (dom h)). split.
  - apply not_elem_of_dom. apply is_fresh.
  - intros m <-. unfold yields, new_array.
    destruct (Z.ltb_spec max_array_len n); [lia|].
    eexists. split; reflexivity.
Qed.

Lemma length_fresh_cells (n : Z) : length (fresh_cells (T:=T) n) = Z.to_nat n.
Proof. unfold fresh_cells. by rewrite length_map, length_seq. Qed.

Lemma yields_delete m h (q : option loc) :
  heap m = h ->
  match q with Some l => h !! l <> None | None => True end ->
  yields (delete_array q) m tt (free_block q h).
Proof.
  intros <- E. unfold yields, delete_array. destruct q as [l|]; cbn.
  - destruct (heap m !! l); [|done]. eexists. split; reflexivity.
  - eexists. split; reflexivity.
Qed.

Lemma yields_range_steps m h (b : option loc) (o1 o2 : Z) :
  heap m = h -> o1 <= o2 ->
  yields (range_steps (Ptr b o1) (Ptr b o2)) m (Z.to_nat (o2 - o1)) h.
Proof.
  intros Hh Ho. unfold range_steps; cbn [base off].
  rewrite bool_decide_eq_true_2 by done.
  destruct (Z.leb_spec o1 o2); [|lia]. by apply yields_ret.
Qed.

(** ** The loops of the standard algorithms *)

Lemma next_of_nat (b : option loc) (o : nat) :
  next (Ptr b (Z.of_nat o)) = Ptr b (Z.of_nat (S o)).
Proof. unfold next; cbn. f_equal. lia. Qed.

Lemma prev_of_nat (b : option loc) (o : nat) :
  prev (Ptr b (Z.of_nat (S o))) = Ptr b (Z.of_nat o).
Proof. unfold prev; cbn. f_equal. lia. Qed.

(** The slots [o .. o+k) of a block overwritten by [x]. *)
Lemma fill_steps_run k : forall m l cells (o : nat) x,
  heap m !! l = Some cells -> (o + k <= length cells)%nat ->
  fill_steps k (Ptr (Some l) (Z.of_nat o)) x m =
  Ok (tt, MkMem (<[l := take o cells ++ replicate k x ++ drop (o + k) cells]> (heap m))
                (rev (map (fun j => Accessed (Ptr (Some l) (Z.of_nat j))) (seq o k)) ++ trace m)).
Proof.
  induction k as [|k IH]; intros m l cells o x E Hk.
  - cbn. unfold ret. rewrite Nat.add_0_r, take_drop, insert_id by done.
    by destruct m.
  - cbn [fill_steps]. unfold bind at 1.
    rewrite (store_run m l cells o x E) by lia.
    rewrite next_of_nat.
    rewrite (IH _ l (<[o := x]> cells) (S o) x); cbn [heap trace].
    + do 3 f_equal.
      * rewrite insert_insert_eq. f_equal.
        rewrite (take_S_r _ _ x) by (apply list_lookup_insert_eq; lia).
        rewrite take_insert_ge by lia.
        rewrite drop_insert_lt by lia.
        rewrite <- app_assoc. cbn. by rewrite Nat.add_succ_r.
      * cbn [seq map rev]. by rewrite <- app_assoc.
    + apply lookup_insert_eq.
    + rewrite length_insert. lia.
Qed.

Lemma FillByMove_steps_fill k : forall p, FillByMove_steps k p = fill_steps k p dflt.
Proof. induction k as [|k IH]; intros p; cbn; [done|]. by rewrite IH. Qed.

Lemma yields_fill_steps k m h l cells (o : nat) x :
  heap m = h -> h !! l = Some cells -> (o + k <= length cells)%nat ->
  yields (fill_steps k (Ptr (Some l) (Z.of_nat o)) x) m tt
         (<[l := take o cells ++ replicate k x ++ drop (o + k) cells]> h).
Proof.
  intros <- E Hk. eexists. split; [by apply fill_steps_run|done].
Qed.

(** [std::copy] from one array into another one. *)
Lemma yields_copy_steps k : forall m h ls ld cs cd (so do : nat),
  heap m = h -> ls <> ld ->
  h !! ls = Some cs -> h !! ld = Some cd ->
  (so + k <= length cs)%nat -> (do + k <= length cd)%nat ->
  yields (copy_steps k (Ptr (Some ls) (Z.of_nat so)) (Ptr (Some ld) (Z.of_nat do))) m
         (Ptr (Some ld) (Z.of_nat (do + k)))
         (<[ld := take do cd ++ take k (drop so cs) ++ drop (do + k) cd]> h).
Proof.
  induction k as [|k IH]; intros m h ls ld cs cd so do Hh Hne Es Ed Hs Hd.
  - cbn [copy_steps]. rewrite Nat.add_0_r, take_0. cbn [app].
    rewrite take_drop, insert_id by done. by apply yields_ret.
  - cbn [copy_steps].
    destruct (lookup_lt_is_Some_2 cs so) as [x Ex]; [lia|].
    eapply yields_bind; [by apply (yields_load m h ls cs so x)|].
    intros m1 E1.
    eapply yields_bind; [apply (yields_store m1 h ld cd do x E1 Ed); lia|].
    intros m2 E2. rewrite !next_of_nat.
    replace (do + S k)%nat with (S do + k)%nat by lia.
    eapply yields_heap_eq.
    { apply (IH m2 _ ls ld cs (<[do := x]> cd) (S so) (S do) E2); try done.
      - by rewrite lookup_insert_ne.
      - apply lookup_insert_eq.
      - lia.
      - rewrite length_insert. lia. }
    rewrite insert_insert_eq. f_equal.
    rewrite (take_S_r _ _ x) by (apply list_lookup_insert_eq; lia).
    rewrite take_insert_ge by lia.
    rewrite drop_insert_lt by lia.
    rewrite <- app_assoc. f_equal. cbn. f_equal.
    rewrite (drop_S cs x so Ex). done.
Qed.

(** ** Vectors and their buffers *)

Lemma block_live h (a : ArrayPtr.t) l cells :
  ArrayPtr.raw_ptr_ a = Some l -> h !! l = Some cells -> block h a = cells.
Proof. intros E1 E2. unfold block. by rewrite E1, E2. Qed.

Lemma block_null h (a : ArrayPtr.t) :
  ArrayPtr.raw_ptr_ a = None -> block h a = [].
Proof. intros E. unfold block. by rewrite E. Qed.

Lemma vec_ok_live h v l :
  vec_ok h v -> ArrayPtr.raw_ptr_ (items_ v) = Some l ->
  h !! l = Some (block h (items_ v)).
Proof.
  intros (_ & _ & _ & _ & Hl) E. rewrite E in Hl. unfold block. rewrite E.
  destruct (h !! l); [done|congruence].
Qed.

Lemma vec_ok_null h v :
  vec_ok h v -> ArrayPtr.raw_ptr_ (items_ v) = None ->
  size_ v = 0 /\ capacity_ v = 0.
Proof.
  intros (H0 & H1 & H2 & _) E. rewrite (block_null _ _ E) in H2. cbn in H2. lia.
Qed.

Lemma length_contents h v :
  vec_ok h v -> length (contents h v) = Z.to_nat (size_ v).
Proof.
  intros (H0 & H1 & H2 & _). unfold contents. rewrite length_take. lia.
Qed.

Lemma vec_ok_capacity_bound h v : vec_ok h v -> capacity_ v <= max_array_len.
Proof. intros (H0 & H1 & H2 & H3 & _). lia. Qed.

Lemma wrap_small (x : Z) : 0 <= x < size_t_modulus -> wrap x = x.
Proof. intros Hx. unfold wrap. by apply Z.mod_small. Qed.

Lemma max_array_len_lt : 2 * max_array_len < size_t_modulus.
Proof. unfold max_array_len, size_t_modulus. lia. Qed.

Lemma fresh_not_owned h v l' :
  vec_ok h v -> h !! l' = None -> ArrayPtr.raw_ptr_ (items_ v) <> Some l'.
Proof.
  intros Hok Hl' E. rewrite (vec_ok_live _ _ _ Hok E) in Hl'. done.
Qed.

Lemma free_block_insert_ne h (q : option loc) l' cells :
  q <> Some l' ->
  free_block q (<[l' := cells]> h) = <[l' := cells]> (free_block q h).
Proof.
  intros Hne. destruct q as [l|]; cbn; [|done].
  rewrite delete_insert_ne; [done|congruence].
Qed.

(** Allocating or rewriting an array the vector does not own leaves the
    vector as it is. *)
Lemma block_insert_ne h (a : ArrayPtr.t) l' cells :
  ArrayPtr.raw_ptr_ a <> Some l' -> block (<[l' := cells]> h) a = block h a.
Proof.
  intros Hne. unfold block. destruct (ArrayPtr.raw_ptr_ a) as [l|]; [|done].
  by rewrite lookup_insert_ne by congruence.
Qed.

Lemma contents_insert_ne h v l' cells :
  ArrayPtr.raw_ptr_ (items_ v) <> Some l' ->
  contents (<[l' := cells]> h) v = contents h v.
Proof. intros Hne. unfold contents. by rewrite block_insert_ne. Qed.

Lemma vec_ok_insert_ne h v l' cells :
  ArrayPtr.raw_ptr_ (items_ v) <> Some l' ->
  vec_ok h v -> vec_ok (<[l' := cells]> h) v.
Proof.
  intros Hne. unfold vec_ok. rewrite block_insert_ne by done.
  destruct (ArrayPtr.raw_ptr_ (items_ v)) as [l|]; [|done].
  by rewrite lookup_insert_ne by congruence.
Qed.

(** [std::copy] or [std::move] of a vector's elements to the start of
    another array. *)
Lemma yields_copy_vec m h v ld cd :
  heap m = h ->
  vec_ok h v ->
  h !! ld = Some cd ->
  ArrayPtr.raw_ptr_ (items_ v) <> Some ld ->
  size_ v <= Z.of_nat (length cd) ->
  yields (std_copy (Ptr (ArrayPtr.raw_ptr_ (items_ v)) 0)
                   (Ptr (ArrayPtr.raw_ptr_ (items_ v)) (size_ v))
                   (Ptr (Some ld) 0)) m
         (Ptr (Some ld) (size_ v))
         (<[ld := contents h v ++ drop (Z.to_nat (size_ v)) cd]> h).
Proof.
  intros Hh Hok Ed Hne Hlen.
  pose proof Hok as (H0 & H1 & H2 & H3 & _).
  unfold std_copy.
  eapply yields_bind; [by apply yields_range_steps|].
  intros m1 E1. rewrite Z.sub_0_r.
  destruct (ArrayPtr.raw_ptr_ (items_ v)) as [ls|] eqn:Er.
  - pose proof (vec_ok_live _ _ _ Hok Er) as Es.
    eapply yields_heap_eq.
    { replace (Ptr (Some ld) (size_ v))
        with (Ptr (Some ld) (Z.of_nat (0 + Z.to_nat (size_ v)))) by (f_equal; lia).
      apply (yields_copy_steps _ m1 h ls ld (block h (items_ v)) cd 0 0 E1);
        try done; try congruence; cbn; lia. }
    by cbn.
  - destruct (vec_ok_null _ _ Hok Er) as [Hs _].
    rewrite Hs. cbn. unfold contents. rewrite Hs. cbn.
    rewrite insert_id by done. by apply yields_ret.
Qed.

(** ** Reserve *)

Lemma Reserve_keep m h v (n : Z) :
  heap m = h ->
  (if n =? 0 then 1 else n) <= capacity_ v ->
  yields (Reserve n v) m v h.
Proof.
  intros Hh Hn. unfold Reserve.
  destruct (Z.leb_spec (if n =? 0 then 1 else n) (capacity_ v)); [|lia].
  by apply yields_ret.
Qed.

Lemma yields_ArrayPtr_new h (n : Z) :
  0 < n <= max_array_len ->
  exists l, h !! l = None /\
    forall m, heap m = h ->
      yields (ArrayPtr_new n) m (ArrayPtr.Make (Some l)) (<[l := fresh_cells n]> h).
Proof.
  intros Hn. destruct (yields_new_array n h) as (l & Hl & Hy); [lia|].
  exists l. split; [done|]. intros m Hh. unfold ArrayPtr_new.
  destruct (Z.ltb_spec 0 n); [|lia].
  eapply yields_bind; [by apply Hy|]. intros m1 E1. by apply yields_ret.
Qed.

Lemma yields_ArrayPtr_new_0 m h (n : Z) :
  heap m = h -> n <= 0 -> yields (ArrayPtr_new n) m (ArrayPtr.Make None) h.
Proof.
  intros Hh Hn. unfold ArrayPtr_new.
  destruct (Z.ltb_spec 0 n); [lia|]. by apply yields_ret.
Qed.

Lemma yields_dtor m h (a : ArrayPtr.t) :
  heap m = h ->
  match ArrayPtr.raw_ptr_ a with Some l => h !! l <> None | None => True end ->
  yields (ArrayPtr_dtor a) m tt (free_block (ArrayPtr.raw_ptr_ a) h).
Proof. intros Hh Hl. unfold ArrayPtr_dtor. by apply yields_delete. Qed.

Lemma Reserve_grow h v (n : Z) :
  vec_ok h v -> capacity_ v < n -> n <= max_array_len ->
  exists l', h !! l' = None /\
    forall m, heap m = h ->
    yields (Reserve n v) m (MkVec (size_ v) n (ArrayPtr.Make (Some l')))
      (<[l' := contents h v ++ replicate (Z.to_nat (n - size_ v)) dflt]>
         (free_block (ArrayPtr.raw_ptr_ (items_ v)) h)).
Proof.
  intros Hok Hgt Hmax. pose proof Hok as (H0 & H1 & H2 & H3 & Hlive).
  destruct (yields_ArrayPtr_new h n) as (l' & Hl' & Hnew); [lia|].
  exists l'. split; [done|]. intros m Hh.
  pose proof (fresh_not_owned _ _ _ Hok Hl') as Hne.
  unfold Reserve.
  destruct (Z.eqb_spec n 0); [lia|].
  destruct (Z.leb_spec n (capacity_ v)); [lia|].
  eapply yields_bind; [by apply yields_in_object, Hnew|]. intros m1 E1.
  eapply yields_bind; [by apply yields_index|]. intros m2 E2.
  eapply yields_bind; [by apply yields_index|]. intros m3 E3.
  eapply yields_bind; [by apply yields_index|]. intros m4 E4.
  cbn [ArrayPtr.raw_ptr_].
  eapply yields_bind.
  { apply (yields_copy_vec m4 _ v l' (fresh_cells n) E4).
    - by apply vec_ok_insert_ne.
    - apply lookup_insert_eq.
    - done.
    - rewrite length_fresh_cells. lia. }
  intros m5 E5. rewrite insert_insert_eq, contents_insert_ne in E5 by done.
  set (c5 := contents h v ++ drop (Z.to_nat (size_ v)) (fresh_cells n)) in *.
  assert (Hlen5 : length c5 = Z.to_nat n).
  { unfold c5. rewrite length_app, length_drop, length_fresh_cells.
    rewrite (length_contents _ _ Hok). lia. }
  eapply yields_bind; [by apply yields_index|]. intros m6 E6.
  eapply yields_bind; [by apply yields_index|]. intros m7 E7.
  cbn [ArrayPtr.raw_ptr_].
  eapply yields_bind.
  { unfold FillByMove.
    eapply yields_bind; [apply (yields_range_steps _ _ _ _ _ E7); lia|]. intros m8 E8.
    rewrite FillByMove_steps_fill.
    replace (Ptr (Some l') (size_ v))
      with (Ptr (Some l') (Z.of_nat (Z.to_nat (size_ v)))) by (f_equal; lia).
    apply (yields_fill_steps _ m8 _ l' c5 _ _ E8).
    - apply lookup_insert_eq.
    - rewrite Hlen5. lia. }
  intros m9 E9. rewrite insert_insert_eq in E9.
  cbn [ArrayPtr.swap ArrayPtr.raw_ptr_].
  eapply yields_bind.
  { apply (yields_dtor _ _ _ E9). cbn [ArrayPtr.raw_ptr_].
    destruct (ArrayPtr.raw_ptr_ (items_ v)) as [l|]; [|done].
    rewrite lookup_insert_ne by congruence. done. }
  intros m10 E10. cbn [ArrayPtr.raw_ptr_] in E10.
  eapply yields_heap_eq; [by apply yields_ret|].
  rewrite free_block_insert_ne by done.
  f_equal.
  rewrite drop_ge by (rewrite Hlen5; lia).
  unfold c5.
  rewrite take_app_length' by (by rewrite (length_contents _ _ Hok)).
  by rewrite app_nil_r.
Qed.

(** ** In-place and reallocating updates *)

Ltac easy_side :=
  try lia; try done; try (by intros; left); try (by intros; congruence).

(** A vector whose buffer was rewritten in place, slot count unchanged. *)
Lemma evolves_in_place h v l cells cells' (s' : Z) :
  vec_ok h v ->
  ArrayPtr.raw_ptr_ (items_ v) = Some l -> h !! l = Some cells ->
  length cells' = length cells ->
  0 <= s' <= capacity_ v ->
  evolves h v (<[l := cells']> h) (MkVec s' (capacity_ v) (items_ v)).
Proof.
  intros Hok Er E Hlen Hs. pose proof Hok as (H0 & H1 & H2 & H3 & Hl).
  rewrite (block_live _ _ _ _ Er E) in H2, H3.
  unfold evolves, vec_ok, fits. cbn [size_ capacity_ items_].
  rewrite (block_live _ _ l cells' Er) by apply lookup_insert_eq.
  rewrite (block_live _ _ _ _ Er E).
  rewrite Er, lookup_insert_eq.
  split_and!; easy_side.
  intros l0 Hne _. rewrite lookup_insert_ne; [done|congruence].
Qed.

(** A vector that only changed its size. *)
Lemma evolves_resize h v (s' : Z) :
  vec_ok h v -> 0 <= s' <= capacity_ v ->
  evolves h v h (MkVec s' (capacity_ v) (items_ v)).
Proof.
  intros (H0 & H1 & H2 & H3 & Hl) Hs.
  unfold evolves, vec_ok, fits. cbn [size_ capacity_ items_].
  split_and!; easy_side.
Qed.

(** A vector that moved to a new array and gave up the old one. *)
Lemma evolves_realloc h v l' cells' (s' c' : Z) :
  vec_ok h v -> h !! l' = None ->
  0 <= s' <= c' -> Z.of_nat (length cells') = c' ->
  Z.of_nat (length cells') <= max_array_len ->
  evolves h v (<[l' := cells']> (free_block (ArrayPtr.raw_ptr_ (items_ v)) h))
          (MkVec s' c' (ArrayPtr.Make (Some l'))).
Proof.
  intros Hok Hl' Hs Hc Hmax.
  pose proof (fresh_not_owned _ _ _ Hok Hl') as Hne.
  unfold evolves, vec_ok, fits. cbn [size_ capacity_ items_ ArrayPtr.raw_ptr_].
  rewrite (block_live _ _ l' cells') by (done || apply lookup_insert_eq).
  rewrite lookup_insert_eq.
  split_and!; easy_side.
  - intros l0 Hne0 Hne0'. rewrite lookup_insert_ne by congruence.
    destruct (ArrayPtr.raw_ptr_ (items_ v)) as [l|]; cbn; [|done].
    rewrite lookup_delete_ne; [done|congruence].
  - intros l0 [= <-]. by right.
  - intros l0 E0 Hne0. rewrite lookup_insert_ne by congruence.
    rewrite E0. cbn. apply lookup_delete_eq.
Qed.

Lemma evolves_refl h v : vec_ok h v -> evolves h v h v.
Proof. intros Hok. unfold evolves. split_and!; easy_side. Qed.

Lemma Reserve_0 v : Reserve (T:=T) 0 v = Reserve 1 v.
Proof. reflexivity. Qed.

(** [Reserve] in full: what it returns and the heap it leaves. *)
Lemma Reserve_spec h v (n : Z) :
  vec_ok h v -> 0 <= n <= max_array_len ->
  let n' := if n =? 0 then 1 else n in
  exists v' h',
    (forall m, heap m = h -> yields (Reserve n v) m v' h') /\
    evolves h v h' v' /\
    size_ v' = size_ v /\
    capacity_ v' = Z.max (capacity_ v) n' /\
    contents h' v' = contents h v /\
    (n' <= capacity_ v -> v' = v /\ h' = h) /\
    (capacity_ v < n' ->
     block h' (items_ v') =
     contents h v ++ replicate (Z.to_nat (n' - size_ v)) dflt).
Proof.
  intros Hok Hn n'. pose proof Hok as (H0 & H1 & H2 & H3 & Hl).
  assert (Hn' : 0 < n' <= max_array_len).
  { unfold n', max_array_len in *. destruct (Z.eqb_spec n 0); lia. }
  destruct (Z.le_gt_cases n' (capacity_ v)) as [Hle|Hgt].
  - exists v, h. split_and!; easy_side.
    + intros m Hh. by apply Reserve_keep.
    + by apply evolves_refl.
  - assert (ER : Reserve n v = Reserve n' v).
    { unfold n'. destruct (Z.eqb_spec n 0) as [->|]; [apply Reserve_0|done]. }
    destruct (Reserve_grow h v n' Hok Hgt) as (l' & Hl' & Hy); [lia|].
    eexists _, _. split; [rewrite ER; exact Hy|].
    assert (Hlen : length (contents h v ++ replicate (Z.to_nat (n' - size_ v)) dflt)
                   = Z.to_nat n').
    { rewrite length_app, length_replicate, (length_contents _ _ Hok). lia. }
    assert (Hb : block (<[l' := contents h v ++ replicate (Z.to_nat (n' - size_ v)) dflt]>
                          (free_block (ArrayPtr.raw_ptr_ (items_ v)) h))
                       (ArrayPtr.Make (Some l'))
                 = contents h v ++ replicate (Z.to_nat (n' - size_ v)) dflt).
    { apply (block_live _ _ l'); [done|apply lookup_insert_eq]. }
    split_and!; cbn [size_ capacity_ items_]; easy_side.
    + apply evolves_realloc; easy_side.
    + unfold contents at 1. cbn [size_ items_]. rewrite Hb.
      by rewrite take_app_length' by (by rewrite (length_contents _ _ Hok)).
Qed.

Lemma evolves_trans h v h1 v1 h2 v2 :
  evolves h v h1 v1 -> evolves h1 v1 h2 v2 -> evolves h v h2 v2.
Proof.
  intros (Hok1 & Hfr1 & Hnew1 & Hdel1 & Hfit1) (Hok2 & Hfr2 & Hnew2 & Hdel2 & Hfit2).
  assert (Hlive1 : forall l, ArrayPtr.raw_ptr_ (items_ v1) = Some l -> h1 !! l <> None).
  { intros l E. by rewrite (vec_ok_live _ _ _ Hok1 E). }
  split_and!; [done|..|by intros Hfit; apply Hfit2, Hfit1].
  - intros l Hn Hn2.
    destruct (decide (ArrayPtr.raw_ptr_ (items_ v1) = Some l)) as [E1|E1].
    + rewrite (Hdel2 l E1 Hn2). destruct (Hnew1 l E1); [done|congruence].
    + rewrite (Hfr2 l E1 Hn2). by apply Hfr1.
  - intros l E2.
    destruct (decide (ArrayPtr.raw_ptr_ (items_ v) = Some l)) as [E|E]; [by left|].
    destruct (Hnew2 l E2) as [E1|E1]; [by apply Hnew1|].
    right. rewrite <- (Hfr1 l E); [done|].
    intros E1'. by apply (Hlive1 l).
  - intros l E Hn2.
    destruct (decide (ArrayPtr.raw_ptr_ (items_ v1) = Some l)) as [E1|E1].
    + by apply Hdel2.
    + rewrite (Hfr2 l E1 Hn2). by apply Hdel1.
Qed.

Lemma evolves_ok h v h' v' : evolves h v h' v' -> vec_ok h' v'.
Proof. by intros (Hok & _). Qed.

(** [*p = x] for a slot [p] of the vector's buffer. *)
Lemma store_vec h v (i s' : Z) x :
  vec_ok h v ->
  0 <= i < capacity_ v -> 0 <= s' <= capacity_ v ->
  exists h',
    (forall m, heap m = h ->
       yields (store (Ptr (ArrayPtr.raw_ptr_ (items_ v)) i) x) m tt h') /\
    evolves h v h' (MkVec s' (capacity_ v) (items_ v)) /\
    block h' (items_ v) = <[Z.to_nat i := x]> (block h (items_ v)).
Proof.
  intros Hok Hi Hs. pose proof Hok as (H0 & H1 & H2 & H3 & Hl).
  destruct (ArrayPtr.raw_ptr_ (items_ v)) as [l|] eqn:Er.
  - pose proof (vec_ok_live _ _ _ Hok Er) as E.
    exists (<[l := <[Z.to_nat i := x]> (block h (items_ v))]> h). split_and!.
    + intros m Hh. replace i with (Z.of_nat (Z.to_nat i)) at 1 by lia.
      apply (yields_store m h l _ _ x Hh E). lia.
    + apply (evolves_in_place h v l (block h (items_ v))); try done.
      by rewrite length_insert.
    + apply (block_live _ _ l); [done|apply lookup_insert_eq].
  - destruct (vec_ok_null _ _ Hok Er). lia.
Qed.

(** Reading a slot below [size_]. *)
Lemma load_vec h v (i : Z) :
  vec_ok h v -> 0 <= i < capacity_ v ->
  exists x,
    block h (items_ v) !! Z.to_nat i = Some x /\
    forall m, heap m = h ->
      yields (load (Ptr (ArrayPtr.raw_ptr_ (items_ v)) i)) m x h.
Proof.
  intros Hok Hi. pose proof Hok as (H0 & H1 & H2 & H3 & Hl).
  destruct (ArrayPtr.raw_ptr_ (items_ v)) as [l|] eqn:Er.
  - pose proof (vec_ok_live _ _ _ Hok Er) as E.
    destruct (lookup_lt_is_Some_2 (block h (items_ v)) (Z.to_nat i)) as [x Ex]; [lia|].
    exists x. split; [done|]. intros m Hh.
    replace i with (Z.of_nat (Z.to_nat i)) at 1 by lia.
    by apply (yields_load m h l (block h (items_ v))).
  - destruct (vec_ok_null _ _ Hok Er). lia.
Qed.

(** ** PushBack *)

(** The growth step shared by [PushBack] and [Insert]. *)
Lemma grow_if_full h v :
  vec_ok h v ->
  (size_ v = capacity_ v -> 2 * capacity_ v <= max_array_len) ->
  exists v1 h1,
    (forall m, heap m = h ->
       yields (if size_ v =? capacity_ v
               then Reserve (wrap (capacity_ v * 2)) v else ret v) m v1 h1) /\
    evolves h v h1 v1 /\
    size_ v1 = size_ v /\
    capacity_ v1 = grown_capacity (size_ v) (capacity_ v) /\
    size_ v < capacity_ v1 /\
    contents h1 v1 = contents h v /\
    (size_ v <> capacity_ v -> v1 = v /\ h1 = h).
Proof.
  intros Hok Hmax. pose proof Hok as (H0 & H1 & H2 & H3 & Hl).
  unfold grown_capacity.
  destruct (Z.eqb_spec (size_ v) (capacity_ v)) as [Heq|Hne].
  - pose proof max_array_len_lt as Hlt.
    rewrite wrap_small by lia.
    destruct (Reserve_spec h v (capacity_ v * 2) Hok) as
      (v1 & h1 & Hy & Hev & Hs & Hc & Hcont & _ & _); [lia|].
    exists v1, h1. split_and!; easy_side.
    + rewrite Hc. destruct (Z.eqb_spec (capacity_ v * 2) 0), (Z.eqb_spec (capacity_ v) 0); lia.
    + rewrite Hc. destruct (Z.eqb_spec (capacity_ v * 2) 0); lia.
  - exists v, h. split_and!; easy_side.
    + intros m Hh. by apply yields_ret.
    + by apply evolves_refl.
Qed.

Lemma contents_push h v (b : list T) x :
  0 <= size_ v -> (Z.to_nat (size_ v) < length (block h (items_ v)))%nat ->
  b = <[Z.to_nat (size_ v) := x]> (block h (items_ v)) ->
  take (Z.to_nat (size_ v + 1)) b = contents h v ++ [x].
Proof.
  intros H0 Hlt ->. replace (Z.to_nat (size_ v + 1)) with (S (Z.to_nat (size_ v))) by lia.
  rewrite (take_S_r _ _ x) by (by apply list_lookup_insert_eq).
  by rewrite take_insert_ge by lia.
Qed.

(** A reference to an object outside the buffer holds its value whatever
    the vector does. *)
Lemma refers_outside_evolves h v h' v' (r : ref T) x :
  evolves h v h' v' -> refers_outside h v r x -> refers_outside h' v' r x.
Proof.
  intros (Hok & Hfr & Hnew & Hdel & Hfit). destruct r as [p|y]; cbn; [|done].
  intros [Es Hne]. unfold slot in *.
  destruct (base p) as [lp|] eqn:Eb; [|done].
  assert (Hne' : ArrayPtr.raw_ptr_ (items_ v') <> Some lp).
  { intros E'. destruct (Hnew lp E') as [E|E]; [congruence|]. by rewrite E in Es. }
  rewrite (Hfr lp) by congruence. split; [done|congruence].
Qed.

Lemma yields_read h v (r : ref T) x m :
  refers_outside h v r x -> heap m = h -> yields (read r) m x h.
Proof.
  destruct r as [p|y]; cbn.
  - intros [Es _] <-. unfold yields, load. rewrite Es. eexists. split; reflexivity.
  - intros -> Hh. by apply yields_ret.
Qed.

(** A load through a pointer into an array that has been deleted. *)
Lemma read_dangling (l : loc) (i : Z) m :
  heap m !! l = None -> read (InArray (Ptr (Some l) i)) m = Fail undefined_behaviour.
Proof. intros E. unfold read, load, slot. cbn [base]. by rewrite E. Qed.

(** A full vector that grows deletes the array it had. *)
Lemma grow_full_deletes h v v1 h1 l :
  vec_ok h v -> size_ v = capacity_ v -> 2 * capacity_ v <= max_array_len ->
  (forall m, heap m = h ->
     yields (if size_ v =? capacity_ v
             then Reserve (wrap (capacity_ v * 2)) v else ret v) m v1 h1) ->
  ArrayPtr.raw_ptr_ (items_ v) = Some l -> h1 !! l = None.
Proof.
  intros Hok Hs Hmax Hy El. pose proof Hok as (H0 & H1 & H2 & H3 & Hl).
  pose proof max_array_len_lt as Hlt.
  specialize (Hy (MkMem h []) eq_refl).
  destruct (Z.eqb_spec (size_ v) (capacity_ v)); [|lia].
  rewrite wrap_small in Hy by lia.
  set (n' := if capacity_ v * 2 =? 0 then 1 else capacity_ v * 2).
  assert (Hn' : capacity_ v < n' <= max_array_len).
  { unfold n', max_array_len in *. destruct (Z.eqb_spec (capacity_ v * 2) 0); lia. }
  assert (ER : Reserve (capacity_ v * 2) v = Reserve n' v).
  { unfold n'. destruct (Z.eqb_spec (capacity_ v * 2) 0) as [->|]; [apply Reserve_0|done]. }
  rewrite ER in Hy.
  destruct (Reserve_grow h v n' Hok) as (l' & Hl' & Hy'); [lia..|].
  destruct (yields_fun _ _ _ _ _ _ Hy (Hy' (MkMem h []) eq_refl)) as [_ ->].
  pose proof (vec_ok_live _ _ _ Hok El) as Elive.
  rewrite lookup_insert_ne by congruence.
  rewrite El. cbn. apply lookup_delete_eq.
Qed.

(** [PushBack] in both overloads after the growth step: what is left is to
    read [value] and to assign it to the slot at [size_]. *)
Lemma PushBack_after_growth h v v1 h1 (r : ref T) m :
  (forall m, heap m = h ->
     yields (if size_ v =? capacity_ v
             then Reserve (wrap (capacity_ v * 2)) v else ret v) m v1 h1) ->
  vec_ok h1 v1 -> 0 <= size_ v1 < capacity_ v1 ->
  heap m = h ->
  (exists m2, heap m2 = h1 /\
     PushBack r v m =
     (x <- read r ;;
      store (Ptr (ArrayPtr.raw_ptr_ (items_ v1)) (size_ v1)) x ;;;
      ret (MkVec (wrap (size_ v1 + 1)) (capacity_ v1) (items_ v1))) m2) /\
  (exists m2, heap m2 = h1 /\
     PushBack_move r v m =
     (x <- read r ;;
      store (Ptr (ArrayPtr.raw_ptr_ (items_ v1)) (size_ v1)) x ;;;
      ret (MkVec (wrap (size_ v1 + 1)) (capacity_ v1) (items_ v1))) m2).
Proof.
  intros Hy Hok1 Hs1 Hh. destruct (Hy m Hh) as (m1 & E1 & Hh1).
  split.
  - unfold PushBack. unfold bind at 1. rewrite E1.
    eexists. split; [|reflexivity]. done.
  - unfold PushBack_move. unfold bind at 1. rewrite E1.
    destruct (load_vec h1 v1 (size_ v1) Hok1 Hs1) as (y & _ & Hload).
    unfold bind at 1. cbn [ArrayPtr_index record bind ret].
    destruct (Hload (MkMem (heap m1)
                (Indexed (Ptr (ArrayPtr.raw_ptr_ (items_ v1)) (size_ v1)) :: trace m1)) Hh1)
      as (m2 & E2 & Hh2).
    unfold bind at 1. rewrite E2.
    eexists. split; [|reflexivity]. done.
Qed.

Lemma PushBack_full_spec h v (r : ref T) x :
  vec_ok h v ->
  refers_outside h v r x ->
  (size_ v = capacity_ v -> 2 * capacity_ v <= max_array_len) ->
  exists v' h',
    (forall m, heap m = h ->
       yields (PushBack r v) m v' h' /\ yields (PushBack_move r v) m v' h') /\
    evolves h v h' v' /\
    size_ v' = size_ v + 1 /\
    capacity_ v' = grown_capacity (size_ v) (capacity_ v) /\
    contents h' v' = contents h v ++ [x] /\
    (size_ v <> capacity_ v -> items_ v' = items_ v).
Proof.
  intros Hok Hr Hmax.
  destruct (grow_if_full h v Hok Hmax) as
    (v1 & h1 & Hy1 & Hev1 & Hs1 & Hc1 & Hlt1 & Hcont1 & Hsame).
  pose proof (evolves_ok _ _ _ _ Hev1) as Hok1.
  pose proof Hok1 as (H0 & H1 & H2 & H3 & Hl).
  pose proof max_array_len_lt as Hmlt.
  assert (Hw : wrap (size_ v1 + 1) = size_ v + 1) by (rewrite wrap_small; lia).
  destruct (store_vec h1 v1 (size_ v1) (size_ v + 1) x Hok1) as (h2 & Hy2 & Hev2 & Hb2);
    [lia..|].
  pose proof (refers_outside_evolves _ _ _ _ _ _ Hev1 Hr) as Hr1.
  assert (Hrest : forall m2, heap m2 = h1 ->
            yields (x <- read r ;;
                    store (Ptr (ArrayPtr.raw_ptr_ (items_ v1)) (size_ v1)) x ;;;
                    ret (MkVec (wrap (size_ v1 + 1)) (capacity_ v1) (items_ v1))) m2
                   (MkVec (size_ v + 1) (capacity_ v1) (items_ v1)) h2).
  { intros m2 E2.
    eapply yields_bind; [by apply (yields_read h1 v1)|]. intros m3 E3.
    eapply yields_bind; [by apply Hy2|]. intros m4 E4.
    rewrite Hw. by apply yields_ret. }
  exists (MkVec (size_ v + 1) (capacity_ v1) (items_ v1)), h2.
  split_and!; cbn [size_ capacity_ items_]; easy_side.
  - intros m Hh.
    destruct (PushBack_after_growth h v v1 h1 r m Hy1 Hok1) as
      [(m2 & E2 & EP) (m2' & E2' & EM)]; [lia|done|].
    unfold yields. rewrite EP, EM. split; by apply Hrest.
  - by apply (evolves_trans _ _ h1 v1).
  - unfold contents at 1. cbn [size_ items_]. rewrite Hb2, <- Hcont1, <- Hs1.
    apply (contents_push h1 v1 _ x); [lia|lia|done].
  - intros Hne. by destruct (Hsame Hne) as [-> _].
Qed.

(** ** Resize *)

(** [FillByMove] over the slots [a .. b) of the vector's buffer. *)
Lemma fill_vec h v (a b s' : Z) :
  vec_ok h v -> 0 <= a <= b -> b <= capacity_ v -> 0 <= s' <= capacity_ v ->
  exists h',
    (forall m, heap m = h ->
       yields (FillByMove (Ptr (ArrayPtr.raw_ptr_ (items_ v)) a)
                          (Ptr (ArrayPtr.raw_ptr_ (items_ v)) b)) m tt h') /\
    evolves h v h' (MkVec s' (capacity_ v) (items_ v)) /\
    block h' (items_ v) =
      take (Z.to_nat a) (block h (items_ v)) ++ replicate (Z.to_nat (b - a)) dflt ++
      drop (Z.to_nat b) (block h (items_ v)).
Proof.
  intros Hok Hab Hb Hs. pose proof Hok as (H0 & H1 & H2 & H3 & Hl).
  destruct (ArrayPtr.raw_ptr_ (items_ v)) as [l|] eqn:Er.
  - pose proof (vec_ok_live _ _ _ Hok Er) as E.
    set (cells := block h (items_ v)) in *.
    exists (<[l := take (Z.to_nat a) cells ++ replicate (Z.to_nat (b - a)) dflt ++
                   drop (Z.to_nat b) cells]> h).
    split_and!.
    + intros m Hh. unfold FillByMove.
      eapply yields_bind; [apply (yields_range_steps _ _ _ _ _ Hh); lia|]. intros m1 E1.
      rewrite FillByMove_steps_fill.
      replace (Ptr (Some l) a) with (Ptr (Some l) (Z.of_nat (Z.to_nat a)))
        by (f_equal; lia).
      replace (Z.to_nat b) with (Z.to_nat a + Z.to_nat (b - a))%nat by lia.
      apply (yields_fill_steps _ m1 h l cells _ _ E1 E). lia.
    + apply (evolves_in_place h v l cells); try done.
      rewrite !length_app, length_take, length_replicate, length_drop. lia.
    + apply (block_live _ _ l); [done|apply lookup_insert_eq].
  - destruct (vec_ok_null _ _ Hok Er) as [Hs0 Hc0].
    assert (a = 0) as -> by lia. assert (b = 0) as -> by lia.
    exists h. split_and!.
    + intros m Hh. unfold FillByMove.
      eapply yields_bind; [apply (yields_range_steps _ _ _ _ _ Hh); lia|]. intros m1 E1.
      cbn. by apply yields_ret.
    + apply evolves_resize; [|done]. unfold vec_ok. by rewrite Er.
    + by rewrite (block_null h) by done.
Qed.

Lemma take_contents_app h v (n : Z) (k : nat) (tail : list T) :
  vec_ok h v -> size_ v <= n -> (Z.to_nat (n - size_ v) <= k)%nat ->
  take (Z.to_nat n) (contents h v ++ replicate k dflt ++ tail) =
  contents h v ++ replicate (Z.to_nat (n - size_ v)) dflt.
Proof.
  intros Hok Hn Hk. pose proof Hok as (H0 & _).
  rewrite take_app, (length_contents _ _ Hok).
  rewrite take_ge by (rewrite (length_contents _ _ Hok); lia).
  f_equal. rewrite take_app_le by (rewrite length_replicate; lia).
  rewrite take_replicate. f_equal. lia.
Qed.

Lemma Resize_full_spec h v (n : Z) :
  vec_ok h v -> 0 <= n ->
  (capacity_ v < n -> Z.max (2 * capacity_ v) n <= max_array_len) ->
  exists v' h',
    (forall m, heap m = h -> yields (Resize n v) m v' h') /\
    evolves h v h' v' /\
    size_ v' = n /\
    (n = size_ v -> v' = v /\ h' = h) /\
    (n < size_ v ->
       capacity_ v' = capacity_ v /\ items_ v' = items_ v /\ h' = h /\
       contents h' v' = take (Z.to_nat n) (contents h v)) /\
    (size_ v <= n <= capacity_ v ->
       capacity_ v' = capacity_ v /\ items_ v' = items_ v /\
       contents h' v' = contents h v ++ replicate (Z.to_nat (n - size_ v)) dflt) /\
    (capacity_ v < n ->
       capacity_ v' = Z.max (2 * capacity_ v) n /\
       contents h' v' = contents h v ++ replicate (Z.to_nat (n - size_ v)) dflt).
Proof.
  intros Hok Hn Hmax. pose proof Hok as (H0 & H1 & H2 & H3 & Hl).
  pose proof max_array_len_lt as Hmlt.
  destruct (Z.lt_trichotomy n (size_ v)) as [Hlt|[Heq|Hgt]].
  - (* truncate *)
    exists (MkVec n (capacity_ v) (items_ v)), h.
    split_and!; cbn [size_ capacity_ items_]; easy_side.
    + intros m Hh. unfold Resize.
      destruct (Z.eqb_spec n (size_ v)); [lia|].
      destruct (Z.ltb_spec n (size_ v)); [|lia]. cbn [size_ capacity_ items_].
      rewrite Z.ltb_irrefl. cbn [andb].
      eapply yields_bind; [by apply yields_ret|]. intros m1 E1.
      cbn [capacity_]. destruct (Z.ltb_spec (capacity_ v) n); [lia|].
      by apply yields_ret.
    + apply evolves_resize; [done|lia].
    + intros _. split_and!; try done. unfold contents; cbn [size_ items_].
      rewrite take_take. f_equal. lia.
  - (* same size *)
    exists v, h. split_and!; easy_side.
    + intros m Hh. unfold Resize.
      destruct (Z.eqb_spec n (size_ v)); [|lia]. by apply yields_ret.
    + by apply evolves_refl.
    + intros _. split_and!; try done. subst n.
      rewrite Z.sub_diag. cbn. by rewrite app_nil_r.
  - destruct (Z.le_gt_cases n (capacity_ v)) as [Hle|Hgrow].
    + (* fill in place *)
      destruct (fill_vec h v (size_ v) n n Hok) as (h1 & Hy1 & Hev1 & Hb1); [lia..|].
      exists (MkVec n (capacity_ v) (items_ v)), h1.
      split_and!; cbn [size_ capacity_ items_]; easy_side.
      * intros m Hh. unfold Resize.
        destruct (Z.eqb_spec n (size_ v)); [lia|].
        destruct (Z.ltb_spec n (size_ v)); [lia|].
        destruct (Z.ltb_spec (size_ v) n); [|lia].
        destruct (Z.leb_spec n (capacity_ v)); [|lia]. cbn [andb].
        eapply yields_bind.
        { eapply yields_bind; [by apply yields_index|]. intros m1 E1.
          eapply yields_bind; [by apply yields_index|]. intros m2 E2.
          eapply yields_bind; [by apply yields_index|]. intros m3 E3.
          eapply yields_bind; [by apply Hy1|]. intros m4 E4.
          by apply yields_ret. }
        intros m5 E5. cbn [capacity_].
        destruct (Z.ltb_spec (capacity_ v) n); [lia|]. by apply yields_ret.
      * intros _. split_and!; try done.
        unfold contents at 1. cbn [size_ items_]. rewrite Hb1.
        apply (take_contents_app h v n); [done|lia|lia].
    + (* reallocate *)
      specialize (Hmax Hgrow).
      set (N := Z.max (2 * capacity_ v) n) in *.
      destruct (Reserve_spec h v N Hok) as
        (v1 & h1 & Hy1 & Hev1 & Hs1 & Hc1 & Hcont1 & _ & Hb1); [lia|].
      assert (HN : (if N =? 0 then 1 else N) = N) by (destruct (Z.eqb_spec N 0); lia).
      rewrite HN in Hc1, Hb1.
      pose proof (evolves_ok _ _ _ _ Hev1) as Hok1.
      exists (MkVec n (capacity_ v1) (items_ v1)), h1.
      split_and!; cbn [size_ capacity_ items_]; easy_side.
      * intros m Hh. unfold Resize.
        destruct (Z.eqb_spec n (size_ v)); [lia|].
        destruct (Z.ltb_spec n (size_ v)); [lia|].
        destruct (Z.leb_spec n (capacity_ v)); [lia|].
        rewrite andb_false_r.
        eapply yields_bind; [by apply yields_ret|]. intros m1 E1.
        destruct (Z.ltb_spec (capacity_ v) n); [|lia].
        rewrite wrap_small by lia. replace (capacity_ v * 2) with (2 * capacity_ v) by lia.
        eapply yields_bind; [by apply Hy1|]. intros m2 E2.
        by apply yields_ret.
      * apply (evolves_trans _ _ h1 v1); [done|].
        apply evolves_resize; [done|lia].
      * intros _. split; [lia|].
        unfold contents at 1. cbn [size_ items_]. rewrite Hb1 by lia.
        rewrite <- (app_nil_r (replicate (Z.to_nat (N - size_ v)) dflt)).
        apply (take_contents_app h v n); [done|lia|lia].
Qed.

(** ** The shifting loops of Insert and Erase *)

(** [std::copy_backward] inside one array: the slots [e-k .. e) move one
    slot towards the tail. *)
Lemma yields_copy_backward_steps k : forall m h l cells (e : nat),
  heap m = h -> h !! l = Some cells ->
  (k <= e)%nat -> (e < length cells)%nat ->
  yields (copy_backward_steps k (Ptr (Some l) (Z.of_nat e)) (Ptr (Some l) (Z.of_nat (S e)))) m
         (Ptr (Some l) (Z.of_nat (S e - k)))
         (<[l := take (S (e - k)) cells ++ take k (drop (e - k) cells) ++
                 drop (S e) cells]> h).
Proof.
  induction k as [|k IH]; intros m h l cells e Hh E Hk He.
  - cbn [copy_backward_steps]. rewrite !Nat.sub_0_r, take_0. cbn [app].
    rewrite take_drop, insert_id by done. by apply yields_ret.
  - destruct e as [|e']; [lia|].
    cbn [copy_backward_steps]. rewrite !prev_of_nat.
    destruct (lookup_lt_is_Some_2 cells e') as [x Ex]; [lia|].
    eapply yields_bind; [by apply (yields_load m h l cells e' x)|]. intros m1 E1.
    eapply yields_bind; [apply (yields_store m1 h l cells (S e') x E1 E); lia|].
    intros m2 E2.
    replace (S (S e') - S k)%nat with (S e' - k)%nat by lia.
    eapply yields_heap_eq.
    { apply (IH m2 _ l (<[S e' := x]> cells) e' E2).
      - apply lookup_insert_eq.
      - lia.
      - rewrite length_insert. lia. }
    rewrite insert_insert_eq. f_equal.
    replace (S e' - S k)%nat with (e' - k)%nat by lia.
    set (d := (e' - k)%nat).
    rewrite take_insert_ge by lia.
    rewrite drop_insert_ge by lia.
    rewrite take_insert_ge by lia.
    f_equal.
    assert (Hx : drop d cells !! k = Some x).
    { rewrite lookup_drop. by replace (d + k)%nat with e' by lia. }
    rewrite (take_S_r _ _ x Hx), <- app_assoc. f_equal. cbn [app]. 
    rewrite drop_insert_ge by lia. rewrite Nat.sub_diag.
    destruct (lookup_lt_is_Some_2 cells (S e')) as [y Ey]; [lia|].
    by rewrite (drop_S cells y (S e') Ey).
Qed.

(** The loop of [Erase] inside one array: the slots [i+1 .. i+k] move one
    slot towards the head. *)
Lemma yields_Erase_steps k : forall m h this l cells (i : nat),
  heap m = h -> h !! l = Some cells -> (i + k < length cells)%nat ->
  yields (Erase_steps k this (Ptr (Some l) (Z.of_nat i)) (Ptr (Some l) (Z.of_nat (S i)))) m tt
         (<[l := take i cells ++ take k (drop (S i) cells) ++ drop (i + k) cells]> h).
Proof.
  induction k as [|k IH]; intros m h this l cells i Hh E Hk.
  - cbn [Erase_steps]. rewrite Nat.add_0_r, take_0. cbn [app].
    rewrite take_drop, insert_id by done.
    eapply yields_bind; [by apply yields_index|]. intros m1 E1. by apply yields_ret.
  - cbn [Erase_steps].
    eapply yields_bind; [by apply yields_index|]. intros m1 E1.
    destruct (lookup_lt_is_Some_2 cells i) as [y Ey]; [lia|].
    destruct (lookup_lt_is_Some_2 cells (S i)) as [x Ex]; [lia|].
    eapply yields_bind.
    { unfold std_exchange.
      eapply yields_bind; [by apply (yields_load m1 h l cells i y)|]. intros m2 E2.
      eapply yields_bind; [by apply (yields_load m2 h l cells (S i) x)|]. intros m3 E3.
      eapply yields_bind; [apply (yields_store m3 h l cells i x E3 E); lia|]. intros m4 E4.
      by apply yields_ret. }
    intros m5 E5. rewrite !next_of_nat.
    eapply yields_heap_eq.
    { apply (IH m5 _ this l (<[i := x]> cells) (S i) E5).
      - apply lookup_insert_eq.
      - rewrite length_insert. lia. }
    rewrite insert_insert_eq. f_equal.
    rewrite (take_S_r _ _ x) by (apply list_lookup_insert_eq; lia).
    rewrite take_insert_ge by lia.
    rewrite !drop_insert_lt by lia.
    rewrite <- app_assoc. f_equal. cbn [app].
    rewrite (drop_S cells x (S i) Ex). cbn [take].
    by replace (S i + k)%nat with (i + S k)%nat by lia.
Qed.

Lemma vec_eta v : MkVec (size_ v) (capacity_ v) (items_ v) = v.
Proof. by destruct v. Qed.

Lemma vec_ok_nonnull h v :
  vec_ok h v -> 0 < capacity_ v ->
  exists l, ArrayPtr.raw_ptr_ (items_ v) = Some l /\ h !! l = Some (block h (items_ v)).
Proof.
  intros Hok Hc. destruct (ArrayPtr.raw_ptr_ (items_ v)) as [l|] eqn:Er.
  - exists l. split; [done|]. by apply vec_ok_live.
  - destruct (vec_ok_null _ _ Hok Er). lia.
Qed.

(** The shift of [Insert]: elements [i .. size_) move to [i+1 .. size_]. *)
Lemma shift_right_vec h v (i : Z) :
  vec_ok h v -> 0 <= i <= size_ v -> size_ v < capacity_ v ->
  exists h',
    (forall m, heap m = h ->
       yields (std_copy_backward (Ptr (ArrayPtr.raw_ptr_ (items_ v)) i)
                                 (Ptr (ArrayPtr.raw_ptr_ (items_ v)) (size_ v))
                                 (next (Ptr (ArrayPtr.raw_ptr_ (items_ v)) (size_ v)))) m
              (Ptr (ArrayPtr.raw_ptr_ (items_ v)) (i + 1)) h') /\
    evolves h v h' v /\
    block h' (items_ v) =
      take (S (Z.to_nat i)) (block h (items_ v)) ++
      take (Z.to_nat (size_ v - i)) (drop (Z.to_nat i) (block h (items_ v))) ++
      drop (S (Z.to_nat (size_ v))) (block h (items_ v)).
Proof.
  intros Hok Hi Hc. pose proof Hok as (H0 & H1 & H2 & H3 & Hl).
  destruct (vec_ok_nonnull h v Hok) as (l & Er & E); [lia|].
  set (cells := block h (items_ v)) in *. rewrite Er.
  set (e := Z.to_nat (size_ v)). set (k := Z.to_nat (size_ v - i)).
  assert (Hik : Z.to_nat i = (e - k)%nat) by lia.
  exists (<[l := take (S (e - k)) cells ++ take k (drop (e - k) cells) ++
                 drop (S e) cells]> h).
  split_and!.
  - intros m Hh. unfold std_copy_backward.
    eapply yields_bind; [apply (yields_range_steps _ _ _ _ _ Hh); lia|]. intros m1 E1.
    replace (next (Ptr (Some l) (size_ v))) with (Ptr (Some l) (Z.of_nat (S e)))
      by (unfold next; cbn; f_equal; lia).
    replace (Ptr (Some l) (size_ v)) with (Ptr (Some l) (Z.of_nat e)) by (f_equal; lia).
    replace (Ptr (Some l) (i + 1)) with (Ptr (Some l) (Z.of_nat (S e - k)))
      by (f_equal; lia).
    apply (yields_copy_backward_steps k m1 h l cells e E1 E); lia.
  - rewrite <- (vec_eta v) at 2.
    apply (evolves_in_place h v l cells); try done; try lia.
    rewrite !length_app, !length_take, !length_drop. lia.
  - rewrite Hik. apply (block_live _ _ l); [done|apply lookup_insert_eq].
Qed.

(** The shift of [Erase]: elements [i+1 .. size_) move to [i .. size_-1). *)
Lemma shift_left_vec h v (i : Z) :
  vec_ok h v -> 0 <= i < size_ v ->
  exists h',
    (forall m, heap m = h ->
       yields (Erase_steps (Z.to_nat (size_ v - (i + 1))) v
                 (Ptr (ArrayPtr.raw_ptr_ (items_ v)) i)
                 (next (Ptr (ArrayPtr.raw_ptr_ (items_ v)) i))) m tt h') /\
    evolves h v h' (MkVec (size_ v - 1) (capacity_ v) (items_ v)) /\
    block h' (items_ v) =
      take (Z.to_nat i) (block h (items_ v)) ++
      take (Z.to_nat (size_ v - (i + 1))) (drop (S (Z.to_nat i)) (block h (items_ v))) ++
      drop (Z.to_nat (size_ v - 1)) (block h (items_ v)).
Proof.
  intros Hok Hi. pose proof Hok as (H0 & H1 & H2 & H3 & Hl).
  destruct (vec_ok_nonnull h v Hok) as (l & Er & E); [lia|].
  set (cells := block h (items_ v)) in *. rewrite Er.
  set (k := Z.to_nat (size_ v - (i + 1))).
  replace (Z.to_nat (size_ v - 1)) with (Z.to_nat i + k)%nat by lia.
  exists (<[l := take (Z.to_nat i) cells ++ take k (drop (S (Z.to_nat i)) cells) ++
                 drop (Z.to_nat i + k) cells]> h).
  split_and!.
  - intros m Hh.
    replace (next (Ptr (Some l) i)) with (Ptr (Some l) (Z.of_nat (S (Z.to_nat i))))
      by (unfold next; cbn; f_equal; lia).
    replace (Ptr (Some l) i) with (Ptr (Some l) (Z.of_nat (Z.to_nat i))) by (f_equal; lia).
    apply (yields_Erase_steps k m h v l cells _ Hh E). lia.
  - apply (evolves_in_place h v l cells); try done; try lia.
    rewrite !length_app, !length_take, !length_drop. lia.
  - apply (block_live _ _ l); [done|apply lookup_insert_eq].
Qed.

(** ** Insert and Erase *)

Lemma insert_shift_list (b : list T) (i s : nat) x :
  (i <= s)%nat -> (s < length b)%nat ->
  take (S s) (<[i := x]> (take (S i) b ++ take (s - i) (drop i b) ++ drop (S s) b)) =
  take i (take s b) ++ x :: drop i (take s b).
Proof.
  intros Hi Hs.
  destruct (lookup_lt_is_Some_2 b i) as [y Ey]; [lia|].
  rewrite (take_S_r _ _ y Ey), <- app_assoc.
  rewrite insert_app_r_alt by (rewrite length_take; lia).
  rewrite length_take, Nat.min_l, Nat.sub_diag by lia. cbn [app].
  change (<[0%nat := x]> (y :: ?t)) with (x :: t).
  rewrite take_take, Nat.min_l by lia.
  replace (drop i (take s b)) with (take (s - i) (drop i b))
    by (rewrite take_drop_commute; do 2 f_equal; lia).
  change (take i b ++ x :: take (s - i) (drop i b) ++ drop (S s) b)
    with (take i b ++ (x :: take (s - i) (drop i b)) ++ drop (S s) b).
  rewrite app_assoc. apply take_app_length'.
  rewrite length_app, length_take. cbn [length]. rewrite length_take, length_drop. lia.
Qed.

Lemma erase_shift_list (b : list T) (i s : nat) :
  (i < s)%nat -> (s <= length b)%nat ->
  take (s - 1) (take i b ++ take (s - S i) (drop (S i) b) ++ drop (s - 1) b) =
  take i (take s b) ++ drop (S i) (take s b).
Proof.
  intros Hi Hs.
  rewrite take_take, Nat.min_l by lia.
  replace (drop (S i) (take s b)) with (take (s - S i) (drop (S i) b))
    by (rewrite take_drop_commute; do 2 f_equal; lia).
  rewrite app_assoc. apply take_app_length'.
  rewrite length_app, !length_take, length_drop. lia.
Qed.

Lemma Erase_full_spec h v (i : Z) :
  vec_ok h v -> 0 <= i < size_ v ->
  exists h',
    (forall m, heap m = h ->
       yields (Erase (Ptr (ArrayPtr.raw_ptr_ (items_ v)) i) v) m
              (Ptr (ArrayPtr.raw_ptr_ (items_ v)) i,
               MkVec (size_ v - 1) (capacity_ v) (items_ v)) h') /\
    evolves h v h' (MkVec (size_ v - 1) (capacity_ v) (items_ v)) /\
    contents h' (MkVec (size_ v - 1) (capacity_ v) (items_ v)) =
      take (Z.to_nat i) (contents h v) ++ drop (S (Z.to_nat i)) (contents h v).
Proof.
  intros Hok Hi. pose proof Hok as (H0 & H1 & H2 & H3 & Hl).
  pose proof max_array_len_lt as Hmlt.
  destruct (shift_left_vec h v i Hok Hi) as (h' & Hy & Hev & Hb).
  exists h'. split_and!; [|done|].
  - intros m Hh. unfold Erase.
    eapply yields_bind; [by apply yields_index|]. intros m1 E1.
    eapply yields_bind; [by apply yields_index|]. intros m2 E2.
    eapply yields_bind.
    { apply (yields_assert _ _ _ E2). unfold ptr_le, ptr_lt; cbn [base off].
      rewrite bool_decide_eq_true_2 by done. cbn [andb].
      apply andb_true_iff. split; [apply Z.leb_le|apply Z.ltb_lt]; lia. }
    intros m3 E3.
    eapply yields_bind; [by apply yields_index|]. intros m4 E4.
    unfold distance; cbn [off]. rewrite Z.sub_0_r, wrap_small by lia.
    eapply yields_bind; [by apply yields_index|]. intros m5 E5.
    eapply yields_bind.
    { unfold next at 1; cbn [base off].
      apply (yields_range_steps _ _ _ _ _ E5). lia. }
    intros m6 E6.
    eapply yields_bind; [by apply Hy|]. intros m7 E7.
    rewrite wrap_small by lia. by apply yields_ret.
  - unfold contents at 1. cbn [size_ items_]. rewrite Hb. unfold contents.
    replace (Z.to_nat (size_ v - 1)) with (Z.to_nat (size_ v) - 1)%nat by lia.
    replace (Z.to_nat (size_ v - (i + 1))) with (Z.to_nat (size_ v) - S (Z.to_nat i))%nat by lia.
    apply erase_shift_list; lia.
Qed.

(** [Insert] up to the assignment [*pos2 = value]: the vector has grown when
    it was full, and the elements from [i] on have moved up by one slot. *)
Lemma Insert_after_shift h v (i : Z) :
  vec_ok h v -> 0 <= i < size_ v ->
  (size_ v = capacity_ v -> 2 * capacity_ v <= max_array_len) ->
  exists v1 h1 h2,
    (forall m, heap m = h ->
       yields (if size_ v =? capacity_ v
               then Reserve (wrap (capacity_ v * 2)) v else ret v) m v1 h1) /\
    evolves h v h1 v1 /\
    size_ v1 = size_ v /\
    capacity_ v1 = grown_capacity (size_ v) (capacity_ v) /\
    size_ v < capacity_ v1 /\
    contents h1 v1 = contents h v /\
    (size_ v <> capacity_ v -> v1 = v /\ h1 = h) /\
    evolves h1 v1 h2 v1 /\
    block h2 (items_ v1) =
      take (S (Z.to_nat i)) (block h1 (items_ v1)) ++
      take (Z.to_nat (size_ v - i)) (drop (Z.to_nat i) (block h1 (items_ v1))) ++
      drop (S (Z.to_nat (size_ v))) (block h1 (items_ v1)) /\
    forall (r : ref T) m, heap m = h ->
      exists m2, heap m2 = h2 /\
        Insert (Ptr (ArrayPtr.raw_ptr_ (items_ v)) i) r v m =
        (x <- read r ;;
         store (Ptr (ArrayPtr.raw_ptr_ (items_ v1)) i) x ;;;
         ret (Ptr (ArrayPtr.raw_ptr_ (items_ v1)) i,
              MkVec (wrap (size_ v1 + 1)) (capacity_ v1) (items_ v1))) m2.
Proof.
  intros Hok Hi Hmax. pose proof Hok as (H0 & H1 & H2 & H3 & Hl).
  destruct (grow_if_full h v Hok Hmax) as
    (v1 & h1 & Hy1 & Hev1 & Hs1 & Hc1 & Hlt1 & Hcont1 & Hsame).
  pose proof (evolves_ok _ _ _ _ Hev1) as Hok1.
  destruct (shift_right_vec h1 v1 i Hok1) as (h2 & Hy2 & Hev2 & Hb2); [lia..|].
  rewrite Hs1 in Hb2.
  exists v1, h1, h2. split_and!; try done.
  intros r m Hh. unfold Insert.
  eapply (goes_on_bind _ _ _ _ _ _ _ (fun o => o)); [by apply yields_index|]. intros m1 E1.
  eapply (goes_on_bind _ _ _ _ _ _ _ (fun o => o)); [by apply yields_index|]. intros m2 E2.
  eapply (goes_on_bind _ _ _ _ _ _ _ (fun o => o)).
  { apply (yields_assert _ _ _ E2). unfold ptr_le, ptr_lt; cbn [base off].
    rewrite bool_decide_eq_true_2 by done. cbn [andb].
    apply andb_true_iff. split; [apply Z.leb_le|apply Z.ltb_lt]; lia. }
  intros m3 E3.
  eapply (goes_on_bind _ _ _ _ _ _ _ (fun o => o)); [by apply yields_index|]. intros m4 E4.
  unfold distance; cbn [off]. rewrite Z.sub_0_r.
  eapply (goes_on_bind _ _ _ _ _ _ _ (fun o => o)); [by apply Hy1|]. intros m5 E5.
  eapply (goes_on_bind _ _ _ _ _ _ _ (fun o => o)); [by apply yields_index|]. intros m6 E6.
  unfold next_n; cbn [base off]. rewrite Z.add_0_l.
  eapply (goes_on_bind _ _ _ _ _ _ _ (fun o => o)); [by apply yields_index|]. intros m7 E7.
  eapply (goes_on_bind _ _ _ _ _ _ _ (fun o => o)); [by apply yields_index|]. intros m8 E8.
  eapply (goes_on_bind _ _ _ _ _ _ _ (fun o => o)); [by apply Hy2|]. intros m9 E9.
  by exists m9.
Qed.

(** [Insert] in full, given the value the read of [value] finds after the
    shift. *)
Lemma Insert_stores h v (i : Z) :
  vec_ok h v -> 0 <= i < size_ v ->
  (size_ v = capacity_ v -> 2 * capacity_ v <= max_array_len) ->
  exists v1 h1 h2,
    evolves h v h1 v1 /\
    (size_ v <> capacity_ v -> v1 = v /\ h1 = h) /\
    evolves h1 v1 h2 v1 /\
    block h2 (items_ v1) =
      take (S (Z.to_nat i)) (block h1 (items_ v1)) ++
      take (Z.to_nat (size_ v - i)) (drop (Z.to_nat i) (block h1 (items_ v1))) ++
      drop (S (Z.to_nat (size_ v))) (block h1 (items_ v1)) /\
    forall (r : ref T) x,
      (forall m, heap m = h2 -> yields (read r) m x h2) ->
      exists v' h',
        (forall m, heap m = h ->
           yields (Insert (Ptr (ArrayPtr.raw_ptr_ (items_ v)) i) r v) m
                  (Ptr (ArrayPtr.raw_ptr_ (items_ v')) i, v') h') /\
        evolves h v h' v' /\
        size_ v' = size_ v + 1 /\
        capacity_ v' = grown_capacity (size_ v) (capacity_ v) /\
        contents h' v' =
          take (Z.to_nat i) (contents h v) ++ x :: drop (Z.to_nat i) (contents h v) /\
        (size_ v <> capacity_ v -> items_ v' = items_ v).
Proof.
  intros Hok Hi Hmax. pose proof Hok as (H0 & H1 & H2 & H3 & Hl).
  pose proof max_array_len_lt as Hmlt.
  destruct (Insert_after_shift h v i Hok Hi Hmax) as
    (v1 & h1 & h2 & Hy1 & Hev1 & Hs1 & Hc1 & Hlt1 & Hcont1 & Hsame & Hev2 & Hb2 & Hrun).
  exists v1, h1, h2. split_and!; try done. intros r x Hread.
  pose proof (evolves_ok _ _ _ _ Hev1) as Hok1.
  pose proof (evolves_ok _ _ _ _ Hev2) as Hok2.
  destruct (store_vec h2 v1 i (size_ v + 1) x Hok2) as (h3 & Hy3 & Hev3 & Hb3); [lia..|].
  pose proof Hok1 as (H0' & H1' & H2' & H3' & Hl').
  exists (MkVec (size_ v + 1) (capacity_ v1) (items_ v1)), h3.
  split_and!; cbn [size_ capacity_ items_]; easy_side.
  - intros m Hh. destruct (Hrun r m Hh) as (m2 & E2 & ER).
    apply (yields_run_eq _ _ _ _ _ _ ER).
    eapply yields_bind; [by apply Hread|]. intros m3 E3.
    eapply yields_bind; [by apply Hy3|]. intros m4 E4.
    rewrite Hs1, wrap_small by lia. by apply yields_ret.
  - apply (evolves_trans _ _ h1 v1); [done|].
    by apply (evolves_trans _ _ h2 v1).
  - unfold contents at 1. cbn [size_ items_]. rewrite Hb3, Hb2, <- Hcont1.
    unfold contents. rewrite Hs1.
    replace (Z.to_nat (size_ v + 1)) with (S (Z.to_nat (size_ v))) by lia.
    replace (Z.to_nat (size_ v - i)) with (Z.to_nat (size_ v) - Z.to_nat i)%nat by lia.
    apply insert_shift_list; lia.
  - intros Hne. by destruct (Hsame Hne) as [-> _].
Qed.

Lemma Insert_full_spec h v (i : Z) (r : ref T) x :
  vec_ok h v -> 0 <= i < size_ v ->
  refers_outside h v r x ->
  (size_ v = capacity_ v -> 2 * capacity_ v <= max_array_len) ->
  exists v' h',
    (forall m, heap m = h ->
       yields (Insert (Ptr (ArrayPtr.raw_ptr_ (items_ v)) i) r v) m
              (Ptr (ArrayPtr.raw_ptr_ (items_ v')) i, v') h') /\
    evolves h v h' v' /\
    size_ v' = size_ v + 1 /\
    capacity_ v' = grown_capacity (size_ v) (capacity_ v) /\
    contents h' v' =
      take (Z.to_nat i) (contents h v) ++ x :: drop (Z.to_nat i) (contents h v) /\
    (size_ v <> capacity_ v -> items_ v' = items_ v).
Proof.
  intros Hok Hi Hr Hmax.
  destruct (Insert_stores h v i Hok Hi Hmax) as
    (v1 & h1 & h2 & Hev1 & _ & Hev2 & _ & Hfin).
  apply (Hfin r x). intros m Hh.
  apply (yields_read h2 v1); [|done].
  by apply (refers_outside_evolves _ _ _ _ _ _ (evolves_trans _ _ _ _ _ _ Hev1 Hev2)).
Qed.

(** ** The second overloads *)

Lemma Insert_move_eq p (r : ref T) v : Insert_move p r v = Insert p r v.
Proof. reflexivity. Qed.

(** ** Comparisons *)

Lemma yields_equal_steps k : forall h l1 l2 c1 c2 (o1 o2 : nat),
  h !! l1 = Some c1 -> h !! l2 = Some c2 ->
  (o1 + k <= length c1)%nat -> (o2 + k <= length c2)%nat ->
  forall m, heap m = h ->
    yields (equal_steps k (Ptr (Some l1) (Z.of_nat o1)) (Ptr (Some l2) (Z.of_nat o2))) m
           (seq_equal (take k (drop o1 c1)) (take k (drop o2 c2))) h.
Proof.
  induction k as [|k IH]; intros h l1 l2 c1 c2 o1 o2 E1 E2 H1 H2 m Hh.
  - cbn. by apply yields_ret.
  - cbn [equal_steps].
    destruct (lookup_lt_is_Some_2 c1 o1) as [x Ex]; [lia|].
    destruct (lookup_lt_is_Some_2 c2 o2) as [y Ey]; [lia|].
    rewrite (drop_S c1 x o1 Ex), (drop_S c2 y o2 Ey). cbn [take seq_equal].
    eapply yields_bind; [by apply (yields_load m h l1 c1 o1 x)|]. intros m1 Hm1.
    eapply yields_bind; [by apply (yields_load m1 h l2 c2 o2 y)|]. intros m2 Hm2.
    destruct (negb (elt_eqb x y)); [by apply yields_ret|].
    rewrite !next_of_nat. apply IH; try done; lia.
Qed.

Lemma yields_lexicographical_steps k1 : forall k2 h l1 l2 c1 c2 (o1 o2 : nat),
  h !! l1 = Some c1 -> h !! l2 = Some c2 ->
  (o1 + k1 <= length c1)%nat -> (o2 + k2 <= length c2)%nat ->
  forall m, heap m = h ->
    yields (lexicographical_steps k1 k2 (Ptr (Some l1) (Z.of_nat o1))
                                         (Ptr (Some l2) (Z.of_nat o2))) m
           (seq_less (take k1 (drop o1 c1)) (take k2 (drop o2 c2))) h.
Proof.
  induction k1 as [|k1 IH]; intros k2 h l1 l2 c1 c2 o1 o2 E1 E2 H1 H2 m Hh.
  - destruct k2 as [|k2].
    + cbn. by apply yields_ret.
    + destruct (lookup_lt_is_Some_2 c2 o2) as [y Ey]; [lia|].
      rewrite (drop_S c2 y o2 Ey). cbn. by apply yields_ret.
  - destruct (lookup_lt_is_Some_2 c1 o1) as [x Ex]; [lia|].
    rewrite (drop_S c1 x o1 Ex).
    destruct k2 as [|k2].
    + cbn. by apply yields_ret.
    + destruct (lookup_lt_is_Some_2 c2 o2) as [y Ey]; [lia|].
      rewrite (drop_S c2 y o2 Ey). cbn [take seq_less lexicographical_steps].
      eapply yields_bind; [by apply (yields_load m h l1 c1 o1 x)|]. intros m1 Hm1.
      eapply yields_bind; [by apply (yields_load m1 h l2 c2 o2 y)|]. intros m2 Hm2.
      destruct (elt_ltb x y); [by apply yields_ret|].
      destruct (elt_ltb y x); [by apply yields_ret|].
      rewrite !next_of_nat. apply IH; try done; lia.
Qed.

(** The range [begin() .. end()) of a vector, as a run of [k] slots of an
    array; an empty vector without a buffer has no array to read. *)
Lemma vec_range h v :
  vec_ok h v ->
  (size_ v = 0 /\ contents h v = []) \/
  (exists l, ArrayPtr.raw_ptr_ (items_ v) = Some l /\
             h !! l = Some (block h (items_ v)) /\
             (Z.to_nat (size_ v) <= length (block h (items_ v)))%nat).
Proof.
  intros Hok. pose proof Hok as (H0 & H1 & H2 & H3 & Hl).
  destruct (ArrayPtr.raw_ptr_ (items_ v)) as [l|] eqn:Er.
  - right. exists l. split_and!; [done| |lia]. by apply vec_ok_live.
  - left. destruct (vec_ok_null _ _ Hok Er) as [Hs _]. split; [done|].
    unfold contents. by rewrite Hs.
Qed.

Lemma operator_eq_spec h a b :
  vec_ok h a -> vec_ok h b ->
  forall m, heap m = h ->
    yields (operator_eq a b) m
           ((size_ a =? size_ b) && seq_equal (contents h a) (contents h b)) h.
Proof.
  intros Ha Hb m Hh. unfold operator_eq, GetSize.
  destruct (Z.eqb_spec (size_ a) (size_ b)) as [Hs|Hs]; cbn [negb andb];
    [|by apply yields_ret].
  eapply yields_bind; [by apply yields_index|]. intros m1 E1.
  eapply yields_bind; [by apply yields_index|]. intros m2 E2.
  eapply yields_bind; [by apply yields_index|]. intros m3 E3.
  unfold std_equal.
  pose proof Ha as (H0 & _).
  eapply yields_bind; [apply (yields_range_steps _ _ _ _ _ E3); lia|]. intros m4 E4.
  rewrite Z.sub_0_r.
  destruct (vec_range h a Ha) as [[Hz Hc]|(la & Era & Ea & Hla)].
  { rewrite Hz, Hc. cbn. by apply yields_ret. }
  destruct (vec_range h b Hb) as [[Hz Hc]|(lb & Erb & Eb & Hlb)].
  { rewrite Hs, Hz. cbn. unfold contents. rewrite Hs, Hz. cbn. by apply yields_ret. }
  rewrite Era, Erb. unfold contents. rewrite <- Hs.
  apply (yields_equal_steps _ h la lb _ _ 0 0 Ea Eb); cbn; try lia. done.
Qed.

Lemma operator_lt_spec h a b :
  vec_ok h a -> vec_ok h b ->
  forall m, heap m = h ->
    yields (operator_lt a b) m (seq_less (contents h a) (contents h b)) h.
Proof.
  intros Ha Hb m Hh. unfold operator_lt.
  eapply yields_bind; [by apply yields_index|]. intros m1 E1.
  eapply yields_bind; [by apply yields_index|]. intros m2 E2.
  eapply yields_bind; [by apply yields_index|]. intros m3 E3.
  eapply yields_bind; [by apply yields_index|]. intros m4 E4.
  unfold std_lexicographical_compare.
  pose proof Ha as (H0a & _). pose proof Hb as (H0b & _).
  eapply yields_bind; [apply (yields_range_steps _ _ _ _ _ E4); lia|]. intros m5 E5.
  eapply yields_bind; [apply (yields_range_steps _ _ _ _ _ E5); lia|]. intros m6 E6.
  rewrite !Z.sub_0_r.
  destruct (vec_range h a Ha) as [[Hz Hc]|(la & Era & Ea & Hla)];
    destruct (vec_range h b Hb) as [[Hz' Hc']|(lb & Erb & Eb & Hlb)].
  - rewrite Hz, Hz', Hc, Hc'. cbn. by apply yields_ret.
  - rewrite Hz, Hc, Erb. unfold contents. cbn [Z.to_nat].
    apply (yields_lexicographical_steps 0 _ h lb lb _ _ 0 0 Eb Eb); cbn; try lia. done.
  - rewrite Hz', Hc', Era. unfold contents.
    replace (Z.to_nat 0) with 0%nat by done.
    destruct (Z.to_nat (size_ a)); cbn; [by apply yields_ret|].
    destruct (take _ _); by apply yields_ret.
  - rewrite Era, Erb. unfold contents.
    apply (yields_lexicographical_steps _ _ h la lb _ _ 0 0 Ea Eb); cbn; try lia. done.
Qed.

(** ** Constructors, copy assignment and destruction *)

Lemma vec_ok_default h : vec_ok h SimpleVector_default.
Proof. unfold vec_ok, max_array_len. cbn. lia. Qed.

Lemma vec_ok_null_buffer h : vec_ok h (MkVec 0 0 (ArrayPtr.Make None)).
Proof. apply vec_ok_default. Qed.

(** A vector that gave up its array and holds none. *)
Lemma evolves_release h v :
  vec_ok h v ->
  evolves h v (free_block (ArrayPtr.raw_ptr_ (items_ v)) h) (MkVec 0 0 (ArrayPtr.Make None)).
Proof.
  intros Hok. unfold evolves. split; [apply vec_ok_null_buffer|].
  split_and!; cbn [items_ ArrayPtr.raw_ptr_]; easy_side.
  - intros l Hne _. destruct (ArrayPtr.raw_ptr_ (items_ v)) as [l0|]; cbn; [|done].
    rewrite lookup_delete_ne; [done|congruence].
  - intros l E _. rewrite E. cbn. apply lookup_delete_eq.
Qed.

(** The buffer a constructor or a reallocation builds: a new array with
    given slots, or none when no slot is asked for. *)
Lemma yields_fill_new h (n : Z) x :
  0 <= n <= max_array_len ->
  exists (a : ArrayPtr.t) h',
    (forall m, heap m = h ->
       yields (items <- ArrayPtr_new n ;;
               first <- ArrayPtr_index items 0 ;;
               last <- ArrayPtr_index items n ;;
               std_fill first last x ;;;
               ret (MkVec n n items)) m (MkVec n n a) h') /\
    evolves h SimpleVector_default h' (MkVec n n a) /\
    contents h' (MkVec n n a) = replicate (Z.to_nat n) x.
Proof.
  intros Hn. destruct (Z.eq_dec n 0) as [->|Hnz].
  - exists (ArrayPtr.Make None), h. split_and!.
    + intros m Hh.
      eapply yields_bind; [by apply yields_ArrayPtr_new_0|]. intros m1 E1.
      eapply yields_bind; [by apply yields_index|]. intros m2 E2.
      eapply yields_bind; [by apply yields_index|]. intros m3 E3.
      eapply yields_bind.
      { unfold std_fill.
        eapply yields_bind; [by apply yields_range_steps|]. intros m4 E4.
        cbn. by apply yields_ret. }
      intros m5 E5. by apply yields_ret.
    + apply evolves_refl, vec_ok_default.
    + done.
  - destruct (yields_ArrayPtr_new h n) as (l & Hl & Hy); [lia|].
    exists (ArrayPtr.Make (Some l)), (<[l := replicate (Z.to_nat n) x]> h).
    assert (Hb : block (<[l := replicate (Z.to_nat n) x]> h) (ArrayPtr.Make (Some l))
                 = replicate (Z.to_nat n) x).
    { apply (block_live _ _ l); [done|apply lookup_insert_eq]. }
    split_and!.
    + intros m Hh.
      eapply yields_bind; [by apply Hy|]. intros m1 E1.
      eapply yields_bind; [by apply yields_index|]. intros m2 E2.
      eapply yields_bind; [by apply yields_index|]. intros m3 E3.
      cbn [ArrayPtr.raw_ptr_].
      eapply yields_bind.
      { unfold std_fill.
        eapply yields_bind; [apply (yields_range_steps _ _ _ _ _ E3); lia|]. intros m4 E4.
        rewrite Z.sub_0_r.
        apply (yields_fill_steps _ m4 _ l (fresh_cells n) 0 x E4).
        - apply lookup_insert_eq.
        - rewrite length_fresh_cells. lia. }
      intros m5 E5. eapply yields_heap_eq; [by apply yields_ret|].
      rewrite insert_insert_eq. f_equal. cbn [take app].
      rewrite drop_ge by (rewrite length_fresh_cells; lia). by rewrite app_nil_r.
    + apply (evolves_realloc h SimpleVector_default l); try done;
        try apply vec_ok_default; rewrite ?length_replicate; lia.
    + unfold contents. cbn [size_ items_]. rewrite Hb.
      by rewrite take_ge by (rewrite length_replicate; lia).
Qed.

Lemma SimpleVector_sized_spec h (n : Z) :
  0 <= n <= max_array_len ->
  exists v' h',
    (forall m, heap m = h -> yields (SimpleVector_sized n) m v' h') /\
    evolves h SimpleVector_default h' v' /\
    size_ v' = n /\ capacity_ v' = n /\
    contents h' v' = replicate (Z.to_nat n) dflt.
Proof.
  intros Hn. destruct (yields_fill_new h n dflt Hn) as (a & h' & Hy & Hev & Hc).
  by exists (MkVec n n a), h'.
Qed.

Lemma SimpleVector_filled_spec h (n : Z) x :
  0 <= n <= max_array_len ->
  exists v' h',
    (forall m, heap m = h -> yields (SimpleVector_filled n x) m v' h') /\
    evolves h SimpleVector_default h' v' /\
    size_ v' = n /\ capacity_ v' = n /\
    contents h' v' = replicate (Z.to_nat n) x.
Proof.
  intros Hn. destruct (yields_fill_new h n x Hn) as (a & h' & Hy & Hev & Hc).
  by exists (MkVec n n a), h'.
Qed.

Lemma yields_init_steps (init : list T) : forall h l cells (o : nat),
  h !! l = Some cells -> (o + length init <= length cells)%nat ->
  Z.of_nat (length cells) <= max_array_len ->
  forall m, heap m = h ->
    yields (init_steps (ArrayPtr.Make (Some l)) init (Z.of_nat o)) m tt
           (<[l := take o cells ++ init ++ drop (o + length init) cells]> h).
Proof.
  induction init as [|x init IH]; intros h l cells o E Ho Hmax m Hh.
  - cbn. rewrite Nat.add_0_r, take_drop, insert_id by done. by apply yields_ret.
  - cbn [init_steps length] in *.
    eapply yields_bind; [by apply yields_index|]. intros m1 E1. cbn [ArrayPtr.raw_ptr_].
    eapply yields_bind; [apply (yields_store m1 h l cells o x E1 E); lia|]. intros m2 E2.
    pose proof max_array_len_lt.
    rewrite wrap_small by lia.
    replace (Z.of_nat o + 1) with (Z.of_nat (S o)) by lia.
    eapply yields_heap_eq.
    { apply (IH (<[l := <[o := x]> cells]> h) l (<[o := x]> cells) (S o)); try done.
      - apply lookup_insert_eq.
      - rewrite length_insert. lia.
      - by rewrite length_insert. }
    rewrite insert_insert_eq. f_equal.
    rewrite (take_S_r _ _ x) by (apply list_lookup_insert_eq; lia).
    rewrite take_insert_ge by lia.
    rewrite drop_insert_lt by lia.
    rewrite <- app_assoc. cbn. by rewrite Nat.add_succ_r.
Qed.

Lemma SimpleVector_init_spec h (init : list T) :
  Z.of_nat (length init) <= max_array_len ->
  exists v' h',
    (forall m, heap m = h -> yields (SimpleVector_init init) m v' h') /\
    evolves h SimpleVector_default h' v' /\
    size_ v' = Z.of_nat (length init) /\ capacity_ v' = Z.of_nat (length init) /\
    contents h' v' = init.
Proof.
  intros Hmax. set (n := Z.of_nat (length init)) in *.
  destruct (Z.eq_dec n 0) as [Hz|Hnz].
  - assert (init = []) as -> by (destruct init; [done|subst n; cbn [length] in Hz; lia]).
    exists (MkVec 0 0 (ArrayPtr.Make None)), h. split_and!; try done.
    intros m Hh. unfold SimpleVector_init. cbn [length Z.of_nat].
    eapply yields_bind; [by apply yields_ArrayPtr_new_0|]. intros m1 E1.
    cbn. by apply yields_ret.
  - assert (0 < n) by lia.
    destruct (yields_ArrayPtr_new h n) as (l & Hl & Hy); [lia|].
    exists (MkVec n n (ArrayPtr.Make (Some l))), (<[l := init]> h).
    assert (Hb : block (<[l := init]> h) (ArrayPtr.Make (Some l)) = init).
    { apply (block_live _ _ l); [done|apply lookup_insert_eq]. }
    split_and!; try done.
    + intros m Hh. unfold SimpleVector_init. fold n.
      eapply yields_bind; [by apply Hy|]. intros m1 E1.
      eapply yields_bind.
      { apply (yields_init_steps init (<[l := fresh_cells n]> h) l (fresh_cells n) 0);
          try done.
        - apply lookup_insert_eq.
        - rewrite length_fresh_cells. lia.
        - rewrite length_fresh_cells. lia. }
      intros m2 E2. eapply yields_heap_eq; [by apply yields_ret|].
      rewrite insert_insert_eq. f_equal. cbn [take app].
      rewrite drop_ge by (rewrite length_fresh_cells; lia). by rewrite app_nil_r.
    + apply (evolves_realloc h SimpleVector_default l); try done;
        try apply vec_ok_default; lia.
    + unfold contents. cbn [size_ items_]. rewrite Hb.
      by rewrite take_ge by lia.
Qed.

Lemma SimpleVector_reserved_spec h (obj : ReserveProxyObj) :
  0 <= proxy_size_ obj <= max_array_len ->
  exists v' h',
    (forall m, heap m = h -> yields (SimpleVector_reserved obj) m v' h') /\
    evolves h SimpleVector_default h' v' /\
    size_ v' = 0 /\ capacity_ v' = proxy_size_ obj.
Proof.
  intros Hn. set (n := proxy_size_ obj) in *.
  destruct (Z.eq_dec n 0) as [Hz|Hnz].
  - exists (MkVec 0 n (ArrayPtr.Make None)), h. split_and!; try done.
    + intros m Hh. unfold SimpleVector_reserved. fold n.
      eapply yields_bind; [apply yields_ArrayPtr_new_0; [done|lia]|]. intros m1 E1.
      by apply yields_ret.
    + rewrite Hz. apply evolves_refl, vec_ok_default.
  - destruct (yields_ArrayPtr_new h n) as (l & Hl & Hy); [lia|].
    exists (MkVec 0 n (ArrayPtr.Make (Some l))), (<[l := fresh_cells n]> h).
    split_and!; try done.
    + intros m Hh. unfold SimpleVector_reserved. fold n.
      eapply yields_bind; [by apply Hy|]. intros m1 E1. by apply yields_ret.
    + apply (evolves_realloc h SimpleVector_default l); try done;
        try apply vec_ok_default; rewrite ?length_fresh_cells; lia.
Qed.

(** Another vector, one that does not share the buffer, is not disturbed. *)
Lemma evolves_frame h v h' v' w :
  evolves h v h' v' -> vec_ok h w ->
  (forall l, ArrayPtr.raw_ptr_ (items_ w) = Some l ->
             ArrayPtr.raw_ptr_ (items_ v) <> Some l) ->
  vec_ok h' w /\
  block h' (items_ w) = block h (items_ w) /\
  contents h' w = contents h w /\
  (forall l, ArrayPtr.raw_ptr_ (items_ w) = Some l ->
             ArrayPtr.raw_ptr_ (items_ v') <> Some l).
Proof.
  intros (Hok' & Hfr & Hnew & Hdel & _) Hw Hne.
  assert (Hne' : forall l, ArrayPtr.raw_ptr_ (items_ w) = Some l ->
                           ArrayPtr.raw_ptr_ (items_ v') <> Some l).
  { intros l Ew Ev'. destruct (Hnew l Ev') as [Ev|Hfresh].
    - by apply (Hne l).
    - rewrite (vec_ok_live _ _ _ Hw Ew) in Hfresh. done. }
  assert (Hb : block h' (items_ w) = block h (items_ w)).
  { unfold block. destruct (ArrayPtr.raw_ptr_ (items_ w)) as [l|] eqn:Ew; [|done].
    rewrite (Hfr l); [done|by apply Hne|by apply Hne']. }
  split_and!; [|done| |done].
  - unfold vec_ok in *. rewrite Hb.
    destruct (ArrayPtr.raw_ptr_ (items_ w)) as [l|] eqn:Ew; [|done].
    rewrite (Hfr l); [done|by apply Hne|by apply Hne'].
  - unfold contents. by rewrite Hb.
Qed.

(** The shared start of the copy constructor and the copy assignment: a new
    array that holds the elements of [o], or no array when [o] is empty. *)
Lemma copy_prefix h o :
  vec_ok h o ->
  exists (a : ArrayPtr.t) h1,
    ((a = ArrayPtr.Make None /\ h1 = h /\ size_ o = 0) \/
     (exists l, a = ArrayPtr.Make (Some l) /\ h !! l = None /\
                h1 = <[l := contents h o]> h /\ 0 < size_ o)) /\
    forall (within : M T ArrayPtr.t -> M T ArrayPtr.t),
      (forall c m a h, yields c m a h -> yields (within c) m a h) ->
      forall B (k : ArrayPtr.t -> M T B) b h2,
      (forall m1, heap m1 = h1 -> yields (k a) m1 b h2) ->
      forall m, heap m = h ->
        yields (temp <- within (ArrayPtr_new (size_ o)) ;;
                first <- begin o ;;
                last <- end_ o ;;
                d_first <- ArrayPtr_index temp 0 ;;
                std_copy first last d_first ;;;
                k temp) m b h2.
Proof.
  intros Hok. pose proof Hok as (H0 & H1 & H2 & H3 & Hl).
  destruct (Z.eq_dec (size_ o) 0) as [Hz|Hnz].
  - exists (ArrayPtr.Make None), h. split; [by left|].
    intros within Hwithin B k b h2 Hk m Hh.
    eapply yields_bind; [apply Hwithin, yields_ArrayPtr_new_0; [done|lia]|]. intros m1 E1.
    eapply yields_bind; [by apply yields_index|]. intros m2 E2.
    eapply yields_bind; [by apply yields_index|]. intros m3 E3.
    eapply yields_bind; [by apply yields_index|]. intros m4 E4.
    eapply yields_bind.
    { unfold std_copy. rewrite Hz.
      eapply yields_bind; [by apply yields_range_steps|]. intros m5 E5.
      cbn. by apply yields_ret. }
    intros m6 E6. by apply Hk.
  - destruct (yields_ArrayPtr_new h (size_ o)) as (l & Hfresh & Hy); [lia|].
    exists (ArrayPtr.Make (Some l)), (<[l := contents h o]> h). split.
    { right. exists l. split_and!; try done. lia. }
    intros within Hwithin B k b h2 Hk m Hh.
    pose proof (fresh_not_owned _ _ _ Hok Hfresh) as Hne.
    eapply yields_bind; [by apply Hwithin, Hy|]. intros m1 E1.
    eapply yields_bind; [by apply yields_index|]. intros m2 E2.
    eapply yields_bind; [by apply yields_index|]. intros m3 E3.
    eapply yields_bind; [by apply yields_index|]. intros m4 E4.
    cbn [ArrayPtr.raw_ptr_].
    eapply yields_bind.
    { apply (yields_copy_vec m4 _ o l (fresh_cells (size_ o)) E4).
      - by apply vec_ok_insert_ne.
      - apply lookup_insert_eq.
      - done.
      - rewrite length_fresh_cells. lia. }
    intros m5 E5. apply Hk.
    rewrite E5, insert_insert_eq, contents_insert_ne by done. f_equal.
    rewrite drop_ge by (rewrite length_fresh_cells; lia). by rewrite app_nil_r.
Qed.

Lemma SimpleVector_copy_spec h o :
  vec_ok h o ->
  exists v' h',
    (forall m, heap m = h -> yields (SimpleVector_copy o) m v' h') /\
    evolves h SimpleVector_default h' v' /\
    size_ v' = size_ o /\ capacity_ v' = size_ o /\
    contents h' v' = contents h o.
Proof.
  intros Hok. pose proof Hok as (H0 & H1 & H2 & H3 & Hl).
  destruct (copy_prefix h o Hok) as ([ra] & h1 & Hcase & Hy).
  exists (MkVec (size_ o) (size_ o) (ArrayPtr.Make ra)), h1.
  split_and!; try done.
  - intros m Hh. unfold SimpleVector_copy.
    apply (Hy (fun c => c) (fun _ _ _ _ Hc => Hc) _ _ _ _); [|done].
    intros m1 E1. cbn [ArrayPtr.swap ArrayPtr.default ArrayPtr.raw_ptr_].
    eapply yields_bind; [by apply (yields_dtor m1 h1 (ArrayPtr.Make None))|].
    intros m2 E2. by apply yields_ret.
  - destruct Hcase as [([= ->] & -> & Hz)|(l & [= ->] & Hfresh & -> & Hpos)].
    + rewrite Hz. apply evolves_refl, vec_ok_default.
    + apply (evolves_realloc h SimpleVector_default l); try done;
        try apply vec_ok_default; rewrite (length_contents _ _ Hok); lia.
  - destruct Hcase as [([= ->] & -> & Hz)|(l & [= ->] & Hfresh & -> & Hpos)].
    + unfold contents. cbn [size_]. by rewrite Hz.
    + unfold contents at 1. cbn [size_ items_].
      rewrite (block_live _ _ l (contents h o)) by (done || apply lookup_insert_eq).
      by rewrite take_ge by (rewrite (length_contents _ _ Hok); lia).
Qed.

Lemma copy_assign_spec h this rhs :
  vec_ok h this -> vec_ok h rhs ->
  ArrayPtr.raw_ptr_ (items_ this) <> ArrayPtr.raw_ptr_ (items_ rhs) ->
  exists v' h',
    (forall m, heap m = h -> yields (copy_assign this rhs) m v' h') /\
    evolves h this h' v' /\
    size_ v' = size_ rhs /\ capacity_ v' = size_ rhs /\
    contents h' v' = contents h rhs.
Proof.
  intros Hthis Hrhs Hne. pose proof Hrhs as (H0 & H1 & H2 & H3 & Hl).
  destruct (copy_prefix h rhs Hrhs) as ([ra] & h1 & Hcase & Hy).
  exists (MkVec (size_ rhs) (size_ rhs) (ArrayPtr.Make ra)),
         (free_block (ArrayPtr.raw_ptr_ (items_ this)) h1).
  assert (Hlive : match ArrayPtr.raw_ptr_ (items_ this) with
                  | Some l => h1 !! l <> None | None => True end).
  { destruct (ArrayPtr.raw_ptr_ (items_ this)) as [lt|] eqn:Et; [|done].
    pose proof (vec_ok_live _ _ _ Hthis Et) as Elive.
    destruct Hcase as [([= ->] & -> & Hz)|(l & [= ->] & Hfresh & -> & Hpos)].
    - by rewrite Elive.
    - rewrite lookup_insert_ne; [by rewrite Elive|congruence]. }
  split_and!; try done.
  - intros m Hh. unfold copy_assign.
    eapply yields_bind.
    { apply (yields_assert _ _ _ Hh). unfold ArrayPtr.Get.
      by apply bool_decide_eq_true_2. }
    intros m0 E0.
    apply (Hy (in_object this) (fun c m a h => yields_in_object this c m a h) _ _ _ _);
      [|done].
    intros m1 E1. cbn [ArrayPtr.swap ArrayPtr.raw_ptr_].
    eapply yields_bind; [by apply (yields_dtor m1 h1 (ArrayPtr.Make _))|].
    intros m2 E2. by apply yields_ret.
  - destruct Hcase as [([= ->] & -> & Hz)|(l & [= ->] & Hfresh & -> & Hpos)].
    + rewrite Hz. by apply evolves_release.
    + rewrite free_block_insert_ne by (by apply (fresh_not_owned h)).
      apply (evolves_realloc h this l); try done;
        rewrite (length_contents _ _ Hrhs); lia.
  - destruct Hcase as [([= ->] & -> & Hz)|(l & [= ->] & Hfresh & -> & Hpos)].
    + unfold contents. cbn [size_]. by rewrite Hz.
    + rewrite free_block_insert_ne by (by apply (fresh_not_owned h)).
      unfold contents at 1. cbn [size_ items_].
      rewrite (block_live _ _ l (contents h rhs)) by (done || apply lookup_insert_eq).
      by rewrite take_ge by (rewrite (length_contents _ _ Hrhs); lia).
Qed.

(** The assertion of the copy assignment fails when both vectors hold the
    same handle, in particular when both hold none. *)
Lemma copy_assign_same_handle this rhs m :
  ArrayPtr.raw_ptr_ (items_ this) = ArrayPtr.raw_ptr_ (items_ rhs) ->
  copy_assign this rhs m = Fail assertion_failed.
Proof.
  intros E. unfold copy_assign, bind, assert, ArrayPtr.Get.
  by rewrite bool_decide_eq_false_2 by (intros Hne; by apply Hne).
Qed.

(** ** The claims about single vectors *)

Lemma slot_contents h v (i : Z) x :
  vec_ok h v -> 0 <= i -> contents h v !! Z.to_nat i = Some x ->
  slot h (Ptr (ArrayPtr.raw_ptr_ (items_ v)) i) = Some x.
Proof.
  intros Hok Hi Hx. unfold contents in Hx.
  apply lookup_take_Some in Hx as [Hx Hlt].
  destruct (vec_range h v Hok) as [[Hz Hc]|(l & Er & E & Hlen)]; [lia|].
  rewrite Er. replace i with (Z.of_nat (Z.to_nat i)) by lia.
  by rewrite (slot_at h l _ _ E).
Qed.

Lemma yields_run {A} (c : M T A) m a h' :
  yields c m a h' -> exists m', c m = Ok (a, m') /\ heap m' = h'.
Proof. done. Qed.

(** C1. [Resize(n)] follows the contract of the specification: nothing
    changes when [n] is the size; a smaller [n] only lowers the size, so the
    elements below [n] stay; for [size <= n <= capacity] the slots
    [size .. n) get default values in place; for [n > capacity] the capacity
    becomes [max(2 * capacity, n)], the old elements are kept and the tail
    [size .. n) holds default values.  In every case the size becomes [n]. *)
Theorem Resize_contract (v : SimpleVector) (m : Mem T) (n : Z) :
  vec_ok (heap m) v ->
  0 <= n ->
  (capacity_ v < n -> Z.max (2 * capacity_ v) n <= max_array_len) ->
  exists v' m',
    Resize n v m = Ok (v', m') /\
    vec_ok (heap m') v' /\
    size_ v' = n /\
    (n = size_ v -> v' = v /\ heap m' = heap m) /\
    (n < size_ v ->
       capacity_ v' = capacity_ v /\ items_ v' = items_ v /\ heap m' = heap m /\
       contents (heap m') v' = take (Z.to_nat n) (contents (heap m) v)) /\
    (size_ v <= n <= capacity_ v ->
       capacity_ v' = capacity_ v /\ items_ v' = items_ v /\
       contents (heap m') v' =
         contents (heap m) v ++ replicate (Z.to_nat (n - size_ v)) dflt) /\
    (capacity_ v < n ->
       capacity_ v' = Z.max (2 * capacity_ v) n /\
       contents (heap m') v' =
         contents (heap m) v ++ replicate (Z.to_nat (n - size_ v)) dflt).
Proof.
  intros Hok Hn Hmax.
  destruct (Resize_full_spec (heap m) v n Hok Hn Hmax) as
    (v' & h' & Hy & Hev & Hs & Hsame & Hless & Hfill & Hgrow).
  destruct (Hy m eq_refl) as (m' & E & <-).
  exists v', m'. split_and!; try done. by apply (evolves_ok (heap m) v).
Qed.

(** [PushBack(value)], in both overloads, where [value] refers to an object
    outside the buffer that holds [x]: a full vector first grows (to capacity
    1 from capacity 0, to twice the capacity otherwise); afterwards the size
    is one more, the element at the old size is [x] and the elements before
    it are the old ones. *)
Theorem PushBack_contract (v : SimpleVector) (m : Mem T) (value : ref T) (x : T) :
  vec_ok (heap m) v ->
  refers_outside (heap m) v value x ->
  (size_ v = capacity_ v -> 2 * capacity_ v <= max_array_len) ->
  exists v' m' m'',
    PushBack value v m = Ok (v', m') /\
    PushBack_move value v m = Ok (v', m'') /\ heap m'' = heap m' /\
    vec_ok (heap m') v' /\
    size_ v' = size_ v + 1 /\
    capacity_ v' =
      (if size_ v =? capacity_ v
       then (if capacity_ v =? 0 then 1 else 2 * capacity_ v)
       else capacity_ v) /\
    contents (heap m') v' = contents (heap m) v ++ [x] /\
    contents (heap m') v' !! Z.to_nat (size_ v) = Some x /\
    (forall i, (i < Z.to_nat (size_ v))%nat ->
       contents (heap m') v' !! i = contents (heap m) v !! i).
Proof.
  intros Hok Hr Hmax.
  destruct (PushBack_full_spec (heap m) v value x Hok Hr Hmax) as
    (v' & h' & Hy & Hev & Hs & Hc & Hcont & _).
  destruct (Hy m eq_refl) as [(m' & E & <-) (m'' & E' & Hh')].
  exists v', m', m''. split_and!; try done.
  - by apply (evolves_ok (heap m) v).
  - rewrite Hcont. rewrite lookup_app_r by (rewrite (length_contents _ _ Hok); lia).
    by rewrite (length_contents _ _ Hok), Nat.sub_diag.
  - intros i Hi. rewrite Hcont.
    by rewrite lookup_app_l by (rewrite (length_contents _ _ Hok); lia).
Qed.

(** C3, where the code departs from it: [PushBack(v[i])] on a full vector,
    in both overloads.  [v[i]] is a valid reference to the element at the
    call; [Reserve] moves the elements to a new array and deletes the old one
    before [value] is read, so the read goes through a dangling reference:
    undefined behaviour, where the claim has the element appended. *)
Theorem PushBack_own_element_dangles (v : SimpleVector) (m : Mem T) (i : Z) :
  vec_ok (heap m) v ->
  size_ v = capacity_ v ->
  2 * capacity_ v <= max_array_len ->
  0 <= i < size_ v ->
  (exists x m1,
     read (InArray (Ptr (ArrayPtr.raw_ptr_ (items_ v)) i)) m = Ok (x, m1) /\
     contents (heap m) v !! Z.to_nat i = Some x) /\
  PushBack (InArray (Ptr (ArrayPtr.raw_ptr_ (items_ v)) i)) v m
    = Fail undefined_behaviour /\
  PushBack_move (InArray (Ptr (ArrayPtr.raw_ptr_ (items_ v)) i)) v m
    = Fail undefined_behaviour.
Proof.
  intros Hok Hs Hmax Hi.
  destruct (grow_if_full (heap m) v Hok) as
    (v1 & h1 & Hy1 & Hev1 & Hs1 & Hc1 & Hlt1 & Hcont1 & Hsame); [done|].
  pose proof (evolves_ok _ _ _ _ Hev1) as Hok1.
  destruct (vec_ok_nonnull (heap m) v Hok) as (l & El & Elive); [lia|].
  pose proof (grow_full_deletes _ _ _ _ l Hok Hs Hmax Hy1 El) as Hgone.
  destruct (PushBack_after_growth (heap m) v v1 h1 (InArray (Ptr (Some l) i)) m Hy1 Hok1)
    as [(m2 & E2 & EP) (m2' & E2' & EM)]; [lia|done|].
  split_and!.
  - destruct (lookup_lt_is_Some_2 (contents (heap m) v) (Z.to_nat i)) as [x Ex].
    { rewrite (length_contents _ _ Hok). lia. }
    exists x. eexists. split; [|done]. unfold read, load.
    rewrite (slot_contents _ _ _ _ Hok (proj1 Hi) Ex). reflexivity.
  - rewrite El, EP. unfold bind. by rewrite read_dangling by (by rewrite E2).
  - rewrite El, EM. unfold bind. by rewrite read_dangling by (by rewrite E2').
Qed.

(** [Insert(pos, value)] at a position [pos = begin() + i] inside the
    vector, in both overloads, where [value] refers to an object outside the
    buffer that holds [x]: a full vector first grows by the rule of
    [PushBack] (the capacity afterwards is the one [PushBack] would leave);
    the elements from [pos] on move one slot towards the tail in their order,
    [x] is stored at [pos], the size is one more, and the iterator returned
    points to the inserted element. *)
Theorem Insert_contract (v : SimpleVector) (m : Mem T) (i : Z) (value : ref T) (x : T) :
  vec_ok (heap m) v ->
  0 <= i < size_ v ->
  refers_outside (heap m) v value x ->
  (size_ v = capacity_ v -> 2 * capacity_ v <= max_array_len) ->
  exists it v' m',
    Insert (Ptr (ArrayPtr.raw_ptr_ (items_ v)) i) value v m = Ok (it, v', m') /\
    Insert_move (Ptr (ArrayPtr.raw_ptr_ (items_ v)) i) value v m = Ok (it, v', m') /\
    vec_ok (heap m') v' /\
    size_ v' = size_ v + 1 /\
    capacity_ v' = (if size_ v =? capacity_ v then 2 * capacity_ v else capacity_ v) /\
    (exists pv pm, PushBack value v m = Ok (pv, pm) /\ capacity_ pv = capacity_ v') /\
    contents (heap m') v' =
      take (Z.to_nat i) (contents (heap m) v) ++
      x :: drop (Z.to_nat i) (contents (heap m) v) /\
    it = Ptr (ArrayPtr.raw_ptr_ (items_ v')) i /\
    slot (heap m') it = Some x.
Proof.
  intros Hok Hi Hr Hmax.
  destruct (Insert_full_spec (heap m) v i value x Hok Hi Hr Hmax) as
    (v' & h' & Hy & Hev & Hs & Hc & Hcont & _).
  destruct (Hy m eq_refl) as (m' & E & <-).
  destruct (PushBack_full_spec (heap m) v value x Hok Hr Hmax) as
    (pv & ph & Hpy & _ & _ & Hpc & _).
  destruct (Hpy m eq_refl) as [(pm & Ep & _) _].
  pose proof (evolves_ok _ _ _ _ Hev) as Hok'.
  pose proof Hok as (H0 & H1 & _).
  exists (Ptr (ArrayPtr.raw_ptr_ (items_ v')) i), v', m'.
  split_and!; try done.
  - rewrite Hc. unfold grown_capacity.
    destruct (Z.eqb_spec (size_ v) (capacity_ v)); [|done].
    destruct (Z.eqb_spec (capacity_ v) 0); [lia|done].
  - exists pv, pm. split; [done|]. by rewrite Hpc, Hc.
  - apply (slot_contents _ _ _ _ Hok'); [lia|]. rewrite Hcont.
    rewrite lookup_app_r by (rewrite length_take, (length_contents _ _ Hok); lia).
    rewrite length_take, (length_contents _ _ Hok).
    by replace (Z.to_nat i - Z.to_nat i `min` Z.to_nat (size_ v))%nat with 0%nat by lia.
Qed.

(** C2, where the code departs from it: [Insert(begin() + i, v[j])] with
    [i < j] on a vector with spare capacity, in both overloads.  The elements
    from [pos] on are shifted before [value] is read, so the slot [value]
    refers to then holds the element that was at [j - 1]: that element is
    stored at [pos], where the claim has the element [value] referred to at
    the call. *)
Theorem Insert_own_element_shifted (v : SimpleVector) (m : Mem T) (i j : Z) :
  vec_ok (heap m) v ->
  0 <= i < j -> j < size_ v -> size_ v < capacity_ v ->
  exists x y m1 it v' m',
    read (InArray (Ptr (ArrayPtr.raw_ptr_ (items_ v)) j)) m = Ok (x, m1) /\
    contents (heap m) v !! Z.to_nat j = Some x /\
    contents (heap m) v !! Z.to_nat (j - 1) = Some y /\
    Insert (Ptr (ArrayPtr.raw_ptr_ (items_ v)) i)
           (InArray (Ptr (ArrayPtr.raw_ptr_ (items_ v)) j)) v m = Ok (it, v', m') /\
    Insert_move (Ptr (ArrayPtr.raw_ptr_ (items_ v)) i)
                (InArray (Ptr (ArrayPtr.raw_ptr_ (items_ v)) j)) v m = Ok (it, v', m') /\
    contents (heap m') v' =
      take (Z.to_nat i) (contents (heap m) v) ++
      y :: drop (Z.to_nat i) (contents (heap m) v) /\
    slot (heap m') it = Some y.
Proof.
  intros Hok Hij Hj Hcap. pose proof Hok as (H0 & H1 & H2 & H3 & Hl).
  destruct (Insert_stores (heap m) v i Hok) as
    (v1 & h1 & h2 & Hev1 & Hsame & Hev2 & Hb2 & Hfin); [lia..|].
  destruct Hsame as [-> ->]; [lia|].
  pose proof (evolves_ok _ _ _ _ Hev2) as Hok2.
  destruct (vec_ok_nonnull (heap m) v Hok) as (l & El & Elive); [lia|].
  destruct (lookup_lt_is_Some_2 (contents (heap m) v) (Z.to_nat j)) as [x Ex].
  { rewrite (length_contents _ _ Hok). lia. }
  destruct (lookup_lt_is_Some_2 (contents (heap m) v) (Z.to_nat (j - 1))) as [y Ey].
  { rewrite (length_contents _ _ Hok). lia. }
  assert (Eb : block h2 (items_ v) !! Z.to_nat j = Some y).
  { rewrite Hb2. unfold contents in Ey. apply lookup_take_Some in Ey as [Ey _].
    rewrite lookup_app_r by (rewrite length_take; lia).
    rewrite length_take, Nat.min_l by lia.
    rewrite lookup_app_l by (rewrite length_take, length_drop; lia).
    rewrite lookup_take_lt by lia. rewrite lookup_drop.
    by replace (Z.to_nat i + (Z.to_nat j - S (Z.to_nat i)))%nat
      with (Z.to_nat (j - 1)) by lia. }
  destruct (Hfin (InArray (Ptr (ArrayPtr.raw_ptr_ (items_ v)) j)) y) as
    (v' & h' & Hy & Hev & Hs & Hc & Hcont & _).
  { intros m0 Hh. rewrite El. replace j with (Z.of_nat (Z.to_nat j)) by lia.
    apply (yields_load m0 h2 l (block h2 (items_ v))); try done.
    by apply vec_ok_live. }
  destruct (Hy m eq_refl) as (m' & E & <-).
  pose proof (evolves_ok _ _ _ _ Hev) as Hok'.
  exists x, y. eexists. exists (Ptr (ArrayPtr.raw_ptr_ (items_ v')) i), v', m'.
  split_and!; try done.
  - assert (Hj0 : 0 <= j) by lia.
    unfold read, load. rewrite (slot_contents _ _ _ _ Hok Hj0 Ex). reflexivity.
  - apply (slot_contents _ _ _ _ Hok'); [lia|]. rewrite Hcont.
    rewrite lookup_app_r by (rewrite length_take, (length_contents _ _ Hok); lia).
    rewrite length_take, (length_contents _ _ Hok).
    by replace (Z.to_nat i - Z.to_nat i `min` Z.to_nat (size_ v))%nat with 0%nat by lia.
Qed.

(** C5. [At(i)] throws [std::out_of_range] exactly when [i >= size], and
    throws nothing else; the exception leaves the memory as it was at the
    call and the vector with the fields it had.  For [i < size] the call
    returns the reference the unchecked [operator[]] returns, the one to
    slot [i] of the buffer, and leaves the heap as it was.  In a program, a
    call [x.At(i)] that throws leaves the state of the program as it was,
    and one that returns leaves every vector and every array as it was. *)
Theorem At_contract (v : SimpleVector) (m : Mem T) (i : Z) :
  (At i v m = Throw out_of_range (MkThrown m (Some v)) <-> size_ v <= i) /\
  (forall e s, At i v m = Throw e s ->
     e = out_of_range /\ s = MkThrown m (Some v)) /\
  (forall f, At i v m <> Fail f) /\
  (i < size_ v ->
     exists m', At i v m = Ok (Ptr (ArrayPtr.raw_ptr_ (items_ v)) i, m') /\
                index_op i v m = Ok (Ptr (ArrayPtr.raw_ptr_ (items_ v)) i, m') /\
                heap m' = heap m) /\
  (forall r m', At i v m = Ok (r, m') -> heap m' = heap m) /\
  (forall (w : World T) (x : name),
     vecs w !! x = Some v -> mem w = m ->
     (size_ v <= i -> exec (CallAt x i) w = Throw out_of_range w) /\
     (i < size_ v ->
        exists w', exec (CallAt x i) w = Ok w' /\
                   vecs w' = vecs w /\ heap (mem w') = heap (mem w))).
Proof.
  assert (Hthrow : size_ v <= i -> At i v m = Throw out_of_range (MkThrown m (Some v))).
  { intros Hge. unfold At. by destruct (Z.leb_spec (size_ v) i); [|lia]. }
  assert (Hret : i < size_ v ->
            At i v m = Ok (Ptr (ArrayPtr.raw_ptr_ (items_ v)) i,
                           MkMem (heap m)
                             (Indexed (Ptr (ArrayPtr.raw_ptr_ (items_ v)) i) :: trace m))).
  { intros Hlt. unfold At. by destruct (Z.leb_spec (size_ v) i); [lia|]. }
  split_and!.
  - split; [|done]. intros E.
    destruct (Z.le_gt_cases (size_ v) i) as [|Hlt]; [done|].
    by rewrite Hret in E by lia.
  - intros e s E. destruct (Z.le_gt_cases (size_ v) i) as [Hge|Hlt].
    + rewrite (Hthrow Hge) in E. by injection E as <- <-.
    + by rewrite Hret in E by lia.
  - intros f E. destruct (Z.le_gt_cases (size_ v) i) as [Hge|Hlt].
    + by rewrite (Hthrow Hge) in E.
    + by rewrite Hret in E by lia.
  - intros Hlt. eexists. split; [by apply Hret|]. split; [|done].
    unfold index_op, bind, assert. by destruct (Z.ltb_spec i (size_ v)); [|lia].
  - intros r m' E. destruct (Z.le_gt_cases (size_ v) i) as [Hge|Hlt].
    + by rewrite (Hthrow Hge) in E.
    + rewrite Hret in E by lia. by injection E as _ <-.
  - intros w x Ex <-. cbn [exec]. unfold observe. rewrite Ex. split.
    + intros Hge. rewrite (Hthrow Hge). unfold thrown_world. cbn [thrown_this thrown_mem].
      rewrite insert_id by done. by destruct w.
    + intros Hlt. rewrite (Hret Hlt). by eexists.
Qed.

Lemma insert_then_erase (c : list T) (i : nat) x :
  (i <= length c)%nat ->
  take i (take i c ++ x :: drop i c) ++ drop (S i) (take i c ++ x :: drop i c) = c.
Proof.
  intros Hi.
  rewrite take_app_length' by (rewrite length_take; lia).
  rewrite drop_app_ge by (rewrite length_take; lia).
  rewrite length_take, Nat.min_l by lia.
  replace (S i - i)%nat with 1%nat by lia. change (drop 1 (x :: drop i c)) with (drop i c).
  apply take_drop.
Qed.

Lemma seq_equal_refl (c : list T) :
  (forall x, elt_eqb x x = true) -> seq_equal c c = true.
Proof. intros Hr. induction c as [|x c IH]; cbn; [done|]. by rewrite Hr. Qed.

Lemma seq_equal_eq (xs : list T) : forall ys,
  (forall x y, elt_eqb x y = true <-> x = y) ->
  length xs = length ys ->
  (seq_equal xs ys = true <-> xs = ys).
Proof.
  intros ys Heq. revert ys.
  induction xs as [|x xs IH]; intros [|y ys] Hlen; cbn in *; try done.
  destruct (elt_eqb x y) eqn:E; cbn.
  - apply Heq in E as ->. rewrite IH by lia. split; [by intros ->|by intros [= ->]].
  - split; [done|]. intros [= -> ->].
    assert (elt_eqb y y = true) by (by apply Heq). congruence.
Qed.

Lemma seq_less_irrefl (c : list T) :
  (forall x, elt_ltb x x = false) -> seq_less c c = false.
Proof. intros Hr. induction c as [|x c IH]; cbn; [done|]. by rewrite Hr. Qed.

Lemma yields_value {A} (c : M T A) m a h' : yields c m a h' -> value (c m) = Some a.
Proof. intros (m' & -> & _). done. Qed.

(** [Erase(pos)] at [pos = begin() + i] inside the vector moves the
    elements after [pos] one slot towards the head, lowers the size by one and
    returns an iterator to the position of the erased element, where the
    element that followed it now is.  Erasing at the iterator that
    [Insert(pos, value)] returned, for a [value] that refers to an object
    outside the buffer, gives back the original elements: the vector compares
    equal, by [operator==], to a copy of the original taken before the
    insertion. *)
Theorem Insert_Erase_roundtrip (v : SimpleVector) (m : Mem T) (i : Z)
    (value : ref T) (x : T) :
  (forall x, elt_eqb x x = true) ->
  vec_ok (heap m) v ->
  0 <= i < size_ v ->
  refers_outside (heap m) v value x ->
  (size_ v = capacity_ v -> 2 * capacity_ v <= max_array_len) ->
  (exists it ve me,
     Erase (Ptr (ArrayPtr.raw_ptr_ (items_ v)) i) v m = Ok (it, ve, me) /\
     it = Ptr (ArrayPtr.raw_ptr_ (items_ v)) i /\
     vec_ok (heap me) ve /\
     size_ ve = size_ v - 1 /\
     capacity_ ve = capacity_ v /\
     contents (heap me) ve =
       take (Z.to_nat i) (contents (heap m) v) ++
       drop (S (Z.to_nat i)) (contents (heap m) v) /\
     (forall y, contents (heap m) v !! S (Z.to_nat i) = Some y ->
                slot (heap me) it = Some y)) /\
  (exists orig m0 it v1 m1 it2 v2 m2 m3,
     SimpleVector_copy v m = Ok (orig, m0) /\
     Insert (Ptr (ArrayPtr.raw_ptr_ (items_ v)) i) value v m0 = Ok (it, v1, m1) /\
     Erase it v1 m1 = Ok (it2, v2, m2) /\
     operator_eq v2 orig m2 = Ok (true, m3) /\
     it2 = it /\
     size_ v2 = size_ v /\
     contents (heap m2) v2 = contents (heap m) v).
Proof.
  intros Hrefl Hok Hi Hr Hmax. pose proof Hok as (H0 & H1 & _). split.
  - destruct (Erase_full_spec (heap m) v i Hok Hi) as (h' & Hy & Hev & Hcont).
    destruct (Hy m eq_refl) as (me & E & <-).
    pose proof (evolves_ok _ _ _ _ Hev) as Hok'.
    eexists _, _, me. split_and!; try done.
    intros y Hy'. apply (slot_contents _ _ _ _ Hok'); [lia|].
    rewrite Hcont.
    rewrite lookup_app_r by (rewrite length_take, (length_contents _ _ Hok); lia).
    rewrite length_take, (length_contents _ _ Hok), lookup_drop.
    by replace (S (Z.to_nat i) + (Z.to_nat i - Z.to_nat i `min` Z.to_nat (size_ v)))%nat
      with (S (Z.to_nat i)) by lia.
  - (* the copy *)
    destruct (SimpleVector_copy_spec (heap m) v Hok) as
      (orig & h0 & Hy0 & Hev0 & Hs0 & Hc0 & Hcont0).
    destruct (Hy0 m eq_refl) as (m0 & E0 & <-).
    pose proof (evolves_ok _ _ _ _ Hev0) as Hokorig0.
    destruct (evolves_frame _ _ _ _ v Hev0 Hok) as (Hokv0 & _ & Hcv0 & Hne0); [done|].
    (* the insertion *)
    assert (Hmax0 : size_ v = capacity_ v -> 2 * capacity_ v <= max_array_len) by done.
    assert (Hr0 : refers_outside (heap m0) v value x).
    { destruct value as [p|y]; [|done]. destruct Hr as [Es Hne]. split; [|done].
      assert (Hd : refers_outside (heap m) SimpleVector_default (InArray p) x).
      { split; [done|]. cbn. unfold slot in Es. by destruct (base p). }
      by destruct (refers_outside_evolves _ _ _ _ _ _ Hev0 Hd). }
    destruct (Insert_full_spec (heap m0) v i value x Hokv0 Hi Hr0 Hmax0) as
      (v1 & h1 & Hy1 & Hev1 & Hs1 & _ & Hcont1 & _).
    destruct (Hy1 m0 eq_refl) as (m1 & E1 & <-).
    pose proof (evolves_ok _ _ _ _ Hev1) as Hokv1.
    destruct (evolves_frame _ _ _ _ orig Hev1 Hokorig0) as (Hokorig1 & _ & Hco1 & Hne1).
    { intros l El Ev. by apply (Hne0 l). }
    (* the erasure *)
    destruct (Erase_full_spec (heap m1) v1 i Hokv1) as (h2 & Hy2 & Hev2 & Hcont2); [lia|].
    destruct (Hy2 m1 eq_refl) as (m2 & E2 & <-).
    pose proof (evolves_ok _ _ _ _ Hev2) as Hokv2.
    destruct (evolves_frame _ _ _ _ orig Hev2 Hokorig1) as (Hokorig2 & _ & Hco2 & _).
    { intros l El Ev. by apply (Hne1 l). }
    set (v2 := MkVec (size_ v1 - 1) (capacity_ v1) (items_ v1)) in *.
    assert (Hfinal : contents (heap m2) v2 = contents (heap m) v).
    { rewrite Hcont2, Hcont1, Hcv0. apply insert_then_erase.
      rewrite (length_contents _ _ Hok). lia. }
    (* the comparison *)
    pose proof (operator_eq_spec (heap m2) v2 orig Hokv2 Hokorig2 m2 eq_refl) as Hyeq.
    replace ((size_ v2 =? size_ orig) && seq_equal (contents (heap m2) v2)
               (contents (heap m2) orig)) with true in Hyeq.
    2:{ rewrite Hfinal, Hco2, Hco1, Hcont0, (seq_equal_refl _ Hrefl).
        unfold v2; cbn [size_]. rewrite Hs1, Hs0.
        by replace (size_ v + 1 - 1) with (size_ v) by lia; rewrite Z.eqb_refl. }
    destruct Hyeq as (m3 & E3 & _).
    exists orig, m0, (Ptr (ArrayPtr.raw_ptr_ (items_ v1)) i), v1, m1,
           (Ptr (ArrayPtr.raw_ptr_ (items_ v1)) i), v2, m2, m3.
    split_and!; try done.
    unfold v2; cbn [size_]. lia.
Qed.

(** C7, where the code departs from it: [Insert(begin() + i, v[j])] on a
    full vector, in both overloads, and [Erase] at the iterator it would
    return.  [v[j]] is a valid reference to the element at the call;
    [Reserve] moves the elements to a new array and deletes the old one
    before [value] is read, so the read goes through a dangling reference:
    undefined behaviour, where the claim has the original vector back. *)
Theorem Insert_own_element_dangles (v : SimpleVector) (m : Mem T) (i j : Z) :
  vec_ok (heap m) v ->
  size_ v = capacity_ v ->
  2 * capacity_ v <= max_array_len ->
  0 <= i < size_ v ->
  0 <= j < size_ v ->
  (exists x m1,
     read (InArray (Ptr (ArrayPtr.raw_ptr_ (items_ v)) j)) m = Ok (x, m1) /\
     contents (heap m) v !! Z.to_nat j = Some x) /\
  Insert (Ptr (ArrayPtr.raw_ptr_ (items_ v)) i)
         (InArray (Ptr (ArrayPtr.raw_ptr_ (items_ v)) j)) v m
    = Fail undefined_behaviour /\
  Insert_move (Ptr (ArrayPtr.raw_ptr_ (items_ v)) i)
              (InArray (Ptr (ArrayPtr.raw_ptr_ (items_ v)) j)) v m
    = Fail undefined_behaviour /\
  (r <- Insert (Ptr (ArrayPtr.raw_ptr_ (items_ v)) i)
               (InArray (Ptr (ArrayPtr.raw_ptr_ (items_ v)) j)) v ;;
   Erase (fst r) (snd r)) m
    = Fail undefined_behaviour.
Proof.
  intros Hok Hs Hmax Hi Hj.
  destruct (Insert_after_shift (heap m) v i Hok Hi) as
    (v1 & h1 & h2 & Hy1 & Hev1 & Hs1 & Hc1 & Hlt1 & Hcont1 & Hsame & Hev2 & Hb2 & Hrun);
    [done|].
  pose proof (evolves_ok _ _ _ _ Hev1) as Hok1.
  destruct (vec_ok_nonnull (heap m) v Hok) as (l & El & Elive); [lia|].
  pose proof (grow_full_deletes _ _ _ _ l Hok Hs Hmax Hy1 El) as Hgone.
  assert (Hgone2 : h2 !! l = None).
  { destruct Hev2 as (_ & Hfr & _). rewrite Hfr; [done|..];
      intros E1; by rewrite (vec_ok_live _ _ _ Hok1 E1) in Hgone. }
  destruct (Hrun (InArray (Ptr (Some l) j)) m eq_refl) as (m2 & E2 & ER).
  assert (EI : Insert (Ptr (ArrayPtr.raw_ptr_ (items_ v)) i)
                      (InArray (Ptr (ArrayPtr.raw_ptr_ (items_ v)) j)) v m
               = Fail undefined_behaviour).
  { rewrite El. rewrite El in ER. rewrite ER. unfold bind.
    by rewrite read_dangling by (by rewrite E2). }
  split_and!; try done.
  - destruct (lookup_lt_is_Some_2 (contents (heap m) v) (Z.to_nat j)) as [x Ex].
    { rewrite (length_contents _ _ Hok). lia. }
    exists x. eexists. split; [|done]. unfold read, load.
    rewrite (slot_contents _ _ _ _ Hok (proj1 Hj) Ex). reflexivity.
  - unfold bind at 1. by rewrite EI.
Qed.

(** C8. [a == b] holds exactly when the sizes agree and the elements agree
    position by position; [==] is reflexive and symmetric; and when [a == b]
    holds neither [a < b] nor [b < a] does.  The element type is one whose
    [==] is equality and whose [<] is irreflexive, as for a total order. *)
Theorem equality_contract (a b : SimpleVector) (m : Mem T) :
  (forall x y, elt_eqb x y = true <-> x = y) ->
  (forall x, elt_ltb x x = false) ->
  vec_ok (heap m) a -> vec_ok (heap m) b ->
  exists eab eba lab lba : bool,
    value (operator_eq a b m) = Some eab /\
    value (operator_eq b a m) = Some eba /\
    value (operator_eq a a m) = Some true /\
    value (operator_lt a b m) = Some lab /\
    value (operator_lt b a m) = Some lba /\
    (eab = true <->
       size_ a = size_ b /\ contents (heap m) a = contents (heap m) b) /\
    (eab = true <->
       size_ a = size_ b /\
       forall i, (i < Z.to_nat (size_ a))%nat ->
                 contents (heap m) a !! i = contents (heap m) b !! i) /\
    eba = eab /\
    (eab = true -> lab = false /\ lba = false).
Proof.
  intros Heq Hirr Ha Hb.
  assert (Hrefl : forall x, elt_eqb x x = true) by (intros x; by apply Heq).
  set (ca := contents (heap m) a). set (cb := contents (heap m) b).
  assert (Hchar : (size_ a =? size_ b) && seq_equal ca cb = true <->
                  size_ a = size_ b /\ ca = cb).
  { rewrite andb_true_iff, Z.eqb_eq. split; intros [Hs Hc]; split; try done.
    - apply seq_equal_eq in Hc; [done|done|].
      unfold ca, cb. by rewrite !length_contents, Hs.
    - rewrite Hc. by apply seq_equal_refl. }
  assert (Hsym : (size_ b =? size_ a) && seq_equal cb ca =
                 (size_ a =? size_ b) && seq_equal ca cb).
  { apply eq_true_iff_eq. rewrite Hchar, andb_true_iff, Z.eqb_eq.
    split; [intros [Hs Hc]|intros [Hs Hc]].
    - apply seq_equal_eq in Hc; [done|done|].
      unfold ca, cb. by rewrite !length_contents, Hs.
    - split; [done|]. rewrite Hc. by apply seq_equal_refl. }
  exists ((size_ a =? size_ b) && seq_equal ca cb),
         ((size_ b =? size_ a) && seq_equal cb ca),
         (seq_less ca cb), (seq_less cb ca).
  split_and!; try done.
  - by apply (yields_value _ _ _ (heap m)), operator_eq_spec.
  - by apply (yields_value _ _ _ (heap m)), operator_eq_spec.
  - replace true with ((size_ a =? size_ a) && seq_equal ca ca)
      by (by rewrite Z.eqb_refl, seq_equal_refl).
    by apply (yields_value _ _ _ (heap m)), operator_eq_spec.
  - by apply (yields_value _ _ _ (heap m)), operator_lt_spec.
  - by apply (yields_value _ _ _ (heap m)), operator_lt_spec.
  - rewrite Hchar. split; intros [Hs Hc]; split; try done.
    + intros i _. by rewrite Hc.
    + apply list_eq. intros i.
      destruct (decide (i < Z.to_nat (size_ a))%nat) as [Hi|Hi]; [by apply Hc|].
      rewrite !lookup_ge_None_2; [done|..]; unfold ca, cb; rewrite length_contents; try done; lia.
  - intros [Hs Hc]%Hchar. rewrite Hc. by rewrite seq_less_irrefl.
Qed.

(** C9 fails on the code: the assertion of the copy assignment compares the
    two buffer handles, and two empty vectors both hold the null handle.
    Copy-assigning one default-constructed vector to another one stops at the
    assertion, whatever the memory; the copy constructor accepts the same
    empty source. *)
Theorem copy_assign_empty_vectors (m : Mem T) :
  ArrayPtr.Get (items_ SimpleVector_default) = None /\
  copy_assign SimpleVector_default SimpleVector_default m = Fail assertion_failed /\
  (exists m', SimpleVector_copy SimpleVector_default m = Ok (MkVec 0 0 (ArrayPtr.Make None), m')).
Proof.
  split_and!; [done|by apply copy_assign_same_handle|].
  unfold SimpleVector_copy, bind, ret. cbn. eexists. reflexivity.
Qed.

(** ** The indices Resize touches when it fills in place *)

Lemma Resize_in_place_run v m (n : Z) l cells :
  ArrayPtr.raw_ptr_ (items_ v) = Some l -> heap m !! l = Some cells ->
  0 <= size_ v < n -> n <= capacity_ v -> n <= Z.of_nat (length cells) ->
  Resize n v m =
  Ok (MkVec n (capacity_ v) (items_ v),
      MkMem (<[l := take (Z.to_nat (size_ v)) cells ++
                     replicate (Z.to_nat (n - size_ v)) dflt ++
                     drop (Z.to_nat (size_ v) + Z.to_nat (n - size_ v)) cells]> (heap m))
            (rev (map (fun j => Accessed (Ptr (Some l) (Z.of_nat j)))
                      (seq (Z.to_nat (size_ v)) (Z.to_nat (n - size_ v)))) ++
             Indexed (Ptr (Some l) n) :: Indexed (Ptr (Some l) (size_ v)) ::
             Indexed (Ptr (Some l) 6) :: trace m)).
Proof.
  intros Er E Hs Hn Hlen. unfold Resize.
  destruct (Z.eqb_spec n (size_ v)); [lia|].
  destruct (Z.ltb_spec n (size_ v)); [lia|].
  destruct (Z.ltb_spec (size_ v) n); [|lia].
  destruct (Z.leb_spec n (capacity_ v)); [|lia]. cbn [andb].
  unfold bind at 1. unfold bind at 1. unfold ArrayPtr_index at 1.
  unfold bind at 1, record at 1, ret at 1. cbn [heap trace].
  unfold bind at 1. unfold ArrayPtr_index at 1.
  unfold bind at 1, record at 1, ret at 1. cbn [heap trace].
  unfold bind at 1. unfold ArrayPtr_index at 1.
  unfold bind at 1, record at 1, ret at 1. cbn [heap trace].
  unfold bind at 1. unfold FillByMove, range_steps. rewrite Er. cbn [base off].
  rewrite bool_decide_eq_true_2 by done.
  destruct (Z.leb_spec (size_ v) n); [|lia]. cbn [andb].
  unfold bind at 1, ret at 1.
  rewrite FillByMove_steps_fill.
  replace (Ptr (Some l) (size_ v)) with (Ptr (Some l) (Z.of_nat (Z.to_nat (size_ v)))) at 1
    by (f_equal; lia).
  rewrite (fill_steps_run _ _ l cells); [|exact E|lia].
  cbn [heap trace]. unfold ret at 1.
  change (capacity_ (MkVec n (capacity_ v) (items_ v))) with (capacity_ v).
  destruct (Z.ltb_spec (capacity_ v) n); [lia|]. done.
Qed.

Lemma new_events_app {A} (c : M T A) m a m' (evs : list event) :
  c m = Ok (a, m') -> trace m' = evs ++ trace m -> new_events c m = rev evs.
Proof.
  intros E Etr. unfold new_events. rewrite E, Etr, length_app.
  replace (length evs + length (trace m) - length (trace m))%nat with (length evs) by lia.
  by rewrite take_app_length.
Qed.

(** C10, as the code has it: when [Resize(n)] fills in place
    ([size < n <= capacity]) it returns, every slot it reads or writes has an
    index in [size .. n), hence below the capacity, and the two bounds of the
    filled range are taken with [operator[]] at the indices [size] and [n],
    both at most the capacity. *)
Theorem Resize_fill_in_bounds (v : SimpleVector) (m : Mem T) (n : Z) :
  vec_ok (heap m) v ->
  size_ v < n <= capacity_ v ->
  exists v' m',
    Resize n v m = Ok (v', m') /\
    (forall p, Accessed p ∈ new_events (Resize n v) m ->
       base p = ArrayPtr.raw_ptr_ (items_ v) /\
       size_ v <= off p < n /\ off p < capacity_ v) /\
    Indexed (Ptr (ArrayPtr.raw_ptr_ (items_ v)) (size_ v)) ∈ new_events (Resize n v) m /\
    Indexed (Ptr (ArrayPtr.raw_ptr_ (items_ v)) n) ∈ new_events (Resize n v) m /\
    size_ v <= capacity_ v /\ n <= capacity_ v.
Proof.
  intros Hok Hn. pose proof Hok as (H0 & H1 & H2 & H3 & Hl).
  destruct (vec_ok_nonnull _ _ Hok) as (l & Er & E); [lia|].
  pose proof (Resize_in_place_run v m n l _ Er E) as Hrun.
  specialize (Hrun ltac:(lia) ltac:(lia) ltac:(lia)).
  eexists _, _. split; [exact Hrun|].
  rewrite (new_events_app _ _ _ _
             (rev (map (fun j => Accessed (Ptr (Some l) (Z.of_nat j)))
                       (seq (Z.to_nat (size_ v)) (Z.to_nat (n - size_ v)))) ++
              [Indexed (Ptr (Some l) n); Indexed (Ptr (Some l) (size_ v));
               Indexed (Ptr (Some l) 6)]) Hrun)
    by (cbn [trace]; by rewrite <- app_assoc).
  rewrite rev_app_distr, rev_involutive. cbn [rev app]. rewrite Er.
  split_and!; try lia.
  - intros p Hp. rewrite !elem_of_cons in Hp.
    destruct Hp as [Hp|[Hp|[Hp|Hp]]]; try done.
    apply list_elem_of_fmap in Hp as (j & [= ->] & Hj).
    apply elem_of_seq in Hj. cbn [base off]. split_and!; try done; lia.
  - rewrite !elem_of_cons. auto.
  - rewrite !elem_of_cons. auto.
Qed.

(** ** What a call that returns has done *)

Lemma new_array_bad_alloc (n : Z) m :
  max_array_len < n -> new_array n m = Throw bad_alloc (MkThrown m None).
Proof. intros Hn. unfold new_array. by destruct (Z.ltb_spec max_array_len n); [|lia]. Qed.

Lemma ArrayPtr_new_bad_alloc (n : Z) m :
  max_array_len < n -> ArrayPtr_new n m = Throw bad_alloc (MkThrown m None).
Proof.
  intros Hn. unfold ArrayPtr_new, max_array_len in *.
  destruct (Z.ltb_spec 0 n); [|lia].
  unfold bind. by rewrite new_array_bad_alloc.
Qed.

Lemma Reserve_bad_alloc v m (n : Z) :
  max_array_len < n -> capacity_ v <= max_array_len ->
  Reserve n v m = Throw bad_alloc (MkThrown m (Some v)).
Proof.
  intros Hn Hc. unfold Reserve, max_array_len in *.
  destruct (Z.eqb_spec n 0); [lia|].
  destruct (Z.leb_spec n (capacity_ v)); [lia|].
  unfold bind, in_object. by rewrite ArrayPtr_new_bad_alloc.
Qed.

Lemma Reserve_evolves m v (n : Z) v' m' :
  vec_ok (heap m) v -> 0 <= n ->
  Reserve n v m = Ok (v', m') -> evolves (heap m) v (heap m') v'.
Proof.
  intros Hok Hn E. pose proof (vec_ok_capacity_bound _ _ Hok) as Hc.
  destruct (Z.le_gt_cases n max_array_len) as [Hle|Hgt].
  - destruct (Reserve_spec (heap m) v n Hok) as (v1 & h1 & Hy & Hev & _); [lia|].
    destruct (yields_inv _ _ _ _ _ _ (Hy m eq_refl) E) as [-> ->]. done.
  - rewrite Reserve_bad_alloc in E by lia. done.
Qed.

Lemma grow_bad_alloc v m :
  0 <= capacity_ v <= max_array_len ->
  size_ v = capacity_ v -> max_array_len < 2 * capacity_ v ->
  (if size_ v =? capacity_ v then Reserve (wrap (capacity_ v * 2)) v else ret v) m
  = Throw bad_alloc (MkThrown m (Some v)).
Proof.
  intros Hcb Hs Hc. pose proof max_array_len_lt as Hmlt.
  destruct (Z.eqb_spec (size_ v) (capacity_ v)); [|lia].
  rewrite wrap_small by lia. apply Reserve_bad_alloc; lia.
Qed.

Lemma vec_ok_capacity_range h v : vec_ok h v -> 0 <= capacity_ v <= max_array_len.
Proof. intros (H0 & H1 & H2 & H3 & _). lia. Qed.

Lemma read_heap (r : ref T) m x m' : read r m = Ok (x, m') -> heap m' = heap m.
Proof.
  destruct r as [p|y]; cbn.
  - unfold load. destruct (slot (heap m) p); [|done]. by intros [= <- <-].
  - by intros [= <- <-].
Qed.

(** The assignment that ends [PushBack] and [Insert], whatever [value]
    refers to. *)
Lemma read_store_evolves {A} h v (i s' : Z) (r : ref T) (a : A) m a' m' :
  vec_ok h v -> 0 <= i < capacity_ v -> 0 <= s' <= capacity_ v -> heap m = h ->
  (x <- read r ;; store (Ptr (ArrayPtr.raw_ptr_ (items_ v)) i) x ;;; ret a) m
    = Ok (a', m') ->
  a' = a /\ evolves h v (heap m') (MkVec s' (capacity_ v) (items_ v)).
Proof.
  intros Hok Hi Hs Hh E.
  apply bind_Ok in E as (x & m1 & Er & E). apply bind_Ok in E as (u & m2 & Es & E).
  injection E as <- <-.
  destruct (store_vec h v i s' x Hok Hi Hs) as (h' & Hy & Hev & _).
  pose proof (read_heap _ _ _ _ Er) as Hh1.
  destruct (yields_inv _ _ _ _ _ _ (Hy m1 (eq_trans Hh1 Hh)) Es) as [_ ->]. done.
Qed.

(** A call of [PushBack] that returned, whatever [value] refers to. *)
Lemma PushBack_Ok_inv m v (r : ref T) v' m' :
  vec_ok (heap m) v ->
  PushBack r v m = Ok (v', m') \/ PushBack_move r v m = Ok (v', m') ->
  evolves (heap m) v (heap m') v' /\
  size_ v' = size_ v + 1 /\
  capacity_ v' = grown_capacity (size_ v) (capacity_ v) /\
  (size_ v = capacity_ v -> 2 * capacity_ v <= max_array_len).
Proof.
  intros Hok E.
  destruct (decide (size_ v = capacity_ v /\ max_array_len < 2 * capacity_ v)) as [[Hs Hc]|Hn].
  - unfold PushBack, PushBack_move, bind in E.
    rewrite grow_bad_alloc in E by (done || by apply (vec_ok_capacity_range (heap m))).
    by destruct E.
  - destruct (grow_if_full (heap m) v Hok) as
      (v1 & h1 & Hy1 & Hev1 & Hs1 & Hc1 & Hlt1 & Hcont1 & Hsame); [lia|].
    pose proof (evolves_ok _ _ _ _ Hev1) as Hok1.
    pose proof Hok1 as (H0 & H1 & H2 & H3 & Hl).
    pose proof max_array_len_lt as Hmlt.
    destruct (PushBack_after_growth (heap m) v v1 h1 r m Hy1 Hok1) as
      [(m2 & E2 & EP) (m2' & E2' & EM)]; [lia|done|].
    rewrite EP, EM in E.
    assert (Hev : v' = MkVec (wrap (size_ v1 + 1)) (capacity_ v1) (items_ v1) /\
                  evolves h1 v1 (heap m') (MkVec (wrap (size_ v1 + 1)) (capacity_ v1) (items_ v1))).
    { destruct E as [E|E];
        apply (read_store_evolves h1 v1 _ (wrap (size_ v1 + 1))) in E as [-> Hev];
        try done; rewrite ?wrap_small; lia. }
    destruct Hev as [-> Hev]. cbn [size_ capacity_]. rewrite wrap_small by lia.
    rewrite wrap_small in Hev by lia.
    split_and!; [|lia|done|lia]. by apply (evolves_trans _ _ h1 v1).
Qed.

Lemma PushBack_evolves m v (r : ref T) v' m' :
  vec_ok (heap m) v ->
  PushBack r v m = Ok (v', m') \/ PushBack_move r v m = Ok (v', m') ->
  evolves (heap m) v (heap m') v'.
Proof. intros Hok E. by destruct (PushBack_Ok_inv m v r v' m' Hok E). Qed.

Lemma Resize_evolves m v (n : Z) v' m' :
  vec_ok (heap m) v -> 0 <= n ->
  Resize n v m = Ok (v', m') -> evolves (heap m) v (heap m') v'.
Proof.
  intros Hok Hn E. pose proof (vec_ok_capacity_bound _ _ Hok) as Hc.
  pose proof Hok as (H0 & H1 & _). pose proof max_array_len_lt as Hmlt.
  destruct (decide (capacity_ v < n /\ max_array_len < Z.max (2 * capacity_ v) n))
    as [[Hgt Hbig]|Hfine].
  - unfold Resize in E.
    destruct (Z.eqb_spec n (size_ v)); [lia|].
    destruct (Z.ltb_spec n (size_ v)); [lia|].
    destruct (Z.leb_spec n (capacity_ v)); [lia|].
    rewrite andb_false_r in E. unfold bind at 1, ret at 1 in E.
    destruct (Z.ltb_spec (capacity_ v) n); [|lia].
    unfold bind in E. rewrite wrap_small in E by lia.
    rewrite Reserve_bad_alloc in E by lia. done.
  - destruct (Resize_full_spec (heap m) v n Hok Hn) as (v1 & h1 & Hy & Hev & _); [lia|].
    destruct (yields_inv _ _ _ _ _ _ (Hy m eq_refl) E) as [-> ->]. done.
Qed.

Lemma PopBack_evolves h v : vec_ok h v -> evolves h v h (PopBack v).
Proof.
  intros Hok. pose proof Hok as (H0 & H1 & _). unfold PopBack.
  pose proof (vec_ok_capacity_bound _ _ Hok) as Hcb. pose proof max_array_len_lt as Hmlt.
  destruct (Z.eqb_spec (size_ v) 0); [by apply evolves_refl|].
  rewrite wrap_small by lia. apply evolves_resize; [done|lia].
Qed.

(** A position that passes the assertion of [Insert] and [Erase]. *)
Lemma valid_position v (pos : ptr) :
  ptr_le (Ptr (ArrayPtr.raw_ptr_ (items_ v)) 0) pos &&
  ptr_lt pos (Ptr (ArrayPtr.raw_ptr_ (items_ v)) (size_ v)) = true ->
  pos = Ptr (ArrayPtr.raw_ptr_ (items_ v)) (off pos) /\ 0 <= off pos < size_ v.
Proof.
  unfold ptr_le, ptr_lt. cbn [base off].
  rewrite !andb_true_iff, !bool_decide_eq_true, Z.leb_le, Z.ltb_lt.
  intros [[Hb H0] [_ H1]]. split; [|done]. destruct pos as [b o]. cbn in *. by subst.
Qed.

Lemma Erase_evolves m v (pos : ptr) r m' :
  vec_ok (heap m) v ->
  Erase pos v m = Ok (r, m') -> evolves (heap m) v (heap m') (snd r).
Proof.
  intros Hok E.
  destruct (ptr_le (Ptr (ArrayPtr.raw_ptr_ (items_ v)) 0) pos &&
            ptr_lt pos (Ptr (ArrayPtr.raw_ptr_ (items_ v)) (size_ v))) eqn:Hpos.
  - destruct (valid_position v pos Hpos) as [Hp Hi]. rewrite Hp in E.
    destruct (Erase_full_spec (heap m) v (off pos) Hok Hi) as (h1 & Hy & Hev & _).
    destruct (yields_inv _ _ _ _ _ _ (Hy m eq_refl) E) as [-> ->]. done.
  - unfold Erase, begin, end_, ArrayPtr_index, record, bind, ret in E. cbn in E.
    rewrite Hpos in E. done.
Qed.

(** A call of [Insert] that returned, whatever [value] refers to: it was
    given a position inside the vector and was granted the array it asked
    for. *)
Lemma Insert_Ok_inv m v (pos : ptr) (value : ref T) r m' :
  vec_ok (heap m) v ->
  Insert pos value v m = Ok (r, m') ->
  evolves (heap m) v (heap m') (snd r) /\
  size_ (snd r) = size_ v + 1 /\
  capacity_ (snd r) = grown_capacity (size_ v) (capacity_ v) /\
  pos = Ptr (ArrayPtr.raw_ptr_ (items_ v)) (off pos) /\ 0 <= off pos < size_ v /\
  (size_ v = capacity_ v -> 2 * capacity_ v <= max_array_len).
Proof.
  intros Hok E.
  destruct (ptr_le (Ptr (ArrayPtr.raw_ptr_ (items_ v)) 0) pos &&
            ptr_lt pos (Ptr (ArrayPtr.raw_ptr_ (items_ v)) (size_ v))) eqn:Hpos.
  - destruct (valid_position v pos Hpos) as [Hp Hi]. rewrite Hp in E.
    destruct (decide (size_ v = capacity_ v /\ max_array_len < 2 * capacity_ v))
      as [[Hs Hc]|Hn].
    + unfold Insert in E.
      apply bind_Ok in E as (b & m1 & _ & E). apply bind_Ok in E as (e & m2 & _ & E).
      apply bind_Ok in E as (u & m3 & _ & E). apply bind_Ok in E as (cb & m4 & _ & E).
      apply bind_Ok in E as (v1 & m5 & Eg & _).
      rewrite grow_bad_alloc in Eg by (done || by apply (vec_ok_capacity_range (heap m))).
      done.
    + destruct (Insert_after_shift (heap m) v (off pos) Hok Hi) as
        (v1 & h1 & h2 & Hy1 & Hev1 & Hs1 & Hc1 & Hlt1 & Hcont1 & Hsame & Hev2 & Hb2 & Hrun);
        [lia|].
      pose proof (evolves_ok _ _ _ _ Hev2) as Hok2.
      pose proof Hok2 as (H0 & H1 & H2 & H3 & Hl).
      pose proof max_array_len_lt as Hmlt.
      destruct (Hrun value m eq_refl) as (m2 & E2 & ER). rewrite ER in E.
      apply (read_store_evolves h2 v1 _ (size_ v1 + 1)) in E as [-> Hev];
        [|done|lia|lia|done].
      cbn [snd size_ capacity_]. rewrite wrap_small by lia.
      split_and!; [|lia|done|done|lia|lia|lia].
      apply (evolves_trans _ _ h1 v1); [done|].
      by apply (evolves_trans _ _ h2 v1).
  - unfold Insert, begin, end_, ArrayPtr_index, record, bind, ret in E. cbn in E.
    rewrite Hpos in E. done.
Qed.

Lemma Insert_evolves m v (pos : ptr) (value : ref T) r m' :
  vec_ok (heap m) v ->
  Insert pos value v m = Ok (r, m') -> evolves (heap m) v (heap m') (snd r).
Proof. intros Hok E. by destruct (Insert_Ok_inv m v pos value r m' Hok E). Qed.

Lemma SimpleVector_sized_evolves m (n : Z) v' m' :
  0 <= n -> SimpleVector_sized n m = Ok (v', m') ->
  evolves (heap m) SimpleVector_default (heap m') v'.
Proof.
  intros Hn E. destruct (Z.le_gt_cases n max_array_len) as [Hle|Hgt].
  - destruct (SimpleVector_sized_spec (heap m) n) as (v1 & h1 & Hy & Hev & _); [lia|].
    destruct (yields_inv _ _ _ _ _ _ (Hy m eq_refl) E) as [-> ->]. done.
  - unfold SimpleVector_sized, bind in E. by rewrite ArrayPtr_new_bad_alloc in E.
Qed.

Lemma SimpleVector_filled_evolves m (n : Z) x v' m' :
  0 <= n -> SimpleVector_filled n x m = Ok (v', m') ->
  evolves (heap m) SimpleVector_default (heap m') v'.
Proof.
  intros Hn E. destruct (Z.le_gt_cases n max_array_len) as [Hle|Hgt].
  - destruct (SimpleVector_filled_spec (heap m) n x) as (v1 & h1 & Hy & Hev & _); [lia|].
    destruct (yields_inv _ _ _ _ _ _ (Hy m eq_refl) E) as [-> ->]. done.
  - unfold SimpleVector_filled, bind in E. by rewrite ArrayPtr_new_bad_alloc in E.
Qed.

Lemma SimpleVector_init_evolves m (init : list T) v' m' :
  Z.of_nat (length init) <= max_array_len ->
  SimpleVector_init init m = Ok (v', m') ->
  evolves (heap m) SimpleVector_default (heap m') v'.
Proof.
  intros Hn E.
  destruct (SimpleVector_init_spec (heap m) init Hn) as (v1 & h1 & Hy & Hev & _).
  destruct (yields_inv _ _ _ _ _ _ (Hy m eq_refl) E) as [-> ->]. done.
Qed.

Lemma SimpleVector_reserved_evolves m (obj : ReserveProxyObj) v' m' :
  0 <= proxy_size_ obj -> SimpleVector_reserved obj m = Ok (v', m') ->
  evolves (heap m) SimpleVector_default (heap m') v'.
Proof.
  intros Hn E. destruct (Z.le_gt_cases (proxy_size_ obj) max_array_len) as [Hle|Hgt].
  - destruct (SimpleVector_reserved_spec (heap m) obj) as (v1 & h1 & Hy & Hev & _); [lia|].
    destruct (yields_inv _ _ _ _ _ _ (Hy m eq_refl) E) as [-> ->]. done.
  - unfold SimpleVector_reserved, bind in E. by rewrite ArrayPtr_new_bad_alloc in E.
Qed.

Lemma SimpleVector_copy_evolves m o v' m' :
  vec_ok (heap m) o -> SimpleVector_copy o m = Ok (v', m') ->
  evolves (heap m) SimpleVector_default (heap m') v'.
Proof.
  intros Hok E.
  destruct (SimpleVector_copy_spec (heap m) o Hok) as (v1 & h1 & Hy & Hev & _).
  destruct (yields_inv _ _ _ _ _ _ (Hy m eq_refl) E) as [-> ->]. done.
Qed.

Lemma copy_assign_evolves m this rhs v' m' :
  vec_ok (heap m) this -> vec_ok (heap m) rhs ->
  copy_assign this rhs m = Ok (v', m') -> evolves (heap m) this (heap m') v'.
Proof.
  intros Hthis Hrhs E.
  destruct (decide (ArrayPtr.raw_ptr_ (items_ this) = ArrayPtr.raw_ptr_ (items_ rhs)))
    as [Heq|Hne].
  - by rewrite copy_assign_same_handle in E.
  - destruct (copy_assign_spec (heap m) this rhs Hthis Hrhs Hne) as (v1 & h1 & Hy & Hev & _).
    destruct (yields_inv _ _ _ _ _ _ (Hy m eq_refl) E) as [-> ->]. done.
Qed.

Lemma SimpleVector_dtor_heap m v u m' :
  SimpleVector_dtor v m = Ok (u, m') ->
  heap m' = free_block (ArrayPtr.raw_ptr_ (items_ v)) (heap m).
Proof.
  unfold SimpleVector_dtor, ArrayPtr_dtor, delete_array.
  destruct (ArrayPtr.raw_ptr_ (items_ v)) as [l|]; cbn.
  - destruct (heap m !! l); [|done]. by intros [= <- <-].
  - by intros [= <- <-].
Qed.

(** An assignment through a pointer keeps every array's slot count. *)
Lemma store_block_length m p x u m' (a : ArrayPtr.t) :
  store p x m = Ok (u, m') ->
  length (block (heap m') a) = length (block (heap m) a).
Proof.
  unfold store. destruct (base p) as [l|]; [|done].
  destruct (slot (heap m) p); [|done]. intros [= <- <-]. cbn [heap].
  unfold block. destruct (ArrayPtr.raw_ptr_ a) as [l0|]; [|done].
  rewrite lookup_alter. destruct (decide (l = l0)) as [<-|]; [|done].
  destruct (heap m !! l); cbn; [by rewrite length_insert|done].
Qed.

Lemma store_keeps_vec_ok m p x u m' v :
  store p x m = Ok (u, m') -> vec_ok (heap m) v -> vec_ok (heap m') v.
Proof.
  intros E. pose proof (store_block_length _ _ _ _ _ (items_ v) E) as Hb. revert E.
  unfold store. destruct (base p) as [l|]; [|done].
  destruct (slot (heap m) p); [|done]. intros [= <- <-]. cbn [heap] in *.
  unfold vec_ok. rewrite Hb. intros (H0 & H1 & H2 & H3 & Hl). split_and!; try done.
  destruct (ArrayPtr.raw_ptr_ (items_ v)) as [l0|]; [|done].
  rewrite lookup_alter. destruct (decide (l = l0)) as [<-|]; [|done].
  by destruct (heap m !! l).
Qed.

(** Code that only reads. *)
Local Abbreviation read_only c :=
  (forall m a m', c m = Ok (a, m') -> heap m' = heap m).

Lemma read_only_ret {A} (a : A) : read_only (ret (T:=T) a).
Proof. by intros m a' m' [= <- <-]. Qed.

Lemma read_only_bind {A B} (c : M T A) (f : A -> M T B) :
  read_only c -> (forall a, read_only (f a)) -> read_only (x <- c ;; f x).
Proof.
  intros Hc Hf m b m' E. apply bind_Ok in E as (a & m1 & E1 & E2).
  rewrite (Hf _ _ _ _ E2). by apply (Hc _ _ _ E1).
Qed.

Lemma read_only_index (a : ArrayPtr.t) (i : Z) : read_only (ArrayPtr_index (T:=T) a i).
Proof. by intros m p m' [= <- <-]. Qed.

Lemma read_only_load p : read_only (load (T:=T) p).
Proof. intros m x m'. unfold load. destruct (slot (heap m) p); [|done]. by intros [= <- <-]. Qed.

Lemma read_only_range_steps (p q : ptr) : read_only (range_steps (T:=T) p q).
Proof.
  intros m k m'. unfold range_steps.
  destruct (_ && _); [by intros [= <- <-]|done].
Qed.

Lemma read_only_assert (b : bool) : read_only (assert (T:=T) b).
Proof. intros m u m'. unfold assert. destruct b; [by intros [= <- <-]|done]. Qed.

Lemma read_only_equal_steps k : forall p q, read_only (equal_steps k p q).
Proof.
  induction k as [|k IH]; intros p q; cbn [equal_steps]; [apply read_only_ret|].
  apply read_only_bind; [apply read_only_load|]. intros x.
  apply read_only_bind; [apply read_only_load|]. intros y.
  destruct (negb _); [apply read_only_ret|apply IH].
Qed.

Lemma read_only_lexicographical_steps k1 : forall k2 p q,
  read_only (lexicographical_steps k1 k2 p q).
Proof.
  induction k1 as [|k1 IH]; intros [|k2] p q; cbn [lexicographical_steps];
    try apply read_only_ret.
  apply read_only_bind; [apply read_only_load|]. intros x.
  apply read_only_bind; [apply read_only_load|]. intros y.
  destruct (elt_ltb x y); [apply read_only_ret|].
  destruct (elt_ltb y x); [apply read_only_ret|apply IH].
Qed.

Lemma read_only_operator_eq a b : read_only (operator_eq a b).
Proof.
  unfold operator_eq. destruct (negb _); [apply read_only_ret|].
  do 3 (apply read_only_bind; [apply read_only_index|]; intros ?).
  unfold std_equal. apply read_only_bind; [apply read_only_range_steps|].
  intros k. apply read_only_equal_steps.
Qed.

Lemma read_only_operator_lt a b : read_only (operator_lt a b).
Proof.
  unfold operator_lt.
  do 4 (apply read_only_bind; [apply read_only_index|]; intros ?).
  unfold std_lexicographical_compare.
  do 2 (apply read_only_bind; [apply read_only_range_steps|]; intros ?).
  apply read_only_lexicographical_steps.
Qed.

Lemma read_only_operator_ne a b : read_only (operator_ne a b).
Proof.
  unfold operator_ne. apply read_only_bind; [apply read_only_operator_eq|].
  intros [|]; [apply read_only_ret|].
  apply read_only_bind; [apply read_only_operator_eq|]. intros ?. apply read_only_ret.
Qed.

Lemma read_only_operator_le a b : read_only (operator_le a b).
Proof.
  unfold operator_le. apply read_only_bind; [apply read_only_operator_eq|].
  intros [|]; [apply read_only_ret|apply read_only_operator_lt].
Qed.

Lemma read_only_operator_gt a b : read_only (operator_gt a b).
Proof.
  unfold operator_gt. apply read_only_bind; [apply read_only_operator_eq|].
  intros [|]; [apply read_only_ret|].
  apply read_only_bind; [apply read_only_operator_lt|]. intros ?. apply read_only_ret.
Qed.

Lemma read_only_operator_ge a b : read_only (operator_ge a b).
Proof.
  unfold operator_ge. apply read_only_bind; [apply read_only_operator_eq|].
  intros [|]; [apply read_only_ret|apply read_only_operator_gt].
Qed.

Lemma read_only_index_op (i : Z) v : read_only (index_op i v).
Proof.
  unfold index_op. apply read_only_bind; [apply read_only_assert|].
  intros ?. apply read_only_index.
Qed.

Lemma read_only_At (i : Z) v : read_only (At i v).
Proof.
  unfold At. destruct (_ <=? _); [done|apply read_only_index].
Qed.

(** ** What a call that throws leaves behind *)

(** Code that throws nothing. *)
Local Abbreviation no_throw c := (forall m e s, c m <> Throw e s).

Lemma bind_Throw {A B} (c : M T A) (f : A -> M T B) m e s :
  (x <- c ;; f x) m = Throw e s ->
  c m = Throw e s \/ exists a m1, c m = Ok (a, m1) /\ f a m1 = Throw e s.
Proof.
  unfold bind. destruct (c m) as [[a m1]|e' s'|].
  - intros E. right. by exists a, m1.
  - intros [= -> ->]. by left.
  - done.
Qed.

Lemma no_throw_ret {A} (a : A) : no_throw (ret (T:=T) a).
Proof. done. Qed.

Lemma no_throw_fail {A} (f : failure) : no_throw (fail (T:=T) (A:=A) f).
Proof. done. Qed.

Lemma no_throw_bind {A B} (c : M T A) (f : A -> M T B) :
  no_throw c -> (forall a, no_throw (f a)) -> no_throw (x <- c ;; f x).
Proof.
  intros Hc Hf m e s E. apply bind_Throw in E as [E|(a & m1 & _ & E)].
  - by apply (Hc m e s).
  - by apply (Hf a m1 e s).
Qed.

Lemma no_throw_assert (b : bool) : no_throw (assert (T:=T) b).
Proof. intros m e s. unfold assert. by destruct b. Qed.

Lemma no_throw_index (a : ArrayPtr.t) (i : Z) : no_throw (ArrayPtr_index (T:=T) a i).
Proof. done. Qed.

Lemma no_throw_load p : no_throw (load (T:=T) p).
Proof. intros m e s. unfold load. by destruct (slot (heap m) p). Qed.

Lemma no_throw_store p x : no_throw (store p x).
Proof.
  intros m e s. unfold store. destruct (base p); [|done]. by destruct (slot (heap m) p).
Qed.

Lemma no_throw_read (r : ref T) : no_throw (read r).
Proof. destruct r; [apply no_throw_load|apply no_throw_ret]. Qed.

Lemma no_throw_range_steps (p q : ptr) : no_throw (range_steps (T:=T) p q).
Proof. intros m e s. unfold range_steps. by destruct (_ && _). Qed.

Lemma no_throw_dtor (a : ArrayPtr.t) : no_throw (ArrayPtr_dtor (T:=T) a).
Proof.
  intros m e s. unfold ArrayPtr_dtor, delete_array.
  destruct (ArrayPtr.raw_ptr_ a) as [l|]; [|done]. by destruct (heap m !! l).
Qed.

Lemma no_throw_fill_steps k : forall p x, no_throw (fill_steps k p x).
Proof.
  induction k as [|k IH]; intros p x; cbn [fill_steps]; [apply no_throw_ret|].
  apply no_throw_bind; [apply no_throw_store|]. intros ?. apply IH.
Qed.

Lemma no_throw_copy_steps k : forall p q, no_throw (copy_steps k p q).
Proof.
  induction k as [|k IH]; intros p q; cbn [copy_steps]; [apply no_throw_ret|].
  apply no_throw_bind; [apply no_throw_load|]. intros x.
  apply no_throw_bind; [apply no_throw_store|]. intros ?. apply IH.
Qed.

Lemma no_throw_copy_backward_steps k : forall p q, no_throw (copy_backward_steps k p q).
Proof.
  induction k as [|k IH]; intros p q; cbn [copy_backward_steps]; [apply no_throw_ret|].
  apply no_throw_bind; [apply no_throw_load|]. intros x.
  apply no_throw_bind; [apply no_throw_store|]. intros ?. apply IH.
Qed.

Lemma no_throw_equal_steps k : forall p q, no_throw (equal_steps k p q).
Proof.
  induction k as [|k IH]; intros p q; cbn [equal_steps]; [apply no_throw_ret|].
  apply no_throw_bind; [apply no_throw_load|]. intros x.
  apply no_throw_bind; [apply no_throw_load|]. intros y.
  destruct (negb _); [apply no_throw_ret|apply IH].
Qed.

Lemma no_throw_lexicographical_steps k1 : forall k2 p q,
  no_throw (lexicographical_steps k1 k2 p q).
Proof.
  induction k1 as [|k1 IH]; intros [|k2] p q; cbn [lexicographical_steps];
    try apply no_throw_ret.
  apply no_throw_bind; [apply no_throw_load|]. intros x.
  apply no_throw_bind; [apply no_throw_load|]. intros y.
  destruct (elt_ltb x y); [apply no_throw_ret|].
  destruct (elt_ltb y x); [apply no_throw_ret|apply IH].
Qed.

Lemma no_throw_init_steps (init : list T) : forall a (i : Z), no_throw (init_steps a init i).
Proof.
  induction init as [|x init IH]; intros a i; cbn [init_steps]; [apply no_throw_ret|].
  apply no_throw_bind; [apply no_throw_index|]. intros p.
  apply no_throw_bind; [apply no_throw_store|]. intros ?. apply IH.
Qed.

Lemma no_throw_Erase_steps k : forall v p q, no_throw (Erase_steps k v p q).
Proof.
  induction k as [|k IH]; intros v p q; cbn [Erase_steps];
    (apply no_throw_bind; [apply no_throw_index|]; intros ?); [apply no_throw_ret|].
  apply no_throw_bind; [|intros ?; apply IH].
  unfold std_exchange.
  apply no_throw_bind; [apply no_throw_load|]. intros ?.
  apply no_throw_bind; [apply no_throw_load|]. intros ?.
  apply no_throw_bind; [apply no_throw_store|]. intros ?. apply no_throw_ret.
Qed.

Ltac no_throw :=
  repeat first
    [ apply no_throw_ret | apply no_throw_fail | apply no_throw_assert
    | apply no_throw_index | apply no_throw_load | apply no_throw_store
    | apply no_throw_read | apply no_throw_range_steps | apply no_throw_dtor
    | apply no_throw_fill_steps | apply no_throw_copy_steps
    | apply no_throw_copy_backward_steps | apply no_throw_equal_steps
    | apply no_throw_lexicographical_steps | apply no_throw_init_steps
    | apply no_throw_Erase_steps
    | rewrite FillByMove_steps_fill
    | apply no_throw_bind; [|intros ?] ].

(** [E] says that code that throws nothing threw. *)
Ltac absurd_throw E :=
  exfalso;
  match type of E with
  | ?c ?m = Throw ?e ?s =>
      let Hnt := fresh in
      assert (Hnt : forall m' e' s', c m' <> Throw e' s') by no_throw;
      exact (Hnt _ _ _ E)
  end.

Lemma no_throw_operator_eq a b : no_throw (operator_eq a b).
Proof.
  unfold operator_eq. destruct (negb _); [apply no_throw_ret|].
  unfold begin, end_, std_equal. no_throw.
Qed.

Lemma no_throw_operator_lt a b : no_throw (operator_lt a b).
Proof. unfold operator_lt, begin, end_, std_lexicographical_compare. no_throw. Qed.

Lemma no_throw_comparisons a b :
  no_throw (operator_ne a b) /\ no_throw (operator_le a b) /\
  no_throw (operator_gt a b) /\ no_throw (operator_ge a b).
Proof.
  assert (Hgt : no_throw (operator_gt a b)).
  { unfold operator_gt. apply no_throw_bind; [apply no_throw_operator_eq|].
    intros [|]; [apply no_throw_ret|].
    apply no_throw_bind; [apply no_throw_operator_lt|]. intros ?. apply no_throw_ret. }
  split_and!; [| |done|].
  - unfold operator_ne. apply no_throw_bind; [apply no_throw_operator_eq|].
    intros [|]; [apply no_throw_ret|].
    apply no_throw_bind; [apply no_throw_operator_eq|]. intros ?. apply no_throw_ret.
  - unfold operator_le. apply no_throw_bind; [apply no_throw_operator_eq|].
    intros [|]; [apply no_throw_ret|apply no_throw_operator_lt].
  - unfold operator_ge. apply no_throw_bind; [apply no_throw_operator_eq|].
    intros [|]; [apply no_throw_ret|done].
Qed.

Lemma no_throw_Erase (pos : ptr) v : no_throw (Erase pos v).
Proof. unfold Erase, begin, end_, cbegin. no_throw. Qed.

Lemma no_throw_index_op (i : Z) v : no_throw (index_op i v).
Proof. unfold index_op. no_throw. Qed.

(** The only exception of [new Type[n]] is [std::bad_alloc], thrown before
    anything has been written. *)
Lemma ArrayPtr_new_throw (n : Z) m e s :
  ArrayPtr_new n m = Throw e s -> e = bad_alloc /\ s = MkThrown m None.
Proof.
  unfold ArrayPtr_new, new_array, bind, ret. destruct (0 <? n); [|done].
  destruct (max_array_len <? n); [|done]. by intros [= <- <-].
Qed.

Lemma in_object_new_throw this (n : Z) m e s :
  in_object this (ArrayPtr_new n) m = Throw e s ->
  e = bad_alloc /\ s = MkThrown m (Some this).
Proof.
  unfold in_object. pose proof (ArrayPtr_new_throw n m) as Hn.
  destruct (ArrayPtr_new n m) as [r|e' s'|f]; [done| |done].
  destruct (Hn e' s' eq_refl) as [-> ->]. by intros [= <- <-].
Qed.

Lemma Reserve_throw (n : Z) v m e s :
  Reserve n v m = Throw e s -> e = bad_alloc /\ s = MkThrown m (Some v).
Proof.
  unfold Reserve. destruct (_ <=? _); [done|]. intros E.
  apply bind_Throw in E as [E|(temp & m1 & _ & E)]; [by apply in_object_new_throw in E|].
  cbn [ArrayPtr.swap] in E. unfold begin, end_, std_move, FillByMove in E.
  absurd_throw E.
Qed.

Lemma grow_throw v m e s :
  (if size_ v =? capacity_ v then Reserve (wrap (capacity_ v * 2)) v else ret v) m
    = Throw e s ->
  e = bad_alloc /\ s = MkThrown m (Some v).
Proof. destruct (_ =? _); [apply Reserve_throw|done]. Qed.

Lemma PushBack_throw (r : ref T) v m e s :
  PushBack r v m = Throw e s \/ PushBack_move r v m = Throw e s ->
  e = bad_alloc /\ s = MkThrown m (Some v).
Proof.
  intros [E|E]; apply bind_Throw in E as [E|(v1 & m1 & _ & E)];
    try (by apply grow_throw in E); absurd_throw E.
Qed.

Lemma Insert_throw (pos : ptr) (r : ref T) v m e s :
  Insert pos r v m = Throw e s ->
  e = bad_alloc /\ heap (thrown_mem s) = heap m /\ thrown_this s = Some v.
Proof.
  intros E. unfold Insert in E.
  apply bind_Throw in E as [E|(b & m1 & E1 & E)]; [absurd_throw E|].
  apply bind_Throw in E as [E|(e0 & m2 & E2 & E)]; [absurd_throw E|].
  apply bind_Throw in E as [E|(u & m3 & E3 & E)]; [absurd_throw E|].
  apply bind_Throw in E as [E|(cb & m4 & E4 & E)]; [absurd_throw E|].
  apply read_only_index in E1, E2, E4. apply read_only_assert in E3.
  apply bind_Throw in E as [E|(v1 & m5 & _ & E)].
  - apply grow_throw in E as [-> ->]. cbn. split_and!; [done| |done]. congruence.
  - unfold cbegin, end_, std_copy_backward in E. absurd_throw E.
Qed.

Lemma Resize_throw (n : Z) v m e s :
  size_ v <= capacity_ v ->
  Resize n v m = Throw e s -> e = bad_alloc /\ s = MkThrown m (Some v).
Proof.
  intros Hs E. unfold Resize in E.
  destruct (Z.eqb_spec n (size_ v)); [done|].
  destruct (Z.ltb_spec n (size_ v)) as [Hlt|Hge]; cbn [size_ capacity_ items_] in E.
  - rewrite Z.ltb_irrefl in E. cbn [andb] in E. unfold bind at 1, ret at 1 in E.
    cbn [capacity_] in E. by destruct (Z.ltb_spec (capacity_ v) n); [lia|].
  - destruct (Z.leb_spec n (capacity_ v)) as [Hle|Hgt].
    + apply bind_Throw in E as [E|(v1 & m1 & E1 & E)].
      * destruct (_ && _); [unfold FillByMove in E|]; absurd_throw E.
      * destruct (size_ v <? n); cbn [andb] in E1.
        -- apply bind_Ok in E1 as (? & ? & _ & E1). apply bind_Ok in E1 as (? & ? & _ & E1).
           apply bind_Ok in E1 as (? & ? & _ & E1). apply bind_Ok in E1 as (? & ? & _ & E1).
           injection E1 as <- <-. cbn [capacity_] in E.
           by destruct (Z.ltb_spec (capacity_ v) n); [lia|].
        -- injection E1 as <- <-. by destruct (Z.ltb_spec (capacity_ v) n); [lia|].
    + rewrite andb_false_r in E. unfold bind at 1, ret at 1 in E.
      destruct (Z.ltb_spec (capacity_ v) n); [|lia].
      apply bind_Throw in E as [E|(v1 & m1 & _ & E)]; [by apply Reserve_throw in E|done].
Qed.

Lemma copy_assign_throw this rhs m e s :
  copy_assign this rhs m = Throw e s -> e = bad_alloc /\ s = MkThrown m (Some this).
Proof.
  intros E. unfold copy_assign in E.
  apply bind_Throw in E as [E|(u & m1 & E1 & E)]; [absurd_throw E|].
  assert (m1 = m) as ->.
  { unfold assert in E1. destruct (bool_decide _); [|done]. by injection E1. }
  apply bind_Throw in E as [E|(temp & m2 & _ & E)]; [by apply in_object_new_throw in E|].
  cbn [ArrayPtr.swap] in E. unfold begin, end_, std_copy in E. absurd_throw E.
Qed.

Lemma At_throw (i : Z) v m e s :
  At i v m = Throw e s -> e = out_of_range /\ s = MkThrown m (Some v).
Proof.
  unfold At. destruct (_ <=? _); [by intros [= <- <-]|]. intros E. absurd_throw E.
Qed.

(** A constructor that throws has allocated nothing. *)
Lemma constructor_throw m e s :
  (exists n : Z, SimpleVector_sized n m = Throw e s) \/
  (exists (n : Z) x, SimpleVector_filled n x m = Throw e s) \/
  (exists init : list T, SimpleVector_init init m = Throw e s) \/
  (exists other, SimpleVector_copy other m = Throw e s) \/
  (exists obj, SimpleVector_reserved obj m = Throw e s) ->
  e = bad_alloc /\ s = MkThrown m None.
Proof.
  intros [[n E]|[(n & x & E)|[[init E]|[[o E]|[obj E]]]]];
    apply bind_Throw in E as [E|(a & m1 & _ & E)];
    try (by apply ArrayPtr_new_throw in E).
  - unfold std_fill in E. absurd_throw E.
  - unfold std_fill in E. absurd_throw E.
  - absurd_throw E.
  - cbn [ArrayPtr.swap] in E. unfold begin, end_, std_copy in E. absurd_throw E.
  - done.
Qed.

(** ** The invariant of a program's state *)

Lemma vec_ok_heap_eq h h' v : h' = h -> vec_ok h v -> vec_ok h' v.
Proof. by intros ->. Qed.

Lemma vec_ok_same_handle h v v' :
  vec_ok h v ->
  ArrayPtr.raw_ptr_ (items_ v') = ArrayPtr.raw_ptr_ (items_ v) ->
  0 <= size_ v' <= capacity_ v' -> capacity_ v' <= capacity_ v ->
  vec_ok h v'.
Proof.
  intros (H0 & H1 & H2 & H3 & Hl) Er Hs Hc. unfold vec_ok, block in *.
  rewrite Er. split_and!; try done; lia.
Qed.

Lemma world_ok_update (w : World T) (x : name) v' (m' : Mem T) :
  world_ok w ->
  evolves (heap (mem w)) (default SimpleVector_default (vecs w !! x)) (heap m') v' ->
  world_ok (MkWorld (<[x := v']> (vecs w)) m').
Proof.
  intros (Hall & Huniq & Hfit) Hev.
  set (v := default SimpleVector_default (vecs w !! x)) in *.
  assert (Hother : forall y vy l, y <> x -> vecs w !! y = Some vy ->
            ArrayPtr.raw_ptr_ (items_ vy) = Some l ->
            ArrayPtr.raw_ptr_ (items_ v) <> Some l).
  { intros y vy l Hne Ey El. unfold v. destruct (vecs w !! x) as [vx|] eqn:Ex; cbn; [|done].
    by apply (Huniq y x vy vx l). }
  split_and!; cbn [vecs mem].
  - intros y vy Ey. rewrite lookup_insert in Ey.
    destruct (decide (x = y)) as [<-|Hne].
    + injection Ey as <-. by apply (evolves_ok (heap (mem w)) v).
    + apply (evolves_frame _ _ _ _ vy Hev); [by apply (Hall y)|].
      intros l El. by apply (Hother y vy).
  - intros y z vy vz l Hyz Ey Ez El. rewrite lookup_insert in Ey, Ez.
    destruct (decide (x = y)) as [<-|Hy], (decide (x = z)) as [<-|Hz]; try done.
    + injection Ey as <-.
      destruct (evolves_frame _ _ _ _ vz Hev (Hall z vz Ez)) as (_ & _ & _ & Hne).
      { intros l0 El0. by apply (Hother z vz). }
      intros Elz. by apply (Hne l Elz).
    + injection Ez as <-.
      destruct (evolves_frame _ _ _ _ vy Hev (Hall y vy Ey)) as (_ & _ & _ & Hne).
      { intros l0 El0. by apply (Hother y vy). }
      by apply Hne.
    + by apply (Huniq y z vy vz l).
  - intros y vy Ey. cbn [vecs mem] in *. rewrite lookup_insert in Ey.
    destruct (decide (x = y)) as [<-|Hne].
    + injection Ey as <-. destruct Hev as (_ & _ & _ & _ & Hkeep). apply Hkeep.
      unfold v. destruct (vecs w !! x) as [vx|] eqn:Ex; cbn; [by apply (Hfit x)|by left].
    + destruct (evolves_frame _ _ _ _ vy Hev (Hall y vy Ey)) as (_ & Hb & _).
      { intros l El. by apply (Hother y vy). }
      unfold fits. rewrite Hb. by apply (Hfit y).
Qed.

Lemma world_ok_read (w : World T) (m' : Mem T) :
  world_ok w -> heap m' = heap (mem w) -> world_ok (MkWorld (vecs w) m').
Proof.
  intros (Hall & Huniq & Hfit) Hh. split_and!; cbn [vecs mem]; [|done|].
  - intros y vy Ey. rewrite Hh. by apply (Hall y).
  - intros y vy Ey. cbn [vecs mem] in *. rewrite Hh. by apply (Hfit y).
Qed.

Lemma world_ok_destroy (w : World T) (x : name) v (m' : Mem T) :
  world_ok w -> vecs w !! x = Some v ->
  heap m' = free_block (ArrayPtr.raw_ptr_ (items_ v)) (heap (mem w)) ->
  world_ok (MkWorld (delete x (vecs w)) m').
Proof.
  intros (Hall & Huniq & Hfit) Ex Hh. split_and!; cbn [vecs mem].
  - intros y vy Ey. rewrite lookup_delete in Ey.
    destruct (decide (x = y)) as [|Hne]; [done|].
    pose proof (Hall y vy Ey) as Hok. rewrite Hh.
    destruct (ArrayPtr.raw_ptr_ (items_ v)) as [l|] eqn:El; cbn; [|done].
    assert (Hny : ArrayPtr.raw_ptr_ (items_ vy) <> Some l).
    { intros Ely. by apply (Huniq x y v vy l). }
    unfold vec_ok, block in *.
    destruct (ArrayPtr.raw_ptr_ (items_ vy)) as [ly|]; [|done].
    rewrite lookup_delete_ne by congruence. done.
  - intros y z vy vz l Hyz Ey Ez. rewrite lookup_delete in Ey, Ez.
    destruct (decide (x = y)); [done|]. destruct (decide (x = z)); [done|].
    by apply (Huniq y z).
  - intros y vy Ey. cbn [vecs mem] in *. rewrite lookup_delete in Ey.
    destruct (decide (x = y)) as [|Hne]; [done|].
    pose proof (Hfit y vy Ey) as Hf. rewrite Hh.
    destruct (ArrayPtr.raw_ptr_ (items_ v)) as [l|] eqn:El; cbn; [|done].
    assert (Hny : ArrayPtr.raw_ptr_ (items_ vy) <> Some l).
    { intros Ely. by apply (Huniq x y v vy l). }
    unfold fits, block in *.
    destruct (ArrayPtr.raw_ptr_ (items_ vy)) as [ly|]; [|done].
    rewrite lookup_delete_ne by congruence. done.
Qed.

Lemma world_ok_store (w : World T) p x u (m' : Mem T) :
  world_ok w -> store p x (mem w) = Ok (u, m') -> world_ok (MkWorld (vecs w) m').
Proof.
  intros (Hall & Huniq & Hfit) E. split_and!; cbn [vecs mem]; [|done|].
  - intros y vy Ey. apply (store_keeps_vec_ok _ _ _ _ _ _ E). by apply (Hall y).
  - intros y vy Ey. cbn [vecs mem] in *. unfold fits.
    rewrite (store_block_length _ _ _ _ _ _ E). by apply (Hfit y).
Qed.

(** Two vectors that exchanged or handed over their buffers; the heap is
    as before. *)
Lemma world_ok_two (w : World T) (st' : gmap name SimpleVector) (m' : Mem T)
    (x y : name) a b a' b' :
  world_ok w -> heap m' = heap (mem w) ->
  x <> y ->
  vecs w !! y = Some b ->
  (vecs w !! x = Some a \/ (vecs w !! x = None /\ a = SimpleVector_default)) ->
  (forall k, st' !! k = if decide (k = y) then Some b'
                        else if decide (k = x) then Some a' else vecs w !! k) ->
  vec_ok (heap (mem w)) a' -> vec_ok (heap (mem w)) b' ->
  fits (heap (mem w)) a' -> fits (heap (mem w)) b' ->
  ArrayPtr.raw_ptr_ (items_ a') = ArrayPtr.raw_ptr_ (items_ b) ->
  ArrayPtr.raw_ptr_ (items_ b') = ArrayPtr.raw_ptr_ (items_ a) ->
  world_ok (MkWorld st' m').
Proof.
  intros (Hall & Huniq & Hfit) Hh Hxy Ey Ex Hst Ha' Hb' Hfa' Hfb' Era Erb.
  assert (Hab : forall l, ArrayPtr.raw_ptr_ (items_ a) = Some l ->
                          ArrayPtr.raw_ptr_ (items_ b) <> Some l).
  { intros l El. destruct Ex as [Ex|[_ ->]]; [|done]. by apply (Huniq x y a b l). }
  assert (Hza : forall z vz l, z <> x -> z <> y -> vecs w !! z = Some vz ->
                  ArrayPtr.raw_ptr_ (items_ vz) = Some l ->
                  ArrayPtr.raw_ptr_ (items_ a) <> Some l /\
                  ArrayPtr.raw_ptr_ (items_ b) <> Some l).
  { intros z vz l Hzx Hzy Ez El. split.
    - destruct Ex as [Ex|[_ ->]]; [|done]. by apply (Huniq z x vz a l).
    - by apply (Huniq z y vz b l). }
  split_and!; cbn [vecs mem];
    [|
     |intros k vk Ek; cbn [vecs mem] in *; rewrite Hst in Ek; rewrite Hh;
      destruct (decide (k = y)); [by injection Ek as <-|];
      destruct (decide (k = x)); [by injection Ek as <-|];
      by apply (Hfit k)].
  - intros k vk Ek. rewrite Hst in Ek. rewrite Hh.
    destruct (decide (k = y)); [by injection Ek as <-|].
    destruct (decide (k = x)); [by injection Ek as <-|].
    by apply (Hall k).
  - intros k1 k2 v1 v2 l Hk E1 E2 El. rewrite Hst in E1, E2.
    destruct (decide (k1 = y)) as [->|H1y]; [injection E1 as <-|];
      (destruct (decide (k2 = y)) as [->|H2y]; [injection E2 as <-|]); try done.
    + destruct (decide (k2 = x)) as [->|H2x]; [injection E2 as <-|].
      * rewrite Era. rewrite Erb in El. by apply Hab.
      * rewrite Erb in El. intros E2l.
        by destruct (Hza k2 v2 l H2x H2y E2 E2l).
    + destruct (decide (k1 = x)) as [->|H1x]; [injection E1 as <-|].
      * rewrite Erb. rewrite Era in El. intros Eal. by apply (Hab l).
      * rewrite Erb. by destruct (Hza k1 v1 l H1x H1y E1 El).
    + destruct (decide (k1 = x)) as [->|H1x]; [injection E1 as <-|];
        (destruct (decide (k2 = x)) as [->|H2x]; [injection E2 as <-|]); try done.
      * rewrite Era in El. intros E2l.
        by destruct (Hza k2 v2 l H2x H2y E2 E2l).
      * rewrite Era. by destruct (Hza k1 v1 l H1x H1y E1 El).
      * by apply (Huniq k1 k2 v1 v2 l).
Qed.

Lemma move_handles (a b : ArrayPtr.t) :
  ArrayPtr.raw_ptr_ (fst (ArrayPtr.move_assign a b)) = ArrayPtr.raw_ptr_ b /\
  ArrayPtr.raw_ptr_ (snd (ArrayPtr.move_assign a b)) = ArrayPtr.raw_ptr_ a.
Proof.
  unfold ArrayPtr.move_assign.
  destruct (decide (ArrayPtr.raw_ptr_ a = ArrayPtr.raw_ptr_ b)) as [E|E]; cbn; [|done].
  by rewrite E.
Qed.

Lemma move_assign_store (w : World T) (x other : name) a b :
  vecs w !! x = Some a -> vecs w !! other = Some b ->
  exists st',
    move_assign x other w = Ok (MkWorld st' (mem w)) /\
    forall k, st' !! k =
      if decide (k = other)
      then Some (MkVec 0 0 (snd (ArrayPtr.move_assign (items_ a) (items_ b))))
      else if decide (k = x)
           then Some (MkVec (size_ b) (capacity_ b)
                            (fst (ArrayPtr.move_assign (items_ a) (items_ b))))
           else vecs w !! k.
Proof.
  intros Ea Eb. unfold move_assign. rewrite Ea, Eb.
  destruct (ArrayPtr.move_assign (items_ a) (items_ b)) as [ti oi] eqn:Em.
  eexists. split; [reflexivity|]. intros k. cbn [fst snd].
  unfold set_items, set_size, set_capacity.
  rewrite !lookup_alter.
  repeat case_decide; simplify_eq; rewrite ?Ea, ?Eb; cbn; try done.
Qed.

Lemma move_construct_store (w : World T) (x other : name) o :
  vecs w !! x = None -> vecs w !! other = Some o ->
  exists st',
    move_construct x other w = Ok (MkWorld st' (mem w)) /\
    forall k, st' !! k =
      if decide (k = other)
      then Some (MkVec 0 0 (snd (ArrayPtr.move_assign ArrayPtr.default (items_ o))))
      else if decide (k = x)
           then Some (MkVec (size_ o) (capacity_ o)
                            (fst (ArrayPtr.move_assign ArrayPtr.default (items_ o))))
           else vecs w !! k.
Proof.
  intros Ex Eo. unfold move_construct. rewrite Ex, Eo.
  destruct (ArrayPtr.move_assign ArrayPtr.default (items_ o)) as [ti oi] eqn:Em.
  eexists. split; [reflexivity|]. intros k. cbn [fst snd].
  unfold set_items, set_size, set_capacity.
  rewrite !lookup_alter, ?lookup_insert.
  repeat case_decide; simplify_eq; rewrite ?Ex, ?Eo; cbn; try done.
Qed.

Lemma swap_store (w : World T) (x rhs : name) a b :
  vecs w !! x = Some a -> vecs w !! rhs = Some b ->
  exists st',
    swap x rhs w = Ok (MkWorld st' (mem w)) /\
    forall k, st' !! k =
      if decide (k = rhs)
      then Some (MkVec (size_ a) (capacity_ a) (ArrayPtr.Make (ArrayPtr.raw_ptr_ (items_ a))))
      else if decide (k = x)
           then Some (MkVec (size_ b) (capacity_ b)
                            (ArrayPtr.Make (ArrayPtr.raw_ptr_ (items_ b))))
           else vecs w !! k.
Proof.
  intros Ea Eb. unfold swap. rewrite Ea, Eb. cbn [ArrayPtr.swap].
  eexists. split; [reflexivity|]. intros k.
  unfold set_items, set_size, set_capacity.
  rewrite !lookup_alter.
  repeat case_decide; simplify_eq; rewrite ?Ea, ?Eb; cbn; try done.
Qed.

Lemma world_ok_move_assign (w w' : World T) (x other : name) :
  world_ok w -> move_assign x other w = Ok w' -> world_ok w'.
Proof.
  intros Hw E. pose proof Hw as (Hall & Huniq & Hfit).
  destruct (vecs w !! x) as [a|] eqn:Ea; [|by unfold move_assign in E; rewrite Ea in E].
  destruct (vecs w !! other) as [b|] eqn:Eb;
    [|by unfold move_assign in E; rewrite Ea, Eb in E].
  destruct (move_assign_store w x other a b Ea Eb) as (st' & E' & Hst).
  rewrite E' in E. injection E as <-.
  destruct (move_handles (items_ a) (items_ b)) as [Hti Hoi].
  pose proof (Hall x a Ea) as Hoka. pose proof (Hall other b Eb) as Hokb.
  pose proof Hoka as (? & ? & _). pose proof Hokb as (? & ? & _).
  destruct (decide (x = other)) as [<-|Hne].
  - assert (a = b) as <- by congruence.
    replace st' with (<[x := MkVec 0 0 (snd (ArrayPtr.move_assign (items_ a) (items_ a)))]>
                        (vecs w)).
    2:{ apply map_eq. intros k. rewrite Hst, lookup_insert.
        destruct (decide (x = k)) as [<-|]; [by rewrite decide_True|].
        by rewrite !decide_False by done. }
    apply world_ok_update; [done|]. rewrite Ea. cbn [default mem].
    unfold evolves. split.
    { apply (vec_ok_same_handle _ a); cbn [size_ capacity_ items_]; try done; lia. }
    cbn [items_]. rewrite Hoi. split_and!; easy_side.
  - apply (world_ok_two w st' (mem w) x other a b
             (MkVec (size_ b) (capacity_ b) (fst (ArrayPtr.move_assign (items_ a) (items_ b))))
             (MkVec 0 0 (snd (ArrayPtr.move_assign (items_ a) (items_ b)))));
      try done; try (by left).
    + apply (vec_ok_same_handle _ b); cbn [size_ capacity_ items_]; try done; lia.
    + apply (vec_ok_same_handle _ a); cbn [size_ capacity_ items_]; try done; lia.
    + pose proof (Hfit other b Eb) as Hf. unfold fits, block in *.
      cbn [capacity_ items_]. by rewrite Hti.
Qed.

Lemma world_ok_move_construct (w w' : World T) (x other : name) :
  world_ok w -> move_construct x other w = Ok w' -> world_ok w'.
Proof.
  intros Hw E. pose proof Hw as (Hall & Huniq & Hfit).
  destruct (vecs w !! x) as [a|] eqn:Ea.
  { unfold move_construct in E. by rewrite Ea in E. }
  destruct (vecs w !! other) as [o|] eqn:Eo;
    [|by unfold move_construct in E; rewrite Ea, Eo in E].
  destruct (move_construct_store w x other o Ea Eo) as (st' & E' & Hst).
  rewrite E' in E. injection E as <-.
  destruct (move_handles ArrayPtr.default (items_ o)) as [Hti Hoi].
  pose proof (Hall other o Eo) as Hoko. pose proof Hoko as (? & ? & _).
  assert (Hne : x <> other) by congruence.
  apply (world_ok_two w st' (mem w) x other SimpleVector_default o
           (MkVec (size_ o) (capacity_ o)
                  (fst (ArrayPtr.move_assign ArrayPtr.default (items_ o))))
           (MkVec 0 0 (snd (ArrayPtr.move_assign ArrayPtr.default (items_ o)))));
    try done; try (by right); try (by left).
  - apply (vec_ok_same_handle _ o); cbn [size_ capacity_ items_]; try done; lia.
  - apply (vec_ok_same_handle _ SimpleVector_default); cbn [size_ capacity_ items_];
      try done; try apply vec_ok_default.
  - pose proof (Hfit other o Eo) as Hf. unfold fits, block in *.
    cbn [capacity_ items_]. by rewrite Hti.
Qed.

Lemma world_ok_swap (w w' : World T) (x rhs : name) :
  world_ok w -> swap x rhs w = Ok w' -> world_ok w'.
Proof.
  intros Hw E. pose proof Hw as (Hall & Huniq & Hfit).
  destruct (vecs w !! x) as [a|] eqn:Ea; [|by unfold swap in E; rewrite Ea in E].
  destruct (vecs w !! rhs) as [b|] eqn:Eb; [|by unfold swap in E; rewrite Ea, Eb in E].
  destruct (swap_store w x rhs a b Ea Eb) as (st' & E' & Hst).
  rewrite E' in E. injection E as <-.
  pose proof (Hall x a Ea) as Hoka. pose proof (Hall rhs b Eb) as Hokb.
  pose proof Hoka as (? & ? & _). pose proof Hokb as (? & ? & _).
  destruct (decide (x = rhs)) as [<-|Hne].
  - assert (a = b) as <- by congruence.
    replace st' with (<[x := MkVec (size_ a) (capacity_ a)
                                   (ArrayPtr.Make (ArrayPtr.raw_ptr_ (items_ a)))]> (vecs w)).
    2:{ apply map_eq. intros k. rewrite Hst, lookup_insert.
        destruct (decide (x = k)) as [<-|]; [by rewrite decide_True|].
        by rewrite !decide_False by done. }
    apply world_ok_update; [done|]. rewrite Ea. cbn [default mem].
    unfold evolves. split.
    { apply (vec_ok_same_handle _ a); cbn [size_ capacity_ items_ ArrayPtr.raw_ptr_];
        try done; lia. }
    cbn [items_ ArrayPtr.raw_ptr_]. split_and!; easy_side.
  - apply (world_ok_two w st' (mem w) x rhs a b
             (MkVec (size_ b) (capacity_ b) (ArrayPtr.Make (ArrayPtr.raw_ptr_ (items_ b))))
             (MkVec (size_ a) (capacity_ a) (ArrayPtr.Make (ArrayPtr.raw_ptr_ (items_ a)))));
      try done; try (by left).
    + by apply (Hfit rhs b).
    + by apply (Hfit x a).
Qed.

Lemma world_ok_declare (w w' : World T) (x : name) (ctor : M T SimpleVector) :
  world_ok w ->
  (forall v m', ctor (mem w) = Ok (v, m') ->
     evolves (heap (mem w)) SimpleVector_default (heap m') v) ->
  declare x ctor w = Ok w' -> world_ok w'.
Proof.
  intros Hw Hctor E. unfold declare in E.
  destruct (vecs w !! x) as [?|] eqn:Ex; [done|].
  destruct (ctor (mem w)) as [[v m']| |] eqn:Ec; [|done..]. injection E as <-.
  apply world_ok_update; [done|]. rewrite Ex. by apply Hctor.
Qed.

Lemma world_ok_mutate (w w' : World T) (x : name) (f : SimpleVector -> M T SimpleVector) :
  world_ok w ->
  (forall v v' m', vec_ok (heap (mem w)) v -> f v (mem w) = Ok (v', m') ->
     evolves (heap (mem w)) v (heap m') v') ->
  mutate x f w = Ok w' -> world_ok w'.
Proof.
  intros Hw Hf E. unfold mutate in E.
  destruct (vecs w !! x) as [v|] eqn:Ex; [|done].
  destruct (f v (mem w)) as [[v' m']| |] eqn:Ef; [|done..]. injection E as <-.
  apply world_ok_update; [done|]. rewrite Ex. apply Hf; [|done].
  destruct Hw as (Hall & _). by apply (Hall x).
Qed.

Lemma world_ok_observe {A} (w w' : World T) (x : name) (f : SimpleVector -> M T A) :
  world_ok w -> (forall v, read_only (f v)) ->
  observe x f w = Ok w' -> world_ok w'.
Proof.
  intros Hw Hf E. unfold observe in E.
  destruct (vecs w !! x) as [v|] eqn:Ex; [|done].
  destruct (f v (mem w)) as [[r m']| |] eqn:Ef; [|done..]. injection E as <-.
  apply world_ok_read; [done|]. by apply (Hf v _ _ _ Ef).
Qed.

Lemma world_ok_compare (w w' : World T) (x y : name)
    (f : SimpleVector -> SimpleVector -> M T bool) :
  world_ok w -> (forall a b, read_only (f a b)) ->
  compare x y f w = Ok w' -> world_ok w'.
Proof.
  intros Hw Hf E. unfold compare in E.
  destruct (vecs w !! x) as [a|] eqn:Ex; [|done].
  destruct (vecs w !! y) as [b|] eqn:Ey; [|done].
  destruct (f a b (mem w)) as [[r m']| |] eqn:Ef; [|done..]. injection E as <-.
  apply world_ok_read; [done|]. by apply (Hf a b _ _ _ Ef).
Qed.

Lemma world_ok_empty : world_ok (empty_world (T:=T)).
Proof. unfold world_ok, world_fits. split_and!; cbn; intros *; by rewrite lookup_empty. Qed.

(** Every constructor and public operation keeps the invariant. *)
Lemma exec_world_ok (c : call T) (w w' : World T) :
  call_wf c -> world_ok w -> exec c w = Ok w' -> world_ok w'.
Proof.
  intros Hwf Hw E. pose proof Hw as (Hall & Huniq & Hfit).
  destruct c as [x|x n|x n val|x init|x other|x obj|x other|x rhs|x other|x|x i|x i|x|x
                |p val|x|x n|x|x pos|x val|x val|x pos val|x pos val|x rhs|x n
                |x y|x y|x y|x y|x y|x y];
    cbn [exec call_wf] in *.
  - apply (world_ok_declare _ _ _ _ Hw) in E; [done|].
    intros v m' [= <- <-]. apply evolves_refl, vec_ok_default.
  - apply (world_ok_declare _ _ _ _ Hw) in E; [done|].
    intros v m' Ec. apply (SimpleVector_sized_evolves _ n); [apply Hwf|done].
  - apply (world_ok_declare _ _ _ _ Hw) in E; [done|].
    intros v m' Ec. apply (SimpleVector_filled_evolves _ n val); [apply Hwf|done].
  - apply (world_ok_declare _ _ _ _ Hw) in E; [done|].
    intros v m' Ec. by apply (SimpleVector_init_evolves _ init).
  - destruct (vecs w !! other) as [o|] eqn:Eo; [|done].
    apply (world_ok_declare _ _ _ _ Hw) in E; [done|].
    intros v m' Ec. apply (SimpleVector_copy_evolves _ o); [by apply (Hall other)|done].
  - apply (world_ok_declare _ _ _ _ Hw) in E; [done|].
    intros v m' Ec. apply (SimpleVector_reserved_evolves _ obj); [apply Hwf|done].
  - by apply (world_ok_move_construct w w' x other).
  - unfold copy_assignment in E.
    destruct (vecs w !! x) as [a|] eqn:Ea; [|done].
    destruct (vecs w !! rhs) as [b|] eqn:Eb; [|done].
    destruct (copy_assign a b (mem w)) as [[a' m']| |] eqn:Ec; [|done..]. injection E as <-.
    apply world_ok_update; [done|]. rewrite Ea.
    apply (copy_assign_evolves _ a b); [by apply (Hall x)|by apply (Hall rhs)|done].
  - by apply (world_ok_move_assign w w' x other).
  - unfold destroy in E.
    destruct (vecs w !! x) as [v|] eqn:Ex; [|done].
    destruct (SimpleVector_dtor v (mem w)) as [[u m']| |] eqn:Ed; [|done..]. injection E as <-.
    apply (world_ok_destroy w x v); [done..|]. by apply (SimpleVector_dtor_heap _ _ u).
  - apply (world_ok_observe _ _ _ _ Hw) in E; [done|]. apply read_only_index_op.
  - apply (world_ok_observe _ _ _ _ Hw) in E; [done|]. apply read_only_At.
  - apply (world_ok_observe _ _ _ _ Hw) in E; [done|]. intros v. apply read_only_index.
  - apply (world_ok_observe _ _ _ _ Hw) in E; [done|]. intros v. apply read_only_index.
  - unfold assign_through in E.
    destruct (store p val (mem w)) as [[u m']| |] eqn:Es; [|done..]. injection E as <-.
    by apply (world_ok_store w p val u).
  - apply (world_ok_mutate _ _ _ _ Hw) in E; [done|].
    intros v v' m' Hok Ef. by apply (Resize_evolves _ _ 0).
  - apply (world_ok_mutate _ _ _ _ Hw) in E; [done|].
    intros v v' m' Hok Ef. apply (Resize_evolves _ _ n); [done|apply Hwf|done].
  - apply (world_ok_mutate _ _ _ _ Hw) in E; [done|].
    intros v v' m' Hok [= <- <-]. by apply PopBack_evolves.
  - apply (world_ok_mutate _ _ _ _ Hw) in E; [done|].
    intros v v' m' Hok Ef. apply bind_Ok in Ef as (r & m1 & Er & [= <- <-]).
    by apply (Erase_evolves _ _ pos).
  - apply (world_ok_mutate _ _ _ _ Hw) in E; [done|].
    intros v v' m' Hok Ef. apply (PushBack_evolves _ _ val); [done|by left].
  - apply (world_ok_mutate _ _ _ _ Hw) in E; [done|].
    intros v v' m' Hok Ef. apply (PushBack_evolves _ _ val); [done|by right].
  - apply (world_ok_mutate _ _ _ _ Hw) in E; [done|].
    intros v v' m' Hok Ef. apply bind_Ok in Ef as (r & m1 & Er & [= <- <-]).
    by apply (Insert_evolves _ _ pos val).
  - apply (world_ok_mutate _ _ _ _ Hw) in E; [done|].
    intros v v' m' Hok Ef. apply bind_Ok in Ef as (r & m1 & Er & [= <- <-]).
    rewrite Insert_move_eq in Er. by apply (Insert_evolves _ _ pos val).
  - by apply (world_ok_swap w w' x rhs).
  - apply (world_ok_mutate _ _ _ _ Hw) in E; [done|].
    intros v v' m' Hok Ef. apply (Reserve_evolves _ _ n); [done|apply Hwf|done].
  - apply (world_ok_compare _ _ _ _ _ Hw) in E; [done|]. apply read_only_operator_eq.
  - apply (world_ok_compare _ _ _ _ _ Hw) in E; [done|]. apply read_only_operator_ne.
  - apply (world_ok_compare _ _ _ _ _ Hw) in E; [done|]. apply read_only_operator_lt.
  - apply (world_ok_compare _ _ _ _ _ Hw) in E; [done|]. apply read_only_operator_le.
  - apply (world_ok_compare _ _ _ _ _ Hw) in E; [done|]. apply read_only_operator_gt.
  - apply (world_ok_compare _ _ _ _ _ Hw) in E; [done|]. apply read_only_operator_ge.
Qed.

(** The heap and the vectors are as before. *)
Lemma world_ok_same (w w' : World T) :
  world_ok w -> vecs w' = vecs w -> heap (mem w') = heap (mem w) -> world_ok w'.
Proof.
  destruct w' as [st m']. cbn [vecs mem]. intros Hw -> Hh. by apply world_ok_read.
Qed.

Lemma declare_Throw (w w' : World T) (x : name) (ctor : M T SimpleVector) e :
  (forall e s, ctor (mem w) = Throw e s -> e = bad_alloc /\ s = MkThrown (mem w) None) ->
  declare x ctor w = Throw e w' ->
  e = bad_alloc /\ vecs w' = vecs w /\ heap (mem w') = heap (mem w).
Proof.
  intros Hc E. unfold declare in E.
  destruct (vecs w !! x) as [?|]; [done|].
  destruct (ctor (mem w)) as [[v m']|e' s|] eqn:Ec; [done| |done]. injection E as <- <-.
  by destruct (Hc e' s eq_refl) as [-> ->].
Qed.

Lemma mutate_Throw (w w' : World T) (x : name) (f : SimpleVector -> M T SimpleVector)
    (e e0 : exception) :
  (forall v e s, vecs w !! x = Some v -> f v (mem w) = Throw e s ->
     e = e0 /\ heap (thrown_mem s) = heap (mem w) /\ thrown_this s = Some v) ->
  mutate x f w = Throw e w' ->
  e = e0 /\ vecs w' = vecs w /\ heap (mem w') = heap (mem w).
Proof.
  intros Hf E. unfold mutate in E.
  destruct (vecs w !! x) as [v|] eqn:Ex; [|done].
  destruct (f v (mem w)) as [[v' m']|e' s|] eqn:Ef; [done| |done]. injection E as <- <-.
  destruct (Hf v e' s eq_refl Ef) as (-> & Hh & Ht).
  unfold thrown_world. rewrite Ht. cbn [vecs mem]. split_and!; [done| |done].
  by apply insert_id.
Qed.

Lemma observe_Throw {A} (w w' : World T) (x : name) (f : SimpleVector -> M T A)
    (e e0 : exception) :
  (forall v e s, vecs w !! x = Some v -> f v (mem w) = Throw e s ->
     e = e0 /\ heap (thrown_mem s) = heap (mem w) /\ thrown_this s = Some v) ->
  observe x f w = Throw e w' ->
  e = e0 /\ vecs w' = vecs w /\ heap (mem w') = heap (mem w).
Proof.
  intros Hf E. unfold observe in E.
  destruct (vecs w !! x) as [v|] eqn:Ex; [|done].
  destruct (f v (mem w)) as [[v' m']|e' s|] eqn:Ef; [done| |done]. injection E as <- <-.
  destruct (Hf v e' s eq_refl Ef) as (-> & Hh & Ht).
  unfold thrown_world. rewrite Ht. cbn [vecs mem]. split_and!; [done| |done].
  by apply insert_id.
Qed.

Lemma compare_no_Throw (w w' : World T) (x y : name)
    (f : SimpleVector -> SimpleVector -> M T bool) e :
  (forall a b, no_throw (f a b)) -> compare x y f w <> Throw e w'.
Proof.
  intros Hf E. unfold compare in E.
  destruct (vecs w !! x) as [a|]; [|done]. destruct (vecs w !! y) as [b|]; [|done].
  destruct (f a b (mem w)) as [[r m']|e' s|] eqn:Ef; [done| |done].
  by apply (Hf a b _ _ _ Ef).
Qed.

(** A call that throws leaves every vector and every array as they were;
    [At] throws [std::out_of_range], every other call [std::bad_alloc]. *)
Lemma exec_Throw (c : call T) (w w' : World T) e :
  world_ok w -> exec c w = Throw e w' ->
  e = match c with CallAt _ _ => out_of_range | _ => bad_alloc end /\
  vecs w' = vecs w /\ heap (mem w') = heap (mem w).
Proof.
  intros Hw E. pose proof Hw as (Hall & Huniq & Hfit).
  destruct c as [x|x n|x n val|x init|x other|x obj|x other|x rhs|x other|x|x i|x i|x|x
                |p val|x|x n|x|x pos|x val|x val|x pos val|x pos val|x rhs|x n
                |x y|x y|x y|x y|x y|x y];
    cbn [exec] in *.
  - by apply declare_Throw in E.
  - apply declare_Throw in E; [done|]. intros e' s E'. apply constructor_throw.
    left. by exists n.
  - apply declare_Throw in E; [done|]. intros e' s E'. apply constructor_throw.
    right. left. by exists n, val.
  - apply declare_Throw in E; [done|]. intros e' s E'. apply constructor_throw.
    right. right. left. by exists init.
  - destruct (vecs w !! other) as [o|]; [|done].
    apply declare_Throw in E; [done|]. intros e' s E'. apply constructor_throw.
    right. right. right. left. by exists o.
  - apply declare_Throw in E; [done|]. intros e' s E'. apply constructor_throw.
    right. right. right. right. by exists obj.
  - unfold move_construct in E. by repeat case_match.
  - unfold copy_assignment in E.
    destruct (vecs w !! x) as [a|] eqn:Ea; [|done].
    destruct (vecs w !! rhs) as [b|]; [|done].
    destruct (copy_assign a b (mem w)) as [[a' m']|e' s|] eqn:Ec; [done| |done].
    injection E as <- <-. apply copy_assign_throw in Ec as [-> ->].
    unfold thrown_world. cbn. split_and!; [done| |done]. by apply insert_id.
  - unfold move_assign in E. by repeat case_match.
  - unfold destroy in E. destruct (vecs w !! x) as [v|]; [|done].
    destruct (SimpleVector_dtor v (mem w)) as [[u m']|e' s|] eqn:Ed; [done| |done].
    by apply no_throw_dtor in Ed.
  - apply (observe_Throw _ _ _ _ _ bad_alloc) in E; [done|].
    intros v e' s _ E'. by apply no_throw_index_op in E'.
  - apply (observe_Throw _ _ _ _ _ out_of_range) in E; [done|].
    intros v e' s _ E'. by apply At_throw in E' as [-> ->].
  - apply (observe_Throw _ _ _ _ _ bad_alloc) in E; [done|]. by intros v e' s _ E'.
  - apply (observe_Throw _ _ _ _ _ bad_alloc) in E; [done|]. by intros v e' s _ E'.
  - unfold assign_through in E.
    destruct (store p val (mem w)) as [[u m']|e' s|] eqn:Es; [done| |done].
    by apply no_throw_store in Es.
  - apply (mutate_Throw _ _ _ _ _ bad_alloc) in E; [done|].
    intros v e' s Ex E'. apply Resize_throw in E' as [-> ->]; [done|].
    destruct (Hall x v Ex) as (_ & ? & _). done.
  - apply (mutate_Throw _ _ _ _ _ bad_alloc) in E; [done|].
    intros v e' s Ex E'. apply Resize_throw in E' as [-> ->]; [done|].
    destruct (Hall x v Ex) as (_ & ? & _). done.
  - apply (mutate_Throw _ _ _ _ _ bad_alloc) in E; [done|]. by intros v e' s _ E'.
  - apply (mutate_Throw _ _ _ _ _ bad_alloc) in E; [done|].
    intros v e' s _ E'. apply bind_Throw in E' as [E'|(r & m1 & _ & E')]; [|done].
    by apply no_throw_Erase in E'.
  - apply (mutate_Throw _ _ _ _ _ bad_alloc) in E; [done|].
    intros v e' s _ E'. by destruct (PushBack_throw val v (mem w) e' s (or_introl E')) as [-> ->].
  - apply (mutate_Throw _ _ _ _ _ bad_alloc) in E; [done|].
    intros v e' s _ E'. by destruct (PushBack_throw val v (mem w) e' s (or_intror E')) as [-> ->].
  - apply (mutate_Throw _ _ _ _ _ bad_alloc) in E; [done|].
    intros v e' s _ E'. apply bind_Throw in E' as [E'|(r & m1 & _ & E')]; [|done].
    by apply Insert_throw in E'.
  - apply (mutate_Throw _ _ _ _ _ bad_alloc) in E; [done|].
    intros v e' s _ E'. apply bind_Throw in E' as [E'|(r & m1 & _ & E')]; [|done].
    rewrite Insert_move_eq in E'. by apply Insert_throw in E'.
  - unfold swap in E. by repeat case_match.
  - apply (mutate_Throw _ _ _ _ _ bad_alloc) in E; [done|].
    intros v e' s _ E'. by apply Reserve_throw in E' as [-> ->].
  - by apply compare_no_Throw in E; [|apply no_throw_operator_eq].
  - by apply compare_no_Throw in E; [|intros a b; apply (no_throw_comparisons a b)].
  - by apply compare_no_Throw in E; [|apply no_throw_operator_lt].
  - by apply compare_no_Throw in E; [|intros a b; apply (no_throw_comparisons a b)].
  - by apply compare_no_Throw in E; [|intros a b; apply (no_throw_comparisons a b)].
  - by apply compare_no_Throw in E; [|intros a b; apply (no_throw_comparisons a b)].
Qed.

Lemma run_world_ok (p : list (call T)) : forall w w' : World T,
  Forall call_wf p -> world_ok w -> run p w = Ok w' -> world_ok w'.
Proof.
  induction p as [|c p IH]; intros w w' Hwf Hw E; cbn [run] in E.
  - by injection E as <-.
  - apply Forall_cons in Hwf as [Hc Hp].
    destruct (exec c w) as [w1|e w1|] eqn:Ec; [| |done].
    + apply (IH w1 w' Hp); [|done]. by apply (exec_world_ok c w).
    + apply (IH w1 w' Hp); [|done].
      destruct (exec_Throw c w w1 e Hw Ec) as (_ & Hv & Hh).
      by apply (world_ok_same w).
Qed.

(** C6, as the code has it: in every state a program reaches, before and
    after every constructor and public operation, whether the operation
    returned or threw an exception the program caught, every vector has
    [0 <= size <= capacity], owns a live array (or none) that it shares with
    no other vector, and that array has exactly [capacity] slots unless the
    capacity is 0.  A vector of capacity 0 can own an array with slots: a
    moved-from vector holds the array the destination had. *)
Theorem reachable_world_ok (w : World T) :
  reachable w ->
  world_ok w /\
  forall (x : name) v, vecs w !! x = Some v ->
    0 <= size_ v <= capacity_ v /\
    capacity_ v <= Z.of_nat (length (block (heap (mem w)) (items_ v))) /\
    (capacity_ v = 0 \/
     Z.of_nat (length (block (heap (mem w)) (items_ v))) = capacity_ v) /\
    (forall l, ArrayPtr.raw_ptr_ (items_ v) = Some l -> heap (mem w) !! l <> None) /\
    (forall (y : name) vy l, y <> x -> vecs w !! y = Some vy ->
       ArrayPtr.raw_ptr_ (items_ v) = Some l ->
       ArrayPtr.raw_ptr_ (items_ vy) <> Some l).
Proof.
  intros (p & Hwf & Hrun).
  assert (Hw : world_ok w) by (apply (run_world_ok p empty_world); [done|apply world_ok_empty|done]).
  split; [done|]. destruct Hw as (Hall & Huniq & Hfit).
  intros x v Ex. destruct (Hall x v Ex) as (H0 & H1 & H2 & _ & Hlive).
  split_and!; try done.
  - by apply (Hfit x).
  - intros l El. by rewrite El in Hlive.
  - intros y vy l Hne Ey El. by apply (Huniq x y v vy l).
Qed.

(** * Further properties of the code *)

(** ** ArrayPtr and FillByMove *)

(** [ArrayPtr(size_t size)] allocates nothing for size 0.  For a size that
    [new[]] grants, the object owns a new array of exactly [size] slots at
    an address that was not live, every other array is as before, and
    destroying the object gives back the heap there was before the
    construction.  A size above the bound of [new[]] throws [bad_alloc]
    and leaves the memory as it was. *)
Theorem ArrayPtr_new_dtor (size : Z) (m : Mem T) :
  (size = 0 -> ArrayPtr_new size m = Ok (ArrayPtr.default, m)) /\
  (max_array_len < size -> ArrayPtr_new size m = Throw bad_alloc (MkThrown m None)) /\
  (0 < size <= max_array_len ->
   exists l m' m'',
     ArrayPtr_new size m = Ok (ArrayPtr.Make (Some l), m') /\
     heap m !! l = None /\
     Z.of_nat (length (block (heap m') (ArrayPtr.Make (Some l)))) = size /\
     (forall l', l' <> l -> heap m' !! l' = heap m !! l') /\
     ArrayPtr_dtor (ArrayPtr.Make (Some l)) m' = Ok (tt, m'') /\
     heap m'' = heap m).
Proof.
  split_and!.
  - by intros ->.
  - apply ArrayPtr_new_bad_alloc.
  - intros Hn. destruct (yields_ArrayPtr_new (heap m) size Hn) as (l & Hl & Hy).
    destruct (Hy m eq_refl) as (m' & E & Hh).
    destruct (yields_dtor m' (heap m') (ArrayPtr.Make (Some l)) eq_refl) as (m'' & Ed & Hh'').
    { cbn. by rewrite Hh, lookup_insert_eq. }
    exists l, m', m''. split_and!; try done.
    + rewrite (block_live _ _ l (fresh_cells size)) by (done || by rewrite Hh, lookup_insert_eq).
      rewrite length_fresh_cells. lia.
    + intros l' Hne. by rewrite Hh, lookup_insert_ne.
    + rewrite Hh''. cbn. rewrite Hh. by apply delete_insert_id.
Qed.

(** [FillByMove(first, last, Type())] on a range [a .. b) of a live array
    stores [Type()] in every slot of the range and leaves the slots before
    [a] and from [b] on, and every other array, as they were. *)
Theorem FillByMove_contract (m : Mem T) (l : loc) (cells : list T) (a b : Z) :
  heap m !! l = Some cells ->
  0 <= a <= b -> b <= Z.of_nat (length cells) ->
  exists m',
    FillByMove (Ptr (Some l) a) (Ptr (Some l) b) m = Ok (tt, m') /\
    heap m' = <[l := take (Z.to_nat a) cells ++ replicate (Z.to_nat (b - a)) dflt
                      ++ drop (Z.to_nat b) cells]> (heap m).
Proof.
  intros E Hab Hb.
  assert (Hy : yields (FillByMove (Ptr (Some l) a) (Ptr (Some l) b)) m tt
                 (<[l := take (Z.to_nat a) cells ++ replicate (Z.to_nat (b - a)) dflt
                          ++ drop (Z.to_nat b) cells]> (heap m))).
  { assert (Ha : a = Z.of_nat (Z.to_nat a)) by lia.
    revert Ha. generalize (Z.to_nat a) as o. intros o ->.
    unfold FillByMove.
    eapply yields_bind; [apply (yields_range_steps m (heap m)); [done|lia]|].
    intros m1 E1. rewrite FillByMove_steps_fill.
    eapply yields_heap_eq; [apply (yields_fill_steps _ m1 (heap m) l cells); [done..|lia]|].
    do 4 f_equal. lia. }
  destruct Hy as (m' & Em & Hh). by exists m'.
Qed.

(** ** Constructors *)

(** What a constructor that started from no buffer leaves: the buffer it
    built is at an address that was not live, the other arrays are as
    before, and freeing the buffer gives back the heap there was. *)
Lemma evolves_from_default h h' v' :
  evolves h SimpleVector_default h' v' ->
  (forall l, ArrayPtr.raw_ptr_ (items_ v') = Some l -> h !! l = None) /\
  (forall l, ArrayPtr.raw_ptr_ (items_ v') <> Some l -> h' !! l = h !! l) /\
  free_block (ArrayPtr.raw_ptr_ (items_ v')) h' = h.
Proof.
  intros (Hok & Hfr & Hnew & Hdel & _).
  assert (Hfresh : forall l, ArrayPtr.raw_ptr_ (items_ v') = Some l -> h !! l = None).
  { intros l E. by destruct (Hnew l E). }
  assert (Hframe : forall l, ArrayPtr.raw_ptr_ (items_ v') <> Some l -> h' !! l = h !! l).
  { intros l Hne. by apply Hfr. }
  split_and!; [done..|].
  apply map_eq. intros l.
  destruct (ArrayPtr.raw_ptr_ (items_ v')) as [l'|] eqn:E; cbn.
  - destruct (decide (l = l')) as [->|Hne].
    + rewrite lookup_delete_eq. symmetry. by apply Hfresh.
    + rewrite lookup_delete_ne by done. apply Hframe. congruence.
  - by apply Hframe.
Qed.

(** [SimpleVector(size, value)], and [SimpleVector(size)] which is the same
    code with [Type()] for the value: the vector has [size] elements, all
    equal to [value], and capacity [size]; its buffer is a new array (none
    for size 0) and the arrays of the program are untouched.  A size beyond
    what [new[]] grants throws [bad_alloc] and leaves the memory as it
    was. *)
Theorem SimpleVector_filled_contract (m : Mem T) (n : Z) (value : T) :
  SimpleVector_sized n m = SimpleVector_filled n dflt m /\
  (max_array_len < n ->
   SimpleVector_filled n value m = Throw bad_alloc (MkThrown m None)) /\
  (0 <= n <= max_array_len ->
   exists v m',
     SimpleVector_filled n value m = Ok (v, m') /\
     vec_ok (heap m') v /\
     size_ v = n /\ capacity_ v = n /\
     contents (heap m') v = replicate (Z.to_nat n) value /\
     (n = 0 -> items_ v = ArrayPtr.default /\ heap m' = heap m) /\
     (forall l, ArrayPtr.raw_ptr_ (items_ v) = Some l -> heap m !! l = None) /\
     (forall l, ArrayPtr.raw_ptr_ (items_ v) <> Some l -> heap m' !! l = heap m !! l)).
Proof.
  split_and!; [done| |].
  - intros Hn. unfold SimpleVector_filled, bind. by rewrite ArrayPtr_new_bad_alloc.
  - intros Hn.
    destruct (SimpleVector_filled_spec (heap m) n value Hn) as (v & h' & Hy & Hev & Hs & Hc & Hcont).
    destruct (Hy m eq_refl) as (m' & E & <-).
    destruct (evolves_from_default _ _ _ Hev) as (Hfresh & Hframe & _).
    exists v, m'. split_and!; try done.
    + by apply (evolves_ok (heap m) SimpleVector_default).
    + intros ->. cbn in E. by injection E as <- <-.
Qed.

(** [SimpleVector(std::initializer_list)]: the elements are those of the
    list, in order; size and capacity are the length of the list; the
    buffer is a new array and the arrays of the program are untouched. *)
Theorem SimpleVector_init_contract (m : Mem T) (init : list T) :
  Z.of_nat (length init) <= max_array_len ->
  exists v m',
    SimpleVector_init init m = Ok (v, m') /\
    vec_ok (heap m') v /\
    size_ v = Z.of_nat (length init) /\ capacity_ v = Z.of_nat (length init) /\
    contents (heap m') v = init /\
    (forall l, ArrayPtr.raw_ptr_ (items_ v) = Some l -> heap m !! l = None) /\
    (forall l, ArrayPtr.raw_ptr_ (items_ v) <> Some l -> heap m' !! l = heap m !! l).
Proof.
  intros Hn.
  destruct (SimpleVector_init_spec (heap m) init Hn) as (v & h' & Hy & Hev & Hs & Hc & Hcont).
  destruct (Hy m eq_refl) as (m' & E & <-).
  destruct (evolves_from_default _ _ _ Hev) as (Hfresh & Hframe & _).
  exists v, m'. split_and!; try done.
  by apply (evolves_ok (heap m) SimpleVector_default).
Qed.

(** The copy constructor makes a deep copy: the new vector has the elements
    of [other] in a new array of its own, its capacity is the size of
    [other] (not its capacity), [other] and the other arrays are as
    before, and the copy compares equal to [other] when [==] of the element
    type is reflexive. *)
Theorem SimpleVector_copy_contract (m : Mem T) (other : SimpleVector) :
  vec_ok (heap m) other ->
  exists v m',
    SimpleVector_copy other m = Ok (v, m') /\
    vec_ok (heap m') v /\
    size_ v = size_ other /\ capacity_ v = size_ other /\
    contents (heap m') v = contents (heap m) other /\
    vec_ok (heap m') other /\
    contents (heap m') other = contents (heap m) other /\
    (forall l, ArrayPtr.raw_ptr_ (items_ v) = Some l ->
       ArrayPtr.raw_ptr_ (items_ other) <> Some l /\ heap m !! l = None) /\
    (forall l, ArrayPtr.raw_ptr_ (items_ v) <> Some l -> heap m' !! l = heap m !! l) /\
    ((forall x, elt_eqb x x = true) ->
     exists m'', operator_eq v other m' = Ok (true, m'') /\ heap m'' = heap m').
Proof.
  intros Hok.
  destruct (SimpleVector_copy_spec (heap m) other Hok) as (v & h' & Hy & Hev & Hs & Hc & Hcont).
  destruct (Hy m eq_refl) as (m' & E & <-).
  destruct (evolves_from_default _ _ _ Hev) as (Hfresh & Hframe & _).
  destruct (evolves_frame _ _ _ _ other Hev Hok) as (Hok' & _ & Hcont' & Hne); [done|].
  pose proof (evolves_ok _ _ _ _ Hev) as Hokv.
  exists v, m'. split_and!; try done.
  - intros l El. split; [|by apply Hfresh]. intros Eo. by apply (Hne l).
  - intros Hrefl.
    destruct (operator_eq_spec (heap m') v other Hokv Hok' m' eq_refl) as (m'' & Eq & Hh).
    exists m''. split; [|done]. rewrite Eq. do 2 f_equal.
    rewrite Hs, Z.eqb_refl, Hcont, Hcont'. by apply seq_equal_refl.
Qed.

(** The array [this] held is deleted by a copy assignment that returns. *)
Lemma copy_assign_frees h this rhs m v' m' l :
  vec_ok h this -> vec_ok h rhs -> heap m = h ->
  copy_assign this rhs m = Ok (v', m') ->
  ArrayPtr.raw_ptr_ (items_ this) = Some l -> heap m' !! l = None.
Proof.
  intros Hthis Hrhs Hh E El.
  destruct (decide (ArrayPtr.raw_ptr_ (items_ this) = ArrayPtr.raw_ptr_ (items_ rhs)))
    as [Heq|Hne]; [by rewrite copy_assign_same_handle in E|].
  destruct (copy_prefix h rhs Hrhs) as ([ra] & h1 & Hcase & Hy).
  assert (Hlive : h1 !! l <> None).
  { pose proof (vec_ok_live _ _ _ Hthis El) as Elive.
    destruct Hcase as [([= ->] & -> & Hz)|(l1 & [= ->] & Hfresh & -> & Hpos)].
    - by rewrite Elive.
    - rewrite lookup_insert_ne; [by rewrite Elive|congruence]. }
  assert (Hyy : yields (copy_assign this rhs) m
                  (MkVec (size_ rhs) (size_ rhs) (ArrayPtr.Make ra)) (delete l h1)).
  { unfold copy_assign.
    eapply yields_bind.
    { apply (yields_assert _ _ _ Hh). unfold ArrayPtr.Get.
      by apply bool_decide_eq_true_2. }
    intros m0 E0.
    apply (Hy (in_object this) (fun c m a h => yields_in_object this c m a h) _ _ _ _);
      [|done].
    intros m1 E1. cbn [ArrayPtr.swap ArrayPtr.raw_ptr_].
    eapply yields_bind.
    { apply (yields_dtor m1 h1 (ArrayPtr.Make (ArrayPtr.raw_ptr_ (items_ this))) E1).
      cbn. by rewrite El. }
    intros m2 E2. apply yields_ret. cbn in E2. by rewrite El in E2. }
  destruct (yields_inv _ _ _ _ _ _ Hyy E) as [_ ->]. apply lookup_delete_eq.
Qed.

(** The copy assignment [this = rhs].  When both vectors hold the same
    array, or both hold none, the assertion at its start fails.  Otherwise
    [this] gets the elements of [rhs] in a new array, with the size of
    [rhs] as its capacity; the array [this] held is deleted; [rhs] is as
    before and shares no array with the result. *)
Theorem copy_assign_contract (m : Mem T) (this rhs : SimpleVector) :
  vec_ok (heap m) this -> vec_ok (heap m) rhs ->
  (ArrayPtr.raw_ptr_ (items_ this) = ArrayPtr.raw_ptr_ (items_ rhs) ->
   copy_assign this rhs m = Fail assertion_failed) /\
  (ArrayPtr.raw_ptr_ (items_ this) <> ArrayPtr.raw_ptr_ (items_ rhs) ->
   exists v m',
     copy_assign this rhs m = Ok (v, m') /\
     vec_ok (heap m') v /\
     size_ v = size_ rhs /\ capacity_ v = size_ rhs /\
     contents (heap m') v = contents (heap m) rhs /\
     vec_ok (heap m') rhs /\
     contents (heap m') rhs = contents (heap m) rhs /\
     (forall l, ArrayPtr.raw_ptr_ (items_ v) = Some l ->
        ArrayPtr.raw_ptr_ (items_ rhs) <> Some l) /\
     (forall l, ArrayPtr.raw_ptr_ (items_ this) = Some l -> heap m' !! l = None)).
Proof.
  intros Hthis Hrhs. split; [apply copy_assign_same_handle|]. intros Hne.
  destruct (copy_assign_spec (heap m) this rhs Hthis Hrhs Hne) as
    (v & h' & Hy & Hev & Hs & Hc & Hcont).
  destruct (Hy m eq_refl) as (m' & E & <-).
  destruct (evolves_frame _ _ _ _ rhs Hev Hrhs) as (Hok' & _ & Hcont' & Hne').
  { intros l El Et. apply Hne. congruence. }
  exists v, m'. split_and!; try done.
  - by apply (evolves_ok (heap m) this).
  - intros l El Er. by apply (Hne' l).
  - intros l El. by apply (copy_assign_frees (heap m) this rhs m v m' l).
Qed.

(** ** Capacity and size *)

(** [Reserve(n)], with [n] taken as 1 when it is 0.  A request that does
    not exceed the capacity changes nothing and touches no memory.  A larger
    one that [new[]] grants moves the elements to a new array of exactly
    that many slots, the slots from the size on holding [Type()], deletes
    the old array and keeps size and elements; asking again for the same
    capacity then changes nothing.  A request beyond what [new[]] grants
    throws [bad_alloc] and leaves the vector and the memory as they were. *)
Theorem Reserve_contract (v : SimpleVector) (m : Mem T) (n : Z) :
  vec_ok (heap m) v -> 0 <= n ->
  let n' := if n =? 0 then 1 else n in
  (n' <= capacity_ v -> Reserve n v m = Ok (v, m)) /\
  (max_array_len < n -> Reserve n v m = Throw bad_alloc (MkThrown m (Some v))) /\
  (capacity_ v < n' <= max_array_len ->
   exists v' m',
     Reserve n v m = Ok (v', m') /\
     vec_ok (heap m') v' /\
     size_ v' = size_ v /\ capacity_ v' = n' /\
     contents (heap m') v' = contents (heap m) v /\
     block (heap m') (items_ v') =
       contents (heap m) v ++ replicate (Z.to_nat (n' - size_ v)) dflt /\
     (forall l, ArrayPtr.raw_ptr_ (items_ v') = Some l -> heap m !! l = None) /\
     (forall l, ArrayPtr.raw_ptr_ (items_ v) = Some l -> heap m' !! l = None) /\
     Reserve n v' m' = Ok (v', m')).
Proof.
  intros Hok Hn n'. pose proof (vec_ok_capacity_bound _ _ Hok) as Hcb.
  split_and!.
  - intros Hle. unfold Reserve. fold n'.
    by destruct (Z.leb_spec n' (capacity_ v)); [|lia].
  - intros Hbig. apply Reserve_bad_alloc; lia.
  - intros [Hgt Hmax].
    assert (ER : forall w, Reserve n w = Reserve n' w).
    { intros w. unfold n'. destruct (Z.eqb_spec n 0) as [->|]; [apply Reserve_0|done]. }
    destruct (Reserve_grow (heap m) v n' Hok Hgt Hmax) as (l' & Hl' & Hy).
    destruct (Hy m eq_refl) as (m' & E & Hh).
    destruct (Reserve_spec (heap m) v n Hok) as (v1 & h1 & Hy1 & Hev & Hs & Hc & Hcont & _ & Hb).
    { unfold n' in Hmax. destruct (Z.eqb_spec n 0); lia. }
    fold n' in Hc, Hb. rewrite ER in Hy1.
    destruct (yields_fun _ _ _ _ _ _ (Hy m eq_refl) (Hy1 m eq_refl)) as [<- <-].
    exists (MkVec (size_ v) n' (ArrayPtr.Make (Some l'))), m'. rewrite ER.
    cbn [size_ capacity_ items_ ArrayPtr.raw_ptr_] in *. rewrite Hh.
    split_and!.
    + done.
    + by apply (evolves_ok (heap m) v).
    + done.
    + done.
    + done.
    + by apply Hb.
    + by intros l [= <-].
    + intros l El. rewrite lookup_insert_ne.
      * rewrite El. cbn. apply lookup_delete_eq.
      * intros <-. by apply (fresh_not_owned (heap m) v l' Hok Hl').
    + unfold Reserve. cbn [capacity_].
      change (if n =? 0 then 1 else n) with n'. by rewrite Z.leb_refl.
Qed.

(** [PopBack()] on an empty vector does nothing; otherwise it removes the
    last element.  It keeps capacity and buffer and touches no memory. *)
Theorem PopBack_contract (v : SimpleVector) (h : gmap loc (list T)) :
  vec_ok h v ->
  vec_ok h (PopBack v) /\
  capacity_ (PopBack v) = capacity_ v /\
  items_ (PopBack v) = items_ v /\
  (size_ v = 0 -> PopBack v = v) /\
  (0 < size_ v ->
     size_ (PopBack v) = size_ v - 1 /\
     contents h v = contents h (PopBack v) ++ drop (Z.to_nat (size_ v - 1)) (contents h v) /\
     length (drop (Z.to_nat (size_ v - 1)) (contents h v)) = 1%nat).
Proof.
  intros Hok. pose proof Hok as (H0 & H1 & _).
  pose proof (vec_ok_capacity_bound _ _ Hok) as Hcb. pose proof max_array_len_lt as Hmlt.
  split; [by apply (evolves_ok h v), PopBack_evolves|].
  unfold PopBack. destruct (Z.eqb_spec (size_ v) 0) as [Hz|Hnz].
  - split_and!; try done. lia.
  - rewrite wrap_small by lia. cbn [size_ capacity_ items_].
    split_and!; try done. intros Hpos. split; [done|].
    unfold contents at 2. cbn [size_ items_].
    replace (take (Z.to_nat (size_ v - 1)) (block h (items_ v)))
      with (take (Z.to_nat (size_ v - 1)) (contents h v)).
    2:{ unfold contents. rewrite take_take. f_equal. lia. }
    split; [by rewrite take_drop|].
    rewrite length_drop, (length_contents _ _ Hok). lia.
Qed.

(** [PushBack(value)], for a [value] that refers to an object outside the
    buffer, followed by [PopBack()] gives back the elements and the size
    there were (the capacity may have grown). *)
Theorem PushBack_PopBack_roundtrip (v : SimpleVector) (m : Mem T) (value : ref T) (x : T) :
  vec_ok (heap m) v ->
  refers_outside (heap m) v value x ->
  (size_ v = capacity_ v -> 2 * capacity_ v <= max_array_len) ->
  exists v' m',
    PushBack value v m = Ok (v', m') /\
    size_ (PopBack v') = size_ v /\
    capacity_ v <= capacity_ (PopBack v') /\
    contents (heap m') (PopBack v') = contents (heap m) v.
Proof.
  intros Hok Hr Hmax. pose proof Hok as (H0 & H1 & _).
  destruct (PushBack_full_spec (heap m) v value x Hok Hr Hmax) as
    (v' & h' & Hy & Hev & Hs & Hc & Hcont & _).
  destruct (Hy m eq_refl) as [(m' & E & <-) _].
  pose proof (evolves_ok _ _ _ _ Hev) as Hok'.
  pose proof (vec_ok_capacity_bound _ _ Hok') as Hcb. pose proof max_array_len_lt as Hmlt.
  pose proof Hok' as (H0' & H1' & _).
  exists v', m'. split; [done|]. unfold PopBack.
  destruct (Z.eqb_spec (size_ v') 0); [lia|]. rewrite wrap_small by lia.
  cbn [size_ capacity_]. split_and!.
  - lia.
  - rewrite Hc. unfold grown_capacity.
    destruct (Z.eqb_spec (size_ v) (capacity_ v)); [|lia].
    destruct (Z.eqb_spec (capacity_ v) 0); lia.
  - unfold contents at 1. cbn [size_ items_].
    replace (take (Z.to_nat (size_ v' - 1)) (block (heap m') (items_ v')))
      with (take (Z.to_nat (size_ v' - 1)) (contents (heap m') v')).
    2:{ unfold contents. rewrite take_take. f_equal. lia. }
    rewrite Hcont, take_app_length'; [done|].
    rewrite (length_contents _ _ Hok). lia.
Qed.

(** [Resize(k)] to a smaller size followed by [Resize(n)] back up within
    the capacity: the elements from [k] on are [Type()], not the values
    that were there before the shrink; nothing is reallocated. *)
Theorem Resize_shrink_then_grow (v : SimpleVector) (m : Mem T) (k n : Z) :
  vec_ok (heap m) v -> 0 <= k <= size_ v -> k <= n <= capacity_ v ->
  exists v1 m1 v2 m2,
    Resize k v m = Ok (v1, m1) /\
    Resize n v1 m1 = Ok (v2, m2) /\
    size_ v2 = n /\ capacity_ v2 = capacity_ v /\ items_ v2 = items_ v /\
    contents (heap m2) v2 =
      take (Z.to_nat k) (contents (heap m) v) ++ replicate (Z.to_nat (n - k)) dflt.
Proof.
  intros Hok Hk Hn.
  destruct (Resize_full_spec (heap m) v k Hok) as
    (v1 & h1 & Hy1 & Hev1 & Hs1 & Hsame1 & Hless1 & _); [lia..|].
  destruct (Hy1 m eq_refl) as (m1 & E1 & <-).
  pose proof (evolves_ok _ _ _ _ Hev1) as Hok1.
  assert (Hfacts : capacity_ v1 = capacity_ v /\ items_ v1 = items_ v /\
                   contents (heap m1) v1 = take (Z.to_nat k) (contents (heap m) v)).
  { destruct (Z.eq_dec k (size_ v)) as [Heq|Hne].
    - destruct (Hsame1 Heq) as [-> ->]. split_and!; try done.
      by rewrite take_ge by (rewrite (length_contents _ _ Hok); lia).
    - destruct Hless1 as (Hc & Hi & _ & Hcont); [lia|]. done. }
  destruct Hfacts as (Hc1 & Hi1 & Hcont1).
  destruct (Resize_full_spec (heap m1) v1 n Hok1) as
    (v2 & h2 & Hy2 & Hev2 & Hs2 & _ & _ & Hfill2 & _); [lia..|].
  destruct (Hy2 m1 eq_refl) as (m2 & E2 & <-).
  destruct Hfill2 as (Hc2 & Hi2 & Hcont2); [lia|].
  exists v1, m1, v2, m2. rewrite Hcont2, Hcont1, Hs1.
  split_and!; try done; congruence.
Qed.

(** ** Element access *)

(** Reading [v[i]] for [i] below the size. *)
Lemma read_at_spec h v (i : Z) :
  vec_ok h v -> 0 <= i < size_ v ->
  exists x,
    contents h v !! Z.to_nat i = Some x /\
    forall m, heap m = h -> yields (read_at i v) m x h.
Proof.
  intros Hok Hi. pose proof Hok as (H0 & H1 & _).
  destruct (load_vec h v i Hok) as (x & Ex & Hy); [lia|].
  exists x. split.
  - unfold contents. rewrite lookup_take_lt by lia. done.
  - intros m Hh. unfold read_at, index_op.
    eapply yields_bind.
    { eapply yields_bind; [apply yields_assert; [done|apply Z.ltb_lt; lia]|].
      intros m1 E1. by apply yields_index. }
    intros m2 E2. by apply Hy.
Qed.

(** [v[i]] for [i] below the size designates element [i]: reading through
    it gives that element and changes nothing.  For [i] at or beyond the
    size the assertion of [operator[]] fails, where [At] throws. *)
Theorem read_at_contract (v : SimpleVector) (m : Mem T) (i : Z) :
  vec_ok (heap m) v -> 0 <= i ->
  (size_ v <= i ->
     index_op i v m = Fail assertion_failed /\
     read_at i v m = Fail assertion_failed /\
     At i v m = Throw out_of_range (MkThrown m (Some v))) /\
  (i < size_ v ->
     exists x m',
       contents (heap m) v !! Z.to_nat i = Some x /\
       read_at i v m = Ok (x, m') /\ heap m' = heap m).
Proof.
  intros Hok Hi. pose proof Hok as (H0 & H1 & _). split.
  - intros Hge. unfold read_at, index_op, At, bind, assert, fail, in_object, throw.
    destruct (Z.ltb_spec i (size_ v)); [lia|].
    by destruct (Z.leb_spec (size_ v) i); [|lia].
  - intros Hlt. destruct (read_at_spec (heap m) v i Hok) as (x & Ex & Hy); [lia|].
    destruct (Hy m eq_refl) as (m' & E & Hh). by exists x, m'.
Qed.

(** [v[i] = value] for [i] below the size replaces element [i] and no
    other; reading [v[i]] afterwards gives [value]; the other arrays of the
    program are untouched. *)
Theorem assign_at_read_at (v : SimpleVector) (m : Mem T) (i : Z) (value : T) :
  vec_ok (heap m) v -> 0 <= i < size_ v ->
  exists m' m'',
    assign_at i value v m = Ok (tt, m') /\
    vec_ok (heap m') v /\
    contents (heap m') v = <[Z.to_nat i := value]> (contents (heap m) v) /\
    (forall l, ArrayPtr.raw_ptr_ (items_ v) <> Some l -> heap m' !! l = heap m !! l) /\
    read_at i v m' = Ok (value, m'') /\ heap m'' = heap m'.
Proof.
  intros Hok Hi. pose proof Hok as (H0 & H1 & H2 & _).
  destruct (store_vec (heap m) v i (size_ v) value Hok) as (h' & Hy & Hev & Hb); [lia..|].
  rewrite vec_eta in Hev.
  assert (Hw : yields (assign_at i value v) m tt h').
  { unfold assign_at, index_op.
    eapply yields_bind.
    { eapply yields_bind; [apply yields_assert; [done|apply Z.ltb_lt; lia]|].
      intros m1 E1. by apply yields_index. }
    intros m2 E2. by apply Hy. }
  destruct Hw as (m' & E & <-).
  pose proof (evolves_ok _ _ _ _ Hev) as Hok'.
  assert (Hcont : contents (heap m') v = <[Z.to_nat i := value]> (contents (heap m) v)).
  { unfold contents. rewrite Hb. apply take_insert_lt. lia. }
  destruct (read_at_spec (heap m') v i Hok' Hi) as (x & Ex & Hr).
  destruct (Hr m' eq_refl) as (m'' & Er & Hh'').
  rewrite Hcont, list_lookup_insert_eq in Ex by (rewrite (length_contents _ _ Hok); lia).
  injection Ex as <-.
  exists m', m''. split_and!; try done.
  intros l Hne. destruct Hev as (_ & Hfr & _). by apply Hfr.
Qed.

(** ** PushBack calls in a row *)

Lemma grown_capacity_ge (s c : Z) : 0 <= c -> c <= grown_capacity s c.
Proof.
  intros Hc. unfold grown_capacity.
  destruct (Z.eqb_spec s c); [|lia]. destruct (Z.eqb_spec c 0); lia.
Qed.

(** The growth rule keeps the capacity a power of two that is less than
    twice the size, once the vector started empty with capacity 0. *)
Lemma grown_capacity_doubling (s c : Z) :
  0 <= s <= c ->
  (s = 0 /\ c = 0) \/ (exists k, 0 <= k /\ c = 2 ^ k /\ s <= c < 2 * s) ->
  (s + 1 = 0 /\ grown_capacity s c = 0) \/
  (exists k, 0 <= k /\ grown_capacity s c = 2 ^ k /\
             s + 1 <= grown_capacity s c < 2 * (s + 1)).
Proof.
  intros Hs [[-> ->]|(k & Hk & -> & Hc)]; right.
  - exists 0. by cbn.
  - unfold grown_capacity. destruct (Z.eqb_spec s (2 ^ k)) as [->|Hne].
    + assert (0 < 2 ^ k) by (by apply Z.pow_pos_nonneg).
      destruct (Z.eqb_spec (2 ^ k) 0); [lia|].
      exists (k + 1). rewrite Z.pow_add_r, Z.pow_1_r by lia. lia.
    + exists k. lia.
Qed.

Lemma PushBack_each_spec (values : list T) : forall h v,
  vec_ok h v ->
  (capacity_ v < size_ v + Z.of_nat (length values) ->
   2 * (size_ v + Z.of_nat (length values)) <= max_array_len) ->
  exists v' h',
    (forall m, heap m = h -> yields (PushBack_each values v) m v' h') /\
    evolves h v h' v' /\
    size_ v' = size_ v + Z.of_nat (length values) /\
    contents h' v' = contents h v ++ values /\
    (size_ v + Z.of_nat (length values) <= capacity_ v ->
       items_ v' = items_ v /\ capacity_ v' = capacity_ v) /\
    (forall P : Z -> Z -> Prop,
       (forall s c, 0 <= s <= c -> P s c -> P (s + 1) (grown_capacity s c)) ->
       P (size_ v) (capacity_ v) -> P (size_ v') (capacity_ v')).
Proof.
  induction values as [|x rest IH]; intros h v Hok Hmax; cbn [PushBack_each length] in *.
  - exists v, h. split_and!; try done.
    + intros m Hh. by apply yields_ret.
    + by apply evolves_refl.
    + lia.
    + by rewrite app_nil_r.
  - pose proof Hok as (H0 & H1 & _).
    destruct (PushBack_full_spec h v (Outside x) x Hok) as
      (v1 & h1 & Hy1 & Hev1 & Hs1 & Hc1 & Hcont1 & Hsame1); [done|lia|].
    pose proof (evolves_ok _ _ _ _ Hev1) as Hok1.
    pose proof (grown_capacity_ge (size_ v) (capacity_ v)) as Hge.
    destruct (IH h1 v1 Hok1) as (v' & h' & Hy & Hev & Hs & Hcont & Hplace & Hinv).
    { rewrite Hs1, Hc1. lia. }
    exists v', h'. split_and!.
    + intros m Hh. eapply yields_bind; [by apply (Hy1 m Hh)|]. intros m1 E1. by apply Hy.
    + by apply (evolves_trans _ _ h1 v1).
    + lia.
    + by rewrite Hcont, Hcont1, <- app_assoc.
    + intros Hfit.
      assert (Hc1' : capacity_ v1 = capacity_ v).
      { rewrite Hc1. unfold grown_capacity. destruct (Z.eqb_spec (size_ v) (capacity_ v)); lia. }
      destruct Hplace as [Hi Hc]; [lia|]. rewrite Hi, Hc, Hc1'. split; [|done].
      apply Hsame1. lia.
    + intros P Hstep HP. apply Hinv; [done|]. rewrite Hs1, Hc1. apply Hstep; [lia|done].
Qed.

(** A run of [PushBack] calls appends the values in order and never lowers
    the capacity.  When the values fit into the spare capacity nothing is
    reallocated: buffer and capacity stay, so pointers and iterators into
    the vector stay valid. *)
Theorem PushBack_each_contract (v : SimpleVector) (m : Mem T) (values : list T) :
  vec_ok (heap m) v ->
  (capacity_ v < size_ v + Z.of_nat (length values) ->
   2 * (size_ v + Z.of_nat (length values)) <= max_array_len) ->
  exists v' m',
    PushBack_each values v m = Ok (v', m') /\
    vec_ok (heap m') v' /\
    size_ v' = size_ v + Z.of_nat (length values) /\
    contents (heap m') v' = contents (heap m) v ++ values /\
    capacity_ v <= capacity_ v' /\
    (size_ v + Z.of_nat (length values) <= capacity_ v ->
       items_ v' = items_ v /\ capacity_ v' = capacity_ v).
Proof.
  intros Hok Hmax.
  destruct (PushBack_each_spec values (heap m) v Hok Hmax) as
    (v' & h' & Hy & Hev & Hs & Hcont & Hplace & Hinv).
  destruct (Hy m eq_refl) as (m' & E & <-).
  exists v', m'. split_and!; try done.
  - by apply (evolves_ok (heap m) v).
  - apply (Hinv (fun _ c => capacity_ v <= c)); [|lia].
    intros s c Hsc Hc. pose proof (grown_capacity_ge s c). lia.
Qed.

(** Amortised doubling: after one or more [PushBack] calls on a
    default-constructed vector the elements are the values pushed, and the
    capacity is a power of two, at least the size and less than twice the
    size. *)
Theorem PushBack_each_from_empty (m : Mem T) (values : list T) :
  values <> [] ->
  2 * Z.of_nat (length values) <= max_array_len ->
  exists v' m' k,
    PushBack_each values SimpleVector_default m = Ok (v', m') /\
    contents (heap m') v' = values /\
    size_ v' = Z.of_nat (length values) /\
    0 <= k /\ capacity_ v' = 2 ^ k /\
    size_ v' <= capacity_ v' < 2 * size_ v'.
Proof.
  intros Hne Hmax.
  destruct (PushBack_each_spec values (heap m) SimpleVector_default) as
    (v' & h' & Hy & Hev & Hs & Hcont & _ & Hinv).
  { apply vec_ok_default. }
  { cbn. lia. }
  destruct (Hy m eq_refl) as (m' & E & <-).
  cbn [SimpleVector_default size_ capacity_] in *.
  assert (Hlen : 0 < Z.of_nat (length values)) by (destruct values; [done|cbn; lia]).
  destruct (Hinv (fun s c => (s = 0 /\ c = 0) \/
                             (exists k, 0 <= k /\ c = 2 ^ k /\ s <= c < 2 * s)))
    as [[Hz _]|(k & Hk & Hc & Hb)].
  - apply grown_capacity_doubling.
  - by left.
  - lia.
  - exists v', m', k. split_and!; try done; lia.
Qed.

(** [SimpleVector<Type> v(Reserve(n))] is empty and has capacity [n], in a
    new array of its own (none for [n = 0]); up to [n] [PushBack] calls
    then fill it without any reallocation. *)
Theorem SimpleVector_reserved_contract (m : Mem T) (n : Z) :
  0 <= n <= max_array_len ->
  exists v m',
    SimpleVector_reserved (Reserve_proxy n) m = Ok (v, m') /\
    vec_ok (heap m') v /\
    size_ v = 0 /\ capacity_ v = n /\ IsEmpty v = true /\
    contents (heap m') v = [] /\
    (forall l, ArrayPtr.raw_ptr_ (items_ v) = Some l -> heap m !! l = None) /\
    (forall l, ArrayPtr.raw_ptr_ (items_ v) <> Some l -> heap m' !! l = heap m !! l) /\
    (forall values, Z.of_nat (length values) <= n ->
       exists v2 m2,
         PushBack_each values v m' = Ok (v2, m2) /\
         items_ v2 = items_ v /\ capacity_ v2 = n /\
         contents (heap m2) v2 = values).
Proof.
  intros Hn.
  destruct (SimpleVector_reserved_spec (heap m) (Reserve_proxy n)) as
    (v & h' & Hy & Hev & Hs & Hc); [done|].
  cbn [Reserve_proxy proxy_size_] in *.
  destruct (Hy m eq_refl) as (m' & E & <-).
  destruct (evolves_from_default _ _ _ Hev) as (Hfresh & Hframe & _).
  pose proof (evolves_ok _ _ _ _ Hev) as Hok.
  assert (Hcont : contents (heap m') v = []) by (unfold contents; by rewrite Hs).
  exists v, m'. split_and!; try done.
  - unfold IsEmpty. by rewrite Hs.
  - intros values Hlen.
    destruct (PushBack_each_spec values (heap m') v Hok) as
      (v2 & h2 & Hy2 & _ & _ & Hcont2 & Hplace & _); [lia|].
    destruct (Hy2 m' eq_refl) as (m2 & E2 & <-).
    destruct Hplace as [Hi Hc2]; [lia|].
    exists v2, m2. split_and!; try done; [congruence|]. by rewrite Hcont2, Hcont.
Qed.

(** ** What the operations never do *)

(** A call that returned was granted the array it asked for. *)
Lemma Resize_Ok_alloc m v (n : Z) v' m' :
  vec_ok (heap m) v -> 0 <= n -> Resize n v m = Ok (v', m') ->
  capacity_ v < n -> Z.max (2 * capacity_ v) n <= max_array_len.
Proof.
  intros Hok Hn E Hgt. pose proof (vec_ok_capacity_bound _ _ Hok) as Hc.
  pose proof Hok as (H0 & H1 & _). pose proof max_array_len_lt as Hmlt.
  destruct (Z.le_gt_cases (Z.max (2 * capacity_ v) n) max_array_len) as [|Hbig]; [done|].
  unfold Resize in E.
  destruct (Z.eqb_spec n (size_ v)); [lia|].
  destruct (Z.ltb_spec n (size_ v)); [lia|].
  destruct (Z.leb_spec n (capacity_ v)); [lia|].
  rewrite andb_false_r in E. unfold bind at 1, ret at 1 in E.
  destruct (Z.ltb_spec (capacity_ v) n); [|lia].
  unfold bind in E. rewrite wrap_small in E by lia.
  rewrite Reserve_bad_alloc in E by lia. done.
Qed.

(** The member functions that change a vector in place never lower its
    capacity, whatever their arguments are: there is no way to give memory
    back short of assigning to the vector, swapping it or moving from it. *)
Theorem capacity_never_shrinks (v : SimpleVector) (m : Mem T) (n : Z) (x : ref T)
    (pos : ptr) :
  vec_ok (heap m) v -> 0 <= n ->
  (forall v' m', Reserve n v m = Ok (v', m') -> capacity_ v <= capacity_ v') /\
  (forall v' m', Resize n v m = Ok (v', m') -> capacity_ v <= capacity_ v') /\
  (forall v' m', Clear v m = Ok (v', m') -> capacity_ v' = capacity_ v) /\
  capacity_ (PopBack v) = capacity_ v /\
  (forall r m', Erase pos v m = Ok (r, m') -> capacity_ (snd r) = capacity_ v) /\
  (forall v' m', PushBack x v m = Ok (v', m') -> capacity_ v <= capacity_ v') /\
  (forall v' m', PushBack_move x v m = Ok (v', m') -> capacity_ v <= capacity_ v') /\
  (forall r m', Insert pos x v m = Ok (r, m') -> capacity_ v <= capacity_ (snd r)) /\
  (forall r m', Insert_move pos x v m = Ok (r, m') -> capacity_ v <= capacity_ (snd r)).
Proof.
  intros Hok Hn. pose proof Hok as (H0 & H1 & _).
  pose proof (vec_ok_capacity_range _ _ Hok) as Hcr.
  pose proof (grown_capacity_ge (size_ v) (capacity_ v)) as Hge.
  assert (HInsert : forall r m', Insert pos x v m = Ok (r, m') ->
                                 capacity_ v <= capacity_ (snd r)).
  { intros r m' E. destruct (Insert_Ok_inv _ _ _ _ _ _ Hok E) as (_ & _ & Hc & _). lia. }
  split_and!.
  - intros v' m' E. destruct (Z.le_gt_cases n max_array_len) as [Hle|Hgt].
    + destruct (Reserve_spec (heap m) v n Hok) as (v1 & h1 & Hy & _ & _ & Hc & _); [lia|].
      destruct (yields_inv _ _ _ _ _ _ (Hy m eq_refl) E) as [-> _]. lia.
    + rewrite Reserve_bad_alloc in E by lia. done.
  - intros v' m' E.
    destruct (Resize_full_spec (heap m) v n Hok Hn) as
      (v1 & h1 & Hy & _ & _ & Hsame & Hless & Hfill & Hgrow).
    { by apply (Resize_Ok_alloc m v n v' m'). }
    destruct (yields_inv _ _ _ _ _ _ (Hy m eq_refl) E) as [-> _].
    destruct (Z.lt_trichotomy n (size_ v)) as [Hlt|[Heq|Hgt]].
    + destruct Hless as [-> _]; [done|lia].
    + destruct Hsame as [-> _]; [done|lia].
    + destruct (Z.le_gt_cases n (capacity_ v)).
      * destruct Hfill as [-> _]; lia.
      * destruct Hgrow as [-> _]; lia.
  - intros v' m' E.
    destruct (Resize_full_spec (heap m) v 0 Hok) as
      (v1 & h1 & Hy & _ & _ & Hsame & Hless & _); [lia..|].
    destruct (yields_inv _ _ _ _ _ _ (Hy m eq_refl) E) as [-> _].
    destruct (Z.eq_dec 0 (size_ v)) as [Heq|Hne].
    + by destruct Hsame as [-> _].
    + by destruct Hless as [-> _]; [lia|].
  - unfold PopBack. by destruct (size_ v =? 0).
  - intros r m' E.
    destruct (ptr_le (Ptr (ArrayPtr.raw_ptr_ (items_ v)) 0) pos &&
              ptr_lt pos (Ptr (ArrayPtr.raw_ptr_ (items_ v)) (size_ v))) eqn:Hpos.
    + destruct (valid_position v pos Hpos) as [Hp Hi]. rewrite Hp in E.
      destruct (Erase_full_spec (heap m) v (off pos) Hok Hi) as (h1 & Hy & _).
      by destruct (yields_inv _ _ _ _ _ _ (Hy m eq_refl) E) as [-> _].
    + unfold Erase, begin, end_, ArrayPtr_index, record, bind, ret in E. cbn in E.
      rewrite Hpos in E. done.
  - intros v' m' E.
    destruct (PushBack_Ok_inv _ _ _ _ _ Hok (or_introl E)) as (_ & _ & Hc & _). lia.
  - intros v' m' E.
    destruct (PushBack_Ok_inv _ _ _ _ _ Hok (or_intror E)) as (_ & _ & Hc & _). lia.
  - done.
  - intros r m' E. rewrite Insert_move_eq in E. by apply (HInsert r m').
Qed.

(** ** Positions that [Insert] and [Erase] reject *)

(** [Insert] and [Erase] accept only positions [begin() + i] with
    [0 <= i < size]: for any other offset, and in particular for [end()]
    and for every position of an empty vector, their assertion fails
    before anything is changed.  So [Insert] cannot append. *)
Theorem invalid_position_asserts (v : SimpleVector) (m : Mem T) (value : ref T) :
  (forall i, i < 0 \/ size_ v <= i ->
     Insert (Ptr (ArrayPtr.raw_ptr_ (items_ v)) i) value v m = Fail assertion_failed /\
     Insert_move (Ptr (ArrayPtr.raw_ptr_ (items_ v)) i) value v m = Fail assertion_failed /\
     Erase (Ptr (ArrayPtr.raw_ptr_ (items_ v)) i) v m = Fail assertion_failed) /\
  (exists p m1,
     end_ v m = Ok (p, m1) /\
     Insert p value v m1 = Fail assertion_failed /\
     Insert_move p value v m1 = Fail assertion_failed /\
     Erase p v m1 = Fail assertion_failed).
Proof.
  assert (Hrej : forall i m0, i < 0 \/ size_ v <= i ->
     Insert (Ptr (ArrayPtr.raw_ptr_ (items_ v)) i) value v m0 = Fail assertion_failed /\
     Insert_move (Ptr (ArrayPtr.raw_ptr_ (items_ v)) i) value v m0 = Fail assertion_failed /\
     Erase (Ptr (ArrayPtr.raw_ptr_ (items_ v)) i) v m0 = Fail assertion_failed).
  { intros i m0 Hi.
    assert (Hpos : ptr_le (Ptr (ArrayPtr.raw_ptr_ (items_ v)) 0)
                          (Ptr (ArrayPtr.raw_ptr_ (items_ v)) i) &&
                   ptr_lt (Ptr (ArrayPtr.raw_ptr_ (items_ v)) i)
                          (Ptr (ArrayPtr.raw_ptr_ (items_ v)) (size_ v)) = false).
    { unfold ptr_le, ptr_lt. cbn [base off].
      rewrite bool_decide_eq_true_2 by done. cbn [andb].
      destruct (Z.leb_spec 0 i), (Z.ltb_spec i (size_ v)); try done; lia. }
    unfold Insert, Insert_move, Erase, begin, end_, ArrayPtr_index, record, bind, ret. cbn.
    rewrite Hpos. done. }
  split; [intros i; apply Hrej|].
  eexists _, _. split; [reflexivity|]. apply Hrej. lia.
Qed.

(** ** The derived comparison operators *)

(** The six operators on two vectors, as values of the two they are built
    from. *)
Lemma comparisons_spec h a b :
  vec_ok h a -> vec_ok h b ->
  let eq := (size_ a =? size_ b) && seq_equal (contents h a) (contents h b) in
  let lt := seq_less (contents h a) (contents h b) in
  forall m, heap m = h ->
    yields (operator_eq a b) m eq h /\
    yields (operator_lt a b) m lt h /\
    yields (operator_ne a b) m (negb eq) h /\
    yields (operator_le a b) m (eq || lt) h /\
    yields (operator_gt a b) m (negb (eq || lt)) h /\
    yields (operator_ge a b) m (eq || negb lt) h.
Proof.
  intros Ha Hb eq lt m Hh.
  pose proof (operator_eq_spec h a b Ha Hb) as Heq.
  pose proof (operator_lt_spec h a b Ha Hb) as Hlt.
  fold eq in Heq. fold lt in Hlt.
  assert (Hgt : forall m0, heap m0 = h -> yields (operator_gt a b) m0 (negb (eq || lt)) h).
  { intros m0 Hh0. unfold operator_gt.
    eapply yields_bind; [by apply Heq|]. intros m1 E1.
    destruct eq; cbn [orb negb]; [by apply yields_ret|].
    eapply yields_bind; [by apply Hlt|]. intros m2 E2. by apply yields_ret. }
  split_and!.
  - by apply Heq.
  - by apply Hlt.
  - unfold operator_ne.
    eapply yields_bind; [by apply Heq|]. intros m1 E1.
    destruct eq eqn:Ee; cbn [negb]; [by apply yields_ret|].
    eapply yields_bind; [by apply Heq|]. intros m2 E2. by apply yields_ret.
  - unfold operator_le.
    eapply yields_bind; [by apply Heq|]. intros m1 E1.
    destruct eq; cbn [orb]; [by apply yields_ret|]. by apply Hlt.
  - by apply Hgt.
  - unfold operator_ge.
    eapply yields_bind; [by apply Heq|]. intros m1 E1.
    destruct eq eqn:Ee; cbn [orb]; [by apply yields_ret|].
    eapply yields_heap_eq; [eapply (Hgt m1 E1)|done].
Qed.

(** The derived operators in terms of [==] and [<], whatever the element
    type: [!=] is the negation of [==]; [<=] is [==] or [<]; [>] is the
    negation of [<=]; [>=] is [==] or not [<].  [<] compares the element
    sequences lexicographically.  No comparison changes the heap. *)
Theorem comparison_operators (a b : SimpleVector) (m : Mem T) :
  vec_ok (heap m) a -> vec_ok (heap m) b ->
  exists eq lt : bool,
    value (operator_eq a b m) = Some eq /\
    value (operator_lt a b m) = Some lt /\
    lt = seq_less (contents (heap m) a) (contents (heap m) b) /\
    value (operator_ne a b m) = Some (negb eq) /\
    value (operator_le a b m) = Some (eq || lt) /\
    value (operator_gt a b m) = Some (negb (eq || lt)) /\
    value (operator_ge a b m) = Some (eq || negb lt) /\
    (forall op r m', In op [operator_eq; operator_ne; operator_lt;
                            operator_le; operator_gt; operator_ge] ->
       op a b m = Ok (r, m') -> heap m' = heap m).
Proof.
  intros Ha Hb.
  destruct (comparisons_spec (heap m) a b Ha Hb m eq_refl) as
    (Heq & Hlt & Hne & Hle & Hgt & Hge).
  eexists _, _. split_and!; try (by eapply yields_value); [done|].
  intros op r m' Hin E. cbn [In] in Hin.
  destruct Hin as [<-|[<-|[<-|[<-|[<-|[<-|[]]]]]]].
  - by apply (read_only_operator_eq a b _ _ _ E).
  - by apply (read_only_operator_ne a b _ _ _ E).
  - by apply (read_only_operator_lt a b _ _ _ E).
  - by apply (read_only_operator_le a b _ _ _ E).
  - by apply (read_only_operator_gt a b _ _ _ E).
  - by apply (read_only_operator_ge a b _ _ _ E).
Qed.

(** *** Over a totally ordered element type *)

Section TotalOrder.
Hypothesis elt_eqb_eq : forall x y : T, elt_eqb x y = true <-> x = y.
Hypothesis elt_ltb_irrefl : forall x : T, elt_ltb x x = false.
Hypothesis elt_ltb_trans :
  forall x y z : T, elt_ltb x y = true -> elt_ltb y z = true -> elt_ltb x z = true.
Hypothesis elt_ltb_connex :
  forall x y : T, elt_ltb x y = false -> elt_ltb y x = false -> x = y.

Lemma elt_ltb_asym (x y : T) : elt_ltb x y = true -> elt_ltb y x = false.
Proof.
  intros Hxy. destruct (elt_ltb y x) eqn:Hyx; [|done].
  by rewrite <- (elt_ltb_irrefl x), (elt_ltb_trans x y x).
Qed.

Lemma seq_less_asym (xs : list T) : forall ys,
  seq_less xs ys = true -> seq_less ys xs = false.
Proof.
  induction xs as [|x xs IH]; intros [|y ys]; cbn; try done.
  destruct (elt_ltb x y) eqn:Hxy.
  - by rewrite (elt_ltb_asym x y Hxy).
  - destruct (elt_ltb y x) eqn:Hyx; [done|]. apply IH.
Qed.

Lemma seq_less_connex (xs : list T) : forall ys,
  seq_less xs ys = false -> seq_less ys xs = false -> xs = ys.
Proof.
  induction xs as [|x xs IH]; intros [|y ys]; cbn; try done.
  destruct (elt_ltb x y) eqn:Hxy; [done|].
  destruct (elt_ltb y x) eqn:Hyx; [done|].
  intros H1 H2. rewrite (elt_ltb_connex x y Hxy Hyx). f_equal. by apply IH.
Qed.

Lemma seq_less_trans (xs : list T) : forall ys zs,
  seq_less xs ys = true -> seq_less ys zs = true -> seq_less xs zs = true.
Proof.
  induction xs as [|x xs IH]; intros [|y ys] [|z zs]; cbn; try done.
  destruct (elt_ltb x y) eqn:Hxy.
  - intros _. destruct (elt_ltb y z) eqn:Hyz.
    + intros _. by rewrite (elt_ltb_trans x y z).
    + destruct (elt_ltb z y) eqn:Hzy; [done|].
      rewrite <- (elt_ltb_connex y z Hyz Hzy). by rewrite Hxy.
  - destruct (elt_ltb y x) eqn:Hyx; [done|].
    rewrite (elt_ltb_connex x y Hxy Hyx). intros Hl.
    destruct (elt_ltb y z); [done|]. destruct (elt_ltb z y); [done|]. by apply IH.
Qed.

(** [operator==] answers whether the element sequences are the same. *)
Lemma eq_contents h a b :
  vec_ok h a -> vec_ok h b ->
  ((size_ a =? size_ b) && seq_equal (contents h a) (contents h b) = true <->
   contents h a = contents h b).
Proof.
  intros Ha Hb. pose proof Ha as (H0a & _). pose proof Hb as (H0b & _).
  rewrite andb_true_iff, Z.eqb_eq. split.
  - intros [Hs Hseq]. apply (seq_equal_eq _ _ elt_eqb_eq); [|done].
    rewrite (length_contents _ _ Ha), (length_contents _ _ Hb). by rewrite Hs.
  - intros Hc. assert (Hs : size_ a = size_ b).
    { apply (f_equal length) in Hc.
      rewrite (length_contents _ _ Ha), (length_contents _ _ Hb) in Hc. lia. }
    split; [done|]. apply (seq_equal_eq _ _ elt_eqb_eq); [|done].
    rewrite (length_contents _ _ Ha), (length_contents _ _ Hb). by rewrite Hs.
Qed.

(** Over an element type whose [==] is equality and whose [<] is a strict
    total order, the operators order the vectors totally: [<] is
    transitive; exactly one of [a < b], [a == b], [b < a] holds; and
    [a > b] and [a >= b], which the code derives from [==] and [<] on
    [(a, b)], agree with [b < a] and [b <= a]. *)
Theorem operators_total_order (a b c : SimpleVector) (m : Mem T) :
  vec_ok (heap m) a -> vec_ok (heap m) b -> vec_ok (heap m) c ->
  (value (operator_lt a b m) = Some true ->
   value (operator_lt b c m) = Some true ->
   value (operator_lt a c m) = Some true) /\
  ((value (operator_lt a b m) = Some true /\
    value (operator_eq a b m) = Some false /\
    value (operator_lt b a m) = Some false) \/
   (value (operator_lt a b m) = Some false /\
    value (operator_eq a b m) = Some true /\
    value (operator_lt b a m) = Some false) \/
   (value (operator_lt a b m) = Some false /\
    value (operator_eq a b m) = Some false /\
    value (operator_lt b a m) = Some true)) /\
  (value (operator_eq a b m) = Some true <->
   contents (heap m) a = contents (heap m) b) /\
  value (operator_gt a b m) = value (operator_lt b a m) /\
  value (operator_ge a b m) = value (operator_le b a m).
Proof.
  intros Ha Hb Hc.
  destruct (comparisons_spec (heap m) a b Ha Hb m eq_refl) as
    (Heq & Hlt & _ & _ & Hgt & Hge).
  destruct (comparisons_spec (heap m) b a Hb Ha m eq_refl) as
    (Heq' & Hlt' & _ & Hle' & _ & _).
  destruct (comparisons_spec (heap m) b c Hb Hc m eq_refl) as (_ & Hbc & _).
  destruct (comparisons_spec (heap m) a c Ha Hc m eq_refl) as (_ & Hac & _).
  apply yields_value in Heq, Hlt, Hgt, Hge, Heq', Hlt', Hle', Hbc, Hac.
  rewrite ?Heq, ?Hlt, ?Hgt, ?Hge, ?Hlt', ?Hle', ?Hbc, ?Hac. clear Heq'.
  pose proof (eq_contents (heap m) a b Ha Hb) as Hiff.
  pose proof (eq_contents (heap m) b a Hb Ha) as Hiff'.
  set (xs := contents (heap m) a) in *. set (ys := contents (heap m) b) in *.
  set (zs := contents (heap m) c) in *.
  set (eq := (size_ a =? size_ b) && seq_equal xs ys) in *.
  set (eq' := (size_ b =? size_ a) && seq_equal ys xs) in *.
  assert (Heqs : eq' = eq).
  { apply Bool.eq_true_iff_eq. split; intros He.
    - apply Hiff. symmetry. by apply Hiff'.
    - apply Hiff'. symmetry. by apply Hiff. }
  assert (Hrefl : eq = true -> seq_less xs ys = false /\ seq_less ys xs = false).
  { intros He. apply Hiff in He. rewrite He. split; by apply seq_less_irrefl. }
  rewrite Heqs.
  destruct (seq_less xs ys) eqn:Hxy.
  - pose proof (seq_less_asym _ _ Hxy) as Hyx. rewrite Hyx.
    assert (He : eq = false).
    { destruct eq; [|done]. by destruct Hrefl. }
    rewrite He. split_and!; try done.
    + intros _ [= Hyz]. f_equal. by apply (seq_less_trans xs ys zs).
    + by left.
    + rewrite <- Hiff. by rewrite He.
  - destruct (seq_less ys xs) eqn:Hyx.
    + assert (He : eq = false).
      { destruct eq; [|done]. by destruct Hrefl. }
      rewrite He. split_and!; try done.
      * by right; right.
      * rewrite <- Hiff. by rewrite He.
    + assert (He : eq = true).
      { apply Hiff. by apply seq_less_connex. }
      rewrite He. split_and!; try done.
      * by right; left.
      * split; [intros _; by apply Hiff|done].
Qed.

End TotalOrder.

(** ** Moving and swapping vectors *)

Lemma contents_same_handle h v v' :
  size_ v' = size_ v ->
  ArrayPtr.raw_ptr_ (items_ v') = ArrayPtr.raw_ptr_ (items_ v) ->
  contents h v' = contents h v.
Proof. intros Hs Hr. unfold contents, block. by rewrite Hs, Hr. Qed.

(** The move constructor [SimpleVector x(std::move(other))]: [x] takes
    over size, capacity and array of [other], hence its elements; [other]
    is left empty with capacity 0 and no array; nothing is allocated,
    copied or freed. *)
Theorem move_construct_contract (w : World T) (x other : name) (o : SimpleVector) :
  vecs w !! x = None -> vecs w !! other = Some o ->
  exists w' vx vo,
    move_construct x other w = Ok w' /\ mem w' = mem w /\
    vecs w' !! x = Some vx /\ vecs w' !! other = Some vo /\
    size_ vx = size_ o /\ capacity_ vx = capacity_ o /\
    ArrayPtr.raw_ptr_ (items_ vx) = ArrayPtr.raw_ptr_ (items_ o) /\
    contents (heap (mem w')) vx = contents (heap (mem w)) o /\
    size_ vo = 0 /\ capacity_ vo = 0 /\ ArrayPtr.raw_ptr_ (items_ vo) = None /\
    (forall k : name, k <> x -> k <> other -> vecs w' !! k = vecs w !! k).
Proof.
  intros Ex Eo. assert (Hne : x <> other) by congruence.
  destruct (move_construct_store w x other o Ex Eo) as (st' & E & Hst).
  destruct (move_handles ArrayPtr.default (items_ o)) as [Hti Hoi].
  eexists _, _, _. split; [exact E|]. cbn [mem vecs]. rewrite !Hst.
  rewrite decide_False, !decide_True by done.
  split_and!; try reflexivity; try done.
  - by apply contents_same_handle.
  - intros k Hkx Hko. by rewrite Hst, !decide_False.
Qed.

(** The move assignment [x = std::move(other)] between two vectors: [x]
    takes over size, capacity and array of [other], hence its elements;
    [other] is left with size 0 and capacity 0 and holds the array [x] had,
    which is not freed by the assignment; the heap is untouched. *)
Theorem move_assign_contract (w : World T) (x other : name) (a b : SimpleVector) :
  x <> other -> vecs w !! x = Some a -> vecs w !! other = Some b ->
  exists w' vx vo,
    move_assign x other w = Ok w' /\ mem w' = mem w /\
    vecs w' !! x = Some vx /\ vecs w' !! other = Some vo /\
    size_ vx = size_ b /\ capacity_ vx = capacity_ b /\
    ArrayPtr.raw_ptr_ (items_ vx) = ArrayPtr.raw_ptr_ (items_ b) /\
    contents (heap (mem w')) vx = contents (heap (mem w)) b /\
    size_ vo = 0 /\ capacity_ vo = 0 /\
    ArrayPtr.raw_ptr_ (items_ vo) = ArrayPtr.raw_ptr_ (items_ a) /\
    (forall k : name, k <> x -> k <> other -> vecs w' !! k = vecs w !! k).
Proof.
  intros Hne Ea Eb.
  destruct (move_assign_store w x other a b Ea Eb) as (st' & E & Hst).
  destruct (move_handles (items_ a) (items_ b)) as [Hti Hoi].
  eexists _, _, _. split; [exact E|]. cbn [mem vecs]. rewrite !Hst.
  rewrite decide_False, !decide_True by done.
  split_and!; try reflexivity; try done.
  - by apply contents_same_handle.
  - intros k Hkx Hko. by rewrite Hst, !decide_False.
Qed.

(** The self move assignment [x = std::move(x)] empties the vector: size
    and capacity become 0 and the elements are lost, while the vector
    still holds its array; the heap is untouched. *)
Theorem self_move_assign_empties (w : World T) (x : name) (a : SimpleVector) :
  vecs w !! x = Some a ->
  exists w' vx,
    move_assign x x w = Ok w' /\ mem w' = mem w /\
    vecs w' !! x = Some vx /\
    size_ vx = 0 /\ capacity_ vx = 0 /\
    ArrayPtr.raw_ptr_ (items_ vx) = ArrayPtr.raw_ptr_ (items_ a) /\
    contents (heap (mem w')) vx = [] /\
    (forall k : name, k <> x -> vecs w' !! k = vecs w !! k).
Proof.
  intros Ea.
  destruct (move_assign_store w x x a a Ea Ea) as (st' & E & Hst).
  destruct (move_handles (items_ a) (items_ a)) as [Hti Hoi].
  eexists _, _. split; [exact E|]. cbn [mem vecs]. rewrite !Hst.
  rewrite !decide_True by done.
  split_and!; try reflexivity; try done.
  intros k Hkx. by rewrite Hst, !decide_False.
Qed.

(** [x.swap(rhs)] exchanges size, capacity and array of the two vectors,
    hence their elements, without touching the heap; swapping a vector
    with itself changes nothing; swapping twice gives back the state there
    was. *)
Theorem swap_contract (w : World T) (x rhs : name) (a b : SimpleVector) :
  vecs w !! x = Some a -> vecs w !! rhs = Some b ->
  exists w',
    swap x rhs w = Ok w' /\ mem w' = mem w /\
    vecs w' !! x = Some b /\ vecs w' !! rhs = Some a /\
    (forall k : name, k <> x -> k <> rhs -> vecs w' !! k = vecs w !! k) /\
    swap x rhs w' = Ok w.
Proof.
  intros Ea Eb.
  assert (Heta : forall v, MkVec (size_ v) (capacity_ v)
                             (ArrayPtr.Make (ArrayPtr.raw_ptr_ (items_ v))) = v).
  { by intros [s c [r]]. }
  destruct (swap_store w x rhs a b Ea Eb) as (st' & E & Hst).
  assert (Hx : st' !! x = Some b).
  { rewrite Hst. destruct (decide (x = rhs)) as [->|Hne].
    - rewrite Heta. congruence.
    - by rewrite decide_True, Heta. }
  assert (Hr : st' !! rhs = Some a).
  { by rewrite Hst, decide_True, Heta. }
  exists (MkWorld st' (mem w)). split_and!; try done.
  - intros k Hkx Hkr. by rewrite Hst, !decide_False.
  - destruct (swap_store (MkWorld st' (mem w)) x rhs b a Hx Hr) as (st'' & E' & Hst'').
    rewrite E'. cbn [mem]. destruct w as [st m0]. cbn [vecs mem] in *. do 2 f_equal.
    apply map_eq. intros k. rewrite Hst''.
    destruct (decide (k = rhs)) as [->|Hkr]; [by rewrite Heta|].
    destruct (decide (k = x)) as [->|Hkx]; [by rewrite Heta|].
    by rewrite Hst, !decide_False.
Qed.

(** ** No array is lost *)

Lemma no_leak_update (w : World T) (x : name) v' (m' : Mem T) :
  no_leak w ->
  evolves (heap (mem w)) (default SimpleVector_default (vecs w !! x)) (heap m') v' ->
  no_leak (MkWorld (<[x := v']> (vecs w)) m').
Proof.
  intros Hw (_ & Hfr & _ & Hdel & _) l Hl. cbn [mem vecs] in *.
  set (v := default SimpleVector_default (vecs w !! x)) in *.
  destruct (decide (ArrayPtr.raw_ptr_ (items_ v') = Some l)) as [E'|E'].
  { exists x, v'. cbn [vecs]. by rewrite lookup_insert_eq. }
  destruct (decide (ArrayPtr.raw_ptr_ (items_ v) = Some l)) as [E|E].
  { by rewrite (Hdel l E E') in Hl. }
  rewrite (Hfr l E E') in Hl. destruct (Hw l Hl) as (y & vy & Ey & El).
  assert (Hne : x <> y).
  { intros <-. unfold v in E. rewrite Ey in E. done. }
  exists y, vy. cbn [vecs]. by rewrite lookup_insert_ne.
Qed.

(** The heap is as before and every array that had an owner has one. *)
Lemma no_leak_handles (w w' : World T) :
  no_leak w -> heap (mem w') = heap (mem w) ->
  (forall l, owned w l -> owned w' l) ->
  no_leak w'.
Proof. intros Hw Hh Hown l Hl. rewrite Hh in Hl. by apply Hown, Hw. Qed.

Lemma no_leak_store (w : World T) p x u (m' : Mem T) :
  no_leak w -> store p x (mem w) = Ok (u, m') -> no_leak (MkWorld (vecs w) m').
Proof.
  intros Hw E l Hl. cbn [mem vecs] in *. apply Hw.
  unfold store in E. destruct (base p) as [l0|]; [|done].
  destruct (slot (heap (mem w)) p); [|done]. injection E as <- <-. cbn [heap] in Hl.
  rewrite lookup_alter in Hl. destruct (decide (l0 = l)) as [<-|]; [|done].
  by destruct (heap (mem w) !! l0).
Qed.

Lemma no_leak_destroy (w : World T) (x : name) v (m' : Mem T) :
  no_leak w -> vecs w !! x = Some v ->
  heap m' = free_block (ArrayPtr.raw_ptr_ (items_ v)) (heap (mem w)) ->
  no_leak (MkWorld (delete x (vecs w)) m').
Proof.
  intros Hw Ex Hh l Hl. cbn [mem vecs] in *. rewrite Hh in Hl.
  assert (Hlive : heap (mem w) !! l <> None /\ ArrayPtr.raw_ptr_ (items_ v) <> Some l).
  { destruct (ArrayPtr.raw_ptr_ (items_ v)) as [l0|]; cbn in Hl; [|done].
    rewrite lookup_delete in Hl. destruct (decide (l0 = l)) as [|Hne]; [done|].
    split; [done|congruence]. }
  destruct Hlive as [Hl0 Hne]. destruct (Hw l Hl0) as (y & vy & Ey & El).
  exists y, vy. cbn [vecs]. split; [|done]. rewrite lookup_delete_ne; [done|].
  intros <-. congruence.
Qed.

Lemma no_leak_move_assign (w w' : World T) (x other : name) :
  no_leak w -> move_assign x other w = Ok w' -> no_leak w'.
Proof.
  intros Hw E.
  destruct (vecs w !! x) as [a|] eqn:Ea; [|by unfold move_assign in E; rewrite Ea in E].
  destruct (vecs w !! other) as [b|] eqn:Eb;
    [|by unfold move_assign in E; rewrite Ea, Eb in E].
  destruct (move_assign_store w x other a b Ea Eb) as (st' & E' & Hst).
  rewrite E' in E. injection E as <-.
  destruct (move_handles (items_ a) (items_ b)) as [Hti Hoi].
  apply (no_leak_handles w); [done..|]. intros l (k & vk & Ek & El). unfold owned. cbn [vecs].
  destruct (decide (x = other)) as [<-|Hne].
  - assert (a = b) as <- by congruence.
    destruct (decide (k = x)) as [->|Hk].
    + eexists x, _. rewrite Hst, decide_True by done. split; [done|]. cbn [items_].
      rewrite Hoi. congruence.
    + exists k, vk. by rewrite Hst, !decide_False.
  - destruct (decide (k = other)) as [->|Hko].
    + eexists x, _. rewrite Hst, decide_False, decide_True by done. split; [done|].
      cbn [items_]. rewrite Hti. congruence.
    + destruct (decide (k = x)) as [->|Hkx].
      * eexists other, _. rewrite Hst, decide_True by done. split; [done|].
        cbn [items_]. rewrite Hoi. congruence.
      * exists k, vk. by rewrite Hst, !decide_False.
Qed.

Lemma no_leak_move_construct (w w' : World T) (x other : name) :
  no_leak w -> move_construct x other w = Ok w' -> no_leak w'.
Proof.
  intros Hw E.
  destruct (vecs w !! x) as [a|] eqn:Ea.
  { unfold move_construct in E. by rewrite Ea in E. }
  destruct (vecs w !! other) as [o|] eqn:Eo;
    [|by unfold move_construct in E; rewrite Ea, Eo in E].
  destruct (move_construct_store w x other o Ea Eo) as (st' & E' & Hst).
  rewrite E' in E. injection E as <-.
  destruct (move_handles ArrayPtr.default (items_ o)) as [Hti Hoi].
  assert (Hne : x <> other) by congruence.
  apply (no_leak_handles w); [done..|]. intros l (k & vk & Ek & El). unfold owned. cbn [vecs].
  destruct (decide (k = other)) as [->|Hko].
  - eexists x, _. rewrite Hst, decide_False, decide_True by done. split; [done|].
    cbn [items_]. rewrite Hti. congruence.
  - assert (Hkx : k <> x) by congruence.
    exists k, vk. by rewrite Hst, !decide_False.
Qed.

Lemma no_leak_swap (w w' : World T) (x rhs : name) :
  no_leak w -> swap x rhs w = Ok w' -> no_leak w'.
Proof.
  intros Hw E.
  destruct (vecs w !! x) as [a|] eqn:Ea; [|by unfold swap in E; rewrite Ea in E].
  destruct (vecs w !! rhs) as [b|] eqn:Eb; [|by unfold swap in E; rewrite Ea, Eb in E].
  destruct (swap_store w x rhs a b Ea Eb) as (st' & E' & Hst).
  rewrite E' in E. injection E as <-.
  apply (no_leak_handles w); [done..|]. intros l (k & vk & Ek & El). unfold owned. cbn [vecs].
  destruct (decide (k = rhs)) as [->|Hkr].
  - destruct (decide (x = rhs)) as [->|Hne].
    + eexists rhs, _. rewrite Hst, decide_True by done. split; [done|]. cbn. congruence.
    + eexists x, _. rewrite Hst, decide_False, decide_True by done. split; [done|].
      cbn. congruence.
  - destruct (decide (k = x)) as [->|Hkx].
    + eexists rhs, _. rewrite Hst, decide_True by done. split; [done|]. cbn. congruence.
    + exists k, vk. by rewrite Hst, !decide_False.
Qed.

Lemma no_leak_declare (w w' : World T) (x : name) (ctor : M T SimpleVector) :
  no_leak w ->
  (forall v m', ctor (mem w) = Ok (v, m') ->
     evolves (heap (mem w)) SimpleVector_default (heap m') v) ->
  declare x ctor w = Ok w' -> no_leak w'.
Proof.
  intros Hw Hctor E. unfold declare in E.
  destruct (vecs w !! x) as [?|] eqn:Ex; [done|].
  destruct (ctor (mem w)) as [[v m']| |] eqn:Ec; [|done..]. injection E as <-.
  apply no_leak_update; [done|]. rewrite Ex. by apply Hctor.
Qed.

Lemma no_leak_mutate (w w' : World T) (x : name) (f : SimpleVector -> M T SimpleVector) :
  world_ok w -> no_leak w ->
  (forall v v' m', vec_ok (heap (mem w)) v -> f v (mem w) = Ok (v', m') ->
     evolves (heap (mem w)) v (heap m') v') ->
  mutate x f w = Ok w' -> no_leak w'.
Proof.
  intros Hok Hw Hf E. unfold mutate in E.
  destruct (vecs w !! x) as [v|] eqn:Ex; [|done].
  destruct (f v (mem w)) as [[v' m']| |] eqn:Ef; [|done..]. injection E as <-.
  apply no_leak_update; [done|]. rewrite Ex. apply Hf; [|done].
  destruct Hok as (Hall & _). by apply (Hall x).
Qed.

Lemma no_leak_observe {A} (w w' : World T) (x : name) (f : SimpleVector -> M T A) :
  no_leak w -> (forall v, read_only (f v)) ->
  observe x f w = Ok w' -> no_leak w'.
Proof.
  intros Hw Hf E. unfold observe in E.
  destruct (vecs w !! x) as [v|] eqn:Ex; [|done].
  destruct (f v (mem w)) as [[r m']| |] eqn:Ef; [|done..]. injection E as <-.
  apply (no_leak_handles w); [done| |done]. by apply (Hf v _ _ _ Ef).
Qed.

Lemma no_leak_compare (w w' : World T) (x y : name)
    (f : SimpleVector -> SimpleVector -> M T bool) :
  no_leak w -> (forall a b, read_only (f a b)) ->
  compare x y f w = Ok w' -> no_leak w'.
Proof.
  intros Hw Hf E. unfold compare in E.
  destruct (vecs w !! x) as [a|] eqn:Ex; [|done].
  destruct (vecs w !! y) as [b|] eqn:Ey; [|done].
  destruct (f a b (mem w)) as [[r m']| |] eqn:Ef; [|done..]. injection E as <-.
  apply (no_leak_handles w); [done| |done]. by apply (Hf a b _ _ _ Ef).
Qed.

(** Every constructor and public operation leaves no array without an
    owner. *)
Lemma exec_no_leak (c : call T) (w w' : World T) :
  call_wf c -> world_ok w -> no_leak w -> exec c w = Ok w' -> no_leak w'.
Proof.
  intros Hwf Hok Hw E. pose proof Hok as (Hall & Huniq & Hfit).
  destruct c as [x|x n|x n val|x init|x other|x obj|x other|x rhs|x other|x|x i|x i|x|x
                |p val|x|x n|x|x pos|x val|x val|x pos val|x pos val|x rhs|x n
                |x y|x y|x y|x y|x y|x y];
    cbn [exec call_wf] in *.
  - apply (no_leak_declare _ _ _ _ Hw) in E; [done|].
    intros v m' [= <- <-]. apply evolves_refl, vec_ok_default.
  - apply (no_leak_declare _ _ _ _ Hw) in E; [done|].
    intros v m' Ec. apply (SimpleVector_sized_evolves _ n); [apply Hwf|done].
  - apply (no_leak_declare _ _ _ _ Hw) in E; [done|].
    intros v m' Ec. apply (SimpleVector_filled_evolves _ n val); [apply Hwf|done].
  - apply (no_leak_declare _ _ _ _ Hw) in E; [done|].
    intros v m' Ec. by apply (SimpleVector_init_evolves _ init).
  - destruct (vecs w !! other) as [o|] eqn:Eo; [|done].
    apply (no_leak_declare _ _ _ _ Hw) in E; [done|].
    intros v m' Ec. apply (SimpleVector_copy_evolves _ o); [by apply (Hall other)|done].
  - apply (no_leak_declare _ _ _ _ Hw) in E; [done|].
    intros v m' Ec. apply (SimpleVector_reserved_evolves _ obj); [apply Hwf|done].
  - by apply (no_leak_move_construct w w' x other).
  - unfold copy_assignment in E.
    destruct (vecs w !! x) as [a|] eqn:Ea; [|done].
    destruct (vecs w !! rhs) as [b|] eqn:Eb; [|done].
    destruct (copy_assign a b (mem w)) as [[a' m']| |] eqn:Ec; [|done..]. injection E as <-.
    apply no_leak_update; [done|]. rewrite Ea.
    apply (copy_assign_evolves _ a b); [by apply (Hall x)|by apply (Hall rhs)|done].
  - by apply (no_leak_move_assign w w' x other).
  - unfold destroy in E.
    destruct (vecs w !! x) as [v|] eqn:Ex; [|done].
    destruct (SimpleVector_dtor v (mem w)) as [[u m']| |] eqn:Ed; [|done..]. injection E as <-.
    apply (no_leak_destroy w x v); [done..|]. by apply (SimpleVector_dtor_heap _ _ u).
  - apply (no_leak_observe _ _ _ _ Hw) in E; [done|]. apply read_only_index_op.
  - apply (no_leak_observe _ _ _ _ Hw) in E; [done|]. apply read_only_At.
  - apply (no_leak_observe _ _ _ _ Hw) in E; [done|]. intros v. apply read_only_index.
  - apply (no_leak_observe _ _ _ _ Hw) in E; [done|]. intros v. apply read_only_index.
  - unfold assign_through in E.
    destruct (store p val (mem w)) as [[u m']| |] eqn:Es; [|done..]. injection E as <-.
    by apply (no_leak_store w p val u).
  - apply (no_leak_mutate _ _ _ _ Hok Hw) in E; [done|].
    intros v v' m' Hv Ef. by apply (Resize_evolves _ _ 0).
  - apply (no_leak_mutate _ _ _ _ Hok Hw) in E; [done|].
    intros v v' m' Hv Ef. apply (Resize_evolves _ _ n); [done|apply Hwf|done].
  - apply (no_leak_mutate _ _ _ _ Hok Hw) in E; [done|].
    intros v v' m' Hv [= <- <-]. by apply PopBack_evolves.
  - apply (no_leak_mutate _ _ _ _ Hok Hw) in E; [done|].
    intros v v' m' Hv Ef. apply bind_Ok in Ef as (r & m1 & Er & [= <- <-]).
    by apply (Erase_evolves _ _ pos).
  - apply (no_leak_mutate _ _ _ _ Hok Hw) in E; [done|].
    intros v v' m' Hv Ef. apply (PushBack_evolves _ _ val); [done|by left].
  - apply (no_leak_mutate _ _ _ _ Hok Hw) in E; [done|].
    intros v v' m' Hv Ef. apply (PushBack_evolves _ _ val); [done|by right].
  - apply (no_leak_mutate _ _ _ _ Hok Hw) in E; [done|].
    intros v v' m' Hv Ef. apply bind_Ok in Ef as (r & m1 & Er & [= <- <-]).
    by apply (Insert_evolves _ _ pos val).
  - apply (no_leak_mutate _ _ _ _ Hok Hw) in E; [done|].
    intros v v' m' Hv Ef. apply bind_Ok in Ef as (r & m1 & Er & [= <- <-]).
    rewrite Insert_move_eq in Er. by apply (Insert_evolves _ _ pos val).
  - by apply (no_leak_swap w w' x rhs).
  - apply (no_leak_mutate _ _ _ _ Hok Hw) in E; [done|].
    intros v v' m' Hv Ef. apply (Reserve_evolves _ _ n); [done|apply Hwf|done].
  - apply (no_leak_compare _ _ _ _ _ Hw) in E; [done|]. apply read_only_operator_eq.
  - apply (no_leak_compare _ _ _ _ _ Hw) in E; [done|]. apply read_only_operator_ne.
  - apply (no_leak_compare _ _ _ _ _ Hw) in E; [done|]. apply read_only_operator_lt.
  - apply (no_leak_compare _ _ _ _ _ Hw) in E; [done|]. apply read_only_operator_le.
  - apply (no_leak_compare _ _ _ _ _ Hw) in E; [done|]. apply read_only_operator_gt.
  - apply (no_leak_compare _ _ _ _ _ Hw) in E; [done|]. apply read_only_operator_ge.
Qed.

Lemma run_no_leak (p : list (call T)) : forall w w' : World T,
  Forall call_wf p -> world_ok w -> no_leak w -> run p w = Ok w' -> no_leak w'.
Proof.
  induction p as [|c p IH]; intros w w' Hwf Hok Hw E; cbn [run] in E.
  - by injection E as <-.
  - apply Forall_cons in Hwf as [Hc Hp].
    destruct (exec c w) as [w1|e w1|] eqn:Ec; [| |done].
    + apply (IH w1 w' Hp); [by apply (exec_world_ok c w)|by apply (exec_no_leak c w)|done].
    + destruct (exec_Throw c w w1 e Hok Ec) as (_ & Hv & Hh).
      apply (IH w1 w' Hp); [by apply (world_ok_same w)| |done].
      apply (no_leak_handles w); [done..|]. intros l (x & v & Ex & El).
      exists x, v. by rewrite Hv.
Qed.

(** No program leaks or loses track of memory: in every state a program
    reaches, an array is live exactly when it is the buffer of one of the
    program's vectors.  In particular every array a constructor, a
    reallocation or a copy allocated and every array a vector gave up has
    been deleted or handed to another vector. *)
Theorem reachable_no_leak (w : World T) :
  reachable w ->
  forall l, heap (mem w) !! l <> None <-> owned w l.
Proof.
  intros (p & Hwf & Hrun) l. split.
  - revert l. fold (no_leak w).
    apply (run_no_leak p empty_world w Hwf); [apply world_ok_empty| |done].
    intros l Hl. cbn in Hl. by rewrite lookup_empty in Hl.
  - intros (x & v & Ex & El).
    assert (Hw : world_ok w).
    { apply (run_world_ok p empty_world); [done|apply world_ok_empty|done]. }
    destruct Hw as (Hall & _). destruct (Hall x v Ex) as (_ & _ & _ & _ & Hlive).
    by rewrite El in Hlive.
Qed.

(** ** Exceptions *)

(** The strong exception guarantee: a call that throws leaves every vector
    and every array of the program as they were, so the state the program
    catches the exception in keeps the invariant and has lost no array.
    [At] is the only call that throws [std::out_of_range]; every other
    exception is the [std::bad_alloc] of [new[]]. *)
Theorem throwing_call_changes_nothing (c : call T) (w w' : World T) (e : exception) :
  world_ok w -> exec c w = Throw e w' ->
  vecs w' = vecs w /\ heap (mem w') = heap (mem w) /\
  (e = out_of_range <-> exists (y : name) (i : Z), c = CallAt y i) /\
  (e = bad_alloc <-> ~ exists (y : name) (i : Z), c = CallAt y i) /\
  world_ok w' /\
  (no_leak w -> no_leak w').
Proof.
  intros Hw E. destruct (exec_Throw c w w' e Hw E) as (He & Hv & Hh).
  split_and!; try done.
  - destruct c; subst e; split; try done; try (by intros (? & ? & ?)).
    intros _. by eexists _, _.
  - destruct c; subst e; split; try done; try (by intros _ (? & ? & ?)).
    intros Hn. exfalso. apply Hn. by eexists _, _.
  - by apply (world_ok_same w).
  - intros Hl. apply (no_leak_handles w); [done..|]. intros l (x & v & Ex & El).
    exists x, v. by rewrite Hv.
Qed.

(** ** Construction followed by destruction *)

Lemma dtor_restores_evolves m v m' :
  evolves (heap m) SimpleVector_default (heap m') v -> dtor_restores m v m'.
Proof.
  intros Hev. destruct (evolves_from_default _ _ _ Hev) as (_ & _ & Hfree).
  pose proof (evolves_ok _ _ _ _ Hev) as (_ & _ & _ & _ & Hlive).
  destruct (yields_dtor m' (heap m') (items_ v) eq_refl Hlive) as (m'' & E & Hh).
  exists m''. split; [done|]. by rewrite Hh.
Qed.

(** Every constructor followed by the destructor gives back the heap
    there was: what a constructor allocates, the destructor frees. *)
Theorem construct_destroy_roundtrip (m : Mem T) (n : Z) (value : T) (init : list T)
    (other : SimpleVector) :
  0 <= n -> Z.of_nat (length init) <= max_array_len -> vec_ok (heap m) other ->
  dtor_restores m SimpleVector_default m /\
  (forall v m', SimpleVector_sized n m = Ok (v, m') -> dtor_restores m v m') /\
  (forall v m', SimpleVector_filled n value m = Ok (v, m') -> dtor_restores m v m') /\
  (forall v m', SimpleVector_init init m = Ok (v, m') -> dtor_restores m v m') /\
  (forall v m', SimpleVector_copy other m = Ok (v, m') -> dtor_restores m v m') /\
  (forall v m', SimpleVector_reserved (Reserve_proxy n) m = Ok (v, m') ->
     dtor_restores m v m').
Proof.
  intros Hn Hinit Hok. split_and!.
  - by exists m.
  - intros v m' E. by apply dtor_restores_evolves, (SimpleVector_sized_evolves _ n).
  - intros v m' E. by apply dtor_restores_evolves, (SimpleVector_filled_evolves _ n value).
  - intros v m' E. by apply dtor_restores_evolves, (SimpleVector_init_evolves _ init).
  - intros v m' E. by apply dtor_restores_evolves, (SimpleVector_copy_evolves _ other).
  - intros v m' E.
    by apply dtor_restores_evolves, (SimpleVector_reserved_evolves _ (Reserve_proxy n)).
Qed.

End Proofs.

(** * Concrete runs over [int] *)

Ltac concrete := vm_compute; repeat split; try (intros; discriminate); try reflexivity.

(** C4 as stated fails: move-assigning a buffer that owns array 2 into a
    buffer that owns array 1 leaves the moved-from buffer owning array 1. *)
Lemma ArrayPtr_move_assign_source_not_empty :
  ArrayPtr.to_bool
    (snd (ArrayPtr.move_assign (ArrayPtr.adopt (Some 1%positive))
                               (ArrayPtr.adopt (Some 2%positive)))) = true.
Proof. reflexivity. Qed.

(** [{1, 2, 3}] resized to 7: the capacity becomes max(2 * 3, 7) = 7. *)
Lemma Resize_contract_witness :
  let v := fst (built (SimpleVector_init [1; 2; 3])) in
  let m := snd (built (SimpleVector_init [1; 2; 3])) in
  vec_ok (heap m) v /\
  0 <= 7 /\
  (capacity_ v < 7 -> Z.max (2 * capacity_ v) 7 <= max_array_len) /\
  exists v' m',
    Resize 7 v m = Ok (v', m') /\ size_ v' = 7 /\ capacity_ v' = 7 /\
    contents (heap m') v' = [1; 2; 3; 0; 0; 0; 0].
Proof.
  intros v m.
  assert (Hok : vec_ok (heap m) v) by concrete.
  assert (H0 : 0 <= 7) by lia.
  assert (Hmax : capacity_ v < 7 -> Z.max (2 * capacity_ v) 7 <= max_array_len) by concrete.
  split_and!; try done.
  destruct (Resize_contract v m 7 Hok H0 Hmax) as
    (v' & m' & E & _ & Hs & _ & _ & _ & Hgrow).
  destruct Hgrow as [Hc Hcont]; [concrete|].
  exists v', m'. split_and!; try done.
Defined.

(** Scenario of the specification: inserting 42 at index 2 of [{1, 2, 3, 4}]
    gives [{1, 2, 42, 3, 4}]. *)
Lemma Insert_contract_witness :
  let v := fst (built (SimpleVector_init [1; 2; 3; 4])) in
  let m := snd (built (SimpleVector_init [1; 2; 3; 4])) in
  vec_ok (heap m) v /\
  0 <= 2 < size_ v /\
  refers_outside (heap m) v (Outside 42) 42 /\
  (size_ v = capacity_ v -> 2 * capacity_ v <= max_array_len) /\
  exists it v' m',
    Insert (Ptr (ArrayPtr.raw_ptr_ (items_ v)) 2) (Outside 42) v m = Ok (it, v', m') /\
    size_ v' = 5 /\ capacity_ v' = 8 /\
    contents (heap m') v' = [1; 2; 42; 3; 4] /\
    slot (heap m') it = Some 42.
Proof.
  intros v m.
  assert (Hok : vec_ok (heap m) v) by concrete.
  assert (Hi : 0 <= 2 < size_ v) by concrete.
  assert (Hr : refers_outside (heap m) v (Outside 42) 42) by reflexivity.
  assert (Hmax : size_ v = capacity_ v -> 2 * capacity_ v <= max_array_len) by concrete.
  split_and!; try done.
  destruct (Insert_contract v m 2 (Outside 42) 42 Hok Hi Hr Hmax) as
    (it & v' & m' & E & _ & _ & Hs & Hc & _ & Hcont & _ & Hslot).
  exists it, v', m'. split_and!; try done.
Defined.

(** Scenario of the specification: from a vector of capacity 0 the first
    [PushBack] makes the capacity 1, the second makes it 2. *)
Lemma PushBack_contract_witness :
  vec_ok (heap (empty_mem (T:=Z))) SimpleVector_default /\
  refers_outside (heap (empty_mem (T:=Z))) SimpleVector_default (Outside 10) 10 /\
  (size_ SimpleVector_default = capacity_ SimpleVector_default ->
   2 * capacity_ SimpleVector_default <= max_array_len) /\
  exists v1 m1 v2 m2,
    PushBack (Outside 10) SimpleVector_default empty_mem = Ok (v1, m1) /\
    capacity_ v1 = 1 /\ size_ v1 = 1 /\
    PushBack (Outside 20) v1 m1 = Ok (v2, m2) /\
    capacity_ v2 = 2 /\ size_ v2 = 2 /\
    contents (heap m2) v2 = [10; 20].
Proof.
  assert (Hok : vec_ok (heap (empty_mem (T:=Z))) SimpleVector_default) by concrete.
  assert (Hr : refers_outside (heap (empty_mem (T:=Z))) SimpleVector_default (Outside 10) 10)
    by reflexivity.
  assert (Hmax : size_ SimpleVector_default = capacity_ SimpleVector_default ->
                 2 * capacity_ SimpleVector_default <= max_array_len) by concrete.
  split_and!; try done.
  destruct (PushBack_contract SimpleVector_default empty_mem (Outside 10) 10 Hok Hr Hmax) as
    (v1 & m1 & _ & E1 & _ & _ & Hok1 & Hs1 & Hc1 & Hcont1 & _).
  assert (Hs1' : size_ v1 = 1) by (rewrite Hs1; reflexivity).
  assert (Hc1' : capacity_ v1 = 1) by (rewrite Hc1; reflexivity).
  assert (Hmax1 : size_ v1 = capacity_ v1 -> 2 * capacity_ v1 <= max_array_len).
  { rewrite Hc1'. intros _. concrete. }
  assert (Hr1 : refers_outside (heap m1) v1 (Outside 20) 20) by reflexivity.
  destruct (PushBack_contract v1 m1 (Outside 20) 20 Hok1 Hr1 Hmax1) as
    (v2 & m2 & _ & E2 & _ & _ & Hok2 & Hs2 & Hc2 & Hcont2 & _).
  rewrite Hs1', Hc1' in Hc2. rewrite Hs1' in Hs2. rewrite Hcont1 in Hcont2.
  exists v1, m1, v2, m2. split_and!; assumption.
Defined.

(** [v.PushBack(v[0])] on the full vector [{1}]: [v[0]] holds 1 at the call,
    and the call reads it in the array [Reserve] has deleted. *)
Lemma PushBack_own_element_dangles_witness :
  let v := fst (built (SimpleVector_init [1])) in
  let m := snd (built (SimpleVector_init [1])) in
  vec_ok (heap m) v /\
  size_ v = capacity_ v /\
  2 * capacity_ v <= max_array_len /\
  0 <= 0 < size_ v /\
  value (read (InArray (Ptr (ArrayPtr.raw_ptr_ (items_ v)) 0)) m) = Some 1 /\
  PushBack (InArray (Ptr (ArrayPtr.raw_ptr_ (items_ v)) 0)) v m
    = Fail undefined_behaviour /\
  PushBack_move (InArray (Ptr (ArrayPtr.raw_ptr_ (items_ v)) 0)) v m
    = Fail undefined_behaviour.
Proof.
  intros v m.
  assert (Hok : vec_ok (heap m) v) by concrete.
  assert (Hs : size_ v = capacity_ v) by reflexivity.
  assert (Hmax : 2 * capacity_ v <= max_array_len) by concrete.
  assert (Hi : 0 <= 0 < size_ v) by concrete.
  refine (conj Hok (conj Hs (conj Hmax (conj Hi (conj eq_refl _))))).
  exact (proj2 (PushBack_own_element_dangles v m 0 Hok Hs Hmax Hi)).
Defined.

(** [v.Insert(v.begin(), v[1])] on [{1, 2, 3}] with capacity 4: [v[1]] holds
    2 at the call, and the vector is [{1, 1, 2, 3}] afterwards. *)
Lemma Insert_own_element_shifted_witness :
  let v := fst (built (v <- SimpleVector_init [1; 2; 3] ;; Reserve 4 v)) in
  let m := snd (built (v <- SimpleVector_init [1; 2; 3] ;; Reserve 4 v)) in
  vec_ok (heap m) v /\
  0 <= 0 < 1 /\ 1 < size_ v /\ size_ v < capacity_ v /\
  value (read (InArray (Ptr (ArrayPtr.raw_ptr_ (items_ v)) 1)) m) = Some 2 /\
  exists it v' m',
    Insert (Ptr (ArrayPtr.raw_ptr_ (items_ v)) 0)
           (InArray (Ptr (ArrayPtr.raw_ptr_ (items_ v)) 1)) v m = Ok (it, v', m') /\
    contents (heap m') v' = [1; 1; 2; 3] /\
    slot (heap m') it = Some 1.
Proof.
  intros v m.
  assert (Hok : vec_ok (heap m) v) by concrete.
  assert (Hij : 0 <= 0 < 1) by lia.
  assert (Hj : 1 < size_ v) by concrete.
  assert (Hcap : size_ v < capacity_ v) by concrete.
  refine (conj Hok (conj Hij (conj Hj (conj Hcap (conj eq_refl _))))).
  destruct (Insert_own_element_shifted v m 0 1 Hok Hij Hj Hcap) as
    (x & y & m1 & it & v' & m' & _ & _ & Ey & E & _ & Hcont & Hslot).
  assert (Hy : y = 1) by (injection Ey as <-; reflexivity).
  rewrite Hy in Hcont, Hslot.
  exists it, v', m'. split_and!; [exact E|exact Hcont|exact Hslot].
Defined.

(** Scenario of the specification: on a vector of three elements [At(3)]
    throws and [At(2)] returns the reference [operator[](2)] returns. *)
Lemma At_contract_witness :
  let v := fst (built (SimpleVector_sized 3)) in
  let m := snd (built (SimpleVector_sized 3)) in
  At 3 v m = Throw out_of_range (MkThrown m (Some v)) /\
  exists m', At 2 v m = Ok (Ptr (ArrayPtr.raw_ptr_ (items_ v)) 2, m') /\
             index_op 2 v m = Ok (Ptr (ArrayPtr.raw_ptr_ (items_ v)) 2, m') /\
             heap m' = heap m.
Proof.
  intros v m. split.
  - destruct (At_contract v m 3) as ([_ Hthrow] & _). apply Hthrow. concrete.
  - destruct (At_contract v m 2) as (_ & _ & _ & Hget & _). apply Hget. concrete.
Defined.

(** Inserting 42 at index 2 of [{1, 2, 3, 4}] and erasing at the iterator
    returned gives a vector equal to a copy of the original. *)
Lemma Insert_Erase_roundtrip_witness :
  let v := fst (built (SimpleVector_init [1; 2; 3; 4])) in
  let m := snd (built (SimpleVector_init [1; 2; 3; 4])) in
  (forall x : Z, elt_eqb x x = true) /\
  vec_ok (heap m) v /\
  0 <= 2 < size_ v /\
  refers_outside (heap m) v (Outside 42) 42 /\
  (size_ v = capacity_ v -> 2 * capacity_ v <= max_array_len) /\
  (exists it ve me,
     Erase (Ptr (ArrayPtr.raw_ptr_ (items_ v)) 2) v m = Ok (it, ve, me) /\
     contents (heap me) ve = [1; 2; 4] /\ slot (heap me) it = Some 4) /\
  (exists orig m0 it v1 m1 it2 v2 m2 m3,
     SimpleVector_copy v m = Ok (orig, m0) /\
     Insert (Ptr (ArrayPtr.raw_ptr_ (items_ v)) 2) (Outside 42) v m0 = Ok (it, v1, m1) /\
     Erase it v1 m1 = Ok (it2, v2, m2) /\
     operator_eq v2 orig m2 = Ok (true, m3) /\
     contents (heap m2) v2 = [1; 2; 3; 4]).
Proof.
  intros v m.
  assert (Hrefl : forall x : Z, elt_eqb x x = true) by (intros x; apply Z.eqb_refl).
  assert (Hok : vec_ok (heap m) v) by concrete.
  assert (Hi : 0 <= 2 < size_ v) by concrete.
  assert (Hr : refers_outside (heap m) v (Outside 42) 42) by reflexivity.
  assert (Hmax : size_ v = capacity_ v -> 2 * capacity_ v <= max_array_len) by concrete.
  split_and!; try done.
  - destruct (Insert_Erase_roundtrip v m 2 (Outside 42) 42 Hrefl Hok Hi Hr Hmax) as
      ((it & ve & me & E & _ & _ & _ & _ & Hcont & Hnext) & _).
    exists it, ve, me. split_and!; [exact E|exact Hcont|].
    apply Hnext. reflexivity.
  - destruct (Insert_Erase_roundtrip v m 2 (Outside 42) 42 Hrefl Hok Hi Hr Hmax) as
      (_ & orig & m0 & it & v1 & m1 & it2 & v2 & m2 & m3 & E0 & E1 & E2 & E3 & _ & _ & Hcont).
    exists orig, m0, it, v1, m1, it2, v2, m2, m3. split_and!; try assumption.
Defined.

(** [v.Erase(v.Insert(v.begin(), v[1]))] on the full vector [{1, 2}]:
    [v[1]] holds 2 at the call, and [Insert] reads it in the array [Reserve]
    has deleted. *)
Lemma Insert_own_element_dangles_witness :
  let v := fst (built (SimpleVector_init [1; 2])) in
  let m := snd (built (SimpleVector_init [1; 2])) in
  vec_ok (heap m) v /\
  size_ v = capacity_ v /\
  2 * capacity_ v <= max_array_len /\
  0 <= 0 < size_ v /\ 0 <= 1 < size_ v /\
  value (read (InArray (Ptr (ArrayPtr.raw_ptr_ (items_ v)) 1)) m) = Some 2 /\
  Insert (Ptr (ArrayPtr.raw_ptr_ (items_ v)) 0)
         (InArray (Ptr (ArrayPtr.raw_ptr_ (items_ v)) 1)) v m
    = Fail undefined_behaviour /\
  (r <- Insert (Ptr (ArrayPtr.raw_ptr_ (items_ v)) 0)
               (InArray (Ptr (ArrayPtr.raw_ptr_ (items_ v)) 1)) v ;;
   Erase (fst r) (snd r)) m
    = Fail undefined_behaviour.
Proof.
  intros v m.
  assert (Hok : vec_ok (heap m) v) by concrete.
  assert (Hs : size_ v = capacity_ v) by reflexivity.
  assert (Hmax : 2 * capacity_ v <= max_array_len) by concrete.
  assert (Hi : 0 <= 0 < size_ v) by concrete.
  assert (Hj : 0 <= 1 < size_ v) by concrete.
  refine (conj Hok (conj Hs (conj Hmax (conj Hi (conj Hj (conj eq_refl _)))))).
  destruct (Insert_own_element_dangles v m 0 1 Hok Hs Hmax Hi Hj) as (_ & E1 & _ & E2).
  exact (conj E1 E2).
Defined.

(** Two vectors [{1, 2, 3}] in one memory compare equal in both directions,
    and neither is less than the other. *)
Lemma equality_contract_witness :
  let a := fst (fst (built_pair (SimpleVector_init [1; 2; 3]) (SimpleVector_init [1; 2; 3]))) in
  let b := snd (fst (built_pair (SimpleVector_init [1; 2; 3]) (SimpleVector_init [1; 2; 3]))) in
  let m := snd (built_pair (SimpleVector_init [1; 2; 3]) (SimpleVector_init [1; 2; 3])) in
  (forall x y : Z, elt_eqb x y = true <-> x = y) /\
  (forall x : Z, elt_ltb x x = false) /\
  vec_ok (heap m) a /\ vec_ok (heap m) b /\
  value (operator_eq a b m) = Some true /\
  value (operator_eq b a m) = Some true /\
  value (operator_lt a b m) = Some false /\
  value (operator_lt b a m) = Some false.
Proof.
  intros a b m.
  assert (Heq : forall x y : Z, elt_eqb x y = true <-> x = y) by (intros x y; apply Z.eqb_eq).
  assert (Hirr : forall x : Z, elt_ltb x x = false) by (intros x; apply Z.ltb_irrefl).
  assert (Ha : vec_ok (heap m) a) by concrete.
  assert (Hb : vec_ok (heap m) b) by concrete.
  destruct (equality_contract a b m Heq Hirr Ha Hb) as
    (eab & eba & lab & lba & Eab & Eba & _ & Elab & Elba & Hchar & _ & Hsym & Hord).
  assert (Ht : eab = true) by (apply Hchar; split; reflexivity).
  destruct (Hord Ht) as [Hl1 Hl2].
  rewrite Hsym, Ht in Eba. rewrite Ht in Eab. rewrite Hl1 in Elab. rewrite Hl2 in Elba.
  split_and!; assumption.
Defined.

(** C10 as stated fails: filling a vector of size 1 and capacity 8 up to its
    capacity takes the end of the range with [operator[]] at index 8, which is
    not below the capacity. *)
Lemma Resize_index_reaches_capacity :
  let v := fst (built (v <- SimpleVector_reserved (Reserve_proxy 8) ;; PushBack (Outside 5) v)) in
  let m := snd (built (v <- SimpleVector_reserved (Reserve_proxy 8) ;; PushBack (Outside 5) v)) in
  vec_ok (heap m) v /\
  size_ v < 8 <= capacity_ v /\
  ~ (forall e, e ∈ new_events (Resize 8 v) m -> off (event_ptr e) < capacity_ v).
Proof.
  intros v m. split_and!; try (by concrete).
  intros Hall.
  specialize (Hall (Indexed (Ptr (ArrayPtr.raw_ptr_ (items_ v)) 8))).
  assert (Hin : Indexed (Ptr (ArrayPtr.raw_ptr_ (items_ v)) 8) ∈ new_events (Resize 8 v) m).
  { apply list_elem_of_In. vm_compute. right. right. left. reflexivity. }
  specialize (Hall Hin). vm_compute in Hall. discriminate Hall.
Qed.

(** The same call on a vector of size 1 and capacity 8 filled up to 5. *)
Lemma Resize_fill_in_bounds_witness :
  let v := fst (built (v <- SimpleVector_reserved (Reserve_proxy 8) ;; PushBack (Outside 5) v)) in
  let m := snd (built (v <- SimpleVector_reserved (Reserve_proxy 8) ;; PushBack (Outside 5) v)) in
  vec_ok (heap m) v /\
  size_ v < 5 <= capacity_ v /\
  exists v' m',
    Resize 5 v m = Ok (v', m') /\
    (forall p, Accessed p ∈ new_events (Resize 5 v) m -> off p < capacity_ v).
Proof.
  intros v m.
  assert (Hok : vec_ok (heap m) v) by concrete.
  assert (Hn : size_ v < 5 <= capacity_ v) by concrete.
  split_and!; try done.
  destruct (Resize_fill_in_bounds v m 5 Hok Hn) as (v' & m' & E & Hacc & _).
  exists v', m'. split; [exact E|]. intros p Hp. apply (Hacc p Hp).
Defined.

(** The stray [&items_[6]] of the fill-in-place branch: on a vector of size 1
    and capacity 3, [Resize(2)] calls [operator[]] with index 6. *)
Example Resize_stray_index :
  let v := fst (built (v <- SimpleVector_reserved (Reserve_proxy 3) ;; PushBack (Outside 5) v)) in
  let m := snd (built (v <- SimpleVector_reserved (Reserve_proxy 3) ;; PushBack (Outside 5) v)) in
  capacity_ v = 3 /\
  new_events (Resize 2 v) m =
    [Indexed (Ptr (Some 1%positive) 6); Indexed (Ptr (Some 1%positive) 1);
     Indexed (Ptr (Some 1%positive) 2); Accessed (Ptr (Some 1%positive) 1)].
Proof. split; reflexivity. Qed.

(** C6 as stated fails: after [a = std::move(b)] with [a] of capacity 2 and
    [b] of capacity 1, the moved-from [b] has capacity 0 and owns the array
    of two slots that [a] had. *)
Lemma moved_from_keeps_buffer :
  let p := [NewSized 0%nat 2; NewSized 1%nat 1; MoveAssign 0%nat 1%nat] in
  reachable (ran p) /\
  vecs (ran p) !! 1%nat = Some (MkVec 0 0 (ArrayPtr.Make (Some 1%positive))) /\
  heap (mem (ran p)) !! 1%positive = Some [0; 0] /\
  ~ spec_invariant (ran p).
Proof.
  intros p. split_and!.
  - exists p. split; [|reflexivity].
    repeat constructor; unfold is_size_t, size_t_modulus; lia.
  - reflexivity.
  - reflexivity.
  - intros Hinv.
    destruct (Hinv 1%nat (MkVec 0 0 (ArrayPtr.Make (Some 1%positive))) eq_refl) as [_ Hlen].
    vm_compute in Hlen. discriminate Hlen.
Qed.

(** The same program, with a call of [At] that throws and is caught before
    the move, keeps the invariant of the code. *)
Lemma reachable_world_ok_witness :
  let p := [NewSized 0%nat 2; NewSized 1%nat 1; CallAt 0%nat 5;
            MoveAssign 0%nat 1%nat] in
  reachable (ran p) /\
  exec (CallAt 0%nat 5) (ran [NewSized 0%nat 2; NewSized 1%nat 1])
    = Throw out_of_range (ran [NewSized 0%nat 2; NewSized 1%nat 1]) /\
  vecs (ran p) !! 1%nat = Some (MkVec 0 0 (ArrayPtr.Make (Some 1%positive))) /\
  world_ok (ran p).
Proof.
  intros p.
  assert (Hr : reachable (ran p)).
  { exists p. split; [|reflexivity].
    repeat constructor; unfold is_size_t, size_t_modulus; lia. }
  split_and!; [exact Hr|reflexivity|reflexivity|]. apply (reachable_world_ok (ran p) Hr).
Defined.

(** The failing input of C9 as a program: two default-constructed vectors,
    one copy-assigned to the other. *)
Example copy_assign_empty_program :
  run (T:=Z) [NewDefault 0%nat; NewDefault 1%nat; CopyAssign 0%nat 1%nat] empty_world
  = Fail assertion_failed.
Proof. reflexivity. Qed.

(** [Insert] accepts positions in [begin() .. end()) only: inserting at
    [end()], as the repository's test of insertion at the end does, stops at
    the assertion. *)
Example Insert_at_end_asserts :
  let v := fst (built (SimpleVector_init [1; 2; 3])) in
  let m := snd (built (SimpleVector_init [1; 2; 3])) in
  value (end_ v m) = Some (Ptr (ArrayPtr.raw_ptr_ (items_ v)) 3) /\
  Insert (Ptr (ArrayPtr.raw_ptr_ (items_ v)) 3) (Outside 4) v m = Fail assertion_failed.
Proof. split; reflexivity. Qed.

(** * The vector generator of the tests *)

Lemma yields_iota_steps (k : nat) : forall (m : Mem Z) h (l : loc) (cells : list Z)
    (o : nat) (value : Z),
  heap m = h -> h !! l = Some cells -> (o + k <= length cells)%nat ->
  value + Z.of_nat k <= INT_MAX ->
  yields (iota_steps k (Ptr (Some l) (Z.of_nat o)) value) m tt
         (<[l := take o cells ++ ((fun j => value + Z.of_nat j) <$> seq 0 k)
                 ++ drop (o + k) cells]> h).
Proof.
  induction k as [|k IH]; intros m h l cells o value Hh E Hk Hv.
  - cbn [iota_steps seq fmap list_fmap app]. rewrite Nat.add_0_r, take_drop, insert_id by done.
    by apply yields_ret.
  - cbn [iota_steps].
    eapply yields_bind; [apply (yields_store m h l cells o value Hh E); lia|]. intros m1 E1.
    eapply yields_bind.
    { destruct (Z.ltb_spec value INT_MAX); [|lia]. by apply yields_ret. }
    intros m2 E2. rewrite next_of_nat.
    eapply yields_heap_eq.
    { apply (IH m2 _ l (<[o := value]> cells) (S o) (value + 1) E2).
      - apply lookup_insert_eq.
      - rewrite length_insert. lia.
      - lia. }
    rewrite insert_insert_eq. f_equal.
    rewrite (take_S_r _ _ value) by (apply list_lookup_insert_eq; lia).
    rewrite take_insert_ge by lia.
    rewrite drop_insert_lt by lia.
    rewrite <- app_assoc. cbn [app seq fmap list_fmap]. rewrite Z.add_0_r.
    rewrite <- fmap_S_seq, <- list_fmap_compose. do 3 f_equal.
    + apply list_fmap_ext. intros i j _. cbn. lia.
    + by rewrite Nat.add_succ_r.
Qed.

(** [GenerateVector(size)] for a size below the largest [int] returns the
    vector [1, 2, ..., size], with capacity [size]. *)
Theorem GenerateVector_contract (m : Mem Z) (size : Z) :
  0 <= size < INT_MAX ->
  exists v m',
    GenerateVector size m = Ok (v, m') /\
    vec_ok (heap m') v /\
    size_ v = size /\ capacity_ v = size /\
    contents (heap m') v = (fun j => 1 + Z.of_nat j) <$> seq 0 (Z.to_nat size) /\
    (forall i, 0 <= i < size -> contents (heap m') v !! Z.to_nat i = Some (i + 1)).
Proof.
  intros Hn.
  assert (Hmax : 0 <= size <= max_array_len) by (unfold INT_MAX, max_array_len in *; lia).
  destruct (SimpleVector_sized_spec (heap m) size Hmax) as
    (v & h1 & Hy & Hev & Hs & Hc & Hcont).
  pose proof (evolves_ok _ _ _ _ Hev) as Hok.
  assert (Hrun : exists h2,
            yields (GenerateVector size) m v h2 /\ vec_ok h2 v /\
            contents h2 v = (fun j => 1 + Z.of_nat j) <$> seq 0 (Z.to_nat size)).
  { destruct (vec_range h1 v Hok) as [[Hz _]|(l & Er & El & Hlen)].
    - exists h1. split_and!; [|done|].
      + unfold GenerateVector.
        eapply yields_bind; [by apply Hy|]. intros m1 E1.
        eapply yields_bind; [by apply yields_index|]. intros m2 E2.
        eapply yields_bind; [by apply yields_index|]. intros m3 E3.
        eapply yields_bind.
        { unfold std_iota.
          eapply yields_bind; [apply (yields_range_steps _ _ _ _ _ E3); lia|].
          intros m4 E4. rewrite Hz. cbn. by apply yields_ret. }
        intros m5 E5. by apply yields_ret.
      + rewrite Hcont, <- Hs, Hz. done.
    - set (cells := block h1 (items_ v)) in *.
      set (cells' := take 0 cells ++ ((fun j => 1 + Z.of_nat j) <$> seq 0 (Z.to_nat size))
                     ++ drop (0 + Z.to_nat size) cells).
      assert (Hlen' : length cells' = length cells).
      { unfold cells'. rewrite !length_app, length_take, length_fmap, length_seq, length_drop.
        lia. }
      exists (<[l := cells']> h1). split_and!.
      + unfold GenerateVector.
        eapply yields_bind; [by apply Hy|]. intros m1 E1.
        eapply yields_bind; [by apply yields_index|]. intros m2 E2.
        eapply yields_bind; [by apply yields_index|]. intros m3 E3.
        eapply yields_bind.
        { unfold std_iota.
          eapply yields_bind; [apply (yields_range_steps _ _ _ _ _ E3); lia|].
          intros m4 E4. rewrite Er, Hs, Z.sub_0_r.
          apply (yields_iota_steps _ m4 h1 l cells 0 1 E4 El); lia. }
        intros m5 E5. by apply yields_ret.
      + pose proof Hok as (H0 & H1 & _).
        pose proof (evolves_in_place h1 v l cells cells' (size_ v) Hok Er El Hlen') as Hev'.
        rewrite vec_eta in Hev'. apply (evolves_ok h1 v). apply Hev'. lia.
      + unfold contents. rewrite (block_live _ _ l cells' Er) by apply lookup_insert_eq.
        unfold cells'. rewrite take_0, app_nil_l, Hs.
        rewrite take_app_length'; [done|]. by rewrite length_fmap, length_seq. }
  destruct Hrun as (h2 & (m' & E & <-) & Hok2 & Hcont2).
  exists v, m'. split_and!; try done.
  intros i Hi. rewrite Hcont2, list_lookup_fmap, lookup_seq_lt by lia. cbn. f_equal. lia.
Qed.

(** * Concrete runs of the further properties *)

(** Slots 1 and 2 of the array of [{1, 2, 3, 4}] filled with [int()]. *)
Lemma FillByMove_contract_witness :
  let m := snd (built (SimpleVector_init [1; 2; 3; 4])) in
  heap m !! 1%positive = Some [1; 2; 3; 4] /\
  0 <= 1 <= 3 /\
  3 <= Z.of_nat (length [1; 2; 3; 4]) /\
  exists m',
    FillByMove (Ptr (Some 1%positive) 1) (Ptr (Some 1%positive) 3) m = Ok (tt, m') /\
    heap m' !! 1%positive = Some [1; 0; 0; 4].
Proof.
  intros m.
  assert (E : heap m !! 1%positive = Some [1; 2; 3; 4]) by reflexivity.
  assert (Hab : 0 <= 1 <= 3) by lia.
  assert (Hb : 3 <= Z.of_nat (length [1; 2; 3; 4])) by (cbn; lia).
  destruct (FillByMove_contract m 1%positive [1; 2; 3; 4] 1 3 E Hab Hb) as (m' & Em & Hh).
  split_and!; try assumption; try lia.
  exists m'. split; [exact Em|]. rewrite Hh. by rewrite lookup_insert_eq.
Defined.

(** [SimpleVector<int> v{1, 2, 3}] built in the empty memory. *)
Lemma SimpleVector_init_contract_witness :
  Z.of_nat (length [1; 2; 3]) <= max_array_len /\
  exists v m',
    SimpleVector_init [1; 2; 3] empty_mem = Ok (v, m') /\
    size_ v = 3 /\ capacity_ v = 3 /\ contents (heap m') v = [1; 2; 3].
Proof.
  assert (Hn : Z.of_nat (length [1; 2; 3]) <= max_array_len) by concrete.
  destruct (SimpleVector_init_contract empty_mem [1; 2; 3] Hn) as
    (v & m' & E & _ & Hs & Hc & Hcont & _).
  split; [exact Hn|]. exists v, m'. split_and!; assumption.
Defined.

(** A copy of [{1, 2, 3}] after a [Reserve(8)]: the copy has capacity 3. *)
Lemma SimpleVector_copy_contract_witness :
  let other := fst (built (v <- SimpleVector_init [1; 2; 3] ;; Reserve 8 v)) in
  let m := snd (built (v <- SimpleVector_init [1; 2; 3] ;; Reserve 8 v)) in
  vec_ok (heap m) other /\
  capacity_ other = 8 /\
  exists v m',
    SimpleVector_copy other m = Ok (v, m') /\
    size_ v = 3 /\ capacity_ v = 3 /\
    contents (heap m') v = [1; 2; 3] /\
    contents (heap m') other = [1; 2; 3] /\
    items_ v <> items_ other.
Proof.
  intros other m.
  assert (Hok : vec_ok (heap m) other) by concrete.
  destruct (SimpleVector_copy_contract m other Hok) as
    (v & m' & E & _ & Hs & Hc & Hcont & _ & Hcont' & Hne & _).
  split_and!; [exact Hok|reflexivity|].
  exists v, m'. split_and!; try assumption.
  intros Hi. destruct (ArrayPtr.raw_ptr_ (items_ v)) as [l|] eqn:El.
  - destruct (Hne l eq_refl) as [Hno _]. apply Hno. by rewrite <- Hi.
  - rewrite Hi in El. vm_compute in El. discriminate El.
Defined.

(** The assignment of the tests: [{1, 2, 3, 4, 5, 6} = {1, 2, 3, 4}]. *)
Lemma copy_assign_contract_witness :
  let this := snd (fst (built_pair (SimpleVector_init [1; 2; 3; 4])
                                   (SimpleVector_init [1; 2; 3; 4; 5; 6]))) in
  let rhs := fst (fst (built_pair (SimpleVector_init [1; 2; 3; 4])
                                  (SimpleVector_init [1; 2; 3; 4; 5; 6]))) in
  let m := snd (built_pair (SimpleVector_init [1; 2; 3; 4])
                           (SimpleVector_init [1; 2; 3; 4; 5; 6])) in
  vec_ok (heap m) this /\ vec_ok (heap m) rhs /\
  copy_assign this this m = Fail assertion_failed /\
  exists v m',
    copy_assign this rhs m = Ok (v, m') /\
    size_ v = 4 /\ capacity_ v = 4 /\
    contents (heap m') v = [1; 2; 3; 4] /\
    heap m' !! 2%positive = None.
Proof.
  intros this rhs m.
  assert (Hthis : vec_ok (heap m) this) by concrete.
  assert (Hrhs : vec_ok (heap m) rhs) by concrete.
  destruct (copy_assign_contract m this this Hthis Hthis) as [Hself _].
  destruct (copy_assign_contract m this rhs Hthis Hrhs) as [_ Hcopy].
  destruct Hcopy as (v & m' & E & _ & Hs & Hc & Hcont & _ & _ & _ & Hfree);
    [by vm_compute|].
  split_and!; [exact Hthis|exact Hrhs|by apply Hself|].
  exists v, m'. split_and!; try assumption. by apply Hfree.
Defined.

(** The run of the tests: [Reserve(5)] on an empty vector, then
    [Reserve(1)], which changes nothing. *)
Lemma Reserve_contract_witness :
  vec_ok (heap (empty_mem (T:=Z))) SimpleVector_default /\
  0 <= 5 /\
  exists v' m',
    Reserve 5 SimpleVector_default empty_mem = Ok (v', m') /\
    size_ v' = 0 /\ capacity_ v' = 5 /\
    block (heap m') (items_ v') = [0; 0; 0; 0; 0] /\
    Reserve 1 v' m' = Ok (v', m').
Proof.
  assert (Hok : vec_ok (heap (empty_mem (T:=Z))) SimpleVector_default) by concrete.
  assert (H5 : 0 <= 5) by lia.
  destruct (Reserve_contract SimpleVector_default empty_mem 5 Hok H5) as (_ & _ & Hgrow).
  destruct Hgrow as (v' & m' & E & Hok' & Hs & Hc & _ & Hb & _); [by vm_compute|].
  assert (H1 : 0 <= 1) by lia.
  destruct (Reserve_contract v' m' 1 Hok' H1) as (Hkeep & _).
  split_and!; [exact Hok|exact H5|].
  exists v', m'. split_and!; try assumption.
  apply Hkeep. rewrite Hc. by vm_compute.
Defined.

(** The run of the tests: [PopBack()] on [{0, 1, 2, 3}] leaves
    [{0, 1, 2}] and capacity 4. *)
Lemma PopBack_contract_witness :
  let v := fst (built (SimpleVector_init [0; 1; 2; 3])) in
  let m := snd (built (SimpleVector_init [0; 1; 2; 3])) in
  vec_ok (heap m) v /\
  size_ (PopBack v) = 3 /\ capacity_ (PopBack v) = 4 /\
  items_ (PopBack v) = items_ v /\
  contents (heap m) (PopBack v) ++ [3] = [0; 1; 2; 3].
Proof.
  intros v m.
  assert (Hok : vec_ok (heap m) v) by concrete.
  destruct (PopBack_contract v (heap m) Hok) as (_ & Hc & Hi & _ & Hpop).
  destruct Hpop as (Hs & Hcont & _); [by vm_compute|].
  split_and!; [exact Hok|by rewrite Hs|by rewrite Hc|exact Hi|].
  symmetry. exact Hcont.
Defined.

(** [PushBack(42)] on the full vector [{1, 2, 3}], then [PopBack()]. *)
Lemma PushBack_PopBack_roundtrip_witness :
  let v := fst (built (SimpleVector_init [1; 2; 3])) in
  let m := snd (built (SimpleVector_init [1; 2; 3])) in
  vec_ok (heap m) v /\
  refers_outside (heap m) v (Outside 42) 42 /\
  (size_ v = capacity_ v -> 2 * capacity_ v <= max_array_len) /\
  exists v' m',
    PushBack (Outside 42) v m = Ok (v', m') /\
    size_ (PopBack v') = 3 /\
    contents (heap m') (PopBack v') = [1; 2; 3].
Proof.
  intros v m.
  assert (Hok : vec_ok (heap m) v) by concrete.
  assert (Hr : refers_outside (heap m) v (Outside 42) 42) by reflexivity.
  assert (Hmax : size_ v = capacity_ v -> 2 * capacity_ v <= max_array_len) by concrete.
  destruct (PushBack_PopBack_roundtrip v m (Outside 42) 42 Hok Hr Hmax) as
    (v' & m' & E & Hs & _ & Hcont).
  split_and!; [exact Hok|exact Hr|exact Hmax|].
  exists v', m'. split_and!; assumption.
Defined.

(** The run of the tests: a vector of 8 elements with [v[3] = 42], resized
    to 3 and then to 5, has [0] at index 3. *)
Lemma Resize_shrink_then_grow_witness :
  let v := fst (built (SimpleVector_init [1; 2; 3; 42; 5; 6; 7; 8])) in
  let m := snd (built (SimpleVector_init [1; 2; 3; 42; 5; 6; 7; 8])) in
  vec_ok (heap m) v /\ 0 <= 3 <= size_ v /\ 3 <= 5 <= capacity_ v /\
  exists v1 m1 v2 m2,
    Resize 3 v m = Ok (v1, m1) /\
    Resize 5 v1 m1 = Ok (v2, m2) /\
    contents (heap m2) v2 = [1; 2; 3; 0; 0].
Proof.
  intros v m.
  assert (Hok : vec_ok (heap m) v) by concrete.
  assert (Hk : 0 <= 3 <= size_ v) by concrete.
  assert (Hn : 3 <= 5 <= capacity_ v) by concrete.
  destruct (Resize_shrink_then_grow v m 3 5 Hok Hk Hn) as
    (v1 & m1 & v2 & m2 & E1 & E2 & _ & _ & _ & Hcont).
  split_and!; try assumption; try (by apply Hk); try (by apply Hn).
  exists v1, m1, v2, m2. split_and!; assumption.
Defined.

(** On [{1, 2, 3}]: [v[3]] fails the assertion, [At(3)] throws, and
    [v[1]] reads 2. *)
Lemma read_at_contract_witness :
  let v := fst (built (SimpleVector_init [1; 2; 3])) in
  let m := snd (built (SimpleVector_init [1; 2; 3])) in
  vec_ok (heap m) v /\ 0 <= 1 /\ 0 <= 3 /\
  index_op 3 v m = Fail assertion_failed /\
  At 3 v m = Throw out_of_range (MkThrown m (Some v)) /\
  exists m', read_at 1 v m = Ok (2, m') /\ heap m' = heap m.
Proof.
  intros v m.
  assert (Hok : vec_ok (heap m) v) by concrete.
  assert (H1 : 0 <= 1) by lia.
  assert (H3 : 0 <= 3) by lia.
  destruct (read_at_contract v m 3 Hok H3) as [Hout _].
  destruct Hout as (Ei & _ & Ea); [by vm_compute|].
  destruct (read_at_contract v m 1 Hok H1) as [_ Hin].
  destruct Hin as (x & m' & Ex & Er & Hh); [by vm_compute|].
  assert (x = 2) as -> by (vm_compute in Ex; congruence).
  split_and!; try assumption. by exists m'.
Defined.

(** The run of the tests: [v[2] = 17] on a vector of three zeros. *)
Lemma assign_at_read_at_witness :
  let v := fst (built (SimpleVector_sized 3)) in
  let m := snd (built (SimpleVector_sized 3)) in
  vec_ok (heap m) v /\ 0 <= 2 < size_ v /\
  exists m' m'',
    assign_at 2 17 v m = Ok (tt, m') /\
    contents (heap m') v = [0; 0; 17] /\
    read_at 2 v m' = Ok (17, m'').
Proof.
  intros v m.
  assert (Hok : vec_ok (heap m) v) by concrete.
  assert (Hi : 0 <= 2 < size_ v) by concrete.
  destruct (assign_at_read_at v m 2 17 Hok Hi) as (m' & m'' & E & _ & Hcont & _ & Er & _).
  split_and!; try assumption; try (by apply Hi).
  exists m', m''. split_and!; assumption.
Defined.

(** The run of the tests: after [Reserve(5)], ten values pushed onto the
    vector. *)
Lemma PushBack_each_contract_witness :
  let v := fst (built (Reserve 5 SimpleVector_default)) in
  let m := snd (built (Reserve 5 SimpleVector_default)) in
  let values := [0; 1; 2; 3; 4; 5; 6; 7; 8; 9] in
  vec_ok (heap m) v /\
  (capacity_ v < size_ v + Z.of_nat (length values) ->
   2 * (size_ v + Z.of_nat (length values)) <= max_array_len) /\
  exists v' m',
    PushBack_each values v m = Ok (v', m') /\
    size_ v' = 10 /\ contents (heap m') v' = values /\ 5 <= capacity_ v'.
Proof.
  intros v m values.
  assert (Hok : vec_ok (heap m) v) by concrete.
  assert (Hmax : capacity_ v < size_ v + Z.of_nat (length values) ->
                 2 * (size_ v + Z.of_nat (length values)) <= max_array_len) by concrete.
  destruct (PushBack_each_contract v m values Hok Hmax) as
    (v' & m' & E & _ & Hs & Hcont & Hc & _).
  split_and!; [exact Hok|exact Hmax|].
  exists v', m'. split_and!; assumption.
Defined.

(** The run of the tests: five values pushed onto a default-constructed
    vector; the capacity ends at 8. *)
Lemma PushBack_each_from_empty_witness :
  [0; 1; 2; 3; 4] <> [] /\
  2 * Z.of_nat (length [0; 1; 2; 3; 4]) <= max_array_len /\
  exists v' m',
    PushBack_each [0; 1; 2; 3; 4] SimpleVector_default empty_mem = Ok (v', m') /\
    contents (heap m') v' = [0; 1; 2; 3; 4] /\
    size_ v' = 5 /\ capacity_ v' = 8.
Proof.
  assert (Hne : [0; 1; 2; 3; 4] <> []) by discriminate.
  assert (Hmax : 2 * Z.of_nat (length [0; 1; 2; 3; 4]) <= max_array_len) by concrete.
  destruct (PushBack_each_from_empty empty_mem [0; 1; 2; 3; 4] Hne Hmax) as
    (v' & m' & k & E & Hcont & Hs & Hk & Hc & Hb).
  split_and!; [exact Hne|exact Hmax|].
  exists v', m'. split_and!; try assumption.
  vm_compute in E. injection E as <- _. reflexivity.
Defined.

(** The run of the tests: [SimpleVector<int> v(Reserve(5))], filled with
    five values. *)
Lemma SimpleVector_reserved_contract_witness :
  0 <= 5 <= max_array_len /\
  exists v m' v2 m2,
    SimpleVector_reserved (Reserve_proxy 5) empty_mem = Ok (v, m') /\
    capacity_ v = 5 /\ IsEmpty v = true /\
    PushBack_each [1; 2; 3; 4; 5] v m' = Ok (v2, m2) /\
    items_ v2 = items_ v /\ capacity_ v2 = 5 /\
    contents (heap m2) v2 = [1; 2; 3; 4; 5].
Proof.
  assert (Hn : 0 <= 5 <= max_array_len) by concrete.
  destruct (SimpleVector_reserved_contract empty_mem 5 Hn) as
    (v & m' & E & _ & _ & Hc & He & _ & _ & _ & Hpush).
  destruct (Hpush [1; 2; 3; 4; 5]) as (v2 & m2 & E2 & Hi & Hc2 & Hcont); [by vm_compute|].
  split; [exact Hn|]. exists v, m', v2, m2. split_and!; assumption.
Defined.

(** On the full vector [{1, 2, 3}]: [Resize(7)] and [PushBack] raise the
    capacity, [Erase] keeps it. *)
Lemma capacity_never_shrinks_witness :
  let v := fst (built (SimpleVector_init [1; 2; 3])) in
  let m := snd (built (SimpleVector_init [1; 2; 3])) in
  vec_ok (heap m) v /\ 0 <= 7 /\
  exists v1 m1 v2 m2 r m3,
    Resize 7 v m = Ok (v1, m1) /\ capacity_ v <= capacity_ v1 /\
    PushBack (Outside 9) v m = Ok (v2, m2) /\ capacity_ v <= capacity_ v2 /\
    Erase (Ptr (ArrayPtr.raw_ptr_ (items_ v)) 0) v m = Ok (r, m3) /\
    capacity_ (snd r) = capacity_ v.
Proof.
  intros v m.
  assert (Hok : vec_ok (heap m) v) by concrete.
  assert (H7 : 0 <= 7) by lia.
  destruct (capacity_never_shrinks v m 7 (Outside 9) (Ptr (ArrayPtr.raw_ptr_ (items_ v)) 0) Hok H7)
    as (_ & HResize & _ & _ & HErase & HPush & _).
  split_and!; [exact Hok|exact H7|].
  destruct (Resize 7 v m) as [[v1 m1]| |] eqn:E1; [|by vm_compute in E1..].
  destruct (PushBack (Outside 9) v m) as [[v2 m2]| |] eqn:E2; [|by vm_compute in E2..].
  destruct (Erase (Ptr (ArrayPtr.raw_ptr_ (items_ v)) 0) v m) as [[r m3]| |] eqn:E3;
    [|by vm_compute in E3..].
  exists v1, m1, v2, m2, r, m3. split_and!; try reflexivity.
  - by apply (HResize v1 m1).
  - by apply (HPush v2 m2).
  - by apply (HErase r m3).
Defined.

(** The comparisons of the tests on [{1, 2, 3}] and [{1, 2, 4}]. *)
Lemma comparison_operators_witness :
  let a := fst (fst (built_pair (SimpleVector_init [1; 2; 3]) (SimpleVector_init [1; 2; 4]))) in
  let b := snd (fst (built_pair (SimpleVector_init [1; 2; 3]) (SimpleVector_init [1; 2; 4]))) in
  let m := snd (built_pair (SimpleVector_init [1; 2; 3]) (SimpleVector_init [1; 2; 4])) in
  vec_ok (heap m) a /\ vec_ok (heap m) b /\
  value (operator_eq a b m) = Some false /\
  value (operator_ne a b m) = Some true /\
  value (operator_lt a b m) = Some true /\
  value (operator_le a b m) = Some true /\
  value (operator_gt a b m) = Some false /\
  value (operator_ge a b m) = Some false.
Proof.
  intros a b m.
  assert (Ha : vec_ok (heap m) a) by concrete.
  assert (Hb : vec_ok (heap m) b) by concrete.
  destruct (comparison_operators a b m Ha Hb) as
    (eq & lt & Eeq & Elt & Hlt & Ene & Ele & Egt & Ege & _).
  assert (eq = false) as -> by (vm_compute in Eeq; congruence).
  assert (lt = true) as -> by (rewrite Hlt; reflexivity).
  split_and!; assumption.
Defined.

(** Over [int]: [{1, 2, 3} < {1, 2, 4} < {1, 3}], hence
    [{1, 2, 3} < {1, 3}]; and [{1, 2, 4} > {1, 2, 3}]. *)
Lemma operators_total_order_witness :
  let a := fst (fst (built_pair (SimpleVector_init [1; 2; 3]) (SimpleVector_init [1; 2; 4]))) in
  let b := snd (fst (built_pair (SimpleVector_init [1; 2; 3]) (SimpleVector_init [1; 2; 4]))) in
  let m0 := snd (built_pair (SimpleVector_init [1; 2; 3]) (SimpleVector_init [1; 2; 4])) in
  let c := match SimpleVector_init [1; 3] m0 with
           | Ok (c, _) => c | _ => SimpleVector_default end in
  let m := match SimpleVector_init [1; 3] m0 with
           | Ok (_, m) => m | _ => m0 end in
  (forall x y : Z, elt_eqb x y = true <-> x = y) /\
  (forall x : Z, elt_ltb x x = false) /\
  (forall x y z : Z, elt_ltb x y = true -> elt_ltb y z = true -> elt_ltb x z = true) /\
  (forall x y : Z, elt_ltb x y = false -> elt_ltb y x = false -> x = y) /\
  vec_ok (heap m) a /\ vec_ok (heap m) b /\ vec_ok (heap m) c /\
  value (operator_lt a c m) = Some true /\
  value (operator_gt b a m) = Some true /\
  value (operator_ge b a m) = Some true.
Proof.
  intros a b m0 c m.
  assert (Heq : forall x y : Z, elt_eqb x y = true <-> x = y) by (intros x y; apply Z.eqb_eq).
  assert (Hirr : forall x : Z, elt_ltb x x = false) by (intros x; apply Z.ltb_irrefl).
  assert (Htr : forall x y z : Z,
            elt_ltb x y = true -> elt_ltb y z = true -> elt_ltb x z = true).
  { intros x y z. cbn. rewrite !Z.ltb_lt. lia. }
  assert (Hcx : forall x y : Z, elt_ltb x y = false -> elt_ltb y x = false -> x = y).
  { intros x y. cbn. rewrite !Z.ltb_ge. lia. }
  assert (Ha : vec_ok (heap m) a) by concrete.
  assert (Hb : vec_ok (heap m) b) by concrete.
  assert (Hc : vec_ok (heap m) c) by concrete.
  destruct (operators_total_order Heq Hirr Htr Hcx a b c m Ha Hb Hc) as (Htrans & _).
  destruct (operators_total_order Heq Hirr Htr Hcx b a a m Hb Ha Ha) as
    (_ & _ & _ & Hgt & Hge).
  split_and!; [exact Heq|exact Hirr|exact Htr|exact Hcx|exact Ha|exact Hb|exact Hc|..].
  - apply Htrans; reflexivity.
  - rewrite Hgt. reflexivity.
  - rewrite Hge. reflexivity.
Defined.

(** The run of the tests with small vectors: [{1, 2, 3}] moved into a new
    vector. *)
Lemma move_construct_contract_witness :
  let w := ran [NewInit 0%nat [1; 2; 3]] in
  vecs w !! 1%nat = None /\
  vecs w !! 0%nat = Some (MkVec 3 3 (ArrayPtr.Make (Some 1%positive))) /\
  exists w' vx,
    move_construct 1%nat 0%nat w = Ok w' /\
    vecs w' !! 1%nat = Some vx /\
    contents (heap (mem w')) vx = [1; 2; 3] /\
    vecs w' !! 0%nat = Some (MkVec 0 0 (ArrayPtr.Make None)).
Proof.
  intros w.
  assert (Ex : vecs w !! 1%nat = None) by reflexivity.
  assert (Eo : vecs w !! 0%nat = Some (MkVec 3 3 (ArrayPtr.Make (Some 1%positive))))
    by reflexivity.
  destruct (move_construct_contract w 1%nat 0%nat _ Ex Eo) as
    (w' & vx & vo & E & _ & Evx & Evo & _ & _ & _ & Hcont & Hs & Hc & Hr & _).
  split_and!; [exact Ex|exact Eo|].
  exists w', vx. split_and!; [exact E|exact Evx|exact Hcont|].
  refine (eq_trans Evo _). destruct vo as [s c [r]]. cbn in Hs, Hc, Hr. by subst.
Defined.

(** [{1, 2} = std::move({7, 8, 9})]: the source is left with size 0 and
    capacity 0 and holds the array of [{1, 2}]. *)
Lemma move_assign_contract_witness :
  let w := ran [NewInit 0%nat [1; 2]; NewInit 1%nat [7; 8; 9]] in
  0%nat <> 1%nat /\
  vecs w !! 0%nat = Some (MkVec 2 2 (ArrayPtr.Make (Some 1%positive))) /\
  vecs w !! 1%nat = Some (MkVec 3 3 (ArrayPtr.Make (Some 2%positive))) /\
  exists w' vx,
    move_assign 0%nat 1%nat w = Ok w' /\
    vecs w' !! 0%nat = Some vx /\
    contents (heap (mem w')) vx = [7; 8; 9] /\
    vecs w' !! 1%nat = Some (MkVec 0 0 (ArrayPtr.Make (Some 1%positive))) /\
    heap (mem w') !! 1%positive = Some [1; 2].
Proof.
  intros w.
  assert (Hne : 0%nat <> 1%nat) by discriminate.
  assert (Ea : vecs w !! 0%nat = Some (MkVec 2 2 (ArrayPtr.Make (Some 1%positive))))
    by reflexivity.
  assert (Eb : vecs w !! 1%nat = Some (MkVec 3 3 (ArrayPtr.Make (Some 2%positive))))
    by reflexivity.
  destruct (move_assign_contract w 0%nat 1%nat _ _ Hne Ea Eb) as
    (w' & vx & vo & E & Hm & Evx & Evo & _ & _ & _ & Hcont & Hs & Hc & Hr & _).
  split_and!; [exact Hne|exact Ea|exact Eb|].
  exists w', vx. split_and!; [exact E|exact Evx|exact Hcont| |].
  - refine (eq_trans Evo _). destruct vo as [s c [r]]. cbn in Hs, Hc, Hr. by subst.
  - rewrite Hm. reflexivity.
Defined.

(** [v = std::move(v)] on [{1, 2, 3}]. *)
Lemma self_move_assign_empties_witness :
  let w := ran [NewInit 0%nat [1; 2; 3]] in
  vecs w !! 0%nat = Some (MkVec 3 3 (ArrayPtr.Make (Some 1%positive))) /\
  exists w',
    move_assign 0%nat 0%nat w = Ok w' /\
    vecs w' !! 0%nat = Some (MkVec 0 0 (ArrayPtr.Make (Some 1%positive))) /\
    heap (mem w') !! 1%positive = Some [1; 2; 3].
Proof.
  intros w.
  assert (Ea : vecs w !! 0%nat = Some (MkVec 3 3 (ArrayPtr.Make (Some 1%positive))))
    by reflexivity.
  destruct (self_move_assign_empties w 0%nat _ Ea) as
    (w' & vx & E & Hm & Evx & Hs & Hc & Hr & _).
  split; [exact Ea|]. exists w'. split_and!; [exact E| |].
  - refine (eq_trans Evx _). destruct vx as [s c [r]]. cbn in Hs, Hc, Hr. by subst.
  - rewrite Hm. reflexivity.
Defined.

(** The run of the tests: [{42, 666}] swapped with [{0, 1, 2}], which has
    capacity 4. *)
Lemma swap_contract_witness :
  let w := ran [NewInit 0%nat [42; 666]; NewDefault 1%nat; CallPushBack 1%nat (Outside 0);
                CallPushBack 1%nat (Outside 1); CallPushBack 1%nat (Outside 2)] in
  vecs w !! 0%nat = Some (MkVec 2 2 (ArrayPtr.Make (Some 1%positive))) /\
  vecs w !! 1%nat = Some (MkVec 3 4 (ArrayPtr.Make (Some 4%positive))) /\
  exists w',
    swap 0%nat 1%nat w = Ok w' /\
    vecs w' !! 0%nat = Some (MkVec 3 4 (ArrayPtr.Make (Some 4%positive))) /\
    vecs w' !! 1%nat = Some (MkVec 2 2 (ArrayPtr.Make (Some 1%positive))) /\
    swap 0%nat 1%nat w' = Ok w.
Proof.
  intros w.
  assert (Ea : vecs w !! 0%nat = Some (MkVec 2 2 (ArrayPtr.Make (Some 1%positive))))
    by reflexivity.
  assert (Eb : vecs w !! 1%nat = Some (MkVec 3 4 (ArrayPtr.Make (Some 4%positive))))
    by reflexivity.
  destruct (swap_contract w 0%nat 1%nat _ _ Ea Eb) as (w' & E & _ & Ex & Er & _ & Eback).
  split_and!; [exact Ea|exact Eb|].
  exists w'. split_and!; assumption.
Defined.

(** A program that copies, assigns, moves, grows and destroys vectors: the
    one array that is live at the end belongs to the one vector left. *)
Lemma reachable_no_leak_witness :
  let p := [NewInit 0%nat [1; 2; 3]; NewCopy 1%nat 0%nat; CallPushBack 0%nat (Outside 4);
            NewSized 2%nat 5; CopyAssign 2%nat 0%nat; MoveAssign 1%nat 2%nat;
            CallResize 0%nat 20; Destroy 2%nat; Destroy 0%nat] in
  reachable (ran p) /\
  (forall l, heap (mem (ran p)) !! l <> None ->
     exists x v, vecs (ran p) !! x = Some v /\ ArrayPtr.raw_ptr_ (items_ v) = Some l) /\
  dom (vecs (ran p)) = {[1%nat]} /\
  size (dom (heap (mem (ran p)))) = 1%nat.
Proof.
  intros p.
  assert (Hr : reachable (ran p)).
  { exists p. split; [|reflexivity].
    repeat constructor; concrete. }
  split_and!; [exact Hr| | |].
  - intros l Hl. by apply (reachable_no_leak (ran p) Hr l).
  - by vm_compute.
  - by vm_compute.
Defined.

(** Every constructor run in the empty memory and followed by the
    destructor leaves the heap empty. *)
Lemma construct_destroy_roundtrip_witness :
  let other := fst (built (SimpleVector_init [7; 8])) in
  let m := snd (built (SimpleVector_init [7; 8])) in
  0 <= 3 /\ Z.of_nat (length [1; 2]) <= max_array_len /\ vec_ok (heap m) other /\
  exists v1 m1 v2 m2 m1' m2',
    SimpleVector_filled 3 9 m = Ok (v1, m1) /\
    SimpleVector_dtor v1 m1 = Ok (tt, m1') /\ heap m1' = heap m /\
    SimpleVector_copy other m = Ok (v2, m2) /\
    SimpleVector_dtor v2 m2 = Ok (tt, m2') /\ heap m2' = heap m.
Proof.
  intros other m.
  assert (H3 : 0 <= 3) by lia.
  assert (Hinit : Z.of_nat (length [1; 2]) <= max_array_len) by concrete.
  assert (Hok : vec_ok (heap m) other) by concrete.
  destruct (construct_destroy_roundtrip m 3 9 [1; 2] other H3 Hinit Hok) as
    (_ & _ & Hfilled & _ & Hcopy & _).
  split_and!; [exact H3|exact Hinit|exact Hok|].
  destruct (SimpleVector_filled 3 9 m) as [[v1 m1]| |] eqn:E1; [|by vm_compute in E1..].
  destruct (SimpleVector_copy other m) as [[v2 m2]| |] eqn:E2; [|by vm_compute in E2..].
  destruct (Hfilled v1 m1 eq_refl) as (m1' & Ed1 & Hh1).
  destruct (Hcopy v2 m2 eq_refl) as (m2' & Ed2 & Hh2).
  exists v1, m1, v2, m2, m1', m2'. split_and!; try assumption; reflexivity.
Defined.

(** [GenerateVector(5)] is [{1, 2, 3, 4, 5}]. *)
Lemma GenerateVector_contract_witness :
  0 <= 5 < INT_MAX /\
  exists v m',
    GenerateVector 5 empty_mem = Ok (v, m') /\
    size_ v = 5 /\ capacity_ v = 5 /\
    contents (heap m') v = [1; 2; 3; 4; 5].
Proof.
  assert (Hn : 0 <= 5 < INT_MAX) by (unfold INT_MAX; lia).
  destruct (GenerateVector_contract empty_mem 5 Hn) as (v & m' & E & _ & Hs & Hc & Hcont & _).
  split; [exact Hn|]. exists v, m'. split_and!; assumption.
Defined.

(** [Reserve] of more elements than [new[]] grants, called on [{1, 2, 3}]:
    the call throws [bad_alloc] and the program is in the state it was
    in. *)
Lemma throwing_call_changes_nothing_witness :
  let w := ran [NewInit 0%nat [1; 2; 3]] in
  let c := CallReserve 0%nat (2 ^ 63) in
  world_ok w /\
  exec c w = Throw bad_alloc w /\
  vecs w !! 0%nat = Some (MkVec 3 3 (ArrayPtr.Make (Some 1%positive))) /\
  world_ok w /\
  ~ (exists (y : name) (i : Z), c = CallAt y i).
Proof.
  intros w c.
  assert (Hw : world_ok w).
  { apply (run_world_ok [NewInit 0%nat [1; 2; 3]] empty_world);
      [repeat constructor; concrete|apply world_ok_empty|reflexivity]. }
  assert (E : exec c w = Throw bad_alloc w) by reflexivity.
  destruct (throwing_call_changes_nothing c w w bad_alloc Hw E) as
    (_ & _ & _ & Hb & Hw' & _).
  refine (conj Hw (conj E (conj eq_refl (conj Hw' _)))).
  apply Hb. reflexivity.
Defined.
